(** * elm-graphql: the query-to-Elm translation core

    A shallow embedding of [src/query-to-elm.ts] and [src/query-to-decoder.ts]
    and the properties of the translation that the specification states.

    Conventions of the embedding.
    - JavaScript strings are [string], the text in UTF-8; GraphQL names
      are ASCII (letters, digits and the underscore), so [toUpperCase] and
      [toLowerCase], which are applied to names only, act on the ASCII
      letters. The one function applied to free text is the replacement of
      white space, which knows the white-space characters of more than one
      byte.
    - A JavaScript object used as a map ([{ [name: string]: T }]) is an
      association list in insertion order with unique keys: [for (k in o)]
      enumerates string keys in insertion order (a GraphQL name is never an
      array index), and assigning to an existing key keeps its position.
      Such an object inherits from [Object.prototype]: where the code reads
      [o[k]] under a name that the document or the schema chooses and goes
      on without reading a property of what it found, the read is [Js.read]
      or [Js.truthy], which know the inherited members. An assignment to
      [__proto__], which sets the prototype and adds no property, is not
      modelled: no fragment, spread or type bears that name.
    - A [throw] is the outcome [Throw]; functions whose recursion goes through
      the fragment map (and so need not terminate on a cyclic document) take
      a fuel argument and answer [OutOfFuel] when it is used up.
    - The GraphQL schema types are the finite unfoldings of the schema's type
      graph: a type carries its fields (and a union its member types), as
      far as the translation of a document reads them. The two functions
      that descend through all the fields of a type, [typeToElm] and
      [encoderForInputType], are also given on type objects that refer to one
      another by name (module [ByRef]), where a type may refer to itself. *)

From Stdlib Require Import String Ascii List Bool Arith Lia.
Import ListNotations.
Local Open Scope string_scope.
Local Open Scope list_scope.

Set Implicit Arguments.
Set Warnings "-register-all".

(** ** Outcomes of fallible code *)

Inductive Error : Type :=
| JsError (msg : string)      (* throw new Error(msg) *)
| TypeError (msg : string).   (* property access on undefined *)

Inductive Outcome (A : Type) : Type :=
| Ok (a : A)
| Throw (e : Error)
| OutOfFuel.

Arguments Ok {A} a.
Arguments Throw {A} e.
Arguments OutOfFuel {A}.

Definition obind {A B} (m : Outcome A) (k : A -> Outcome B) : Outcome B :=
  match m with
  | Ok a => k a
  | Throw e => Throw e
  | OutOfFuel => OutOfFuel
  end.

Declare Scope outcome_scope.
Delimit Scope outcome_scope with outcome.
Notation "x <- m ;; k" := (obind m (fun x => k))
  (at level 61, m at next level, right associativity) : outcome_scope.
Notation "' p <- m ;; k" := (obind m (fun x => match x with p => k end))
  (at level 61, p pattern, m at next level, right associativity) : outcome_scope.

Fixpoint omap {A B} (f : A -> Outcome B) (l : list A) : Outcome (list B) :=
  match l with
  | [] => Ok []
  | x :: r => (y <- f x ;; ys <- omap f r ;; Ok (y :: ys))%outcome
  end.

(** ** JavaScript strings *)

Module Js.

Definition toUpperChar (c : ascii) : ascii :=
  let n := nat_of_ascii c in
  if ((97 <=? n) && (n <=? 122))%nat then ascii_of_nat (n - 32) else c.

Definition toLowerChar (c : ascii) : ascii :=
  let n := nat_of_ascii c in
  if ((65 <=? n) && (n <=? 90))%nat then ascii_of_nat (n + 32) else c.

Fixpoint toUpperCase (s : string) : string :=
  match s with
  | EmptyString => EmptyString
  | String c r => String (toUpperChar c) (toUpperCase r)
  end.

Fixpoint toLowerCase (s : string) : string :=
  match s with
  | EmptyString => EmptyString
  | String c r => String (toLowerChar c) (toLowerCase r)
  end.

(** [s[0].toUpperCase() + s.substr(1)]; [s[0]] is [undefined] on the empty
    string and the method call raises a TypeError. *)
Definition upperFirst (s : string) : Outcome string :=
  match s with
  | EmptyString => Throw (TypeError "Cannot read property 'toUpperCase' of undefined")
  | String c r => Ok (String (toUpperChar c) r)
  end.

(** [s[0].toLowerCase() + s.substr(1)]. *)
Definition lowerFirst (s : string) : Outcome string :=
  match s with
  | EmptyString => Throw (TypeError "Cannot read property 'toLowerCase' of undefined")
  | String c r => Ok (String (toLowerChar c) r)
  end.

(** [s[0].toUpperCase() + s.substr(1).toLowerCase()]. *)
Definition upperFirstLowerRest (s : string) : Outcome string :=
  match s with
  | EmptyString => Throw (TypeError "Cannot read property 'toUpperCase' of undefined")
  | String c r => Ok (String (toUpperChar c) (toLowerCase r))
  end.

(** The double quote character, as a string. *)
Definition dq : string := String (ascii_of_nat 34) EmptyString.

(** The line feed character, as a string. *)
Definition nl : string := String (ascii_of_nat 10) EmptyString.

(** [xs.join(sep)]. *)
Definition join (sep : string) (xs : list string) : string := String.concat sep xs.

(** ['' + v] for a possibly undefined string. *)
Definition str (v : option string) : string :=
  match v with Some s => s | None => "undefined" end.

(** The white space of a regular expression, the class [\s]: the ASCII
    characters 9 to 13 and 32, which are one byte each, U+00A0, which is two
    bytes, and U+1680, U+2000 to U+200A, U+2028, U+2029, U+202F, U+205F,
    U+3000 and U+FEFF, which are three bytes each. *)
Definition isSpace (c : ascii) : bool :=
  let n := nat_of_ascii c in
  ((n =? 32) || ((9 <=? n) && (n <=? 13)))%nat.

Definition isSpace2 (a b : nat) : bool :=
  ((a =? 194) && (b =? 160))%nat.

Definition isSpace3 (a b c : nat) : bool :=
  (((a =? 225) && (b =? 154) && (c =? 128))
   || ((a =? 226) && (b =? 128)
       && (((128 <=? c) && (c <=? 138)) || (c =? 168) || (c =? 169) || (c =? 175)))
   || ((a =? 226) && (b =? 129) && (c =? 159))
   || ((a =? 227) && (b =? 128) && (c =? 128))
   || ((a =? 239) && (b =? 187) && (c =? 191)))%nat.

(** The number of bytes of the white-space character that begins [s]; 0
    when [s] does not begin with white space. *)
Definition spaceLength (s : string) : nat :=
  match s with
  | EmptyString => 0
  | String a r =>
      if isSpace a then 1
      else match r with
           | EmptyString => 0
           | String b r' =>
               if isSpace2 (nat_of_ascii a) (nat_of_ascii b) then 2
               else match r' with
                    | EmptyString => 0
                    | String c _ =>
                        if isSpace3 (nat_of_ascii a) (nat_of_ascii b) (nat_of_ascii c)
                        then 3 else 0
                    end
           end
  end.

(** [s.replace(/\s+/g, ' ')]: [inRun] tells that the text before belonged
    to a run of white space that was already replaced, and [skip] counts the
    bytes that are left of the white-space character being read. *)
Fixpoint collapseFrom (inRun : bool) (skip : nat) (s : string) : string :=
  match s with
  | EmptyString => EmptyString
  | String c r =>
      match skip with
      | S k => collapseFrom inRun k r
      | O =>
          match spaceLength (String c r) with
          | O => String c (collapseFrom false 0 r)
          | S k =>
              if inRun then collapseFrom true k r else String " " (collapseFrom true k r)
          end
      end
  end.

Definition collapseWhitespace (s : string) : string := collapseFrom false 0 s.

(** [s.split('\n').join(' ')]. *)
Fixpoint newlinesToSpaces (s : string) : string :=
  match s with
  | EmptyString => EmptyString
  | String c r =>
      String (if (nat_of_ascii c =? 10)%nat then " "%char else c) (newlinesToSpaces r)
  end.

(** *** Objects used as maps, in insertion order *)

Definition Obj (V : Type) : Type := list (string * V).

Fixpoint get {V} (o : Obj V) (k : string) : option V :=
  match o with
  | [] => None
  | (k', v) :: r => if String.eqb k k' then Some v else get r k
  end.

(** [o[k] = v]. *)
Fixpoint set {V} (o : Obj V) (k : string) (v : V) : Obj V :=
  match o with
  | [] => [(k, v)]
  | (k', v') :: r =>
      if String.eqb k k' then (k', v) :: r else (k', v') :: set r k v
  end.

Definition keys {V} (o : Obj V) : list string := map fst o.
Definition values {V} (o : Obj V) : list V := map snd o.

Definition has {V} (o : Obj V) (k : string) : bool :=
  match get o k with Some _ => true | None => false end.

(** [get], [set] and [has] are the reads and writes of the properties of
    the object itself. A plain object ([{}]) inherits the members of
    [Object.prototype] besides: a read [o[k]] of one of their names, on an
    object without a property [k] of its own, finds the inherited member and
    not [undefined]. (An assignment to [__proto__], which sets the prototype
    and adds no property, is not modelled.) *)
Definition inherited (k : string) : bool :=
  existsb (String.eqb k)
    ["constructor"; "hasOwnProperty"; "isPrototypeOf"; "propertyIsEnumerable";
     "toLocaleString"; "toString"; "valueOf"; "__proto__";
     "__defineGetter__"; "__defineSetter__"; "__lookupGetter__"; "__lookupSetter__"].

(** What [o[k]] finds. *)
Inductive Lookup (V : Type) : Type :=
| Own (v : V)
| Inherited
| Undefined.

Arguments Own {V} v.
Arguments Inherited {V}.
Arguments Undefined {V}.

Definition read {V} (o : Obj V) (k : string) : Lookup V :=
  match get o k with
  | Some v => Own v
  | None => if inherited k then Inherited else Undefined
  end.

(** [o[k]] as a condition, the values of [o] being objects. *)
Definition truthy {V} (o : Obj V) (k : string) : bool :=
  has o k || inherited k.

(** [xs.indexOf(x) == -1]. *)
Definition notIn (xs : list string) (x : string) : bool :=
  negb (existsb (String.eqb x) xs).

End Js.

(** ** The schema's types ([graphql/type]) *)

Inductive GraphQLType : Type :=
| GraphQLScalarType (name : string)
| GraphQLEnumType (name : string) (values : list string)
| GraphQLObjectType (name : string) (fields : list (string * GraphQLType))
| GraphQLInterfaceType (name : string) (fields : list (string * GraphQLType))
| GraphQLInputObjectType (name : string) (fields : list (string * GraphQLType))
| GraphQLUnionType (name : string) (types : list GraphQLType)
| GraphQLList (ofType : GraphQLType)
| GraphQLNonNull (ofType : GraphQLType).

(** Induction over a schema type, with the hypothesis on the types of the
    fields and on the members of a union. *)
Section GraphQLTypeInduction.

Variable P : GraphQLType -> Prop.
Hypothesis HScalar : forall name, P (GraphQLScalarType name).
Hypothesis HEnum : forall name values, P (GraphQLEnumType name values).
Hypothesis HObject :
  forall name fields, Forall (fun f => P (snd f)) fields -> P (GraphQLObjectType name fields).
Hypothesis HInterface :
  forall name fields, Forall (fun f => P (snd f)) fields -> P (GraphQLInterfaceType name fields).
Hypothesis HInput :
  forall name fields, Forall (fun f => P (snd f)) fields -> P (GraphQLInputObjectType name fields).
Hypothesis HUnion : forall name types, Forall P types -> P (GraphQLUnionType name types).
Hypothesis HList : forall ofType, P ofType -> P (GraphQLList ofType).
Hypothesis HNonNull : forall ofType, P ofType -> P (GraphQLNonNull ofType).

Fixpoint GraphQLType_induction (t : GraphQLType) : P t :=
  let fieldsOk :=
    fix fieldsOk (fs : list (string * GraphQLType)) : Forall (fun f => P (snd f)) fs :=
      match fs with
      | [] => Forall_nil _
      | f :: r => Forall_cons f (GraphQLType_induction (snd f)) (fieldsOk r)
      end in
  match t with
  | GraphQLScalarType name => HScalar name
  | GraphQLEnumType name values => HEnum name values
  | GraphQLObjectType name fields => HObject name (fieldsOk fields)
  | GraphQLInterfaceType name fields => HInterface name (fieldsOk fields)
  | GraphQLInputObjectType name fields => HInput name (fieldsOk fields)
  | GraphQLUnionType name types =>
      HUnion name
        ((fix typesOk (ts : list GraphQLType) : Forall P ts :=
            match ts with
            | [] => Forall_nil _
            | ty :: r => Forall_cons ty (GraphQLType_induction ty) (typesOk r)
            end) types)
  | GraphQLList ofType => HList (GraphQLType_induction ofType)
  | GraphQLNonNull ofType => HNonNull (GraphQLType_induction ofType)
  end.

End GraphQLTypeInduction.

(** [type.constructor.name]. *)
Definition constructorName (t : GraphQLType) : string :=
  match t with
  | GraphQLScalarType _ => "GraphQLScalarType"
  | GraphQLEnumType _ _ => "GraphQLEnumType"
  | GraphQLObjectType _ _ => "GraphQLObjectType"
  | GraphQLInterfaceType _ _ => "GraphQLInterfaceType"
  | GraphQLInputObjectType _ _ => "GraphQLInputObjectType"
  | GraphQLUnionType _ _ => "GraphQLUnionType"
  | GraphQLList _ => "GraphQLList"
  | GraphQLNonNull _ => "GraphQLNonNull"
  end.

(** [type.name]; the wrapper types have none. *)
Definition typeName (t : GraphQLType) : option string :=
  match t with
  | GraphQLScalarType n | GraphQLEnumType n _ | GraphQLObjectType n _
  | GraphQLInterfaceType n _ | GraphQLInputObjectType n _
  | GraphQLUnionType n _ => Some n
  | GraphQLList _ | GraphQLNonNull _ => None
  end.

Definition isList (t : GraphQLType) : bool :=
  match t with GraphQLList _ => true | _ => false end.
Definition isNonNullType (t : GraphQLType) : bool :=
  match t with GraphQLNonNull _ => true | _ => false end.
Definition isUnion (t : GraphQLType) : bool :=
  match t with GraphQLUnionType _ _ => true | _ => false end.

(** ** The Elm syntax tree ([elm-ast.ts], constructors only) *)

Inductive ElmType : Type :=
| ElmTypeName (name : string)
| ElmTypeApp (name : string) (args : list ElmType)
| ElmTypeRecord (fields : list ElmFieldDecl) (typeParam : option string)
with ElmFieldDecl : Type :=
| MkElmFieldDecl (name : string) (type : ElmType).

Record ElmExpr : Type := MkElmExpr { expr : string }.

Record ElmParameterDecl : Type :=
  MkElmParameterDecl { paramName : string; paramType : ElmType }.

Inductive ElmDecl : Type :=
| ElmTypeDecl (name : string) (constructors : list string)
| ElmTypeAliasDecl (name : string) (type : ElmType) (typeParams : list string)
| ElmFunctionDecl (name : string) (parameters : list ElmParameterDecl)
    (returnType : ElmType) (body : ElmExpr).

Definition declName (d : ElmDecl) : string :=
  match d with
  | ElmTypeDecl n _ | ElmTypeAliasDecl n _ _ | ElmFunctionDecl n _ _ _ => n
  end.

(** ** [elmSafeName] and [typeToElm] (query-to-elm.ts) *)

Definition elmSafeName (graphQlName : string) : string :=
  if String.eqb graphQlName "__typename" then "typename_"
  else if String.eqb graphQlName "type" then "type_"
  else if String.eqb graphQlName "Task" then "Task_"
  else if String.eqb graphQlName "List" then "List_"
  else if String.eqb graphQlName "Http" then "Http_"
  else if String.eqb graphQlName "GraphQL" then "GraphQL_"
  else graphQlName.

(** The [switch (type.name)] of [typeToElm]. *)
Definition scalarToElm (name : string) : ElmType :=
  if String.eqb name "Int" then ElmTypeName "Int"
  else if String.eqb name "Float" then ElmTypeName "Float"
  else if String.eqb name "Boolean" then ElmTypeName "Bool"
  else if String.eqb name "ID" then ElmTypeName "String"
  else if String.eqb name "DateTime" then ElmTypeName "String"
  else if String.eqb name "String" then ElmTypeName "String"
  else ElmTypeName "String".

(** The closing [if] of [typeToElm]. *)
Definition wrapMaybe (isNonNull : bool) (type : GraphQLType) (elmType : ElmType) : ElmType :=
  if negb isNonNull && negb (isList type) && negb (isNonNullType type)
  then ElmTypeApp "Maybe" [elmType]
  else elmType.

Fixpoint typeToElm (type : GraphQLType) (isNonNull : bool) {struct type} : Outcome ElmType :=
  let fieldsToElm :=
    fix fieldsToElm (fieldMap : list (string * GraphQLType)) : Outcome (list ElmFieldDecl) :=
      match fieldMap with
      | [] => Ok []
      | (fieldName, fieldType) :: rest =>
          (t <- typeToElm fieldType false ;;
           fs <- fieldsToElm rest ;;
           Ok (MkElmFieldDecl (elmSafeName fieldName) t :: fs))%outcome
      end in
  (elmType <-
     match type with
     | GraphQLNonNull ofType => typeToElm ofType true
     | GraphQLScalarType name => Ok (scalarToElm name)
     | GraphQLEnumType name _ =>
         (n <- Js.upperFirst name ;; Ok (ElmTypeName n))
     | GraphQLList ofType =>
         (t <- typeToElm ofType true ;; Ok (ElmTypeApp "List" [t]))
     | GraphQLObjectType _ fieldMap
     | GraphQLInterfaceType _ fieldMap
     | GraphQLInputObjectType _ fieldMap =>
         (fs <- fieldsToElm fieldMap ;; Ok (ElmTypeRecord fs None))
     | GraphQLUnionType _ _ =>
         Throw (JsError ("Unexpected: " ++ constructorName type))
     end ;;
   Ok (wrapMaybe isNonNull type elmType))%outcome.

(** ** The query document ([graphql/language]) *)

(** An inline fragment may have no type condition ([... { f }]); then
    [typeCondition] is [undefined]. *)
Inductive Selection : Type :=
| Field (alias : option string) (name : string) (selectionSet : option (list Selection))
| FragmentSpread (name : string)
| InlineFragment (typeCondition : option string) (selectionSet : list Selection).

(** A selection set node is its [selections]. *)
Definition SelectionSet : Type := list Selection.

Inductive TypeNode : Type :=
| NamedType (name : string)
| ListType (type : TypeNode)
| NonNullType (type : TypeNode).

(** [defaultValue] holds the source text of the literal; only its presence is
    looked at. *)
Record VariableDefinition : Type := MkVariableDefinition {
  variable : string;
  varType : TypeNode;
  defaultValue : option string
}.

Inductive OperationType : Type := query | mutation | subscription.

Definition operationName (o : OperationType) : string :=
  match o with
  | query => "query"
  | mutation => "mutation"
  | subscription => "subscription"
  end.

Record OperationDefinition : Type := MkOperationDefinition {
  operation : OperationType;
  opName : option string;
  variableDefinitions : list VariableDefinition;
  opSelectionSet : SelectionSet
}.

Record FragmentDefinition : Type := MkFragmentDefinition {
  fragName : string;
  fragTypeCondition : string;
  fragSelectionSet : SelectionSet
}.

Inductive Definition_ : Type :=
| OperationDef (def : OperationDefinition)
| FragmentDef (def : FragmentDefinition).

(** A document node is its [definitions]. *)
Definition Document : Type := list Definition_.

Definition fieldKey (alias : option string) (name : string) : string :=
  match alias with Some a => a | None => name end.

(** ** The schema and the type tracker ([graphql/type], [graphql/utilities]) *)

Record GraphQLSchema : Type := MkSchema {
  queryType : option GraphQLType;
  mutationType : option GraphQLType;
  subscriptionType : option GraphQLType;
  typeMap : Js.Obj GraphQLType
}.

(** [typeFromAST(schema, typeNode)]: [undefined] when the named type is not
    in the schema. *)
Fixpoint typeFromAST (schema : GraphQLSchema) (t : TypeNode) : option GraphQLType :=
  match t with
  | NamedType n => Js.get (typeMap schema) n
  | ListType t' => option_map GraphQLList (typeFromAST schema t')
  | NonNullType t' => option_map GraphQLNonNull (typeFromAST schema t')
  end.

(** The nodes that the translation enters and leaves. [NOther] stands for the
    nodes that leave the type stacks alone (names, named types, arguments,
    directives, variable definitions, the document). *)
Inductive Node : Type :=
| NOperationDefinition (def : OperationDefinition)
| NFragmentDefinition (def : FragmentDefinition)
| NSelectionSet
| NField (alias : option string) (name : string)
| NFragmentSpread (name : string)
| NInlineFragment (typeCondition : option string)
| NOther.

Module TypeInfo.

(** The part of graphql's [TypeInfo] that the translation reads: the stack
    of output types and the stack of parent (composite) types. *)
Record t : Type := Mk {
  schema : GraphQLSchema;
  typeStack : list (option GraphQLType);
  parentTypeStack : list (option GraphQLType)
}.

Definition new (s : GraphQLSchema) : t := Mk s [] [].

Definition top (st : list (option GraphQLType)) : option GraphQLType :=
  match st with
  | [] => None
  | x :: _ => x
  end.

(** The stacks grow at the head of the list. *)
Definition getType (i : t) : option GraphQLType := top (typeStack i).
Definition getParentType (i : t) : option GraphQLType := top (parentTypeStack i).

Fixpoint getNamedType (ty : GraphQLType) : GraphQLType :=
  match ty with
  | GraphQLList o | GraphQLNonNull o => getNamedType o
  | _ => ty
  end.

Definition isCompositeType (ty : GraphQLType) : bool :=
  match ty with
  | GraphQLObjectType _ _ | GraphQLInterfaceType _ _ | GraphQLUnionType _ _ => true
  | _ => false
  end.

(** [schema.getQueryType() === parentType]: the named types of a schema
    are told apart by their names. *)
Definition isQueryType (schema : GraphQLSchema) (parentType : GraphQLType) : bool :=
  match queryType schema with
  | Some q =>
      match typeName q, typeName parentType with
      | Some qn, Some n => String.eqb qn n
      | _, _ => false
      end
  | None => false
  end.

(** [getFieldDef]: the introspection entry points [__schema] and [__type]
    on the query type, of the types [__Schema!] and [__Type] that the type
    map of the schema holds; the [__typename] meta field on a composite
    type; or the declared field of an object or interface type. *)
Definition getFieldDef (schema : GraphQLSchema) (parentType : GraphQLType) (name : string) :
    option GraphQLType :=
  if String.eqb name "__schema" && isQueryType schema parentType
  then option_map GraphQLNonNull (Js.get (typeMap schema) "__Schema")
  else if String.eqb name "__type" && isQueryType schema parentType
  then Js.get (typeMap schema) "__Type"
  else if String.eqb name "__typename" && isCompositeType parentType
  then Some (GraphQLNonNull (GraphQLScalarType "String"))
  else match parentType with
       | GraphQLObjectType _ fs | GraphQLInterfaceType _ fs => Js.get fs name
       | _ => None
       end.

Definition pushType (i : t) (ty : option GraphQLType) : t :=
  Mk (schema i) (ty :: typeStack i) (parentTypeStack i).

Definition enter (i : t) (n : Node) : t :=
  match n with
  | NSelectionSet =>
      let composite :=
        match getType i with
        | Some ty =>
            let named := getNamedType ty in
            if isCompositeType named then Some named else None
        | None => None
        end in
      Mk (schema i) (typeStack i) (composite :: parentTypeStack i)
  | NField _ name =>
      pushType i
        match getParentType i with
        | Some parentType => getFieldDef (schema i) parentType name
        | None => None
        end
  | NOperationDefinition def =>
      pushType i
        match operation def with
        | query => queryType (schema i)
        | mutation => mutationType (schema i)
        | subscription => subscriptionType (schema i)
        end
  | NInlineFragment typeCondition =>
      pushType i
        match typeCondition with
        | Some name => typeFromAST (schema i) (NamedType name)
        | None => getType i
        end
  | NFragmentDefinition def =>
      pushType i (typeFromAST (schema i) (NamedType (fragTypeCondition def)))
  | NFragmentSpread _ | NOther => i
  end.

Definition leave (i : t) (n : Node) : t :=
  match n with
  | NSelectionSet => Mk (schema i) (typeStack i) (tl (parentTypeStack i))
  | NField _ _ | NOperationDefinition _ | NInlineFragment _ | NFragmentDefinition _ =>
      Mk (schema i) (tl (typeStack i)) (parentTypeStack i)
  | NFragmentSpread _ | NOther => i
  end.

End TypeInfo.

(** ** The mutable state of one translation

    [info] is the stateful type tracker handed to nearly every function;
    [expose] is the list of exported names of [translateQuery]. *)

Record St : Type := MkSt {
  info : TypeInfo.t;
  expose : list string
}.

Definition M (A : Type) : Type := St -> Outcome (A * St).

Definition ret {A} (a : A) : M A := fun s => Ok (a, s).

Definition bind {A B} (m : M A) (k : A -> M B) : M B :=
  fun s =>
    match m s with
    | Ok (a, s') => k a s'
    | Throw e => Throw e
    | OutOfFuel => OutOfFuel
    end.

Definition throw {A} (e : Error) : M A := fun _ => Throw e.
Definition outOfFuel {A} : M A := fun _ => OutOfFuel.

(** A fallible computation that leaves the state alone. *)
Definition lift {A} (o : Outcome A) : M A :=
  fun s =>
    match o with
    | Ok a => Ok (a, s)
    | Throw e => Throw e
    | OutOfFuel => OutOfFuel
    end.

Definition enter (n : Node) : M unit :=
  fun s => Ok (tt, MkSt (TypeInfo.enter (info s) n) (expose s)).
Definition leave (n : Node) : M unit :=
  fun s => Ok (tt, MkSt (TypeInfo.leave (info s) n) (expose s)).
Definition getType : M (option GraphQLType) :=
  fun s => Ok (TypeInfo.getType (info s), s).
Definition exposePush (names : list string) : M unit :=
  fun s => Ok (tt, MkSt (info s) (expose s ++ names)).

Declare Scope walk_scope.
Delimit Scope walk_scope with walk.
Notation "x <- m ;; k" := (bind m (fun x => k))
  (at level 61, m at next level, right associativity) : walk_scope.
Notation "' p <- m ;; k" := (bind m (fun x => match x with p => k end))
  (at level 61, p pattern, m at next level, right associativity) : walk_scope.
Notation "m ;;; k" := (bind m (fun _ => k))
  (at level 61, right associativity) : walk_scope.

(** [for (let x of xs) { acc = f(acc, x) }]. *)
Fixpoint foldM {A B} (f : A -> B -> M A) (acc : A) (xs : list B) : M A :=
  match xs with
  | [] => ret acc
  | x :: r => (acc' <- f acc x ;; foldM f acc' r)%walk
  end.

Definition dq : string := Js.dq.
Definition nl : string := Js.nl.

Definition FragmentDefinitionMap : Type := Js.Obj FragmentDefinition.

(** [fragmentDefinitionMap[name]] where the walk goes on into the selection
    set, or reads the type condition, of what it found: on [undefined] the
    property access raises a TypeError at once; on a member inherited from
    [Object.prototype] the property is [undefined], and the TypeError is
    raised when the walk enters it. *)
Definition lookupFragment (m : FragmentDefinitionMap) (name : string) : Outcome FragmentDefinition :=
  match Js.get m name with
  | Some d => Ok d
  | None => Throw (TypeError "Cannot read property of undefined")
  end.

(** The unwrapping that both modules repeat: one non-null, one list, one
    non-null. *)
Definition unwrapNonNull (t : option GraphQLType) : option GraphQLType :=
  match t with
  | Some (GraphQLNonNull o) => Some o
  | _ => t
  end.

Definition unwrapList (t : option GraphQLType) : option GraphQLType :=
  match t with
  | Some (GraphQLList o) => Some o
  | _ => t
  end.

Definition unwrapType (t : option GraphQLType) : option GraphQLType :=
  unwrapNonNull (unwrapList (unwrapNonNull t)).

Definition isUnionOpt (t : option GraphQLType) : bool :=
  match t with Some u => isUnion u | None => false end.
Definition isListOpt (t : option GraphQLType) : bool :=
  match t with Some u => isList u | None => false end.
Definition isNonNullOpt (t : option GraphQLType) : bool :=
  match t with Some u => isNonNullType u | None => false end.

(** [`(\\${fieldNames.join(' ')} -> { ${fieldNames.map(f => f + ' = ' + f).join(', ')} })`]
    and its variant that applies a union constructor. *)
Definition recordShape (fieldNames : list string) : string :=
  ("(\" ++ Js.join " " fieldNames ++ " -> { "
    ++ Js.join ", " (map (fun f => f ++ " = " ++ f) fieldNames) ++ " })")%string.

Definition ctorShape (ctor : string) (fieldNames : list string) : string :=
  ("(\" ++ Js.join " " fieldNames ++ " -> " ++ ctor ++ " { "
    ++ Js.join ", " (map (fun f => f ++ " = " ++ f) fieldNames) ++ " })")%string.

(** [typeToElm] applied to a value that may be [undefined]: no [instanceof]
    test holds and [type.constructor] raises. *)
Definition typeToElmU (type : option GraphQLType) (isNonNull : bool) : Outcome ElmType :=
  match type with
  | Some t => typeToElm t isNonNull
  | None => Throw (TypeError "Cannot read property 'constructor' of undefined")
  end.

(** ** query-to-decoder.ts *)

Module QueryToDecoder.
Section DecoderFor.

Variable schema : GraphQLSchema.
Variable fragmentDefinitionMap : FragmentDefinitionMap.

(** Create an Elm decoder for the given leaf (non-nested) type. *)
Definition scalarDecoder (name : string) : string :=
  if String.eqb name "Int" then "int"
  else if String.eqb name "Float" then "float"
  else if String.eqb name "Boolean" then "bool"
  else if String.eqb name "ID" then "string"
  else if String.eqb name "DateTime" then "string"
  else if String.eqb name "String" then "string"
  else "string".

Definition leafTypeToDecoder (type : option GraphQLType) : Outcome string :=
  match unwrapNonNull type with
  | Some (GraphQLScalarType name) => Ok (scalarDecoder name)
  | Some (GraphQLEnumType name _) => Ok (Js.toLowerCase name ++ "Decoder")%string
  | Some other => Throw (JsError ("not a leaf type: " ++ Js.str (typeName other)))
  | None => Throw (TypeError "Cannot read property 'name' of undefined")
  end.

Definition pushUnique (fields : list string) (name : string) : list string :=
  if Js.notIn fields name then fields ++ [name] else fields.

(** Get the list of fields for the provided selection set. *)
Fixpoint getSelectionSetFields (fuel : nat) (selSet : SelectionSet) : M (list string) :=
  match fuel with
  | O => outOfFuel
  | S fuel' =>
      (enter NSelectionSet ;;;
       fields <- foldM (fun fields sel =>
           match sel with
           | Field alias name _ =>
               ret (pushUnique fields (elmSafeName (fieldKey alias name)))
           | FragmentSpread spreadName =>
               def <- lift (lookupFragment fragmentDefinitionMap spreadName) ;;
               names <- getSelectionSetFields fuel' (fragSelectionSet def) ;;
               ret (fold_left pushUnique names fields)
           | InlineFragment _ _ => throw (JsError "Should not happen")
           end) [] selSet ;;
       leave NSelectionSet ;;;
       ret fields)%walk
  end.

(** The result of [walkSelectionSet]: the fields' decoders joined by the
    applicative combinator. *)
Definition applySep : string := (nl ++ "        |> apply ")%string.

Definition joinDecoders (fields : list ElmExpr) : ElmExpr :=
  MkElmExpr
    (Js.join applySep
       (filter (fun e => negb (String.length e =? 0)%nat) (map expr fields))).

(** One iteration of the loop of [walkSelectionSet]; [seenFields] is the
    array shared with the enclosing calls. *)
Definition walkSelection
    (walkSelectionSet : SelectionSet -> list string -> M (ElmExpr * list string))
    (walkField : option string -> string -> option SelectionSet -> M ElmExpr)
    (acc : list ElmExpr * list string) (sel : Selection)
  : M (list ElmExpr * list string) :=
  let '(fields, seenFields) := acc in
  match sel with
  | Field alias name selectionSet =>
      let name' := fieldKey alias name in
      if Js.notIn seenFields name'
      then (e <- walkField alias name selectionSet ;;
            ret (fields ++ [e], seenFields ++ [name']))%walk
      else ret (fields, seenFields)
  | FragmentSpread spreadName =>
      (fragmentDef <- lift (lookupFragment fragmentDefinitionMap spreadName) ;;
       ' (e, seenFields') <- walkSelectionSet (fragSelectionSet fragmentDef) seenFields ;;
       ret (fields ++ [e], seenFields'))%walk
  | InlineFragment _ _ => throw (JsError "Should not happen")
  end.

Definition unionIndent : string := "            ".

(** One iteration of the loop of [walkUnion]: [decoder] is the text
    accumulated so far. *)
Definition walkUnionSelection
    (walkSelectionSet : SelectionSet -> list string -> M (ElmExpr * list string))
    (getFields : SelectionSet -> M (list string))
    (union_name : string) (decoder : string) (sel : Selection) : M string :=
  match sel with
  | InlineFragment None _ => throw (TypeError "Cannot read property 'name' of undefined")
  | InlineFragment (Some typeCondition) selectionSet =>
      let decoder1 :=
        (decoder ++ nl ++ unionIndent ++ dq ++ typeCondition ++ dq ++ " -> ")%string in
      (enter (NInlineFragment (Some typeCondition)) ;;;
       ' (fields, _) <- walkSelectionSet selectionSet [] ;;
       leave (NInlineFragment (Some typeCondition)) ;;;
       fieldNames <- getFields selectionSet ;;
       let ctor := elmSafeName (union_name ++ "_" ++ typeCondition) in
       let shape := ctorShape ctor fieldNames in
       let right :=
         ("(map " ++ shape ++ " " ++ Js.newlinesToSpaces (expr fields) ++ nl ++ ")")%string in
       ret (decoder1 ++ right)%string)%walk
  | Field _ name _ =>
      if negb (String.eqb name "__typename")
      then throw (JsError ("Unexpected field: " ++ name))
      else ret decoder
  | FragmentSpread spreadName =>
      (def <- lift (lookupFragment fragmentDefinitionMap spreadName) ;;
       let name := fragTypeCondition def in
       let decoder1 :=
         (decoder ++ nl ++ unionIndent ++ dq ++ name ++ dq ++ " -> ")%string in
       enter (NFragmentDefinition def) ;;;
       ' (fields, _) <- walkSelectionSet (fragSelectionSet def) [] ;;
       fieldNames <- getFields (fragSelectionSet def) ;;
       leave (NFragmentDefinition def) ;;;
       let ctor := elmSafeName (union_name ++ "_" ++ name) in
       let shape := ctorShape ctor fieldNames in
       let right :=
         ("(map " ++ shape ++ " " ++ Js.newlinesToSpaces (expr fields) ++ nl ++ ")")%string in
       ret (decoder1 ++ right)%string)%walk
  end.

(** Generate an Elm decoder for the provided union. *)
Definition walkUnion
    (walkSelectionSet : SelectionSet -> list string -> M (ElmExpr * list string))
    (getFields : SelectionSet -> M (list string))
    (originalName : string) (selectionSet : option SelectionSet) : M ElmExpr :=
  let decoder0 := (nl ++ "        (\typename -> case typename of")%string in
  (union_type0 <- getType ;;
   let isMaybe := negb (isNonNullOpt union_type0) in
   let union_type1 := unwrapNonNull union_type0 in
   let prefix := if isListOpt union_type1 then "list " else EmptyString in
   let union_type := unwrapNonNull (unwrapList union_type1) in
   let union_name :=
     match union_type with
     | Some (GraphQLUnionType name _) => name
     | _ => EmptyString
     end in
   selections <-
     match selectionSet with
     | Some s => ret s
     | None => throw (TypeError "Cannot read property 'selections' of undefined")
     end ;;
   decoder1 <- foldM (walkUnionSelection walkSelectionSet getFields union_name)
                 decoder0 selections ;;
   let decoder2 :=
     (decoder1 ++ nl ++ unionIndent ++ "_ -> fail " ++ dq ++ "Unexpected union type" ++ dq ++ ")")%string in
   let decoder3 :=
     ("((field " ++ dq ++ "__typename" ++ dq ++ " string) |> andThen " ++ decoder2 ++ ")")%string in
   let decoder4 :=
     if (String.length prefix =? 0)%nat then decoder3
     else ("(" ++ prefix ++ decoder3 ++ ")")%string in
   let decoder5 :=
     if isMaybe then ("(" ++ "maybe " ++ decoder4 ++ ")")%string else decoder4 in
   ret (MkElmExpr ("(field " ++ dq ++ originalName ++ dq ++ " " ++ decoder5 ++ ")")))%walk.

(** Convert a nested query field into an Elm expression. *)
Definition walkField
    (walkSelectionSet : SelectionSet -> list string -> M (ElmExpr * list string))
    (getFields : SelectionSet -> M (list string))
    (alias : option string) (name : string) (selectionSet : option SelectionSet)
  : M ElmExpr :=
  (enter (NField alias name) ;;;
   typeInfo0 <- getType ;;
   let isMaybe := negb (isNonNullOpt typeInfo0) in
   let typeInfo1 := unwrapNonNull typeInfo0 in
   let originalName := fieldKey alias name in
   let prefix := if isListOpt typeInfo1 then "list " else EmptyString in
   let typeInfo := unwrapNonNull (unwrapList typeInfo1) in
   if isUnionOpt typeInfo
   then walkUnion walkSelectionSet getFields originalName selectionSet
   else
     match selectionSet with
     | Some selSet =>
         ' (fields, _) <- walkSelectionSet selSet [] ;;
         leave (NField alias name) ;;;
         fieldNames <- getFields selSet ;;
         let shape := recordShape fieldNames in
         let left := ("(field " ++ dq ++ originalName ++ dq ++ " " ++ nl)%string in
         let right0 := ("(map " ++ shape ++ " " ++ expr fields ++ "))")%string in
         let indent := "        " in
         let right1 :=
           if (String.length prefix =? 0)%nat then right0
           else ("(" ++ prefix ++ right0 ++ ")")%string in
         let right :=
           if isMaybe then ("(" ++ "maybe " ++ right1 ++ ")")%string else right1 in
         ret (MkElmExpr (left ++ indent ++ right))
     | None =>
         decoder <- lift (leafTypeToDecoder typeInfo) ;;
         let right0 :=
           ("(field " ++ dq ++ originalName ++ dq ++ " (" ++ prefix ++ decoder ++ "))")%string in
         let right := if isMaybe then ("(maybe " ++ right0 ++ ")")%string else right0 in
         leave (NField alias name) ;;;
         ret (MkElmExpr right)
     end)%walk.

(** Convert the selection set into an Elm expression; the second component
    is [seenFields] after the call. *)
Fixpoint walkSelectionSet (fuel : nat) (selSet : SelectionSet) (seenFields : list string)
  : M (ElmExpr * list string) :=
  match fuel with
  | O => outOfFuel
  | S fuel' =>
      (enter NSelectionSet ;;;
       ' (fields, seenFields') <-
         foldM (walkSelection (walkSelectionSet fuel')
                  (walkField (walkSelectionSet fuel') (getSelectionSetFields fuel')))
           ([], seenFields) selSet ;;
       leave NSelectionSet ;;;
       ret (joinDecoders fields, seenFields'))%walk
  end.

(** The operation's name, ['AnonymousQuery'] when it has none. *)
Definition nameOf (def : OperationDefinition) : string :=
  match opName def with
  | Some n => n
  | None => "AnonymousQuery"
  end.

(** Convert the provided GraphQL operation to an Elm expression; a
    subscription yields [undefined]. The text of the variables' types is
    computed and dropped, so only a failure of [typeToElm] shows. *)
Definition walkOperationDefinition (fuel : nat) (def : OperationDefinition)
  : M (option ElmExpr) :=
  (enter (NOperationDefinition def) ;;;
   match operation def with
   | query | mutation =>
       let name := nameOf def in
       resultType <- lift (Js.upperFirst name) ;;
       ' (e, _) <- walkSelectionSet fuel (opSelectionSet def) [] ;;
       _ <- lift (omap (fun varDef => typeToElmU (typeFromAST schema (varType varDef)) false)
                    (variableDefinitions def)) ;;
       leave (NOperationDefinition def) ;;;
       ret (Some (MkElmExpr ("map " ++ resultType ++ " " ++ expr e)))
   | subscription => ret None
   end)%walk.

(** Convert the provided GraphQL fragment to an Elm expression. *)
Definition walkFragmentDefinition (fuel : nat) (def : FragmentDefinition) : M ElmExpr :=
  (enter (NFragmentDefinition def) ;;;
   _ <- lift (Js.upperFirst (fragName def)) ;;
   ' (fields, _) <- walkSelectionSet fuel (fragSelectionSet def) [] ;;
   fieldNames <- getSelectionSetFields fuel (fragSelectionSet def) ;;
   let shape := recordShape fieldNames in
   leave (NFragmentDefinition def) ;;;
   ret (MkElmExpr ("map " ++ shape ++ " " ++ expr fields)))%walk.

Definition decoderForQuery (fuel : nat) (def : OperationDefinition) : M (option ElmExpr) :=
  walkOperationDefinition fuel def.

Definition decoderForFragment (fuel : nat) (def : FragmentDefinition) : M ElmExpr :=
  walkFragmentDefinition fuel def.

End DecoderFor.
End QueryToDecoder.

(** ** The visitor ([visit] of graphql/language)

    The nodes of a document in the order in which [visit] enters and leaves
    them. The children that carry no type (names, named types) appear as
    [NOther]; arguments, directives and variable definitions are not part of
    the embedded syntax tree. *)

Inductive VisitEvent : Type :=
| Enter (n : Node)
| Leave (n : Node).

Definition visitLeaf : list VisitEvent := [Enter NOther; Leave NOther].

Fixpoint visitSelection (sel : Selection) : list VisitEvent :=
  let visitSelections :=
    fix visitSelections (sels : list Selection) : list VisitEvent :=
      match sels with
      | [] => []
      | s :: r => visitSelection s ++ visitSelections r
      end in
  match sel with
  | Field alias name selectionSet =>
      [Enter (NField alias name)]
        ++ match alias with Some _ => visitLeaf | None => [] end
        ++ visitLeaf
        ++ match selectionSet with
           | Some sels => [Enter NSelectionSet] ++ visitSelections sels ++ [Leave NSelectionSet]
           | None => []
           end
        ++ [Leave (NField alias name)]
  | FragmentSpread name =>
      [Enter (NFragmentSpread name)] ++ visitLeaf ++ [Leave (NFragmentSpread name)]
  | InlineFragment typeCondition sels =>
      [Enter (NInlineFragment typeCondition)]
        ++ match typeCondition with
           | Some _ => [Enter NOther] ++ visitLeaf ++ [Leave NOther]
           | None => []
           end
        ++ [Enter NSelectionSet] ++ visitSelections sels ++ [Leave NSelectionSet]
        ++ [Leave (NInlineFragment typeCondition)]
  end.

Definition visitSelectionSet (sels : SelectionSet) : list VisitEvent :=
  [Enter NSelectionSet] ++ flat_map visitSelection sels ++ [Leave NSelectionSet].

Definition visitDefinition (def : Definition_) : list VisitEvent :=
  match def with
  | OperationDef d =>
      [Enter (NOperationDefinition d)]
        ++ match opName d with Some _ => visitLeaf | None => [] end
        ++ visitSelectionSet (opSelectionSet d)
        ++ [Leave (NOperationDefinition d)]
  | FragmentDef d =>
      [Enter (NFragmentDefinition d)]
        ++ visitLeaf
        ++ [Enter NOther] ++ visitLeaf ++ [Leave NOther]
        ++ visitSelectionSet (fragSelectionSet d)
        ++ [Leave (NFragmentDefinition d)]
  end.

Definition visitDocument (doc : Document) : list VisitEvent :=
  [Enter NOther] ++ flat_map visitDefinition doc ++ [Leave NOther].

(** ** query-to-elm.ts *)

Record EnumT : Type := MkEnum { enumName : string; enumValues : list string }.
Record UnionT : Type := MkUnion { unionName : string; unionTypes : list GraphQLType }.

Definition GraphQLEnumMap : Type := Js.Obj EnumT.
Definition GraphQLTypeMap : Type := Js.Obj GraphQLType.
Definition GraphQLUnionMap : Type := Js.Obj UnionT.
(** A value of the seen-fragment map is what the read of the fragment map
    found under the name of the spread. *)
Definition SeenFragmentMap : Type := Js.Obj (Js.Lookup FragmentDefinition).

Definition alphabet : list string :=
  ["a"; "b"; "c"; "d"; "e"; "f"; "g"; "h"; "i"; "j"; "k"; "l"; "m"; "n"; "o"; "p";
   "q"; "r"; "s"; "t"; "u"; "v"; "w"; "x"; "y"; "z"].

(** [xs.map((t, i) => f(t, i))]. *)
Fixpoint mapi_from {A B} (i : nat) (f : A -> nat -> B) (xs : list A) : list B :=
  match xs with
  | [] => []
  | x :: r => f x i :: mapi_from (S i) f r
  end.
Definition mapi {A B} (f : A -> nat -> B) (xs : list A) : list B := mapi_from 0 f xs.

(** [for (let spreadName of spreads) type = new ElmTypeApp(Name_, [type])]. *)
Fixpoint applySpreads (spreads : list string) (type : ElmType) : Outcome ElmType :=
  match spreads with
  | [] => Ok type
  | spreadName :: r =>
      (n <- Js.upperFirst spreadName ;;
       applySpreads r (ElmTypeApp (n ++ "_") [type]))%outcome
  end.

Module QueryToElm.

(** Record every enum reachable from [type]; [seenTypes] stops the descent
    into an object type whose name was met before. *)
Fixpoint collectEnumsForType (type : GraphQLType) (acc : GraphQLEnumMap * GraphQLTypeMap)
    {struct type} : GraphQLEnumMap * GraphQLTypeMap :=
  let collectFields :=
    fix collectFields (fieldMap : list (string * GraphQLType))
        (acc : GraphQLEnumMap * GraphQLTypeMap) : GraphQLEnumMap * GraphQLTypeMap :=
      match fieldMap with
      | [] => acc
      | (_, fieldType) :: rest => collectFields rest (collectEnumsForType fieldType acc)
      end in
  let '(seen, seenTypes) := acc in
  match type with
  | GraphQLEnumType name values => (Js.set seen name (MkEnum name values), seenTypes)
  | GraphQLList ofType => collectEnumsForType ofType acc
  | GraphQLObjectType name fieldMap
  | GraphQLInterfaceType name fieldMap
  | GraphQLInputObjectType name fieldMap =>
      if Js.truthy seenTypes name then acc
      else collectFields fieldMap (seen, Js.set seenTypes name type)
  | GraphQLNonNull ofType => collectEnumsForType ofType acc
  | _ => acc
  end.

(** The constructor of an enum value: [name_Value]. *)
Definition enumCtor (enumName : string) (v : string) : Outcome string :=
  (v' <- Js.upperFirstLowerRest v ;; Ok (enumName ++ "_" ++ v')%string)%outcome.

Definition walkEnum (enumType : EnumT) : Outcome ElmDecl :=
  (ctors <- omap (enumCtor (enumName enumType)) (enumValues enumType) ;;
   Ok (ElmTypeDecl (enumName enumType) ctors))%outcome.

Definition decoderForEnum (enumType : EnumT) : Outcome ElmDecl :=
  (decoderTypeName <- Js.upperFirst (enumName enumType) ;;
   cases <- omap (fun v =>
               v' <- Js.upperFirstLowerRest v ;;
               Ok ("            " ++ dq ++ v ++ dq ++ " -> succeed "
                     ++ decoderTypeName ++ "_" ++ v')%string)
              (enumValues enumType) ;;
   Ok (ElmFunctionDecl
         (Js.toLowerCase (enumName enumType) ++ "Decoder")
         []
         (ElmTypeName ("Decoder " ++ decoderTypeName))
         (MkElmExpr
            ("string |> andThen (\s ->" ++ nl
             ++ "        case s of" ++ nl
             ++ Js.join nl cases ++ nl
             ++ "            _ -> fail " ++ dq ++ "Unknown " ++ enumName enumType ++ dq ++ ")"))))%outcome.

(** The declaration of a union type; a stored union is neither a non-null
    nor a list, so the two leading unwrapping tests of the source never
    hold. Past the 26th member [alphabet[i]] is [undefined]: [join] prints
    it as the empty string and [+] as the text "undefined". *)
Definition walkUnion (union : UnionT) : list ElmDecl :=
  let types := unionTypes union in
  let params :=
    Js.join " " (mapi (fun _ i => match nth_error alphabet i with
                                  | Some a => a
                                  | None => EmptyString
                                  end) types) in
  [ElmTypeDecl (unionName union ++ " " ++ params)
     (mapi (fun t i =>
              elmSafeName (unionName union ++ "_" ++ Js.str (typeName t))
                ++ " " ++ Js.str (nth_error alphabet i))%string types)].

Definition scalarEncoder (name : string) : string :=
  if String.eqb name "Int" then "Json.Encode.int "
  else if String.eqb name "Float" then "Json.Encode.float "
  else if String.eqb name "Boolean" then "Json.Encode.bool "
  else if String.eqb name "ID" then "Json.Encode.string "
  else if String.eqb name "DateTime" then "Json.Encode.string "
  else if String.eqb name "String" then "Json.Encode.string "
  else "Json.Encode.string ".

(** The text of the encoder of a value of an input type found at [path];
    [isNonNull] is never read. An absent [path] prints as "undefined". *)
Fixpoint encoderForInputType (type : GraphQLType) (isNonNull : bool) (path : option string)
    {struct type} : Outcome string :=
  let isMaybe := negb (isNonNullType type) in
  let value := if isMaybe then Some "o" else path in
  let type' := match type with GraphQLNonNull ofType => ofType | _ => type end in
  (encoder <-
     match type' with
     | GraphQLInputObjectType _ fields =>
         fieldEncoders <-
           (fix fieldsEncoders (fs : list (string * GraphQLType)) : Outcome (list string) :=
              match fs with
              | [] => Ok []
              | (fieldName, fieldType) :: rest =>
                  let valuePath := (Js.str value ++ "." ++ fieldName)%string in
                  e <- encoderForInputType fieldType false (Some valuePath) ;;
                  es <- fieldsEncoders rest ;;
                  Ok (("(" ++ dq ++ fieldName ++ dq ++ ", " ++ e ++ ")")%string :: es)
              end) fields ;;
         Ok ("(Json.Encode.object [" ++ Js.join ", " fieldEncoders ++ "])")%string
     | GraphQLList ofType =>
         e <- encoderForInputType ofType true (Some "x") ;;
         Ok ("(Json.Encode.list (List.map (\x -> " ++ e ++ ") " ++ Js.str value ++ "))")%string
     | GraphQLScalarType name => Ok (scalarEncoder name ++ Js.str value)%string
     | GraphQLEnumType name values =>
         tuples <- omap (fun v =>
                     c <- enumCtor name v ;;
                     Ok ("(" ++ dq ++ c ++ dq ++ ", " ++ dq ++ v ++ dq ++ ")")%string) values ;;
         let map := ("[" ++ Js.join "," tuples ++ "]")%string in
         Ok ("Json.Encode.string <| Maybe.withDefault " ++ dq ++ dq
               ++ " <| Maybe.map Tuple.second <| List.head <| (\s -> List.filter (Tuple.first >> (==)(s)) "
               ++ map ++ " ) <| toString " ++ Js.str value)%string
     | other => Throw (JsError ("not implemented: " ++ constructorName other))
     end ;;
   Ok (if isMaybe
       then ("(maybeEncode (\o -> " ++ encoder ++ ") " ++ Js.str path ++ ")")%string
       else encoder))%outcome.

Section TranslateQuery.

Variable uri : string.
Variable doc : Document.
Variable schema : GraphQLSchema.
Variable verb : string.
Variable errorSpec : bool.
(** [print] of graphql/language: the text of a definition. *)
Variable print : Definition_ -> string.

(** Pull the fragment definitions out of the document. *)
Definition buildFragmentDefinitionMap (doc : Document) : FragmentDefinitionMap :=
  fold_left (fun m ev =>
               match ev with
               | Enter (NFragmentDefinition def) => Js.set m (fragName def) def
               | _ => m
               end) (visitDocument doc) [].

(** Add the unions met in the document to [unions]. *)
Definition collectUnions (def : Definition_) (unions : GraphQLUnionMap) : GraphQLUnionMap :=
  snd (fold_left (fun '(i, unions) ev =>
                    match ev with
                    | Enter node =>
                        let unions' :=
                          match unwrapType (TypeInfo.getType i) with
                          | Some (GraphQLUnionType name types) =>
                              Js.set unions name (MkUnion name types)
                          | _ => unions
                          end in
                        (TypeInfo.enter i node, unions')
                    | Leave node => (TypeInfo.leave i node, unions)
                    end) (visitDocument doc) (TypeInfo.new schema, unions)).

(** Add the enums met in the document to [enums]. *)
Definition collectEnums (def : Definition_) (enums : GraphQLEnumMap) : GraphQLEnumMap :=
  snd (fold_left (fun '(i, enums) ev =>
                    match ev with
                    | Enter node =>
                        let i' := TypeInfo.enter i node in
                        let enums' :=
                          match node, TypeInfo.getType i' with
                          | NField _ _, Some type => fst (collectEnumsForType type (enums, []))
                          | _, _ => enums
                          end in
                        (i', enums')
                    | Leave node => (TypeInfo.leave i node, enums)
                    end) (visitDocument doc) (TypeInfo.new schema, enums)).

Section Walkers.

Variable fragmentDefinitionMap : FragmentDefinitionMap.

(** Add the fragments spread anywhere in the document to [fragments]. *)
Definition collectFragments (def : Definition_) (fragments : SeenFragmentMap) : SeenFragmentMap :=
  fold_left (fun fragments ev =>
               match ev with
               | Enter (NFragmentSpread name) =>
                   Js.set fragments name (Js.read fragmentDefinitionMap name)
               | _ => fragments
               end) (visitDocument doc) fragments.

(** Retrieve the fragments used in the selection set, and those that they
    use in turn. *)
Fixpoint queryFragments (fuel : nat) (selectionSet : SelectionSet)
    (fragments : SeenFragmentMap) : Outcome SeenFragmentMap :=
  match fuel with
  | O => OutOfFuel
  | S fuel' =>
      fold_left (fun acc ev =>
                   match ev with
                   | Enter (NFragmentSpread name) =>
                       (fragments <- acc ;;
                        match Js.read fragmentDefinitionMap name with
                        | Js.Own frag =>
                            queryFragments fuel' (fragSelectionSet frag)
                              (Js.set fragments name (Js.Own frag))
                        | Js.Inherited => Ok (Js.set fragments name Js.Inherited)
                        | Js.Undefined =>
                            Throw (TypeError "Cannot read property 'selectionSet' of undefined")
                        end)%outcome
                   | _ => acc
                   end) (visitSelectionSet selectionSet) (Ok fragments)
  end.

(** [print] of what was gathered under a name: a member inherited from
    [Object.prototype] is no node of a document. *)
Definition printFragment (v : Js.Lookup FragmentDefinition) : Outcome string :=
  match v with
  | Js.Own frag => Ok (print (FragmentDef frag))
  | _ => Throw (JsError "Invalid AST Node: undefined")
  end.

(** One iteration of the loop of [walkUnionSelectionSet]. *)
Definition walkUnionSelection
    (walkSelectionSet : SelectionSet -> M (list ElmFieldDecl * list string * option ElmType))
    (acc : bool * Js.Obj ElmType) (sel : Selection) : M (bool * Js.Obj ElmType) :=
  let '(hasTypename, typeMap) := acc in
  match sel with
  | Field _ name _ =>
      ret (if String.eqb name "__typename" then true else hasTypename, typeMap)
  | InlineFragment typeCondition selectionSet =>
      (enter (NInlineFragment typeCondition) ;;;
       ' (fields, spreads, _) <- walkSelectionSet selectionSet ;;
       leave (NInlineFragment typeCondition) ;;;
       type <- lift (applySpreads spreads (ElmTypeRecord fields None)) ;;
       match typeCondition with
       | Some name => ret (hasTypename, Js.set typeMap name type)
       | None => throw (TypeError "Cannot read property 'name' of undefined")
       end)%walk
  | FragmentSpread name =>
      (frag <- lift (lookupFragment fragmentDefinitionMap name) ;;
       enter (NFragmentDefinition frag) ;;;
       ' (fields, spreads, _) <- walkSelectionSet (fragSelectionSet frag) ;;
       leave (NFragmentDefinition frag) ;;;
       type <- lift (applySpreads spreads (ElmTypeRecord fields None)) ;;
       ret (hasTypename, Js.set typeMap name type))%walk
  end.

Definition walkUnionSelectionSet
    (walkSelectionSet : SelectionSet -> M (list ElmFieldDecl * list string * option ElmType))
    (selSet : SelectionSet) : M ElmType :=
  (union0 <- getType ;;
   let union := unwrapType union0 in
   ' (hasTypename, typeMap) <- foldM (walkUnionSelection walkSelectionSet) (false, []) selSet ;;
   unionName <- match union with
                | Some u => ret (Js.str (typeName u))
                | None => throw (TypeError "Cannot read property 'name' of undefined")
                end ;;
   if negb hasTypename
   then throw (JsError ("must query field '__typename' on union types (missing for '"
                          ++ unionName ++ "')"))
   else ret (ElmTypeApp unionName (Js.values typeMap)))%walk.

Definition walkField
    (walkSelectionSet : SelectionSet -> M (list ElmFieldDecl * list string * option ElmType))
    (alias : option string) (name : string) (selectionSet : option SelectionSet)
  : M ElmFieldDecl :=
  (enter (NField alias name) ;;;
   info_type <- getType ;;
   let name' := elmSafeName (fieldKey alias name) in
   match selectionSet with
   | Some selSet =>
       let isMaybe := negb (isNonNullOpt info_type) in
       let isList := isListOpt (unwrapNonNull info_type) in
       ' (fields, spreads, union) <- walkSelectionSet selSet ;;
       let type0 := match union with
                    | Some u => u
                    | None => ElmTypeRecord fields None
                    end in
       type1 <- lift (applySpreads spreads type0) ;;
       let type2 := if isList then ElmTypeApp "List" [type1] else type1 in
       let type3 := if isMaybe then ElmTypeApp "Maybe" [type2] else type2 in
       leave (NField alias name) ;;;
       ret (MkElmFieldDecl name' type3)
   | None =>
       match info_type with
       | None => throw (JsError ("Unknown GraphQL field: " ++ name))
       | Some t =>
           type <- lift (typeToElm t false) ;;
           leave (NField alias name) ;;;
           ret (MkElmFieldDecl name' type)
       end
   end)%walk.

(** One iteration of the loop of [walkSelectionSet] outside a union. *)
Definition walkSelection
    (walkSelectionSet : SelectionSet -> M (list ElmFieldDecl * list string * option ElmType))
    (acc : list ElmFieldDecl * list string) (sel : Selection)
  : M (list ElmFieldDecl * list string) :=
  let '(fields, spreads) := acc in
  match sel with
  | Field alias name selectionSet =>
      (f <- walkField walkSelectionSet alias name selectionSet ;;
       ret (fields ++ [f], spreads))%walk
  | FragmentSpread name => ret (fields, spreads ++ [name])
  | InlineFragment (Some typeCondition) _ =>
      throw (JsError ("not implemented: InlineFragment on " ++ typeCondition))
  | InlineFragment None _ => throw (TypeError "Cannot read property 'name' of undefined")
  end.

Fixpoint walkSelectionSet (fuel : nat) (selSet : SelectionSet)
  : M (list ElmFieldDecl * list string * option ElmType) :=
  match fuel with
  | O => outOfFuel
  | S fuel' =>
      (enter NSelectionSet ;;;
       info_type <- getType ;;
       if isUnionOpt (unwrapType info_type)
       then (type <- walkUnionSelectionSet (walkSelectionSet fuel') selSet ;;
             leave NSelectionSet ;;;
             ret ([], [], Some type))
       else (' (fields, spreads) <- foldM (walkSelection (walkSelectionSet fuel')) ([], []) selSet ;;
             leave NSelectionSet ;;;
             ret (fields, spreads, None)))%walk
  end.

Record OperationParameter : Type := MkParameter {
  pName : string;
  pType : ElmType;
  pSchemaType : GraphQLType;
  pHasDefault : bool
}.

(** The parameter of one variable definition of an operation. *)
Definition parameterOf (varDef : VariableDefinition) : Outcome OperationParameter :=
  match typeFromAST schema (varType varDef) with
  | Some schemaType =>
      (type <- typeToElm schemaType false ;;
       Ok (MkParameter (variable varDef) type schemaType
             (match defaultValue varDef with Some _ => true | None => false end)))%outcome
  | None => Throw (TypeError "Cannot read property 'constructor' of undefined")
  end.

(** The entry of one parameter in the list given to [Json.Encode.object]. *)
Definition parameterEncoder (p : OperationParameter) : Outcome string :=
  (encoder <-
     (if pHasDefault p
      then (e <- encoderForInputType (pSchemaType p) true None ;;
            Ok ("case params." ++ pName p ++ " of"
                ++ nl ++ "                            Just val -> " ++ e ++ " val"
                ++ nl ++ "                            Nothing -> Json.Encode.null")%string)
      else encoderForInputType (pSchemaType p) true (Some ("params." ++ pName p)%string)) ;;
   Ok ("(" ++ dq ++ pName p ++ dq ++ ", " ++ encoder ++ ")")%string)%outcome.

(** The body of the request function of an operation. *)
Definition requestBody (def : OperationDefinition) (name queryText decodeFuncName : string)
    (entries : list string) : string :=
  let methodParam :=
    match operation def with
    | query => (dq ++ verb ++ dq ++ " ")%string
    | _ => EmptyString
    end in
  ("let graphQLQuery = " ++ dq ++ dq ++ dq ++ Js.collapseWhitespace queryText
     ++ dq ++ dq ++ dq ++ " in" ++ nl
   ++ "    let graphQLParams =" ++ nl
   ++ "            Json.Encode.object" ++ nl
   ++ "                [ "
   ++ Js.join (nl ++ "                , ") entries ++ nl
   ++ "                ]" ++ nl
   ++ "    in" ++ nl
   ++ "    " ++ operationName (operation def) ++ " " ++ methodParam
   ++ "endpointUrl graphQLQuery " ++ dq ++ name ++ dq ++ " graphQLParams " ++ decodeFuncName)%string.

(** The declarations of an operation: its result type, its request
    function and its decoder. A subscription yields [undefined], which the
    caller's [push] of the spread result takes as no declaration. *)
Definition walkOperationDefinition (fuel : nat) (def : OperationDefinition)
  : M (list ElmDecl) :=
  (enter (NOperationDefinition def) ;;;
   rootType <- getType ;;
   match rootType with
   | None =>
       match opName def with
       | Some n => throw (JsError ("GraphQL schema does not define "
                                     ++ operationName (operation def) ++ " '" ++ n ++ "'"))
       | None => throw (TypeError "Cannot read property 'value' of undefined")
       end
   | Some _ =>
       match operation def with
       | query | mutation =>
           let name := QueryToDecoder.nameOf def in
           resultType <- lift (Js.upperFirst name) ;;
           let responseType :=
             if errorSpec then ("(Response " ++ resultType ++ ")")%string else resultType in
           ' (fields, spreads, _) <- walkSelectionSet fuel (opSelectionSet def) ;;
           let decl1 := ElmTypeAliasDecl resultType (ElmTypeRecord fields None) [] in
           parameters <- lift (omap parameterOf (variableDefinitions def)) ;;
           funcName <- lift (Js.lowerFirst name) ;;
           let seenFragments := collectFragments (OperationDef def) [] in
           fragmentTexts <-
             lift (qFragments <- queryFragments fuel (opSelectionSet def) [] ;;
                   omap printFragment (Js.values qFragments))%outcome ;;
           let queryText :=
             (fold_left (fun q text => q ++ text ++ " ") fragmentTexts EmptyString
              ++ print (OperationDef def))%string in
           decodeFuncName0 <- lift (Js.lowerFirst resultType) ;;
           let decodeFuncName := (decodeFuncName0 ++ "Decoder")%string in
           exposePush [funcName; resultType] ;;;
           let elmParamsType :=
             ElmTypeRecord (map (fun p => MkElmFieldDecl (pName p) (pType p)) parameters) None in
           let elmParams := MkElmParameterDecl "params" elmParamsType in
           let elmParamsDecl :=
             match parameters with [] => [] | _ :: _ => [elmParams] end in
           entries <- lift (omap parameterEncoder parameters) ;;
           let decl2 :=
             ElmFunctionDecl funcName elmParamsDecl
               (ElmTypeName ("Http.Request " ++ responseType))
               (MkElmExpr (requestBody def name queryText decodeFuncName entries)) in
           resultTypeName <- lift (Js.upperFirst resultType) ;;
           decoder <- QueryToDecoder.decoderForQuery schema fragmentDefinitionMap fuel def ;;
           match decoder with
           | Some body =>
               let decl3 :=
                 ElmFunctionDecl decodeFuncName [] (ElmTypeName ("Decoder " ++ resultTypeName)) body in
               leave (NOperationDefinition def) ;;;
               ret [decl1; decl2; decl3]
           | None => throw (TypeError "the decoder of the operation is undefined")
           end
       | subscription => ret []
       end
   end)%walk.

Definition walkFragmentDefinition (fuel : nat) (def : FragmentDefinition) : M (list ElmDecl) :=
  (enter (NFragmentDefinition def) ;;;
   let name := fragName def in
   resultType <- lift (Js.upperFirst name) ;;
   ' (fields, spreads, _) <- walkSelectionSet fuel (fragSelectionSet def) ;;
   type <- lift (applySpreads spreads (ElmTypeRecord fields (Some "a"))) ;;
   leave (NFragmentDefinition def) ;;;
   ret [ElmTypeAliasDecl (resultType ++ "_") type ["a"];
        ElmTypeAliasDecl resultType
          (ElmTypeApp (resultType ++ "_") [ElmTypeRecord [] None]) []])%walk.

End Walkers.

(** The loop over the definitions of the document: the declarations of
    each definition, and the fragments, enums and unions seen. *)
Record Seen : Type := MkSeen {
  decls : list ElmDecl;
  seenFragments : SeenFragmentMap;
  seenEnums : GraphQLEnumMap;
  seenUnions : GraphQLUnionMap
}.

Definition walkDefinition (fragmentDefinitionMap : FragmentDefinitionMap) (fuel : nat)
    (acc : Seen) (def : Definition_) : M Seen :=
  (ds <- match def with
         | OperationDef d => walkOperationDefinition fragmentDefinitionMap fuel d
         | FragmentDef d => walkFragmentDefinition fragmentDefinitionMap fuel d
         end ;;
   ret (MkSeen (decls acc ++ ds)
          (collectFragments fragmentDefinitionMap def (seenFragments acc))
          (collectEnums def (seenEnums acc))
          (collectUnions def (seenUnions acc))))%walk.

(** [for (let fragName in seenFragments)]: the two exposed names of a
    fragment. *)
Definition exposeFragment (fragName : string) : M unit :=
  (_ <- lift (Js.lowerFirst fragName) ;;
   fragTypeName <- lift (Js.upperFirst fragName) ;;
   exposePush [fragTypeName; (fragTypeName ++ "_")%string])%walk.

(** [for (let name in seenEnums)]: the type goes to the front of the
    declarations, the decoder to their end. *)
Definition emitEnum (decls : list ElmDecl) (seenEnum : EnumT) : M (list ElmDecl) :=
  (type <- lift (walkEnum seenEnum) ;;
   decoder <- lift (decoderForEnum seenEnum) ;;
   exposePush [(enumName seenEnum ++ "(..)")%string] ;;;
   ret ((type :: decls) ++ [decoder]))%walk.

(** [for (let name in seenUnions)]: the type goes to the front. *)
Definition emitUnion (decls : list ElmDecl) (entry : string * UnionT) : M (list ElmDecl) :=
  let '(name, union) := entry in
  (exposePush [(name ++ "(..)")%string] ;;;
   ret (walkUnion union ++ decls))%walk.

Definition endpointUrlDecl : ElmDecl :=
  ElmFunctionDecl "endpointUrl" [] (ElmTypeName "String") (MkElmExpr (dq ++ uri ++ dq)).

(** Convert the document into a list of Elm declarations. *)
Definition walkQueryDocument (fuel : nat) : M (list ElmDecl) :=
  let decls0 := [endpointUrlDecl] in
  let fragmentDefinitionMap := buildFragmentDefinitionMap doc in
  (seen <- foldM (walkDefinition fragmentDefinitionMap fuel) (MkSeen decls0 [] [] []) doc ;;
   foldM (fun _ fragName => exposeFragment fragName) tt (Js.keys (seenFragments seen)) ;;;
   decls1 <- foldM emitEnum (decls seen) (Js.values (seenEnums seen)) ;;
   foldM emitUnion decls1 (seenUnions seen))%walk.

(** Convert the document into the declarations and the list of names to
    expose. *)
Definition translateQuery (fuel : nat) : Outcome (list ElmDecl * list string) :=
  match walkQueryDocument fuel (MkSt (TypeInfo.new schema) []) with
  | Ok (decls, s) => Ok (decls, expose s)
  | Throw e => Throw e
  | OutOfFuel => OutOfFuel
  end.

End TranslateQuery.

Section QueryToElm.

(** [parse] and [print] of graphql/language, and [moduleToString] of
    elm-ast.ts. *)
Variable parse : string -> Outcome Document.
Variable print : Definition_ -> string.
Variable moduleToString : string -> list string -> list string -> list ElmDecl -> string.

(** Compile the provided GraphQL text to an Elm module. *)
Definition queryToElm (fuel : nat) (graphql moduleName liveUrl verb : string)
    (schema : GraphQLSchema) (errorSpec : bool) : Outcome string :=
  (queryDocument <- parse graphql ;;
   ' (decls, expose) <- translateQuery liveUrl queryDocument schema verb errorSpec print fuel ;;
   let importGraphql :=
     if errorSpec
     then "GraphQLSpec exposing (Response, apply, maybeEncode, query, mutation)"
     else "GraphQL exposing (apply, maybeEncode, query, mutation)" in
   Ok (moduleToString moduleName expose
         ["Json.Decode exposing (..)"; "Json.Encode exposing (encode)"; "Http"; importGraphql]
         decls))%outcome.

End QueryToElm.
End QueryToElm.

(** ** Vocabulary of the statements *)

(** The Elm type [r] is [e], possibly under [Maybe]. *)
Definition possiblyMaybe (e r : ElmType) : Prop :=
  r = e \/ r = ElmTypeApp "Maybe" [e].

(** The scalar names that have an Elm type of their own. *)
Definition isNumericOrBool (name : string) : bool :=
  String.eqb name "Int" || String.eqb name "Float" || String.eqb name "Boolean".

(** *** The calls of the type walker

    [enterSt n s] is the state after [info.enter(n)]; [scopeIsUnion s] tells
    whether the type in scope, unwrapped as [walkSelectionSet] does it, is a
    union. *)

Definition enterSt (n : Node) (s : St) : St :=
  MkSt (TypeInfo.enter (info s) n) (expose s).

Definition scopeIsUnion (s : St) : bool :=
  isUnionOpt (unwrapType (TypeInfo.getType (info s))).

(** [Reaches m f selSet s f' selSet' s']: the call
    [walkSelectionSet(selSet, info)] of query-to-elm.ts, made in state [s],
    comes to call [walkSelectionSet(selSet', info)] in state [s'], every
    selection walked before having succeeded. *)
Inductive Reaches (m : FragmentDefinitionMap)
  : nat -> SelectionSet -> St -> nat -> SelectionSet -> St -> Prop :=
| Reaches_here f selSet s : Reaches m f selSet s f selSet s
| Reaches_field f selSet s before alias name sub after acc s1 f' selSet' s' :
    scopeIsUnion s = false ->
    selSet = before ++ Field alias name (Some sub) :: after ->
    foldM (QueryToElm.walkSelection (QueryToElm.walkSelectionSet m f)) ([], []) before
      (enterSt NSelectionSet s) = Ok (acc, s1) ->
    Reaches m f sub (enterSt (NField alias name) s1) f' selSet' s' ->
    Reaches m (S f) selSet s f' selSet' s'
| Reaches_inline f selSet s before typeCondition sub after acc s1 f' selSet' s' :
    scopeIsUnion s = true ->
    selSet = before ++ InlineFragment typeCondition sub :: after ->
    foldM (QueryToElm.walkUnionSelection m (QueryToElm.walkSelectionSet m f)) (false, []) before
      (enterSt NSelectionSet s) = Ok (acc, s1) ->
    Reaches m f sub (enterSt (NInlineFragment typeCondition) s1) f' selSet' s' ->
    Reaches m (S f) selSet s f' selSet' s'
| Reaches_spread f selSet s before name frag after acc s1 f' selSet' s' :
    scopeIsUnion s = true ->
    selSet = before ++ FragmentSpread name :: after ->
    foldM (QueryToElm.walkUnionSelection m (QueryToElm.walkSelectionSet m f)) (false, []) before
      (enterSt NSelectionSet s) = Ok (acc, s1) ->
    Js.get m name = Some frag ->
    Reaches m f (fragSelectionSet frag) (enterSt (NFragmentDefinition frag) s1) f' selSet' s' ->
    Reaches m (S f) selSet s f' selSet' s'.

(** The selection set of a definition and the state in which
    [walkOperationDefinition] or [walkFragmentDefinition] walks it, when the
    definition gets that far: the schema defines the operation, which is a
    query or a mutation, and the name is not empty. *)
Definition bodyOf (def : Definition_) (s : St) : option (SelectionSet * St) :=
  match def with
  | OperationDef d =>
      let s' := enterSt (NOperationDefinition d) s in
      match TypeInfo.getType (info s'), operation d, Js.upperFirst (QueryToDecoder.nameOf d) with
      | Some _, query, Ok _ | Some _, mutation, Ok _ => Some (opSelectionSet d, s')
      | _, _, _ => None
      end
  | FragmentDef d =>
      match Js.upperFirst (fragName d) with
      | Ok _ => Some (fragSelectionSet d, enterSt (NFragmentDefinition d) s)
      | _ => None
      end
  end.

(** The state of the loop of [walkQueryDocument] before the first
    definition. *)
Definition seen0 (uri : string) : QueryToElm.Seen :=
  QueryToElm.MkSeen [QueryToElm.endpointUrlDecl uri] [] [] [].

Definition start (schema : GraphQLSchema) : St := MkSt (TypeInfo.new schema) [].

(** The loop of [walkQueryDocument] over the definitions [defs], from the
    start of a translation. *)
Definition definitionsLoop (uri : string) (doc : Document) (schema : GraphQLSchema)
    (verb : string) (errorSpec : bool) (print : Definition_ -> string) (fuel : nat)
    (defs : list Definition_) : Outcome (QueryToElm.Seen * St) :=
  foldM (QueryToElm.walkDefinition doc schema verb errorSpec print
           (QueryToElm.buildFragmentDefinitionMap doc) fuel)
    (seen0 uri) defs (start schema).

(** A seen map is well keyed when its keys are distinct and each value is
    stored under its own name. *)
Definition wellKeyed {V} (nameOf : V -> string) (o : Js.Obj V) : Prop :=
  NoDup (Js.keys o) /\ Forall (fun kv => nameOf (snd kv) = fst kv) o.

(** Whether the selection set selects the field [__typename]. *)
Definition selectsTypename (selSet : SelectionSet) : bool :=
  existsb (fun sel => match sel with
                      | Field _ name _ => String.eqb name "__typename"
                      | _ => false
                      end) selSet.

(** *** The exposed names

    [keepsExpose m]: a successful run of [m] leaves the list of exposed names
    as it was. *)

Definition keepsExpose {A} (m : M A) : Prop :=
  forall s r s', m s = Ok (r, s') -> expose s' = expose s.

(** *** Fuel

    [stable m m']: wherever [m] does not run out of fuel, [m'] has the same
    outcome; [ostable] is the same for a computation without state. *)

Definition stable {A} (m m' : M A) : Prop :=
  forall s, m s <> OutOfFuel -> m' s = m s.

Definition ostable {A} (o o' : Outcome A) : Prop :=
  o <> OutOfFuel -> o' = o.

(** *** The encoder of a request parameter

    The three shapes of the encoder of a parameter in the generated text,
    and the entry of a variable in the list given to [Json.Encode.object]. *)
Inductive ParameterEncoder : Type :=
| EncodeMaybe (body path : string)
| EncodeCase (name just : string)
| EncodeDirect (text : string).

Definition renderEncoder (e : ParameterEncoder) : string :=
  match e with
  | EncodeMaybe body path => ("(maybeEncode (\o -> " ++ body ++ ") " ++ path ++ ")")%string
  | EncodeCase name just =>
      ("case params." ++ name ++ " of"
       ++ nl ++ "                            Just val -> " ++ just ++ " val"
       ++ nl ++ "                            Nothing -> Json.Encode.null")%string
  | EncodeDirect text => text
  end.

Definition parameterEntry (name encoder : string) : string :=
  ("(" ++ dq ++ name ++ dq ++ ", " ++ encoder ++ ")")%string.

(** *** The fields of a selection set

    [selectedKeys m fuel selSet]: the response keys (alias, or else name) of
    the fields of [selSet] in first-encounter order, the fragment spreads
    being expanded in place; no answer on an inline fragment, on a spread of
    an unknown fragment, or when the fuel does not cover the nesting of the
    spreads. *)
Fixpoint selectedKeys (m : FragmentDefinitionMap) (fuel : nat) (selSet : SelectionSet)
  : option (list string) :=
  match fuel with
  | O => None
  | S fuel' =>
      (fix keysOf (sels : list Selection) : option (list string) :=
         match sels with
         | [] => Some []
         | Field alias name _ :: rest => option_map (cons (fieldKey alias name)) (keysOf rest)
         | FragmentSpread name :: rest =>
             match Js.get m name with
             | Some def =>
                 match selectedKeys m fuel' (fragSelectionSet def), keysOf rest with
                 | Some ks, Some rs => Some (ks ++ rs)
                 | _, _ => None
                 end
             | None => None
             end
         | InlineFragment _ _ :: _ => None
         end) selSet
  end.

(** Drop the keys already seen, keeping the first occurrence of each. *)
Definition dedupInto (seen keys : list string) : list string :=
  fold_left QueryToDecoder.pushUnique keys seen.

(** The response keys of the fields selected directly, and the names of the
    fragments spread directly. *)
Definition directKeys (selSet : SelectionSet) : list string :=
  flat_map (fun sel => match sel with
                       | Field alias name _ => [fieldKey alias name]
                       | _ => []
                       end) selSet.

Definition spreadNames (selSet : SelectionSet) : list string :=
  flat_map (fun sel => match sel with
                       | FragmentSpread name => [name]
                       | _ => []
                       end) selSet.

Definition fieldDeclName (f : ElmFieldDecl) : string :=
  match f with MkElmFieldDecl name _ => name end.

(** The text [d] decodes the field of response key [key], possibly under
    [maybe]. *)
Definition isFieldDecoder (key d : string) : Prop :=
  exists rest : string,
    d = ("(field " ++ dq ++ key ++ dq ++ " " ++ rest)%string
    \/ d = ("(maybe (field " ++ dq ++ key ++ dq ++ " " ++ rest)%string.

Definition nonEmpty (s : string) : Prop := String.length s <> 0.

(** Two joined texts put together: the separator goes between them when
    neither is empty. *)
Definition glue (sep a b : string) : string :=
  if (String.length a =? 0)%nat then b
  else if (String.length b =? 0)%nat then a
  else (a ++ sep ++ b)%string.

(** *** The dispatch decoder of a union

    The text of a [case] on the discriminator: one arm per label, in order,
    and then the single fallback arm that fails. *)

Definition dispatchArm (arm : string * string) : string :=
  (nl ++ QueryToDecoder.unionIndent ++ dq ++ fst arm ++ dq ++ " -> " ++ snd arm)%string.

Fixpoint dispatchArms (arms : list (string * string)) : string :=
  match arms with
  | [] => EmptyString
  | arm :: rest => (dispatchArm arm ++ dispatchArms rest)%string
  end.

Definition dispatch (arms : list (string * string)) : string :=
  (nl ++ "        (\typename -> case typename of"
   ++ dispatchArms arms
   ++ nl ++ QueryToDecoder.unionIndent ++ "_ -> fail " ++ dq ++ "Unexpected union type" ++ dq ++ ")")%string.

(** The decoder of a field of union type [type]: the discriminator is decoded
    first and [dispatch] is run on it, under a list decoder and a [maybe] as
    [type] asks. *)
Definition unionDecoder (type : option GraphQLType) (originalName : string)
    (arms : list (string * string)) : string :=
  let d := ("((field " ++ dq ++ "__typename" ++ dq ++ " string) |> andThen "
            ++ dispatch arms ++ ")")%string in
  let d1 := if isListOpt (unwrapNonNull type) then ("(list " ++ d ++ ")")%string else d in
  let d2 := if isNonNullOpt type then d1 else ("(maybe " ++ d1 ++ ")")%string in
  ("(field " ++ dq ++ originalName ++ dq ++ " " ++ d2 ++ ")")%string.

(** The selections that make a branch, and the label of the branch: the type
    condition of the inline fragment or of the fragment spread. *)
Definition isBranch (sel : Selection) : bool :=
  match sel with Field _ _ _ => false | _ => true end.

Definition branchLabel (m : FragmentDefinitionMap) (sel : Selection) : option string :=
  match sel with
  | InlineFragment typeCondition _ => typeCondition
  | FragmentSpread name => option_map fragTypeCondition (Js.get m name)
  | Field _ _ _ => None
  end.

(** The name of the union in scope. *)
Definition scopeUnionName (s : St) : string :=
  match unwrapType (TypeInfo.getType (info s)) with
  | Some (GraphQLUnionType name _) => name
  | _ => EmptyString
  end.

(** ** A sample schema and sample documents *)

Module Example.

Definition Int : GraphQLType := GraphQLScalarType "Int".
Definition Str : GraphQLType := GraphQLScalarType "String".
Definition ID : GraphQLType := GraphQLScalarType "ID".
Definition Episode : GraphQLType := GraphQLEnumType "Episode" ["NEWHOPE"; "EMPIRE"; "JEDI"].
Definition Human : GraphQLType :=
  GraphQLObjectType "Human" [("name", Str); ("height", Int)].
Definition Droid : GraphQLType :=
  GraphQLObjectType "Droid" [("name", Str); ("primaryFunction", Str)].
Definition SearchResult : GraphQLType := GraphQLUnionType "SearchResult" [Human; Droid].
Definition Friend : GraphQLType :=
  GraphQLObjectType "Character" [("id", GraphQLNonNull ID); ("name", Str)].
Definition Side : GraphQLType := GraphQLEnumType "Side" ["LIGHT"; "DARK"].
Definition Character : GraphQLType :=
  GraphQLObjectType "Character"
    [("id", GraphQLNonNull ID); ("name", Str);
     ("friends", GraphQLList (GraphQLNonNull Friend));
     ("appearsIn", GraphQLList Episode);
     ("favorite", Episode);
     ("side", Side)].
Definition Query : GraphQLType :=
  GraphQLObjectType "Query"
    [("hero", Character); ("search", GraphQLList SearchResult)].


(** The introspection types, as far as the samples read them. *)
Definition TypeKind : GraphQLType :=
  GraphQLEnumType "__TypeKind"
    ["SCALAR"; "OBJECT"; "INTERFACE"; "UNION"; "ENUM"; "INPUT_OBJECT"; "LIST"; "NON_NULL"].
Definition Type_ : GraphQLType :=
  GraphQLObjectType "__Type"
    [("kind", GraphQLNonNull TypeKind); ("name", Str); ("description", Str)].
Definition Schema_ : GraphQLType :=
  GraphQLObjectType "__Schema"
    [("types", GraphQLNonNull (GraphQLList (GraphQLNonNull Type_)));
     ("queryType", GraphQLNonNull Type_)].

Definition schema : GraphQLSchema :=
  MkSchema (Some Query) None None
    [("Int", Int); ("String", Str); ("ID", ID); ("Episode", Episode); ("Side", Side);
     ("Human", Human); ("Droid", Droid); ("SearchResult", SearchResult);
     ("Character", Character); ("Query", Query);
     ("__Schema", Schema_); ("__Type", Type_); ("__TypeKind", TypeKind)].

(** A printer that only names the definition. *)
Definition print (d : Definition_) : string :=
  match d with
  | OperationDef o => (operationName (operation o) ++ " " ++ QueryToDecoder.nameOf o)%string
  | FragmentDef f => ("fragment " ++ fragName f)%string
  end.

Definition start : St := start schema.

(** [{ hero { id name } }] *)
Definition anonymousQuery : OperationDefinition :=
  MkOperationDefinition query None []
    [Field None "hero" (Some [Field None "id" None; Field None "name" None])].

Definition anonymousRun : Outcome (list ElmDecl * St) :=
  Eval vm_compute in
    QueryToElm.walkOperationDefinition [OperationDef anonymousQuery] schema "GET" false
      print [] 3 anonymousQuery start.

Definition anonymousDecls : list ElmDecl :=
  Eval vm_compute in match anonymousRun with Ok (d, _) => d | _ => [] end.

Definition anonymousEnd : St :=
  Eval vm_compute in match anonymousRun with Ok (_, s) => s | _ => start end.

(** [fragment D on Droid { primaryFunction }] *)
Definition fragD : FragmentDefinition :=
  MkFragmentDefinition "D" "Droid" [Field None "primaryFunction" None].

(** [query Q { hero { name ... on Character { id } } }]: an inline fragment
    where the type in scope is an object type. *)
Definition inlineOp : OperationDefinition :=
  MkOperationDefinition query (Some "Q") []
    [Field None "hero"
       (Some [Field None "name" None; InlineFragment (Some "Character") [Field None "id" None]])].

Definition inlineDoc : Document := [OperationDef inlineOp].

(** [query Q { hero { name ... { id } } }]: the inline fragment has no type
    condition. *)
Definition untypedOp : OperationDefinition :=
  MkOperationDefinition query (Some "Q") []
    [Field None "hero"
       (Some [Field None "name" None; InlineFragment None [Field None "id" None]])].

Definition untypedDoc : Document := [OperationDef untypedOp].

(** The selections [... on Human { name } ...D] of a search result, without
    and with the discriminator. *)
Definition branches : SelectionSet :=
  [InlineFragment (Some "Human") [Field None "name" None]; FragmentSpread "D"].

Definition branchesWithTypename : SelectionSet :=
  Field None "__typename" None :: branches.

(** [query S { search { ... on Human { name } ...D } }] *)
Definition missingOp : OperationDefinition :=
  MkOperationDefinition query (Some "S") [] [Field None "search" (Some branches)].

Definition missingDoc : Document := [OperationDef missingOp; FragmentDef fragD].

(** [query S { search { __typename ... on Human { name } ...D } }] *)
Definition searchOp : OperationDefinition :=
  MkOperationDefinition query (Some "S") []
    [Field None "search" (Some branchesWithTypename)].

Definition searchDoc : Document := [OperationDef searchOp; FragmentDef fragD].

(** The state inside the selection set of the operation [searchOp]. *)
Definition inQuery : St :=
  enterSt NSelectionSet (enterSt (NOperationDefinition searchOp) start).

Definition searchDecoderRun : Outcome (ElmExpr * St) :=
  Eval vm_compute in
    let m := QueryToElm.buildFragmentDefinitionMap searchDoc in
    QueryToDecoder.walkField m (QueryToDecoder.walkSelectionSet m 2)
      (QueryToDecoder.getSelectionSetFields m 2) None "search"
      (Some branchesWithTypename) inQuery.

Definition searchDecoder : ElmExpr :=
  Eval vm_compute in
    match searchDecoderRun with Ok (e, _) => e | _ => MkElmExpr EmptyString end.

Definition searchDecoderEnd : St :=
  Eval vm_compute in match searchDecoderRun with Ok (_, s) => s | _ => start end.

(** [{ hero { favorite side appearsIn } search { __typename ...D } }]: the
    enum Episode is the type of two fields and is met before Side. *)
Definition enumsOp : OperationDefinition :=
  MkOperationDefinition query None []
    [Field None "hero"
       (Some [Field None "favorite" None; Field None "side" None;
              Field None "appearsIn" None]);
     Field None "search" (Some [Field None "__typename" None; FragmentSpread "D"])].

Definition enumsDoc : Document := [OperationDef enumsOp; FragmentDef fragD].

Definition enumsRun : Outcome (list ElmDecl * list string) :=
  Eval vm_compute in
    QueryToElm.translateQuery "http://localhost/graphql" enumsDoc schema "GET" false print 3.

Definition enumsDecls : list ElmDecl :=
  Eval vm_compute in match enumsRun with Ok (d, _) => d | _ => [] end.

Definition enumsExposed : list string :=
  Eval vm_compute in match enumsRun with Ok (_, e) => e | _ => [] end.

(** [query Q($limit: Int = 3, $name: String) { hero { name } }] *)
Definition limitOp : OperationDefinition :=
  MkOperationDefinition query (Some "Q")
    [MkVariableDefinition "limit" (NamedType "Int") (Some "3");
     MkVariableDefinition "name" (NamedType "String") None]
    [Field None "hero" (Some [Field None "name" None])].

Definition limitRun : Outcome (list ElmDecl * St) :=
  Eval vm_compute in
    QueryToElm.walkOperationDefinition [OperationDef limitOp] schema "GET" false
      print [] 3 limitOp start.

Definition limitDecls : list ElmDecl :=
  Eval vm_compute in match limitRun with Ok (d, _) => d | _ => [] end.

Definition limitEnd : St :=
  Eval vm_compute in match limitRun with Ok (_, s) => s | _ => start end.

(** [fragment F on Character { id name }] and the selections
    [{ name ...F }] and [{ name name }] of a hero. *)
Definition fragF : FragmentDefinition :=
  MkFragmentDefinition "F" "Character" [Field None "id" None; Field None "name" None].

Definition nameAndSpread : SelectionSet := [Field None "name" None; FragmentSpread "F"].

Definition nameTwice : SelectionSet := [Field None "name" None; Field None "name" None].

Definition heroOp : OperationDefinition :=
  MkOperationDefinition query (Some "Hero") [] [Field None "hero" (Some nameAndSpread)].

Definition heroDoc : Document := [OperationDef heroOp; FragmentDef fragF].

Definition heroMap : FragmentDefinitionMap :=
  Eval vm_compute in QueryToElm.buildFragmentDefinitionMap heroDoc.

(** The fragments gathered for the text of the request of [heroOp]. *)
Definition heroSeen : SeenFragmentMap :=
  Eval vm_compute in
    match QueryToElm.queryFragments heroMap 3 (opSelectionSet heroOp) [] with
    | Ok fragments => fragments
    | _ => []
    end.

(** The state inside the field [hero] of the operation [heroOp]. *)
Definition inHero : St :=
  enterSt (NField None "hero")
    (enterSt NSelectionSet (enterSt (NOperationDefinition heroOp) start)).

Definition heroDecoderRun : Outcome (ElmExpr * list string * St) :=
  Eval vm_compute in QueryToDecoder.walkSelectionSet heroMap 2 nameAndSpread [] inHero.

Definition heroDecoder : ElmExpr :=
  Eval vm_compute in
    match heroDecoderRun with Ok (e, _, _) => e | _ => MkElmExpr EmptyString end.

Definition heroDecoderEnd : St :=
  Eval vm_compute in match heroDecoderRun with Ok (_, _, s) => s | _ => start end.

Definition heroTypeRun : Outcome (list ElmFieldDecl * list string * option ElmType * St) :=
  Eval vm_compute in QueryToElm.walkSelectionSet heroMap 2 nameAndSpread inHero.

Definition heroFields : list ElmFieldDecl :=
  Eval vm_compute in match heroTypeRun with Ok (f, _, _, _) => f | _ => [] end.

Definition heroTypeEnd : St :=
  Eval vm_compute in match heroTypeRun with Ok (_, _, _, s) => s | _ => start end.

Definition twiceTypeRun : Outcome (list ElmFieldDecl * list string * option ElmType * St) :=
  Eval vm_compute in QueryToElm.walkSelectionSet heroMap 2 nameTwice inHero.

Definition twiceFields : list ElmFieldDecl :=
  Eval vm_compute in match twiceTypeRun with Ok (f, _, _, _) => f | _ => [] end.

Definition twiceTypeEnd : St :=
  Eval vm_compute in match twiceTypeRun with Ok (_, _, _, s) => s | _ => start end.

Definition twiceDecoderRun : Outcome (ElmExpr * list string * St) :=
  Eval vm_compute in QueryToDecoder.walkSelectionSet heroMap 2 nameTwice [] inHero.

Definition twiceDecoder : ElmExpr :=
  Eval vm_compute in
    match twiceDecoderRun with Ok (e, _, _) => e | _ => MkElmExpr EmptyString end.

Definition twiceDecoderEnd : St :=
  Eval vm_compute in match twiceDecoderRun with Ok (_, _, s) => s | _ => start end.

(** The state inside the selection set of the operation [heroOp], and the
    field [hero] of its record type. *)
Definition inHeroOp : St :=
  enterSt NSelectionSet (enterSt (NOperationDefinition heroOp) start).

Definition heroFieldRun : Outcome (ElmFieldDecl * St) :=
  Eval vm_compute in
    QueryToElm.walkField (QueryToElm.walkSelectionSet heroMap 3) None "hero"
      (Some nameAndSpread) inHeroOp.

Definition heroField : ElmFieldDecl :=
  Eval vm_compute in
    match heroFieldRun with
    | Ok (f, _) => f
    | _ => MkElmFieldDecl EmptyString (ElmTypeName EmptyString)
    end.

Definition heroFieldEnd : St :=
  Eval vm_compute in match heroFieldRun with Ok (_, s) => s | _ => start end.

Definition heroNamesRun : Outcome (list string * St) :=
  Eval vm_compute in QueryToDecoder.getSelectionSetFields heroMap 2 nameAndSpread inHero.

Definition heroNamesEnd : St :=
  Eval vm_compute in match heroNamesRun with Ok (_, s) => s | _ => start end.

End Example.

(** ** Vocabulary of the further properties *)

(** The names that [elmSafeName] remaps: the [case] labels of its
    [switch]. *)
Definition reservedNames : list string :=
  ["__typename"; "type"; "Task"; "List"; "Http"; "GraphQL"].

(** The types that [typeToElm] maps: no union is met on the way down, and an
    enum has a name to capitalise. *)
Fixpoint mappable (t : GraphQLType) : bool :=
  let fieldsMappable :=
    fix fieldsMappable (fs : list (string * GraphQLType)) : bool :=
      match fs with
      | [] => true
      | (_, fieldType) :: rest => mappable fieldType && fieldsMappable rest
      end in
  match t with
  | GraphQLScalarType _ => true
  | GraphQLEnumType name _ => negb (String.length name =? 0)%nat
  | GraphQLObjectType _ fs | GraphQLInterfaceType _ fs | GraphQLInputObjectType _ fs =>
      fieldsMappable fs
  | GraphQLUnionType _ _ => false
  | GraphQLList o | GraphQLNonNull o => mappable o
  end.

(** An Elm type of the form [Maybe t]. *)
Definition isMaybeType (e : ElmType) : bool :=
  match e with
  | ElmTypeApp name [_] => String.eqb name "Maybe"
  | _ => false
  end.

Definition fieldDeclType (f : ElmFieldDecl) : ElmType :=
  match f with MkElmFieldDecl _ type => type end.

(** The declared fields of an object, interface or input object type. *)
Definition fieldsOf (t : GraphQLType) : option (list (string * GraphQLType)) :=
  match t with
  | GraphQLObjectType _ fs | GraphQLInterfaceType _ fs | GraphQLInputObjectType _ fs => Some fs
  | _ => None
  end.

(** One iteration of the loop of [typeToElm] over the fields of a type. *)
Definition fieldToElm (f : string * GraphQLType) : Outcome ElmFieldDecl :=
  (t <- typeToElm (snd f) false ;; Ok (MkElmFieldDecl (elmSafeName (fst f)) t))%outcome.


(** *** The encoder of an input type

    [encodable t]: the input types on which [encoderForInputType] has a
    case: scalars, enums whose values have a name, input objects and lists
    of them, each possibly non-null, a non-null type not being wrapped
    again. *)
Fixpoint encodable (t : GraphQLType) : bool :=
  let fieldsEncodable :=
    fix fieldsEncodable (fs : list (string * GraphQLType)) : bool :=
      match fs with
      | [] => true
      | (_, fieldType) :: rest => encodable fieldType && fieldsEncodable rest
      end in
  match t with
  | GraphQLScalarType _ => true
  | GraphQLEnumType _ values => forallb (fun v => negb (String.length v =? 0)%nat) values
  | GraphQLInputObjectType _ fs => fieldsEncodable fs
  | GraphQLList o => encodable o
  | GraphQLNonNull o => negb (isNonNullType o) && encodable o
  | GraphQLObjectType _ _ | GraphQLInterfaceType _ _ | GraphQLUnionType _ _ => false
  end.

(** The entry of one field in the encoder of an input object found at
    [value]. *)
Definition fieldEncoder (value : option string) (f : string * GraphQLType) : Outcome string :=
  (e <- QueryToElm.encoderForInputType (snd f) false (Some (Js.str value ++ "." ++ fst f)%string) ;;
   Ok ("(" ++ dq ++ fst f ++ dq ++ ", " ++ e ++ ")")%string)%outcome.

(** The entry of one value in the table of the encoder of an enum, and the
    case of one value in the decoder of an enum. *)
Definition encoderTuple (cv : string * string) : string :=
  ("(" ++ dq ++ fst cv ++ dq ++ ", " ++ dq ++ snd cv ++ dq ++ ")")%string.

Definition decoderCase (cv : string * string) : string :=
  ("            " ++ dq ++ snd cv ++ dq ++ " -> succeed " ++ fst cv)%string.

(** The encoder of an enum applied to [value]: the constructor is printed
    and looked up in the table. *)
Definition enumEncoder (table : list (string * string)) (value : string) : string :=
  ("Json.Encode.string <| Maybe.withDefault " ++ dq ++ dq
   ++ " <| Maybe.map Tuple.second <| List.head <| (\s -> List.filter (Tuple.first >> (==)(s)) "
   ++ "[" ++ Js.join "," (map encoderTuple table) ++ "]" ++ " ) <| toString " ++ value)%string.

(** The body of the decoder of an enum. *)
Definition enumDecoder (name : string) (table : list (string * string)) : string :=
  ("string |> andThen (\s ->" ++ nl
   ++ "        case s of" ++ nl
   ++ Js.join nl (map decoderCase table) ++ nl
   ++ "            _ -> fail " ++ dq ++ "Unknown " ++ name ++ dq ++ ")")%string.

(** The text that [encoderForInputType] builds for a type without its
    non-null wrapper: the value is found at [value]. *)
Definition encoderCore (type : GraphQLType) (value : option string) : Outcome string :=
  match type with
  | GraphQLInputObjectType _ fields =>
      (fieldEncoders <- omap (fieldEncoder value) fields ;;
       Ok ("(Json.Encode.object [" ++ Js.join ", " fieldEncoders ++ "])")%string)%outcome
  | GraphQLList ofType =>
      (e <- QueryToElm.encoderForInputType ofType true (Some "x") ;;
       Ok ("(Json.Encode.list (List.map (\x -> " ++ e ++ ") " ++ Js.str value ++ "))")%string)%outcome
  | GraphQLScalarType name => Ok (QueryToElm.scalarEncoder name ++ Js.str value)%string
  | GraphQLEnumType name values =>
      (ctors <- omap (QueryToElm.enumCtor name) values ;;
       Ok (enumEncoder (combine ctors values) (Js.str value)))%outcome
  | other => Throw (JsError ("not implemented: " ++ constructorName other))
  end.

(** The first [n] type parameters of a union declaration. *)
Definition typeParameters (n : nat) : list string := firstn n alphabet.


(** ** More sample types *)

Module Sample.

(** [input ReviewInput { stars: Int!  commentary: String  tags: [String!]
    episode: Episode }] *)
Definition ReviewInput : GraphQLType :=
  GraphQLInputObjectType "ReviewInput"
    [("stars", GraphQLNonNull Example.Int); ("commentary", Example.Str);
     ("tags", GraphQLList (GraphQLNonNull Example.Str)); ("episode", Example.Episode)].

(** [$stars: Int! = 3] and [$review: ReviewInput = {...}]. *)
Definition starsParameter : QueryToElm.OperationParameter :=
  QueryToElm.MkParameter "stars" (ElmTypeName "Int") (GraphQLNonNull Example.Int) true.

Definition reviewParameter : QueryToElm.OperationParameter :=
  QueryToElm.MkParameter "review" (ElmTypeName "ReviewInput") ReviewInput true.

Definition starsEntry : string :=
  Eval vm_compute in
    match QueryToElm.parameterEncoder starsParameter with Ok e => e | _ => EmptyString end.

Definition reviewEntry : string :=
  Eval vm_compute in
    match QueryToElm.parameterEncoder reviewParameter with Ok e => e | _ => EmptyString end.

Definition episodeEnum : EnumT := MkEnum "Episode" ["NEWHOPE"; "EMPIRE"; "JEDI"].

Definition episodeType : ElmDecl :=
  Eval vm_compute in
    match QueryToElm.walkEnum episodeEnum with Ok d => d | _ => ElmTypeDecl EmptyString [] end.

Definition searchUnion : UnionT := MkUnion "SearchResult" [Example.Human; Example.Droid].

End Sample.


(** ** The structure of a document

    Induction over a selection, with the hypothesis on the selections
    nested in it. *)
Section SelectionInduction.

Variable P : Selection -> Prop.
Hypothesis HField :
  forall alias name selectionSet,
    match selectionSet with Some sels => Forall P sels | None => True end ->
    P (Field alias name selectionSet).
Hypothesis HSpread : forall name, P (FragmentSpread name).
Hypothesis HInline :
  forall typeCondition sels, Forall P sels -> P (InlineFragment typeCondition sels).

Fixpoint Selection_induction (sel : Selection) : P sel :=
  let selsOk :=
    fix selsOk (sels : list Selection) : Forall P sels :=
      match sels with
      | [] => Forall_nil _
      | s :: r => Forall_cons s (Selection_induction s) (selsOk r)
      end in
  match sel with
  | Field alias name selectionSet =>
      HField alias name selectionSet
        match selectionSet with
        | Some sels => selsOk sels
        | None => I
        end
  | FragmentSpread name => HSpread name
  | InlineFragment typeCondition sels => HInline typeCondition (selsOk sels)
  end.

End SelectionInduction.

(** The names of the fragments spread in a selection, at any depth, in the
    order of the text. *)
Fixpoint spreadsOfSelection (sel : Selection) : list string :=
  let spreadsOfSelections :=
    fix spreadsOfSelections (sels : list Selection) : list string :=
      match sels with
      | [] => []
      | s :: r => spreadsOfSelection s ++ spreadsOfSelections r
      end in
  match sel with
  | Field _ _ (Some sels) => spreadsOfSelections sels
  | Field _ _ None => []
  | FragmentSpread name => [name]
  | InlineFragment _ sels => spreadsOfSelections sels
  end.

Definition spreadsOfSelectionSet (sels : SelectionSet) : list string :=
  flat_map spreadsOfSelection sels.

Definition selectionSetOf (def : Definition_) : SelectionSet :=
  match def with
  | OperationDef d => opSelectionSet d
  | FragmentDef d => fragSelectionSet d
  end.

Definition spreadsOfDocument (doc : Document) : list string :=
  flat_map (fun def => spreadsOfSelectionSet (selectionSetOf def)) doc.

(** The fragment definitions of a document, in the order of the text. *)
Definition fragmentDefinitionsOf (doc : Document) : list FragmentDefinition :=
  flat_map (fun def => match def with
                       | FragmentDef d => [d]
                       | OperationDef _ => []
                       end) doc.

(** What a visitor that looks at fragment definitions, or at fragment
    spreads, sees of an event. *)
Definition definitionEntered (ev : VisitEvent) : list FragmentDefinition :=
  match ev with
  | Enter (NFragmentDefinition def) => [def]
  | _ => []
  end.

Definition spreadEntered (ev : VisitEvent) : list string :=
  match ev with
  | Enter (NFragmentSpread name) => [name]
  | _ => []
  end.

(** What [queryFragments] does on entering the spread of the fragment
    [name], with [fuel] for the fragment. *)
Definition spreadStep (m : FragmentDefinitionMap) (fuel : nat)
    (acc : Outcome SeenFragmentMap) (name : string) : Outcome SeenFragmentMap :=
  (fragments <- acc ;;
   match Js.read m name with
   | Js.Own frag =>
       QueryToElm.queryFragments m fuel (fragSelectionSet frag) (Js.set fragments name (Js.Own frag))
   | Js.Inherited => Ok (Js.set fragments name Js.Inherited)
   | Js.Undefined => Throw (TypeError "Cannot read property 'selectionSet' of undefined")
   end)%outcome.


(** In a text that is single spaced, a white-space character is a space
    and follows a character that is not white space; [prevSpace] tells that
    the character before the text is white space. *)
Fixpoint singleSpaced (prevSpace : bool) (s : string) : bool :=
  match s with
  | EmptyString => true
  | String c r =>
      match Js.spaceLength (String c r) with
      | O => singleSpaced false r
      | S _ => Ascii.eqb c " " && negb prevSpace && singleSpaced true r
      end
  end.

(** The bytes of a text that belong to no white-space character; [skip]
    counts the bytes that are left of the white-space character being
    read. *)
Fixpoint inkFrom (skip : nat) (s : string) : string :=
  match s with
  | EmptyString => EmptyString
  | String c r =>
      match skip with
      | S k => inkFrom k r
      | O =>
          match Js.spaceLength (String c r) with
          | O => String c (inkFrom 0 r)
          | S k => inkFrom k r
          end
      end
  end.

Definition inkOf (s : string) : string := inkFrom 0 s.

(** A text with white space of one, two and three bytes: [a], U+00A0,
    U+00A0, a line feed, U+2028, [b]. *)
Definition spacedText : string :=
  String "a" (String (ascii_of_nat 194) (String (ascii_of_nat 160)
    (String (ascii_of_nat 194) (String (ascii_of_nat 160)
      (String (ascii_of_nat 10)
        (String (ascii_of_nat 226) (String (ascii_of_nat 128) (String (ascii_of_nat 168)
          (String "b" EmptyString))))))))).

Module Cycle.

(** [fragment F on Character { name ...F }]: a fragment that spreads
    itself. *)
Definition fragF : FragmentDefinition :=
  MkFragmentDefinition "F" "Character" [Field None "name" None; FragmentSpread "F"].

Definition map : FragmentDefinitionMap :=
  Eval vm_compute in
    QueryToElm.buildFragmentDefinitionMap [FragmentDef fragF].

End Cycle.


(** *** The type tracker

    [leaveSt n s] is the state after [info.leave(n)]; a computation
    [restores] the state when a successful run ends in the state in which it
    began, and [leaves n] when it ends in that state after
    [info.leave(n)]. *)

Definition leaveSt (n : Node) (s : St) : St :=
  MkSt (TypeInfo.leave (info s) n) (expose s).

Definition restores {A} (m : M A) : Prop :=
  forall s r s', m s = Ok (r, s') -> s' = s.

Definition leaves {A} (n : Node) (m : M A) : Prop :=
  forall s r s', m s = Ok (r, s') -> s' = leaveSt n s.

(** [grows s s']: from [s] to [s'] the schema and the stack of parent types
    of the tracker are kept, and its stack of types has only been pushed
    on. *)
Definition grows (s s' : St) : Prop :=
  TypeInfo.schema (info s') = TypeInfo.schema (info s)
  /\ TypeInfo.parentTypeStack (info s') = TypeInfo.parentTypeStack (info s)
  /\ exists leaked, TypeInfo.typeStack (info s') = leaked ++ TypeInfo.typeStack (info s).

Definition growing {A} (m : M A) : Prop :=
  forall s r s', m s = Ok (r, s') -> grows s s'.

(** A computation that, after a growing part, leaves the node [n] and
    goes on growing. *)
Definition leavesGrowing {A} (n : Node) (m : M A) : Prop :=
  forall s r s', m s = Ok (r, s') -> exists s1, grows s s1 /\ grows (leaveSt n s1) s'.

(** The type of the field [name] of the type in scope in state [s], as the
    tracker finds it on entering the field inside the selection set. *)
Definition fieldTypeInScope (s : St) (name : string) : option GraphQLType :=
  TypeInfo.getType (info (enterSt (NField None name) (enterSt NSelectionSet s))).

(** The root type of the schema for a kind of operation. *)
Definition rootTypeOf (schema : GraphQLSchema) (o : OperationType) : option GraphQLType :=
  match o with
  | query => queryType schema
  | mutation => mutationType schema
  | subscription => subscriptionType schema
  end.


Module Sample2.

(** [query Q { hero { appearsIn name } }]: a leaf field whose type is a
    nullable list, and one whose type is a nullable scalar. *)
Definition appearsInType : Outcome (ElmFieldDecl * St) :=
  Eval vm_compute in
    QueryToElm.walkField (QueryToElm.walkSelectionSet Example.heroMap 2)
      None "appearsIn" None (enterSt NSelectionSet Example.inHero).

Definition appearsInField : ElmFieldDecl :=
  Eval vm_compute in
    match appearsInType with Ok (f, _) => f | _ => MkElmFieldDecl EmptyString (ElmTypeName EmptyString) end.

Definition appearsInDecoderRun : Outcome (ElmExpr * St) :=
  Eval vm_compute in
    QueryToDecoder.walkField Example.heroMap (QueryToDecoder.walkSelectionSet Example.heroMap 2)
      (QueryToDecoder.getSelectionSetFields Example.heroMap 2)
      None "appearsIn" None (enterSt NSelectionSet Example.inHero).

Definition appearsInDecoder : ElmExpr :=
  Eval vm_compute in
    match appearsInDecoderRun with Ok (e, _) => e | _ => MkElmExpr EmptyString end.

(** [query Q { hero { nickname } }]: the type Character has no field
    [nickname]. *)
Definition unknownOp : OperationDefinition :=
  MkOperationDefinition query (Some "Q") []
    [Field None "hero" (Some [Field None "name" None; Field None "nickname" None])].

Definition unknownDoc : Document := [OperationDef unknownOp].

(** [query Q { __schema { queryType { name } } }]: the introspection entry
    point is a field of the query type. *)
Definition metaOp : OperationDefinition :=
  MkOperationDefinition query (Some "Q") []
    [Field None "__schema" (Some [Field None "queryType" (Some [Field None "name" None])])].

Definition metaDoc : Document := [OperationDef metaOp].

(** [mutation Rename { hero { name } }]: the sample schema has no mutation
    type. *)
Definition renameOp : OperationDefinition :=
  MkOperationDefinition mutation (Some "Rename") []
    [Field None "hero" (Some [Field None "name" None])].

Definition renameDoc : Document := [FragmentDef Example.fragF; OperationDef renameOp].

End Sample2.

Module Sample3.

(** [query HeroByEpisode($episode: Episode, $limit: Int = 3) { hero { name } }] *)
Definition byEpisodeOp : OperationDefinition :=
  MkOperationDefinition query (Some "heroByEpisode")
    [MkVariableDefinition "episode" (NamedType "Episode") None;
     MkVariableDefinition "limit" (NamedType "Int") (Some "3")]
    [Field None "hero" (Some [Field None "name" None])].

Definition byEpisodeRun : Outcome (list ElmDecl * St) :=
  Eval vm_compute in
    QueryToElm.walkOperationDefinition [OperationDef byEpisodeOp] Example.schema "GET" true
      Example.print [] 3 byEpisodeOp Example.start.

Definition byEpisodeDecls : list ElmDecl :=
  Eval vm_compute in match byEpisodeRun with Ok (d, _) => d | _ => [] end.

Definition byEpisodeEnd : St :=
  Eval vm_compute in match byEpisodeRun with Ok (_, s) => s | _ => Example.start end.

(** [fragment withFriend on Character { id type: name ...F }] *)
Definition withFriend : FragmentDefinition :=
  MkFragmentDefinition "withFriend" "Character"
    [Field None "id" None; Field (Some "type") "name" None; FragmentSpread "F"].

Definition withFriendRun : Outcome (list ElmDecl * St) :=
  Eval vm_compute in
    QueryToElm.walkFragmentDefinition Example.heroMap 3 withFriend Example.start.

Definition withFriendDecls : list ElmDecl :=
  Eval vm_compute in match withFriendRun with Ok (d, _) => d | _ => [] end.

End Sample3.

Module Sample4.

(** [fragment withType on Character { id type: name }] and its decoder. *)
Definition withType : FragmentDefinition :=
  MkFragmentDefinition "withType" "Character"
    [Field None "id" None; Field (Some "type") "name" None; Field None "id" None].

Definition withTypeRun : Outcome (ElmExpr * St) :=
  Eval vm_compute in QueryToDecoder.decoderForFragment Example.heroMap 3 withType Example.start.

Definition withTypeDecoder : ElmExpr :=
  Eval vm_compute in match withTypeRun with Ok (e, _) => e | _ => MkElmExpr EmptyString end.

(** The type of the field [search] of the operation [searchOp]. *)
Definition searchTypeRun : Outcome (ElmType * St) :=
  Eval vm_compute in
    let m := QueryToElm.buildFragmentDefinitionMap Example.searchDoc in
    QueryToElm.walkUnionSelectionSet m (QueryToElm.walkSelectionSet m 2)
      Example.branchesWithTypename
      (enterSt NSelectionSet (enterSt (NField None "search") Example.inQuery)).

Definition searchType : ElmType :=
  Eval vm_compute in match searchTypeRun with Ok (t, _) => t | _ => ElmTypeName EmptyString end.

End Sample4.

Module Sample5.

(** The field [friends { name }] of a hero: a nullable list of objects. *)
Definition friendsTypeRun : Outcome (ElmFieldDecl * St) :=
  Eval vm_compute in
    QueryToElm.walkField (QueryToElm.walkSelectionSet Example.heroMap 2)
      None "friends" (Some [Field None "name" None]) (enterSt NSelectionSet Example.inHero).

Definition friendsField : ElmFieldDecl :=
  Eval vm_compute in
    match friendsTypeRun with
    | Ok (f, _) => f
    | _ => MkElmFieldDecl EmptyString (ElmTypeName EmptyString)
    end.

Definition friendsDecoderRun : Outcome (ElmExpr * St) :=
  Eval vm_compute in
    QueryToDecoder.walkField Example.heroMap (QueryToDecoder.walkSelectionSet Example.heroMap 2)
      (QueryToDecoder.getSelectionSetFields Example.heroMap 2)
      None "friends" (Some [Field None "name" None]) (enterSt NSelectionSet Example.inHero).

Definition friendsDecoder : ElmExpr :=
  Eval vm_compute in
    match friendsDecoderRun with Ok (e, _) => e | _ => MkElmExpr EmptyString end.

End Sample5.


(** *** What the collections assign

    [enumsOfType type seenTypes]: the enums that [collectEnumsForType]
    assigns to the seen enums, in order, and the types seen after it. *)
Fixpoint enumsOfType (type : GraphQLType) (seenTypes : GraphQLTypeMap) {struct type}
  : list EnumT * GraphQLTypeMap :=
  match type with
  | GraphQLEnumType name values => ([MkEnum name values], seenTypes)
  | GraphQLList ofType => enumsOfType ofType seenTypes
  | GraphQLObjectType name fieldMap
  | GraphQLInterfaceType name fieldMap
  | GraphQLInputObjectType name fieldMap =>
      if Js.truthy seenTypes name then ([], seenTypes)
      else fold_left (fun acc f =>
                        let '(es, seenTypes1) := enumsOfType (snd f) (snd acc) in
                        (fst acc ++ es, seenTypes1))
             fieldMap ([], Js.set seenTypes name type)
  | GraphQLNonNull ofType => enumsOfType ofType seenTypes
  | _ => ([], seenTypes)
  end.

(** The enums that the visit of [collectEnums] assigns from the tracker [i]
    on, and the unions that the visit of [collectUnions] assigns. *)
Fixpoint enumsFrom (i : TypeInfo.t) (evs : list VisitEvent) : list EnumT :=
  match evs with
  | [] => []
  | Enter node :: r =>
      let i' := TypeInfo.enter i node in
      match node, TypeInfo.getType i' with
      | NField _ _, Some type => fst (enumsOfType type [])
      | _, _ => []
      end ++ enumsFrom i' r
  | Leave node :: r => enumsFrom (TypeInfo.leave i node) r
  end.

Fixpoint unionsFrom (i : TypeInfo.t) (evs : list VisitEvent) : list UnionT :=
  match evs with
  | [] => []
  | Enter node :: r =>
      match unwrapType (TypeInfo.getType i) with
      | Some (GraphQLUnionType name types) => [MkUnion name types]
      | _ => []
      end ++ unionsFrom (TypeInfo.enter i node) r
  | Leave node :: r => unionsFrom (TypeInfo.leave i node) r
  end.

(** The assignments [o[key x] = val x] for the [xs] in order. *)
Definition assignAll {V X} (key : X -> string) (val : X -> V) (xs : list X) (o : Js.Obj V)
  : Js.Obj V :=
  fold_left (fun o x => Js.set o (key x) (val x)) xs o.

(** The names that the translation of a definition exposes, and those
    exposed for a fragment that is spread. *)
Definition exposedByDefinition (def : Definition_) : Outcome (list string) :=
  match def with
  | OperationDef d =>
      match operation d with
      | subscription => Ok []
      | _ =>
          (funcName <- Js.lowerFirst (QueryToDecoder.nameOf d) ;;
           resultType <- Js.upperFirst (QueryToDecoder.nameOf d) ;;
           Ok [funcName; resultType])%outcome
      end
  | FragmentDef _ => Ok []
  end.

Definition exposedByFragment (fragName : string) : Outcome (list string) :=
  (fragTypeName <- Js.upperFirst fragName ;;
   Ok [fragTypeName; (fragTypeName ++ "_")%string])%outcome.

Definition exposeAll (name : string) : string := (name ++ "(..)")%string.

(** The key under which [walkUnionSelectionSet] stores the type of a
    branch: the type condition of an inline fragment, the name of a fragment
    that is spread. *)
Definition branchKeys (selSet : SelectionSet) : list string :=
  flat_map (fun sel => match sel with
                       | InlineFragment (Some typeCondition) _ => [typeCondition]
                       | InlineFragment None _ => []
                       | FragmentSpread name => [name]
                       | Field _ _ _ => []
                       end) selSet.

(** The wrapping of the type, and of the decoder, of a field that has a
    selection set: a list when the type of the field is one, under an
    optional when it is not a non-null type. *)
Definition wrapListMaybe (isMaybe isList : bool) (t : ElmType) : ElmType :=
  let t1 := if isList then ElmTypeApp "List" [t] else t in
  if isMaybe then ElmTypeApp "Maybe" [t1] else t1.

Definition wrapListMaybeDecoder (isMaybe isList : bool) (d : string) : string :=
  let d1 := if isList then ("(list " ++ d ++ ")")%string else d in
  if isMaybe then ("(maybe " ++ d1 ++ ")")%string else d1.

(** ** The types of a schema as objects that refer to one another

    In a schema a type may refer to itself through its fields
    ([friends: [Character]], [and: [Filter!]]): a field holds a reference to
    the type object, and the two functions that descend through all the
    fields of a type, [typeToElm] and [encoderForInputType], follow the
    references for as long as there are fields. In this module a reference
    to a named type is its name in the type map of the schema, the functions
    look the name up each time they meet it, and the fuel bounds the depth
    of the calls: on a type that refers to itself the calls nest until the
    stack is exhausted, and no fuel is enough. A [GraphQLType] is the
    complete unfolding of a type that has one. *)

Module ByRef.

Inductive TypeRef : Type :=
| Named (name : string)
| ListOf (ofType : TypeRef)
| NonNullOf (ofType : TypeRef).

Inductive TypeDef : Type :=
| ScalarDef
| EnumDef (values : list string)
| ObjectDef (fields : list (string * TypeRef))
| InterfaceDef (fields : list (string * TypeRef))
| InputObjectDef (fields : list (string * TypeRef))
| UnionDef (types : list string).

(** The named types of a schema, by name. *)
Definition TypeMap : Type := list (string * TypeDef).

Fixpoint deref (g : TypeMap) (name : string) : option TypeDef :=
  match g with
  | [] => None
  | (n, d) :: rest => if String.eqb name n then Some d else deref rest name
  end.

Definition isList (t : TypeRef) : bool :=
  match t with ListOf _ => true | _ => false end.
Definition isNonNullType (t : TypeRef) : bool :=
  match t with NonNullOf _ => true | _ => false end.

(** [getNamedType]: the name under the wrappers. *)
Fixpoint namedType (t : TypeRef) : string :=
  match t with
  | Named name => name
  | ListOf o | NonNullOf o => namedType o
  end.

(** [type.getFields()] of the type of that name. *)
Definition fieldsAt (g : TypeMap) (name : string) : option (list (string * TypeRef)) :=
  match deref g name with
  | Some (ObjectDef fs) | Some (InterfaceDef fs) | Some (InputObjectDef fs) => Some fs
  | _ => None
  end.

Fixpoint allSome {A B} (f : A -> option B) (l : list A) : option (list B) :=
  match l with
  | [] => Some []
  | x :: r =>
      match f x, allSome f r with
      | Some y, Some ys => Some (y :: ys)
      | _, _ => None
      end
  end.

(** The unfolding of a type, when [fuel] levels are enough to reach the
    scalars and enums at its leaves. *)
Fixpoint unfold (g : TypeMap) (fuel : nat) (r : TypeRef) : option GraphQLType :=
  match fuel with
  | O => None
  | S fuel =>
      let fields (fs : list (string * TypeRef)) :=
        allSome (fun f => option_map (pair (fst f)) (unfold g fuel (snd f))) fs in
      match r with
      | ListOf o => option_map GraphQLList (unfold g fuel o)
      | NonNullOf o => option_map GraphQLNonNull (unfold g fuel o)
      | Named name =>
          match deref g name with
          | Some ScalarDef => Some (GraphQLScalarType name)
          | Some (EnumDef values) => Some (GraphQLEnumType name values)
          | Some (ObjectDef fs) => option_map (GraphQLObjectType name) (fields fs)
          | Some (InterfaceDef fs) => option_map (GraphQLInterfaceType name) (fields fs)
          | Some (InputObjectDef fs) => option_map (GraphQLInputObjectType name) (fields fs)
          | Some (UnionDef names) =>
              option_map (GraphQLUnionType name)
                (allSome (fun n => unfold g fuel (Named n)) names)
          | None => None
          end
      end
  end.

(** The closing [if] of [typeToElm]. *)
Definition wrapMaybe (isNonNull : bool) (type : TypeRef) (elmType : ElmType) : ElmType :=
  if negb isNonNull && negb (isList type) && negb (isNonNullType type)
  then ElmTypeApp "Maybe" [elmType]
  else elmType.

(** [typeToElm] (query-to-elm.ts) on the type objects. A name that the type
    map does not hold stands for no object: [undefined.constructor]. *)
Fixpoint typeToElm (g : TypeMap) (fuel : nat) (type : TypeRef) (isNonNull : bool)
    {struct fuel} : Outcome ElmType :=
  match fuel with
  | O => OutOfFuel
  | S fuel =>
      let record (fieldMap : list (string * TypeRef)) :=
        (fields <- omap (fun f =>
                           t <- typeToElm g fuel (snd f) false ;;
                           Ok (MkElmFieldDecl (elmSafeName (fst f)) t)) fieldMap ;;
         Ok (ElmTypeRecord fields None))%outcome in
      (elmType <-
         match type with
         | NonNullOf ofType => typeToElm g fuel ofType true
         | ListOf ofType =>
             (t <- typeToElm g fuel ofType true ;; Ok (ElmTypeApp "List" [t]))
         | Named name =>
             match deref g name with
             | Some ScalarDef => Ok (scalarToElm name)
             | Some (EnumDef _) => (n <- Js.upperFirst name ;; Ok (ElmTypeName n))
             | Some (ObjectDef fieldMap) => record fieldMap
             | Some (InterfaceDef fieldMap) => record fieldMap
             | Some (InputObjectDef fieldMap) => record fieldMap
             | Some (UnionDef _) => Throw (JsError "Unexpected: GraphQLUnionType")
             | None => Throw (TypeError "Cannot read property 'constructor' of undefined")
             end
         end ;;
       Ok (wrapMaybe isNonNull type elmType))%outcome
  end.

(** [encoderForInputType] (query-to-elm.ts) on the type objects. *)
Fixpoint encoderForInputType (g : TypeMap) (fuel : nat) (type : TypeRef) (isNonNull : bool)
    (path : option string) {struct fuel} : Outcome string :=
  match fuel with
  | O => OutOfFuel
  | S fuel =>
      let isMaybe := negb (isNonNullType type) in
      let value := if isMaybe then Some "o" else path in
      let type' := match type with NonNullOf ofType => ofType | _ => type end in
      (encoder <-
         match type' with
         | ListOf ofType =>
             e <- encoderForInputType g fuel ofType true (Some "x") ;;
             Ok ("(Json.Encode.list (List.map (\x -> " ++ e ++ ") " ++ Js.str value ++ "))")%string
         | NonNullOf _ => Throw (JsError "not implemented: GraphQLNonNull")
         | Named name =>
             match deref g name with
             | Some (InputObjectDef fields) =>
                 fieldEncoders <-
                   omap (fun f =>
                           let valuePath := (Js.str value ++ "." ++ fst f)%string in
                           e <- encoderForInputType g fuel (snd f) false (Some valuePath) ;;
                           Ok ("(" ++ dq ++ fst f ++ dq ++ ", " ++ e ++ ")")%string) fields ;;
                 Ok ("(Json.Encode.object [" ++ Js.join ", " fieldEncoders ++ "])")%string
             | Some ScalarDef => Ok (QueryToElm.scalarEncoder name ++ Js.str value)%string
             | Some (EnumDef values) =>
                 tuples <- omap (fun v =>
                             c <- QueryToElm.enumCtor name v ;;
                             Ok ("(" ++ dq ++ c ++ dq ++ ", " ++ dq ++ v ++ dq ++ ")")%string) values ;;
                 let map := ("[" ++ Js.join "," tuples ++ "]")%string in
                 Ok ("Json.Encode.string <| Maybe.withDefault " ++ dq ++ dq
                       ++ " <| Maybe.map Tuple.second <| List.head <| (\s -> List.filter (Tuple.first >> (==)(s)) "
                       ++ map ++ " ) <| toString " ++ Js.str value)%string
             | Some (ObjectDef _) => Throw (JsError "not implemented: GraphQLObjectType")
             | Some (InterfaceDef _) => Throw (JsError "not implemented: GraphQLInterfaceType")
             | Some (UnionDef _) => Throw (JsError "not implemented: GraphQLUnionType")
             | None => Throw (TypeError "Cannot read property 'constructor' of undefined")
             end
         end ;;
       Ok (if isMaybe
           then ("(maybeEncode (\o -> " ++ encoder ++ ") " ++ Js.str path ++ ")")%string
           else encoder))%outcome
  end.

(** The fields of a type as [unfold] goes through them. *)
Definition unfoldFields (g : TypeMap) (fuel : nat) (fs : list (string * TypeRef)) :
    option (list (string * GraphQLType)) :=
  allSome (fun f => option_map (pair (fst f)) (unfold g fuel (snd f))) fs.

(** The entry of one field in the encoder of an input object found at
    [value]. *)
Definition fieldEncoder (g : TypeMap) (fuel : nat) (value : option string)
    (f : string * TypeRef) : Outcome string :=
  (e <- encoderForInputType g fuel (snd f) false (Some (Js.str value ++ "." ++ fst f)%string) ;;
   Ok ("(" ++ dq ++ fst f ++ dq ++ ", " ++ e ++ ")")%string)%outcome.

(** The text that [encoderForInputType] builds for a type without its
    non-null wrapper, the calls on the parts of the type having [fuel]. *)
Definition encoderCore (g : TypeMap) (fuel : nat) (type : TypeRef) (value : option string) :
    Outcome string :=
  match type with
  | ListOf ofType =>
      (e <- encoderForInputType g fuel ofType true (Some "x") ;;
       Ok ("(Json.Encode.list (List.map (\x -> " ++ e ++ ") " ++ Js.str value ++ "))")%string)%outcome
  | NonNullOf _ => Throw (JsError "not implemented: GraphQLNonNull")
  | Named name =>
      match deref g name with
      | Some (InputObjectDef fields) =>
          (fieldEncoders <- omap (fieldEncoder g fuel value) fields ;;
           Ok ("(Json.Encode.object [" ++ Js.join ", " fieldEncoders ++ "])")%string)%outcome
      | Some ScalarDef => Ok (QueryToElm.scalarEncoder name ++ Js.str value)%string
      | Some (EnumDef values) =>
          (ctors <- omap (QueryToElm.enumCtor name) values ;;
           Ok (enumEncoder (combine ctors values) (Js.str value)))%outcome
      | Some (ObjectDef _) => Throw (JsError "not implemented: GraphQLObjectType")
      | Some (InterfaceDef _) => Throw (JsError "not implemented: GraphQLInterfaceType")
      | Some (UnionDef _) => Throw (JsError "not implemented: GraphQLUnionType")
      | None => Throw (TypeError "Cannot read property 'constructor' of undefined")
      end
  end.

(** Types of the Star Wars schema that refer to themselves, and one that
    does not. *)
Module Example.

(** [interface Character { id: ID!  name: String  friends: [Character]
    appearsIn: [Episode] }], [input ReviewInput { stars: Int!  commentary:
    String  tags: [String!]  episode: Episode }] and [input Filter { name:
    String  and: [Filter!] }]. *)
Definition types : TypeMap :=
  [("Int", ScalarDef); ("String", ScalarDef); ("ID", ScalarDef);
   ("Episode", EnumDef ["NEWHOPE"; "EMPIRE"; "JEDI"]);
   ("Character",
    InterfaceDef [("id", NonNullOf (Named "ID")); ("name", Named "String");
                  ("friends", ListOf (Named "Character"));
                  ("appearsIn", ListOf (Named "Episode"))]);
   ("ReviewInput",
    InputObjectDef [("stars", NonNullOf (Named "Int")); ("commentary", Named "String");
                    ("tags", ListOf (NonNullOf (Named "String")));
                    ("episode", Named "Episode")]);
   ("Filter",
    InputObjectDef [("name", Named "String");
                    ("and", ListOf (NonNullOf (Named "Filter")))])].

End Example.

End ByRef.

Unset Implicit Arguments.

(** * Properties *)

(** ** The state monad *)

Lemma bind_Ok_inv {A B} (m : M A) (k : A -> M B) (s : St) (r : B * St) :
  bind m k s = Ok r -> exists a s1, m s = Ok (a, s1) /\ k a s1 = Ok r.
Proof.
  unfold bind. destruct (m s) as [[a s1] | e |]; try discriminate.
  intros H. now exists a, s1.
Qed.

Lemma lift_Ok_inv {A} (o : Outcome A) (s : St) (a : A) (s' : St) :
  lift o s = Ok (a, s') -> o = Ok a /\ s' = s.
Proof.
  unfold lift. destruct o; try discriminate. intros H. now inversion H.
Qed.

Lemma obind_Ok_inv {A B} (m : Outcome A) (k : A -> Outcome B) (b : B) :
  obind m k = Ok b -> exists a, m = Ok a /\ k a = Ok b.
Proof. destruct m; simpl; try discriminate. intros H. now exists a. Qed.

(** Peel the first of the sequenced steps of a successful run [H]; the
    steps that only read or update the state are computed away. *)
Ltac peel H :=
  let a := fresh "a" in
  let s1 := fresh "s" in
  let H1 := fresh "Hs" in
  apply bind_Ok_inv in H as (a & s1 & H1 & H);
  first
    [ apply lift_Ok_inv in H1 as [H1 ->]; try (injection H1 as <-)
    | progress (unfold enter, leave, getType, exposePush, ret in H1);
      injection H1 as <- <-
    | idtac ].

(** The same, naming the value of the first step. *)
Tactic Notation "peel_as" hyp(H) simple_intropattern(p) :=
  let s1 := fresh "s" in
  let H1 := fresh "Hs" in
  apply bind_Ok_inv in H as (p & s1 & H1 & H);
  first
    [ apply lift_Ok_inv in H1 as [H1 ->]
    | idtac ].


(** ** Loops over a list *)

Lemma omap_ext {A B} (f g : A -> Outcome B) (l : list A) :
  (forall x, In x l -> f x = g x) -> omap f l = omap g l.
Proof.
  induction l as [| x r IH]; intros H; [reflexivity |].
  cbn [omap]. rewrite (H x (or_introl eq_refl)), IH; [reflexivity |].
  intros y Hy. apply H. now right.
Qed.

Lemma omap_length {A B} (f : A -> Outcome B) (l : list A) (r : list B) :
  omap f l = Ok r -> length r = length l.
Proof.
  revert r. induction l as [| x l IH]; intros r H; cbn [omap] in H.
  - now injection H as <-.
  - apply obind_Ok_inv in H as (y & _ & H). apply obind_Ok_inv in H as (ys & Hys & H).
    injection H as <-. cbn [length]. now rewrite (IH ys Hys).
Qed.

Lemma omap_Forall2 {A B} (f : A -> Outcome B) (l : list A) (r : list B) :
  omap f l = Ok r -> Forall2 (fun x y => f x = Ok y) l r.
Proof.
  revert r. induction l as [| x l IH]; intros r H; cbn [omap] in H.
  - injection H as <-. constructor.
  - apply obind_Ok_inv in H as (y & Hy & H). apply obind_Ok_inv in H as (ys & Hys & H).
    injection H as <-. constructor; auto.
Qed.

Lemma Forall2_compose {A B C} (P : A -> B -> Prop) (Q : B -> C -> Prop) (R : A -> C -> Prop)
    (xs : list A) (ys : list B) (zs : list C) :
  (forall x y z, P x y -> Q y z -> R x z) ->
  Forall2 P xs ys -> Forall2 Q ys zs -> Forall2 R xs zs.
Proof.
  intros H HP. revert zs. induction HP as [| x y xs ys Hxy _ IH]; intros zs HQ.
  - inversion HQ. constructor.
  - inversion HQ as [| ? z ? zs' Hyz HQ']; subst. constructor; eauto.
Qed.

(** ** Name sanitization *)

(** The remapped names are the six suffixed forms, and none of them is a key
    of the table. *)
Lemma elmSafeName_cases (s : string) :
  elmSafeName s = s \/
  In (elmSafeName s) ["typename_"; "type_"; "Task_"; "List_"; "Http_"; "GraphQL_"].
Proof.
  unfold elmSafeName.
  repeat match goal with
         | |- context [if String.eqb ?a ?b then _ else _] =>
             destruct (String.eqb a b); [right; simpl; tauto |]
         end.
  now left.
Qed.

(** C9: [elmSafeName] is idempotent: none of its remapped outputs is itself a
    key of the reserved-word table, so a second application changes
    nothing. *)
Theorem elmSafeName_idempotent (s : string) :
  elmSafeName (elmSafeName s) = elmSafeName s.
Proof.
  destruct (elmSafeName_cases s) as [E | H].
  - now rewrite E.
  - simpl in H.
    repeat (destruct H as [H | H]; [rewrite <- H; reflexivity |]).
    contradiction.
Qed.

(** ** The type mapping *)

Lemma typeToElm_NonNull (t : GraphQLType) (b : bool) :
  typeToElm (GraphQLNonNull t) b = typeToElm t true.
Proof.
  simpl. destruct (typeToElm t true); simpl; try reflexivity.
  unfold wrapMaybe. simpl. now rewrite !andb_false_r.
Qed.

Lemma typeToElm_List (t : GraphQLType) (b : bool) :
  typeToElm (GraphQLList t) b
  = obind (typeToElm t true) (fun e => Ok (ElmTypeApp "List" [e])).
Proof.
  simpl. destruct (typeToElm t true); simpl; try reflexivity.
  unfold wrapMaybe. simpl. now rewrite andb_false_r.
Qed.

Lemma typeToElm_Scalar (name : string) (b : bool) :
  typeToElm (GraphQLScalarType name) b
  = Ok (if b then scalarToElm name else ElmTypeApp "Maybe" [scalarToElm name]).
Proof. destruct b; reflexivity. Qed.

(** C1, as the code has it by design: [typeToElm] takes the element type of
    a list in non-null context, so the elements of a list are never put
    under [Maybe], whatever their nullability, and a non-null type maps as
    the type that it wraps does in non-null context. In non-null context a
    list maps to the [List] of its elements; the mapping of a list in
    nullable context is that [List], possibly under [Maybe]. So
    [NonNull(List(Int))] maps to [List Int], and [List Int] is the list that
    [List(NonNull(Int))] and the bare [List(Int)] map to. *)
Theorem typeToElm_list_nesting :
  (forall (t : GraphQLType) (b : bool),
      typeToElm (GraphQLNonNull t) b = typeToElm t true) /\
  (forall t : GraphQLType,
      typeToElm (GraphQLList t) true
      = obind (typeToElm t true) (fun e => Ok (ElmTypeApp "List" [e]))) /\
  (forall (t : GraphQLType) (r : ElmType),
      typeToElm (GraphQLList t) false = Ok r ->
      exists e, typeToElm t true = Ok e /\ possiblyMaybe (ElmTypeApp "List" [e]) r) /\
  (forall b : bool,
      typeToElm (GraphQLNonNull (GraphQLList (GraphQLScalarType "Int"))) b
      = Ok (ElmTypeApp "List" [ElmTypeName "Int"])) /\
  (forall b : bool,
      exists r, typeToElm (GraphQLList (GraphQLNonNull (GraphQLScalarType "Int"))) b = Ok r
                /\ possiblyMaybe (ElmTypeApp "List" [ElmTypeName "Int"]) r) /\
  (forall b : bool,
      exists r, typeToElm (GraphQLList (GraphQLScalarType "Int")) b = Ok r
                /\ possiblyMaybe (ElmTypeApp "List" [ElmTypeName "Int"]) r).
Proof.
  split; [exact typeToElm_NonNull |].
  split; [intros t; apply typeToElm_List |].
  split.
  { intros t r H. rewrite typeToElm_List in H. apply obind_Ok_inv in H as (e & He & H).
    injection H as <-. exists e. split; [exact He | now left]. }
  split; [intros b; now rewrite typeToElm_NonNull, typeToElm_List |].
  split; intros b; eexists; (split; [rewrite typeToElm_List; reflexivity | now left]).
Qed.

(** C1, as the specification words it, fails on the elements of a list:
    those of [NonNull(List(Int))] are not [Maybe Int], and the bare
    [List(Int)] is not mapped to [Maybe (List (Maybe Int))]. *)
Lemma typeToElm_list_nesting_counterexample :
  typeToElm (GraphQLList (GraphQLScalarType "Int")) false
    <> Ok (ElmTypeApp "Maybe" [ElmTypeApp "List" [ElmTypeApp "Maybe" [ElmTypeName "Int"]]])
  /\ typeToElm (GraphQLNonNull (GraphQLList (GraphQLScalarType "Int"))) false
    <> Ok (ElmTypeApp "List" [ElmTypeApp "Maybe" [ElmTypeName "Int"]]).
Proof. split; vm_compute; discriminate. Qed.

(** ** Scalars *)

Lemma scalarToElm_other (name : string) :
  isNumericOrBool name = false -> scalarToElm name = ElmTypeName "String".
Proof.
  unfold isNumericOrBool, scalarToElm. intros H.
  apply orb_false_elim in H as [H H3]. apply orb_false_elim in H as [H1 H2].
  rewrite H1, H2, H3.
  now repeat match goal with |- context [if ?c then _ else _] => destruct c end.
Qed.

Lemma scalarDecoder_other (name : string) :
  isNumericOrBool name = false -> QueryToDecoder.scalarDecoder name = "string".
Proof.
  unfold isNumericOrBool, QueryToDecoder.scalarDecoder. intros H.
  apply orb_false_elim in H as [H H3]. apply orb_false_elim in H as [H1 H2].
  rewrite H1, H2, H3.
  now repeat match goal with |- context [if ?c then _ else _] => destruct c end.
Qed.

Lemma scalarEncoder_other (name : string) :
  isNumericOrBool name = false -> QueryToElm.scalarEncoder name = "Json.Encode.string ".
Proof.
  unfold isNumericOrBool, QueryToElm.scalarEncoder. intros H.
  apply orb_false_elim in H as [H H3]. apply orb_false_elim in H as [H1 H2].
  rewrite H1, H2, H3.
  now repeat match goal with |- context [if ?c then _ else _] => destruct c end.
Qed.

(** C6: a scalar whose name is not Int, Float or Boolean (ID, DateTime,
    String or any other name) is mapped to the Elm type [String] (under
    [Maybe] exactly when it is nullable), decoded by the [string] decoder and
    encoded by [Json.Encode.string]; none of the three functions raises. *)
Theorem scalar_fallback_to_string (name : string) (path : string) :
  isNumericOrBool name = false ->
  typeToElm (GraphQLScalarType name) true = Ok (ElmTypeName "String") /\
  typeToElm (GraphQLNonNull (GraphQLScalarType name)) false = Ok (ElmTypeName "String") /\
  typeToElm (GraphQLScalarType name) false = Ok (ElmTypeApp "Maybe" [ElmTypeName "String"]) /\
  QueryToDecoder.leafTypeToDecoder (Some (GraphQLScalarType name)) = Ok "string" /\
  QueryToDecoder.leafTypeToDecoder (Some (GraphQLNonNull (GraphQLScalarType name))) = Ok "string" /\
  QueryToElm.encoderForInputType (GraphQLNonNull (GraphQLScalarType name)) true (Some path)
    = Ok ("Json.Encode.string " ++ path)%string /\
  QueryToElm.encoderForInputType (GraphQLScalarType name) true (Some path)
    = Ok ("(maybeEncode (\o -> Json.Encode.string o) " ++ path ++ ")")%string.
Proof.
  intros H.
  rewrite typeToElm_NonNull, !typeToElm_Scalar, (scalarToElm_other _ H).
  unfold QueryToDecoder.leafTypeToDecoder. simpl.
  rewrite (scalarDecoder_other _ H), (scalarEncoder_other _ H).
  repeat split; reflexivity.
Qed.

Lemma scalar_fallback_to_string_witness :
  typeToElm (GraphQLScalarType "DateTime") true = Ok (ElmTypeName "String") /\
  typeToElm (GraphQLNonNull (GraphQLScalarType "DateTime")) false = Ok (ElmTypeName "String") /\
  typeToElm (GraphQLScalarType "DateTime") false = Ok (ElmTypeApp "Maybe" [ElmTypeName "String"]) /\
  QueryToDecoder.leafTypeToDecoder (Some (GraphQLScalarType "DateTime")) = Ok "string" /\
  QueryToDecoder.leafTypeToDecoder (Some (GraphQLNonNull (GraphQLScalarType "DateTime"))) = Ok "string" /\
  QueryToElm.encoderForInputType (GraphQLNonNull (GraphQLScalarType "DateTime")) true (Some "params.at")
    = Ok "Json.Encode.string params.at" /\
  QueryToElm.encoderForInputType (GraphQLScalarType "DateTime") true (Some "params.at")
    = Ok "(maybeEncode (\o -> Json.Encode.string o) params.at)".
Proof. apply (scalar_fallback_to_string "DateTime" "params.at"). reflexivity. Defined.

(** ** The walkers leave the list of exposed names alone *)

Lemma keeps_ret {A} (a : A) : keepsExpose (ret a).
Proof. intros s r s' H. now inversion H. Qed.

Lemma keeps_throw {A} (e : Error) : keepsExpose (@throw A e).
Proof. intros s r s' H. discriminate. Qed.

Lemma keeps_outOfFuel {A} : keepsExpose (@outOfFuel A).
Proof. intros s r s' H. discriminate. Qed.

Lemma keeps_lift {A} (o : Outcome A) : keepsExpose (lift o).
Proof. intros s r s' H. now apply lift_Ok_inv in H as [_ ->]. Qed.

Lemma keeps_enter (n : Node) : keepsExpose (enter n).
Proof. intros s r s' H. now inversion H. Qed.

Lemma keeps_leave (n : Node) : keepsExpose (leave n).
Proof. intros s r s' H. now inversion H. Qed.

Lemma keeps_getType : keepsExpose getType.
Proof. intros s r s' H. now inversion H. Qed.

Lemma keeps_bind {A B} (m : M A) (k : A -> M B) :
  keepsExpose m -> (forall a, keepsExpose (k a)) -> keepsExpose (bind m k).
Proof.
  intros Hm Hk s r s' H. apply bind_Ok_inv in H as (a & s1 & H1 & H2).
  rewrite (Hk _ _ _ _ H2). eapply Hm; eauto.
Qed.

Lemma keeps_foldM {A B} (f : A -> B -> M A) (xs : list B) :
  (forall a x, keepsExpose (f a x)) -> forall acc, keepsExpose (foldM f acc xs).
Proof.
  intros Hf. induction xs as [| x r IH]; intros acc; simpl.
  - apply keeps_ret.
  - apply keeps_bind; auto.
Qed.

Ltac keeps :=
  repeat first
    [ apply keeps_ret | apply keeps_throw | apply keeps_outOfFuel | apply keeps_lift
    | apply keeps_enter | apply keeps_leave | apply keeps_getType
    | assumption
    | apply keeps_bind; [| intros ?]
    | apply keeps_foldM; intros ? ?
    | match goal with
      | |- keepsExpose (match ?x with _ => _ end) => destruct x
      | |- keepsExpose (let '(_, _) := ?x in _) => destruct x
      | H : forall _, keepsExpose _ |- _ => apply H
      | H : forall _ _, keepsExpose _ |- _ => apply H
      end ].

Section Keeps.

Variable schema : GraphQLSchema.
Variable fragmentDefinitionMap : FragmentDefinitionMap.

Lemma keeps_getSelectionSetFields (fuel : nat) :
  forall selSet,
    keepsExpose (QueryToDecoder.getSelectionSetFields fragmentDefinitionMap fuel selSet).
Proof.
  induction fuel as [| fuel IH]; intros selSet; simpl; keeps.
Qed.

Lemma keeps_decoder_walkUnion walkSelectionSet getFields originalName selectionSet :
  (forall ss seen, keepsExpose (walkSelectionSet ss seen)) ->
  (forall ss, keepsExpose (getFields ss)) ->
  keepsExpose (QueryToDecoder.walkUnion fragmentDefinitionMap walkSelectionSet getFields
                 originalName selectionSet).
Proof.
  intros Hw Hg. unfold QueryToDecoder.walkUnion, QueryToDecoder.walkUnionSelection. keeps.
Qed.

Lemma keeps_decoder_walkField walkSelectionSet getFields alias name selectionSet :
  (forall ss seen, keepsExpose (walkSelectionSet ss seen)) ->
  (forall ss, keepsExpose (getFields ss)) ->
  keepsExpose (QueryToDecoder.walkField fragmentDefinitionMap walkSelectionSet getFields
                 alias name selectionSet).
Proof.
  intros Hw Hg. unfold QueryToDecoder.walkField.
  apply keeps_bind; [keeps | intros ?].
  apply keeps_bind; [keeps | intros ?].
  match goal with |- keepsExpose (if ?c then _ else _) => destruct c end.
  - now apply keeps_decoder_walkUnion.
  - keeps.
Qed.

Lemma keeps_decoder_walkSelectionSet (fuel : nat) :
  forall selSet seen,
    keepsExpose (QueryToDecoder.walkSelectionSet fragmentDefinitionMap fuel selSet seen).
Proof.
  induction fuel as [| fuel IH]; intros selSet seen; simpl; [keeps |].
  apply keeps_bind; [keeps | intros ?].
  apply keeps_bind; [| intros ?; keeps].
  apply keeps_foldM. intros [fields seenFields] sel.
  unfold QueryToDecoder.walkSelection. destruct sel; [| keeps | keeps].
  match goal with |- keepsExpose (if ?c then _ else _) => destruct c end; [| keeps].
  apply keeps_bind; [| intros ?; keeps].
  apply keeps_decoder_walkField; auto using keeps_getSelectionSetFields.
Qed.

Lemma keeps_decoderForQuery (fuel : nat) (def : OperationDefinition) :
  keepsExpose (QueryToDecoder.decoderForQuery schema fragmentDefinitionMap fuel def).
Proof.
  unfold QueryToDecoder.decoderForQuery, QueryToDecoder.walkOperationDefinition.
  apply keeps_bind; [keeps | intros ?].
  destruct (operation def); keeps; apply keeps_decoder_walkSelectionSet.
Qed.

Lemma keeps_walkSelectionSet (fuel : nat) :
  forall selSet, keepsExpose (QueryToElm.walkSelectionSet fragmentDefinitionMap fuel selSet).
Proof.
  induction fuel as [| fuel IH]; intros selSet; simpl; [keeps |].
  apply keeps_bind; [keeps | intros ?].
  apply keeps_bind; [keeps | intros ty].
  destruct (isUnionOpt (unwrapType ty)).
  - unfold QueryToElm.walkUnionSelectionSet, QueryToElm.walkUnionSelection. keeps.
  - unfold QueryToElm.walkSelection, QueryToElm.walkField. keeps.
Qed.

End Keeps.


(** ** Anonymous operations *)

Lemma decoderForQuery_anonymous
    (schema : GraphQLSchema) (fragmentDefinitionMap : FragmentDefinitionMap)
    (fuel : nat) (def : OperationDefinition) (s s' : St) (body : ElmExpr) :
  opName def = None ->
  QueryToDecoder.decoderForQuery schema fragmentDefinitionMap fuel def s = Ok (Some body, s') ->
  exists d, body = MkElmExpr ("map AnonymousQuery " ++ d).
Proof.
  intros Hname H.
  unfold QueryToDecoder.decoderForQuery, QueryToDecoder.walkOperationDefinition in H.
  unfold QueryToDecoder.nameOf in H. rewrite Hname in H.
  peel H.
  destruct (operation def); [| | now inversion H];
    (peel H; peel H; destruct a as [e seen]; peel H; peel H;
     injection H as <- _; now eexists).
Qed.

(** C10: an operation without a name is translated under the fixed name
    AnonymousQuery: the result type alias is [AnonymousQuery], the request
    function [anonymousQuery], the decoder [anonymousQueryDecoder] (of type
    [Decoder AnonymousQuery], mapping the constructor [AnonymousQuery]), and
    [anonymousQuery] and [AnonymousQuery] are appended to the exposed
    names. *)
Theorem anonymous_operation_names
    (doc : Document) (schema : GraphQLSchema) (verb : string) (errorSpec : bool)
    (print : Definition_ -> string) (fragmentDefinitionMap : FragmentDefinitionMap)
    (fuel : nat) (def : OperationDefinition) (s s' : St) (decls : list ElmDecl) :
  opName def = None ->
  operation def <> subscription ->
  QueryToElm.walkOperationDefinition doc schema verb errorSpec print
    fragmentDefinitionMap fuel def s = Ok (decls, s') ->
  (exists fields params request decoder,
      decls =
        [ElmTypeAliasDecl "AnonymousQuery" (ElmTypeRecord fields None) [];
         ElmFunctionDecl "anonymousQuery" params
           (ElmTypeName (if errorSpec then "Http.Request (Response AnonymousQuery)"
                         else "Http.Request AnonymousQuery"))
           request;
         ElmFunctionDecl "anonymousQueryDecoder" [] (ElmTypeName "Decoder AnonymousQuery")
           (MkElmExpr ("map AnonymousQuery " ++ decoder))])
  /\ expose s' = expose s ++ ["anonymousQuery"; "AnonymousQuery"].
Proof.
  intros Hname Hop H.
  unfold QueryToElm.walkOperationDefinition in H.
  peel H. peel H.
  destruct (TypeInfo.getType _) as [rootType |].
  2:{ rewrite Hname in H. discriminate. }
  unfold QueryToDecoder.nameOf in H. rewrite Hname in H.
  destruct (operation def) eqn:Eop; [| | contradiction].
  - peel H. peel H. destruct a as [[fields spreads] u].
    apply keeps_walkSelectionSet in Hs. simpl in Hs.
    peel H. peel H. peel H. peel H. peel H. peel H. peel H. peel H.
    destruct a2 as [body |]; [| discriminate].
    pose proof (keeps_decoderForQuery _ _ _ _ _ _ _ Hs3) as Hk. simpl in Hk.
    destruct (decoderForQuery_anonymous _ _ _ _ _ _ _ Hname Hs3) as [d ->].
    peel H. injection H as <- <-. simpl.
    split; [do 4 eexists; destruct errorSpec; reflexivity | now rewrite Hk, Hs].
  - peel H. peel H. destruct a as [[fields spreads] u].
    apply keeps_walkSelectionSet in Hs. simpl in Hs.
    peel H. peel H. peel H. peel H. peel H. peel H. peel H. peel H.
    destruct a2 as [body |]; [| discriminate].
    pose proof (keeps_decoderForQuery _ _ _ _ _ _ _ Hs3) as Hk. simpl in Hk.
    destruct (decoderForQuery_anonymous _ _ _ _ _ _ _ Hname Hs3) as [d ->].
    peel H. injection H as <- <-. simpl.
    split; [do 4 eexists; destruct errorSpec; reflexivity | now rewrite Hk, Hs].
Qed.

Lemma anonymous_operation_names_witness :
  (exists fields params request decoder,
      Example.anonymousDecls =
        [ElmTypeAliasDecl "AnonymousQuery" (ElmTypeRecord fields None) [];
         ElmFunctionDecl "anonymousQuery" params
           (ElmTypeName "Http.Request AnonymousQuery") request;
         ElmFunctionDecl "anonymousQueryDecoder" [] (ElmTypeName "Decoder AnonymousQuery")
           (MkElmExpr ("map AnonymousQuery " ++ decoder))])
  /\ expose Example.anonymousEnd = expose Example.start ++ ["anonymousQuery"; "AnonymousQuery"].
Proof.
  apply (anonymous_operation_names [OperationDef Example.anonymousQuery] Example.schema
           "GET" false Example.print [] 3 Example.anonymousQuery
           Example.start Example.anonymousEnd Example.anonymousDecls).
  - reflexivity.
  - discriminate.
  - vm_compute. reflexivity.
Defined.

(** ** Failures propagate *)

Lemma bind_Ok {A B} (m : M A) (k : A -> M B) (s s1 : St) (a : A) :
  m s = Ok (a, s1) -> bind m k s = k a s1.
Proof. unfold bind. now intros ->. Qed.

Lemma bind_Throw {A B} (m : M A) (k : A -> M B) (s : St) (e : Error) :
  m s = Throw e -> bind m k s = Throw e.
Proof. unfold bind. now intros ->. Qed.

Lemma foldM_app {A B} (f : A -> B -> M A) (xs ys : list B) :
  forall acc s, foldM f acc (xs ++ ys) s = bind (foldM f acc xs) (fun a => foldM f a ys) s.
Proof.
  induction xs as [| x r IH]; intros acc s; simpl.
  - reflexivity.
  - unfold bind in *. destruct (f acc x s) as [[a s1] | e |]; auto.
Qed.

(** The loop stops at the first selection that throws. *)
Lemma foldM_Throw {A B} (f : A -> B -> M A) (before after : list B) (x : B)
    (acc acc1 : A) (s s1 : St) (e : Error) :
  foldM f acc before s = Ok (acc1, s1) ->
  f acc1 x s1 = Throw e ->
  foldM f acc (before ++ x :: after) s = Throw e.
Proof.
  intros Hb Hx. rewrite foldM_app, (bind_Ok _ _ _ _ _ Hb). simpl.
  now apply bind_Throw.
Qed.

Lemma walkSelectionSet_plain (m : FragmentDefinitionMap) (f : nat) (selSet : SelectionSet) (s : St) :
  scopeIsUnion s = false ->
  QueryToElm.walkSelectionSet m (S f) selSet s
  = bind (foldM (QueryToElm.walkSelection (QueryToElm.walkSelectionSet m f)) ([], []) selSet)
      (fun '(fields, spreads) => bind (leave NSelectionSet) (fun _ => ret (fields, spreads, None)))
      (enterSt NSelectionSet s).
Proof.
  intros H. unfold scopeIsUnion in H. simpl. unfold bind at 1 2. simpl.
  unfold TypeInfo.getType in *. simpl. rewrite H. reflexivity.
Qed.

Lemma walkSelectionSet_union (m : FragmentDefinitionMap) (f : nat) (selSet : SelectionSet) (s : St) :
  scopeIsUnion s = true ->
  QueryToElm.walkSelectionSet m (S f) selSet s
  = bind (QueryToElm.walkUnionSelectionSet m (QueryToElm.walkSelectionSet m f) selSet)
      (fun type => bind (leave NSelectionSet) (fun _ => ret ([], [], Some type)))
      (enterSt NSelectionSet s).
Proof.
  intros H. unfold scopeIsUnion in H. simpl. unfold bind at 1 2. simpl.
  unfold TypeInfo.getType in *. simpl. rewrite H. reflexivity.
Qed.

Lemma walkUnionSelectionSet_loop_Throw (m : FragmentDefinitionMap) walk (selSet : SelectionSet)
    (s : St) (e : Error) :
  foldM (QueryToElm.walkUnionSelection m walk) (false, []) selSet s = Throw e ->
  QueryToElm.walkUnionSelectionSet m walk selSet s = Throw e.
Proof.
  intros H. unfold QueryToElm.walkUnionSelectionSet.
  unfold bind at 1. unfold getType at 1. cbv beta iota.
  now apply bind_Throw.
Qed.

(** A failure of a nested call is the failure of the enclosing call. *)
Lemma Reaches_Throw (m : FragmentDefinitionMap) f selSet s f' selSet' s' (e : Error) :
  Reaches m f selSet s f' selSet' s' ->
  QueryToElm.walkSelectionSet m f' selSet' s' = Throw e ->
  QueryToElm.walkSelectionSet m f selSet s = Throw e.
Proof.
  induction 1 as [| f selSet s before alias name sub after acc s1 f' selSet' s' Hscope -> Hb _ IH
                  | f selSet s before tc sub after acc s1 f' selSet' s' Hscope -> Hb _ IH
                  | f selSet s before name frag after acc s1 f' selSet' s' Hscope -> Hb Hfrag _ IH];
    intros He; auto; specialize (IH He).
  - rewrite (walkSelectionSet_plain _ _ _ _ Hscope). apply bind_Throw.
    eapply foldM_Throw; [exact Hb |].
    destruct acc as [fields spreads]. unfold QueryToElm.walkSelection.
    apply bind_Throw. unfold QueryToElm.walkField.
    unfold bind at 1. unfold enter at 1. cbv beta iota.
    unfold bind at 1. unfold getType at 1. cbv beta iota.
    now apply bind_Throw.
  - rewrite (walkSelectionSet_union _ _ _ _ Hscope). apply bind_Throw.
    apply walkUnionSelectionSet_loop_Throw.
    eapply foldM_Throw; [exact Hb |].
    destruct acc as [hasTypename typeMap]. unfold QueryToElm.walkUnionSelection.
    unfold bind at 1. unfold enter at 1. cbv beta iota.
    now apply bind_Throw.
  - rewrite (walkSelectionSet_union _ _ _ _ Hscope). apply bind_Throw.
    apply walkUnionSelectionSet_loop_Throw.
    eapply foldM_Throw; [exact Hb |].
    destruct acc as [hasTypename typeMap]. unfold QueryToElm.walkUnionSelection.
    unfold lookupFragment. rewrite Hfrag.
    unfold bind at 1. unfold lift at 1. cbv beta iota.
    unfold bind at 1. unfold enter at 1. cbv beta iota.
    now apply bind_Throw.
Qed.

Lemma walkDefinition_Throw (doc : Document) (schema : GraphQLSchema) (verb : string)
    (errorSpec : bool) (print : Definition_ -> string) (m : FragmentDefinitionMap)
    (fuel : nat) (acc : QueryToElm.Seen) (def : Definition_) (s : St)
    (root : SelectionSet) (s2 : St) (e : Error) :
  bodyOf def s = Some (root, s2) ->
  QueryToElm.walkSelectionSet m fuel root s2 = Throw e ->
  QueryToElm.walkDefinition doc schema verb errorSpec print m fuel acc def s = Throw e.
Proof.
  intros Hbody He. unfold QueryToElm.walkDefinition. apply bind_Throw.
  destruct def as [d | d]; unfold bodyOf in Hbody.
  - unfold QueryToElm.walkOperationDefinition.
    unfold bind at 1. unfold enter at 1. cbv beta iota.
    unfold bind at 1. unfold getType at 1. cbv beta iota.
    fold (enterSt (NOperationDefinition d) s).
    destruct (TypeInfo.getType (info (enterSt (NOperationDefinition d) s))); [| discriminate].
    destruct (operation d); try discriminate;
      (destruct (Js.upperFirst (QueryToDecoder.nameOf d)) as [n | |]; try discriminate;
       cbv beta iota in Hbody; injection Hbody as <- <-;
       unfold bind at 1; unfold lift at 1; cbv beta iota;
       now apply bind_Throw).
  - unfold QueryToElm.walkFragmentDefinition.
    unfold bind at 1. unfold enter at 1. cbv beta iota.
    destruct (Js.upperFirst (fragName d)) as [n | |]; try discriminate.
    cbv beta iota in Hbody. injection Hbody as <- <-.
    unfold bind at 1. unfold lift at 1. cbv beta iota.
    now apply bind_Throw.
Qed.

Lemma translateQuery_Throw (uri : string) (doc : Document) (schema : GraphQLSchema)
    (verb : string) (errorSpec : bool) (print : Definition_ -> string) (fuel : nat)
    (defsBefore defsAfter : list Definition_) (def : Definition_)
    (seen : QueryToElm.Seen) (s1 : St) (e : Error) :
  doc = defsBefore ++ def :: defsAfter ->
  definitionsLoop uri doc schema verb errorSpec print fuel defsBefore = Ok (seen, s1) ->
  QueryToElm.walkDefinition doc schema verb errorSpec print
    (QueryToElm.buildFragmentDefinitionMap doc) fuel seen def s1 = Throw e ->
  QueryToElm.translateQuery uri doc schema verb errorSpec print fuel = Throw e.
Proof.
  intros Hdoc Hb He.
  unfold QueryToElm.translateQuery, QueryToElm.walkQueryDocument.
  unfold definitionsLoop in Hb.
  erewrite bind_Throw; [reflexivity |].
  fold (seen0 uri). fold (start schema).
  remember (QueryToElm.walkDefinition doc schema verb errorSpec print
              (QueryToElm.buildFragmentDefinitionMap doc) fuel) as step.
  rewrite Hdoc. eapply foldM_Throw; eauto.
Qed.

Lemma inline_fragment_Throw (m : FragmentDefinitionMap) (f : nat) (selSet : SelectionSet)
    (s : St) (before after : list Selection) (typeCondition : option string)
    (sub : SelectionSet) (acc : list ElmFieldDecl * list string) (s1 : St) :
  scopeIsUnion s = false ->
  selSet = before ++ InlineFragment typeCondition sub :: after ->
  foldM (QueryToElm.walkSelection (QueryToElm.walkSelectionSet m f)) ([], []) before
    (enterSt NSelectionSet s) = Ok (acc, s1) ->
  QueryToElm.walkSelectionSet m (S f) selSet s
  = Throw match typeCondition with
          | Some name => JsError ("not implemented: InlineFragment on " ++ name)
          | None => TypeError "Cannot read property 'name' of undefined"
          end.
Proof.
  intros Hscope -> Hb. rewrite (walkSelectionSet_plain _ _ _ _ Hscope).
  apply bind_Throw. eapply foldM_Throw; [exact Hb |].
  now destruct acc, typeCondition.
Qed.

Lemma foldM_not_Ok {A B} (f : A -> B -> M A) (xs : list B) (x : B) :
  In x xs -> (forall a s r, f a x s <> Ok r) -> forall acc s r, foldM f acc xs s <> Ok r.
Proof.
  intros Hin Hx. induction xs as [| y ys IH]; [contradiction |].
  intros acc s r H. simpl in H. apply bind_Ok_inv in H as (a & s1 & H1 & H2).
  destruct Hin as [-> | Hin].
  - now apply Hx in H1.
  - now apply (IH Hin) in H2.
Qed.

Lemma inline_fragment_never_Ok (m : FragmentDefinitionMap) (fuel : nat) (selSet : SelectionSet)
    (s : St) (typeCondition : option string) (sub : SelectionSet) :
  scopeIsUnion s = false ->
  In (InlineFragment typeCondition sub) selSet ->
  forall r, QueryToElm.walkSelectionSet m fuel selSet s <> Ok r.
Proof.
  intros Hscope Hin r H. destruct fuel as [| f]; [discriminate |].
  rewrite (walkSelectionSet_plain _ _ _ _ Hscope) in H.
  apply bind_Ok_inv in H as (a & s1 & H1 & _).
  revert H1. apply (foldM_not_Ok _ _ _ Hin).
  intros [fields spreads] s0 r0. destruct typeCondition; discriminate.
Qed.

(** ** The dispatch decoder *)

Lemma append_assoc (a b c : string) : ((a ++ b) ++ c = a ++ (b ++ c))%string.
Proof. induction a as [| x a IH]; simpl; [reflexivity | now rewrite IH]. Qed.

Lemma append_nil_r (a : string) : (a ++ EmptyString = a)%string.
Proof. induction a as [| x a IH]; simpl; [reflexivity | now rewrite IH]. Qed.

Lemma dispatchArms_app (xs ys : list (string * string)) :
  dispatchArms (xs ++ ys) = (dispatchArms xs ++ dispatchArms ys)%string.
Proof.
  induction xs as [| x xs IH]; [reflexivity |].
  cbn [dispatchArms app]. rewrite IH. symmetry. apply append_assoc.
Qed.

(** Each inline fragment and each fragment spread adds one arm to the text;
    a field adds none. *)
Lemma walkUnionSelection_arm (m : FragmentDefinitionMap) walk getFields
    (union_name decoder : string) (sel : Selection) (s s' : St) (decoder' : string) :
  QueryToDecoder.walkUnionSelection m walk getFields union_name decoder sel s = Ok (decoder', s') ->
  if isBranch sel
  then exists arm, branchLabel m sel = Some (fst arm) /\ decoder' = (decoder ++ dispatchArm arm)%string
  else decoder' = decoder.
Proof.
  intros H. destruct sel as [alias name ss | name | tc ss]; simpl.
  - simpl in H. destruct (negb (name =? "__typename")%string); [discriminate |].
    now injection H as <- _.
  - unfold QueryToDecoder.walkUnionSelection in H.
    peel H. unfold lookupFragment in Hs. destruct (Js.get m name) as [d |]; [| discriminate].
    injection Hs as <-.
    peel H. peel H. destruct a as [fields seen]. peel H. peel H.
    injection H as <- _.
    eexists (fragTypeCondition d, _). split; [reflexivity |].
    unfold dispatchArm. simpl fst. simpl snd.
    rewrite append_assoc. f_equal. cbn [append nl dq Js.nl Js.dq QueryToDecoder.unionIndent].
    do 14 f_equal. rewrite append_assoc. reflexivity.
  - unfold QueryToDecoder.walkUnionSelection in H.
    destruct tc as [tc |]; [| discriminate].
    peel H. peel H. destruct a as [fields seen]. peel H. peel H.
    injection H as <- _.
    eexists (tc, _). split; [reflexivity |].
    unfold dispatchArm. simpl fst. simpl snd.
    rewrite append_assoc. f_equal. cbn [append nl dq Js.nl Js.dq QueryToDecoder.unionIndent].
    do 14 f_equal. rewrite append_assoc. reflexivity.
Qed.

Lemma walkUnion_loop_arms (m : FragmentDefinitionMap) walk getFields (union_name : string)
    (sels : list Selection) :
  forall (decoder : string) (s s' : St) (decoder' : string),
    foldM (QueryToDecoder.walkUnionSelection m walk getFields union_name) decoder sels s
      = Ok (decoder', s') ->
    exists arms,
      Forall2 (fun sel arm => branchLabel m sel = Some (fst arm)) (filter isBranch sels) arms
      /\ decoder' = (decoder ++ dispatchArms arms)%string.
Proof.
  induction sels as [| sel sels IH]; intros decoder s s' decoder' H; simpl in H.
  - injection H as <- _. exists []. split; [constructor | now rewrite append_nil_r].
  - apply bind_Ok_inv in H as (d1 & s1 & H1 & H2).
    apply walkUnionSelection_arm in H1. apply IH in H2 as (arms & Harms & ->).
    simpl. destruct (isBranch sel).
    + destruct H1 as (arm & Hl & ->). exists (arm :: arms).
      split; [now constructor |]. simpl. now rewrite append_assoc.
    + subst d1. now exists arms.
Qed.

Lemma walkUnion_dispatch (m : FragmentDefinitionMap) walk getFields (originalName : string)
    (sels : SelectionSet) (s s' : St) (e : ElmExpr) :
  QueryToDecoder.walkUnion m walk getFields originalName (Some sels) s = Ok (e, s') ->
  exists arms,
    Forall2 (fun sel arm => branchLabel m sel = Some (fst arm)) (filter isBranch sels) arms
    /\ expr e = unionDecoder (TypeInfo.getType (info s)) originalName arms.
Proof.
  intros H. unfold QueryToDecoder.walkUnion in H.
  peel H. peel H. peel H.
  apply walkUnion_loop_arms in Hs as (arms & Harms & ->).
  injection H as <- _. exists arms. split; [exact Harms |].
  unfold unionDecoder, dispatch. simpl expr.
  destruct (isListOpt (unwrapNonNull (TypeInfo.getType (info s))));
    destruct (isNonNullOpt (TypeInfo.getType (info s))); simpl;
    now rewrite ?append_assoc.
Qed.

(** ** The discriminator of a union selection *)

Lemma walkUnionSelection_hasTypename (m : FragmentDefinitionMap) walk (sels : list Selection) :
  forall (h : bool) (typeMap : Js.Obj ElmType) (s s' : St) (h' : bool) (typeMap' : Js.Obj ElmType),
    foldM (QueryToElm.walkUnionSelection m walk) (h, typeMap) sels s = Ok ((h', typeMap'), s') ->
    h' = h || selectsTypename sels.
Proof.
  induction sels as [| sel sels IH]; intros h typeMap s s' h' typeMap' H; simpl in H.
  - injection H as <- _ _. now rewrite orb_false_r.
  - apply bind_Ok_inv in H as ([h1 tm1] & s1 & H1 & H2).
    apply IH in H2 as ->. unfold selectsTypename. simpl.
    destruct sel as [alias name ss | name | tc ss].
    + simpl in H1. injection H1 as <- _ _.
      destruct (name =? "__typename")%string; simpl; [now rewrite orb_true_r |].
      reflexivity.
    + unfold QueryToElm.walkUnionSelection in H1.
      peel H1. peel H1. peel H1. destruct a0 as [[fields spreads] u].
      peel H1. peel H1. now injection H1 as <- _ _.
    + unfold QueryToElm.walkUnionSelection in H1.
      peel H1. peel H1. destruct a as [[fields spreads] u].
      peel H1. peel H1. destruct tc; [| discriminate]. now injection H1 as <- _ _.
Qed.

Lemma scopeUnionName_spec (s : St) :
  scopeIsUnion s = true ->
  exists u, unwrapType (TypeInfo.getType (info s)) = Some u
            /\ Js.str (typeName u) = scopeUnionName s.
Proof.
  unfold scopeIsUnion, scopeUnionName.
  destruct (unwrapType (TypeInfo.getType (info s))) as [u |]; [| discriminate].
  destruct u; try discriminate. intros _. now eexists.
Qed.

Lemma missing_typename_Throw (m : FragmentDefinitionMap) (f : nat) (selSet : SelectionSet)
    (s : St) (acc : bool * Js.Obj ElmType) (s1 : St) :
  scopeIsUnion s = true ->
  selectsTypename selSet = false ->
  foldM (QueryToElm.walkUnionSelection m (QueryToElm.walkSelectionSet m f)) (false, []) selSet
    (enterSt NSelectionSet s) = Ok (acc, s1) ->
  QueryToElm.walkSelectionSet m (S f) selSet s
  = Throw (JsError ("must query field '__typename' on union types (missing for '"
                      ++ scopeUnionName s ++ "')")).
Proof.
  intros Hscope Hsel Hloop. rewrite (walkSelectionSet_union _ _ _ _ Hscope).
  apply bind_Throw. unfold QueryToElm.walkUnionSelectionSet.
  unfold bind at 1. unfold getType at 1. cbv beta iota.
  rewrite (bind_Ok _ _ _ _ _ Hloop). destruct acc as [h tm].
  apply walkUnionSelection_hasTypename in Hloop. rewrite Hsel in Hloop. subst h.
  destruct (scopeUnionName_spec s Hscope) as (u & Hu & Hn).
  change (TypeInfo.getType (info (enterSt NSelectionSet s))) with (TypeInfo.getType (info s)).
  rewrite Hu. unfold bind, ret. cbv beta iota. simpl negb. cbv iota. unfold throw.
  now rewrite Hn.
Qed.

Lemma missing_typename_never_Ok (m : FragmentDefinitionMap) (fuel : nat) (selSet : SelectionSet)
    (s : St) :
  scopeIsUnion s = true ->
  selectsTypename selSet = false ->
  forall r, QueryToElm.walkSelectionSet m fuel selSet s <> Ok r.
Proof.
  intros Hscope Hsel r H. destruct fuel as [| f]; [discriminate |].
  rewrite (walkSelectionSet_union _ _ _ _ Hscope) in H.
  apply bind_Ok_inv in H as (a & s1 & H & _).
  unfold QueryToElm.walkUnionSelectionSet in H.
  peel H. peel_as H [h tm].
  apply walkUnionSelection_hasTypename in Hs. rewrite Hsel in Hs. subst h.
  peel_as H n. discriminate.
Qed.

(** A loop that succeeds has succeeded on each of its elements. *)
Lemma foldM_Ok_at {A B} (f : A -> B -> M A) (before after : list B) (x : B)
    (acc : A) (s : St) (r : A * St) :
  foldM f acc (before ++ x :: after) s = Ok r ->
  exists acc1 s1 r1, foldM f acc before s = Ok (acc1, s1) /\ f acc1 x s1 = Ok r1.
Proof.
  intros H. rewrite foldM_app in H. apply bind_Ok_inv in H as (acc1 & s1 & H1 & H2).
  simpl in H2. apply bind_Ok_inv in H2 as (acc2 & s2 & H2 & _).
  now exists acc1, s1, (acc2, s2).
Qed.

(** A nested call without a result leaves the enclosing call without one. *)
Lemma Reaches_not_Ok (m : FragmentDefinitionMap) f selSet s f' selSet' s' :
  Reaches m f selSet s f' selSet' s' ->
  (forall r, QueryToElm.walkSelectionSet m f' selSet' s' <> Ok r) ->
  forall r, QueryToElm.walkSelectionSet m f selSet s <> Ok r.
Proof.
  induction 1 as [| f selSet s before alias name sub after acc s1 f' selSet' s' Hscope -> Hb _ IH
                  | f selSet s before tc sub after acc s1 f' selSet' s' Hscope -> Hb _ IH
                  | f selSet s before name frag after acc s1 f' selSet' s' Hscope -> Hb Hfrag _ IH];
    intros Hno r H; [now apply Hno in H | | |]; specialize (IH Hno).
  - rewrite (walkSelectionSet_plain _ _ _ _ Hscope) in H.
    apply bind_Ok_inv in H as (a & s2 & H & _).
    apply foldM_Ok_at in H as (acc1 & st3 & r1 & H1 & H2).
    rewrite Hb in H1. injection H1 as <- <-. destruct acc as [fields spreads].
    unfold QueryToElm.walkSelection in H2. peel_as H2 fd.
    unfold QueryToElm.walkField in Hs. peel_as Hs u. peel_as Hs ty. peel_as Hs r2.
    injection Hs0 as <- <-. injection Hs1 as <- <-.
    now apply IH in Hs2.
  - rewrite (walkSelectionSet_union _ _ _ _ Hscope) in H.
    apply bind_Ok_inv in H as (a & s2 & H & _).
    unfold QueryToElm.walkUnionSelectionSet in H. peel_as H ty. peel_as H r2.
    injection Hs as <- <-.
    apply foldM_Ok_at in Hs0 as (acc1 & st3 & r1 & H1 & H2).
    rewrite Hb in H1. injection H1 as <- <-. destruct acc as [h tm].
    unfold QueryToElm.walkUnionSelection in H2. peel_as H2 u. peel_as H2 r3.
    injection Hs as <- <-.
    now apply IH in Hs0.
  - rewrite (walkSelectionSet_union _ _ _ _ Hscope) in H.
    apply bind_Ok_inv in H as (a & s2 & H & _).
    unfold QueryToElm.walkUnionSelectionSet in H. peel_as H ty. peel_as H r2.
    injection Hs as <- <-.
    apply foldM_Ok_at in Hs0 as (acc1 & st3 & r1 & H1 & H2).
    rewrite Hb in H1. injection H1 as <- <-. destruct acc as [h tm].
    unfold QueryToElm.walkUnionSelection in H2. peel_as H2 fr.
    unfold lookupFragment in Hs. rewrite Hfrag in Hs. injection Hs as <-.
    peel_as H2 u. peel_as H2 r3. injection Hs as <- <-.
    now apply IH in Hs0.
Qed.

Lemma walkDefinition_not_Ok (doc : Document) (schema : GraphQLSchema) (verb : string)
    (errorSpec : bool) (print : Definition_ -> string) (m : FragmentDefinitionMap)
    (fuel : nat) (acc : QueryToElm.Seen) (def : Definition_) (s : St)
    (root : SelectionSet) (s2 : St) :
  bodyOf def s = Some (root, s2) ->
  (forall r, QueryToElm.walkSelectionSet m fuel root s2 <> Ok r) ->
  forall r, QueryToElm.walkDefinition doc schema verb errorSpec print m fuel acc def s <> Ok r.
Proof.
  intros Hbody Hno r H. unfold QueryToElm.walkDefinition in H. peel_as H ds.
  destruct def as [d | d]; unfold bodyOf in Hbody.
  - unfold QueryToElm.walkOperationDefinition in Hs.
    unfold bind at 1 in Hs. unfold enter at 1 in Hs. cbv beta iota in Hs.
    unfold bind at 1 in Hs. unfold getType at 1 in Hs. cbv beta iota in Hs.
    fold (enterSt (NOperationDefinition d) s) in Hs.
    destruct (TypeInfo.getType (info (enterSt (NOperationDefinition d) s))); [| discriminate].
    destruct (operation d); try discriminate;
      (destruct (Js.upperFirst (QueryToDecoder.nameOf d)) as [n | |]; try discriminate;
       cbv beta iota in Hbody; injection Hbody as <- <-;
       peel_as Hs n'; peel_as Hs r2; now apply Hno in Hs1).
  - unfold QueryToElm.walkFragmentDefinition in Hs.
    unfold bind at 1 in Hs. unfold enter at 1 in Hs. cbv beta iota in Hs.
    fold (enterSt (NFragmentDefinition d) s) in Hs.
    destruct (Js.upperFirst (fragName d)) as [n | |]; try discriminate.
    cbv beta iota in Hbody. injection Hbody as <- <-.
    peel_as Hs n'. peel_as Hs r2. now apply Hno in Hs1.
Qed.

Lemma translateQuery_not_Ok (uri : string) (doc : Document) (schema : GraphQLSchema)
    (verb : string) (errorSpec : bool) (print : Definition_ -> string) (fuel : nat)
    (defsBefore defsAfter : list Definition_) (def : Definition_)
    (seen : QueryToElm.Seen) (s1 : St) :
  doc = defsBefore ++ def :: defsAfter ->
  definitionsLoop uri doc schema verb errorSpec print fuel defsBefore = Ok (seen, s1) ->
  (forall r, QueryToElm.walkDefinition doc schema verb errorSpec print
               (QueryToElm.buildFragmentDefinitionMap doc) fuel seen def s1 <> Ok r) ->
  forall r, QueryToElm.translateQuery uri doc schema verb errorSpec print fuel <> Ok r.
Proof.
  intros Hdoc Hb Hno r H. unfold QueryToElm.translateQuery in H.
  destruct (QueryToElm.walkQueryDocument _ _ _ _ _ _ _ _) as [[d s] | |] eqn:Hw;
    try discriminate.
  unfold QueryToElm.walkQueryDocument in Hw. peel_as Hw sn.
  fold (seen0 uri) in Hs. fold (start schema) in Hs. unfold definitionsLoop in Hb.
  remember (QueryToElm.walkDefinition doc schema verb errorSpec print
              (QueryToElm.buildFragmentDefinitionMap doc) fuel) as step.
  rewrite Hdoc in Hs. apply foldM_Ok_at in Hs as (acc1 & st3 & r1 & H1 & H2).
  rewrite Hb in H1. injection H1 as <- <-. now apply Hno in H2.
Qed.

(** ** Inline fragments outside a union *)

(** C7: when the walk of a document comes to a selection set whose type in
    scope is not a union and which holds an inline fragment, the translation
    of the document returns no declaration and no exposed name. When the
    selections before the inline fragment are walked without failure, the
    translation fails with the error "not implemented: InlineFragment on T"
    if the fragment has the type condition T; if it has none, the message
    cannot be built and the translation fails with a TypeError instead. *)
Theorem inline_fragment_outside_union
    (uri : string) (doc : Document) (schema : GraphQLSchema) (verb : string)
    (errorSpec : bool) (print : Definition_ -> string) (fuel : nat)
    (defsBefore defsAfter : list Definition_) (def : Definition_)
    (seen : QueryToElm.Seen) (s1 : St) (root : SelectionSet) (s2 : St)
    (f' : nat) (selSet : SelectionSet) (s : St)
    (before after : list Selection) (typeCondition : option string) (sub : SelectionSet) :
  doc = defsBefore ++ def :: defsAfter ->
  definitionsLoop uri doc schema verb errorSpec print fuel defsBefore = Ok (seen, s1) ->
  bodyOf def s1 = Some (root, s2) ->
  Reaches (QueryToElm.buildFragmentDefinitionMap doc) fuel root s2 f' selSet s ->
  scopeIsUnion s = false ->
  selSet = before ++ InlineFragment typeCondition sub :: after ->
  (forall r, QueryToElm.translateQuery uri doc schema verb errorSpec print fuel <> Ok r)
  /\
  (forall (f : nat) (acc : list ElmFieldDecl * list string) (s3 : St),
      f' = S f ->
      foldM (QueryToElm.walkSelection
               (QueryToElm.walkSelectionSet (QueryToElm.buildFragmentDefinitionMap doc) f))
        ([], []) before (enterSt NSelectionSet s) = Ok (acc, s3) ->
      QueryToElm.translateQuery uri doc schema verb errorSpec print fuel
      = Throw match typeCondition with
              | Some name => JsError ("not implemented: InlineFragment on " ++ name)
              | None => TypeError "Cannot read property 'name' of undefined"
              end).
Proof.
  intros Hdoc Hloop Hbody Hreach Hscope Hsel. split.
  - eapply translateQuery_not_Ok; [exact Hdoc | exact Hloop |].
    eapply walkDefinition_not_Ok; [exact Hbody |].
    eapply Reaches_not_Ok; [exact Hreach |].
    eapply inline_fragment_never_Ok; [exact Hscope |].
    rewrite Hsel. apply in_or_app. right. left. reflexivity.
  - intros f acc s3 -> Hbefore.
    eapply translateQuery_Throw; [exact Hdoc | exact Hloop |].
    eapply walkDefinition_Throw; [exact Hbody |].
    eapply Reaches_Throw; [exact Hreach |].
    eapply inline_fragment_Throw; eauto.
Qed.

Lemma inline_fragment_outside_union_witness :
  (forall r, QueryToElm.translateQuery "http://localhost/graphql" Example.untypedDoc
               Example.schema "GET" false Example.print 3 <> Ok r)
  /\
  QueryToElm.translateQuery "http://localhost/graphql" Example.untypedDoc Example.schema
    "GET" false Example.print 3
  = Throw (TypeError "Cannot read property 'name' of undefined")
  /\
  QueryToElm.translateQuery "http://localhost/graphql" Example.inlineDoc Example.schema
    "GET" false Example.print 3
  = Throw (JsError "not implemented: InlineFragment on Character").
Proof.
  assert (W : forall (op : OperationDefinition) (typeCondition : option string),
             op = MkOperationDefinition query (Some "Q") []
                    [Field None "hero"
                       (Some [Field None "name" None;
                              InlineFragment typeCondition [Field None "id" None]])] ->
             (forall r, QueryToElm.translateQuery "http://localhost/graphql" [OperationDef op]
                          Example.schema "GET" false Example.print 3 <> Ok r)
             /\ QueryToElm.translateQuery "http://localhost/graphql" [OperationDef op]
                  Example.schema "GET" false Example.print 3
                = Throw match typeCondition with
                        | Some name => JsError ("not implemented: InlineFragment on " ++ name)
                        | None => TypeError "Cannot read property 'name' of undefined"
                        end).
  { intros op typeCondition ->.
    match goal with |- context [OperationDef ?o] => set (op := o) end.
    destruct (inline_fragment_outside_union "http://localhost/graphql" [OperationDef op]
                Example.schema "GET" false Example.print 3
                [] [] (OperationDef op)
                (seen0 "http://localhost/graphql") (start Example.schema)
                (opSelectionSet op)
                (enterSt (NOperationDefinition op) (start Example.schema))
                2 [Field None "name" None; InlineFragment typeCondition [Field None "id" None]]
                (enterSt (NField None "hero")
                   (enterSt NSelectionSet
                      (enterSt (NOperationDefinition op) (start Example.schema))))
                [Field None "name" None] [] typeCondition [Field None "id" None])
      as [A B].
    - reflexivity.
    - reflexivity.
    - reflexivity.
    - eapply Reaches_field with (before := []) (alias := None) (name := "hero") (after := []).
      + reflexivity.
      + reflexivity.
      + reflexivity.
      + apply Reaches_here.
    - reflexivity.
    - reflexivity.
    - split; [exact A |].
      eapply (B 1); [reflexivity |]. vm_compute. reflexivity. }
  destruct (W Example.untypedOp None eq_refl) as [A B].
  destruct (W Example.inlineOp (Some "Character") eq_refl) as [_ C].
  split; [exact A |]. split; [exact B | exact C].
Defined.

(** ** Unions and their discriminator *)



(** ** The seen enums and unions *)

(** An assignment keeps the keys in place and adds a new key at the end. *)
Lemma keys_set {V} (o : Js.Obj V) (k : string) (v : V) :
  Js.keys (Js.set o k v) = if Js.has o k then Js.keys o else Js.keys o ++ [k].
Proof.
  unfold Js.keys, Js.has. induction o as [| [k' v'] o IH]; simpl; [reflexivity |].
  destruct (String.eqb k k') eqn:E; simpl; [reflexivity |].
  rewrite IH. now destruct (Js.get o k).
Qed.

Lemma has_false_not_In {V} (o : Js.Obj V) (k : string) :
  Js.has o k = false -> ~ In k (Js.keys o).
Proof.
  unfold Js.has, Js.keys. induction o as [| [k' v'] o IH]; simpl; [tauto |].
  destruct (String.eqb_spec k k') as [-> | Hne]; [discriminate |].
  intros H [E | Hin]; [now symmetry in E | now apply IH].
Qed.

Lemma NoDup_keys_set {V} (o : Js.Obj V) (k : string) (v : V) :
  NoDup (Js.keys o) -> NoDup (Js.keys (Js.set o k v)).
Proof.
  intros H. rewrite keys_set. destruct (Js.has o k) eqn:E; [exact H |].
  apply NoDup_app; [exact H | repeat constructor; simpl; tauto |].
  intros x Hx [<- | []]. now apply has_false_not_In in E.
Qed.

Lemma wellKeyed_nil {V} (nameOf : V -> string) : wellKeyed nameOf [].
Proof. split; constructor. Qed.

Lemma Forall_set {V} (P : string * V -> Prop) (o : Js.Obj V) (k : string) (v : V) :
  Forall P o -> (forall k', String.eqb k k' = true -> P (k', v)) -> P (k, v) ->
  Forall P (Js.set o k v).
Proof.
  intros H Hk Hkv. induction o as [| [k' v'] o IH]; simpl.
  - now repeat constructor.
  - inversion H as [| x l Hx Hl]; subst.
    destruct (String.eqb k k') eqn:E; constructor; auto.
Qed.

Lemma wellKeyed_set {V} (nameOf : V -> string) (o : Js.Obj V) (v : V) :
  wellKeyed nameOf o -> wellKeyed nameOf (Js.set o (nameOf v) v).
Proof.
  intros [Hnd Hall]. split; [now apply NoDup_keys_set |].
  apply Forall_set; auto.
  intros k' E. apply String.eqb_eq in E. now subst.
Qed.

Lemma wellKeyed_names {V} (nameOf : V -> string) (o : Js.Obj V) :
  wellKeyed nameOf o -> map nameOf (Js.values o) = Js.keys o /\ NoDup (map nameOf (Js.values o)).
Proof.
  intros [Hnd Hall].
  assert (E : map nameOf (Js.values o) = Js.keys o).
  { unfold Js.values, Js.keys. induction Hall as [| kv l Hkv Hl IH]; simpl; [reflexivity |].
    inversion Hnd; subst. now rewrite Hkv, IH. }
  now rewrite E.
Qed.

Lemma collectEnumsForType_Object (name : string) (fields : list (string * GraphQLType))
    (seen : GraphQLEnumMap) (seenTypes : GraphQLTypeMap) :
  QueryToElm.collectEnumsForType (GraphQLObjectType name fields) (seen, seenTypes)
  = if Js.truthy seenTypes name then (seen, seenTypes)
    else fold_left (fun acc f => QueryToElm.collectEnumsForType (snd f) acc) fields
           (seen, Js.set seenTypes name (GraphQLObjectType name fields)).
Proof.
  cbn [QueryToElm.collectEnumsForType]. destruct (Js.truthy seenTypes name); [reflexivity |].
  generalize (seen, Js.set seenTypes name (GraphQLObjectType name fields)).
  induction fields as [| [k ty] fs IH]; intros acc; [reflexivity |].
  cbn [fold_left snd]. rewrite <- IH. reflexivity.
Qed.

Lemma collectEnumsForType_Interface (name : string) (fields : list (string * GraphQLType))
    (seen : GraphQLEnumMap) (seenTypes : GraphQLTypeMap) :
  QueryToElm.collectEnumsForType (GraphQLInterfaceType name fields) (seen, seenTypes)
  = if Js.truthy seenTypes name then (seen, seenTypes)
    else fold_left (fun acc f => QueryToElm.collectEnumsForType (snd f) acc) fields
           (seen, Js.set seenTypes name (GraphQLInterfaceType name fields)).
Proof.
  cbn [QueryToElm.collectEnumsForType]. destruct (Js.truthy seenTypes name); [reflexivity |].
  generalize (seen, Js.set seenTypes name (GraphQLInterfaceType name fields)).
  induction fields as [| [k ty] fs IH]; intros acc; [reflexivity |].
  cbn [fold_left snd]. rewrite <- IH. reflexivity.
Qed.

Lemma collectEnumsForType_Input (name : string) (fields : list (string * GraphQLType))
    (seen : GraphQLEnumMap) (seenTypes : GraphQLTypeMap) :
  QueryToElm.collectEnumsForType (GraphQLInputObjectType name fields) (seen, seenTypes)
  = if Js.truthy seenTypes name then (seen, seenTypes)
    else fold_left (fun acc f => QueryToElm.collectEnumsForType (snd f) acc) fields
           (seen, Js.set seenTypes name (GraphQLInputObjectType name fields)).
Proof.
  cbn [QueryToElm.collectEnumsForType]. destruct (Js.truthy seenTypes name); [reflexivity |].
  generalize (seen, Js.set seenTypes name (GraphQLInputObjectType name fields)).
  induction fields as [| [k ty] fs IH]; intros acc; [reflexivity |].
  cbn [fold_left snd]. rewrite <- IH. reflexivity.
Qed.

Lemma fold_left_Forall_invariant {A B} (P : A -> Prop) (f : A -> B -> A) (xs : list B) :
  Forall (fun x => forall a, P a -> P (f a x)) xs -> forall a, P a -> P (fold_left f xs a).
Proof.
  induction 1 as [| x r Hx _ IH]; intros a Ha; simpl; auto.
Qed.

Lemma collectEnumsForType_wellKeyed (type : GraphQLType) :
  forall acc, wellKeyed enumName (fst acc) ->
              wellKeyed enumName (fst (QueryToElm.collectEnumsForType type acc)).
Proof.
  induction type as [name | name values | name fields IH | name fields IH | name fields IH
                     | name types _ | ofType IH | ofType IH]
    using GraphQLType_induction; intros [seen seenTypes] H;
    rewrite ?collectEnumsForType_Object, ?collectEnumsForType_Interface,
      ?collectEnumsForType_Input;
    try (destruct (Js.truthy seenTypes name); [exact H |];
         apply (fold_left_Forall_invariant (fun acc => wellKeyed enumName (fst acc)));
         [exact IH | exact H]).
  - exact H.
  - exact (wellKeyed_set enumName seen (MkEnum name values) H).
  - exact H.
  - now apply IH.
  - now apply IH.
Qed.

Lemma fold_left_invariant {A B} (P : A -> Prop) (f : A -> B -> A) (xs : list B) :
  (forall a x, P a -> P (f a x)) -> forall a, P a -> P (fold_left f xs a).
Proof.
  intros Hf. induction xs as [| x r IH]; intros a Ha; simpl; auto.
Qed.

Lemma collectEnums_wellKeyed (doc : Document) (schema : GraphQLSchema) (def : Definition_)
    (enums : GraphQLEnumMap) :
  wellKeyed enumName enums -> wellKeyed enumName (QueryToElm.collectEnums doc schema def enums).
Proof.
  intros H. unfold QueryToElm.collectEnums.
  apply (fold_left_invariant (fun p => wellKeyed enumName (snd p))); [| exact H].
  intros [i es] [node | node] Hes; simpl in *; [| exact Hes].
  destruct node; auto.
  destruct (TypeInfo.getType _) as [type |]; auto.
  now apply (collectEnumsForType_wellKeyed type (es, [])).
Qed.

Lemma collectUnions_wellKeyed (doc : Document) (schema : GraphQLSchema) (def : Definition_)
    (unions : GraphQLUnionMap) :
  wellKeyed unionName unions -> wellKeyed unionName (QueryToElm.collectUnions doc schema def unions).
Proof.
  intros H. unfold QueryToElm.collectUnions.
  apply (fold_left_invariant (fun p => wellKeyed unionName (snd p))); [| exact H].
  intros [i us] [node | node] Hus; simpl in *; [| exact Hus].
  destruct (unwrapType (TypeInfo.getType i)) as [[] |]; auto.
  exact (wellKeyed_set unionName us (MkUnion name types) Hus).
Qed.

(** The seen maps stay well keyed along the loop over the definitions, and
    the declarations only grow at their end. *)
Lemma walkDefinition_loop_invariant (doc : Document) (schema : GraphQLSchema) (verb : string)
    (errorSpec : bool) (print : Definition_ -> string) (m : FragmentDefinitionMap)
    (fuel : nat) (defs : list Definition_) :
  forall (acc seen : QueryToElm.Seen) (s s1 : St),
    foldM (QueryToElm.walkDefinition doc schema verb errorSpec print m fuel) acc defs s
      = Ok (seen, s1) ->
    wellKeyed enumName (QueryToElm.seenEnums acc) ->
    wellKeyed unionName (QueryToElm.seenUnions acc) ->
    wellKeyed enumName (QueryToElm.seenEnums seen)
    /\ wellKeyed unionName (QueryToElm.seenUnions seen)
    /\ exists more, QueryToElm.decls seen = QueryToElm.decls acc ++ more.
Proof.
  induction defs as [| def defs IH]; intros acc seen s s1 H He Hu; simpl in H.
  - injection H as <- _. split; [exact He | split; [exact Hu |]].
    exists []. now rewrite app_nil_r.
  - apply bind_Ok_inv in H as (acc1 & s2 & H1 & H2).
    unfold QueryToElm.walkDefinition in H1.
    peel_as H1 ds. injection H1 as <- _.
    apply IH in H2 as (He' & Hu' & more & Hm); simpl.
    + split; [exact He' | split; [exact Hu' |]].
      exists (ds ++ more). simpl in Hm. now rewrite Hm, app_assoc.
    + now apply collectEnums_wellKeyed.
    + now apply collectUnions_wellKeyed.
Qed.

Lemma emitEnum_loop (es : list EnumT) :
  forall (decls decls' : list ElmDecl) (s s' : St),
    foldM QueryToElm.emitEnum decls es s = Ok (decls', s') ->
    exists types decoders,
      omap QueryToElm.walkEnum es = Ok types
      /\ omap QueryToElm.decoderForEnum es = Ok decoders
      /\ decls' = rev types ++ decls ++ decoders.
Proof.
  induction es as [| e es IH]; intros decls decls' s s' H; simpl in H.
  - injection H as <- _. exists [], []. repeat split. now rewrite app_nil_r.
  - apply bind_Ok_inv in H as (d1 & s1 & H1 & H2).
    unfold QueryToElm.emitEnum in H1.
    peel_as H1 type. peel_as H1 decoder. peel H1. injection H1 as <- _.
    apply IH in H2 as (types & decoders & Ht & Hd & ->).
    exists (type :: types), (decoder :: decoders). simpl.
    rewrite Hs, Hs0, Ht, Hd. simpl. repeat split.
    now rewrite <- !app_assoc.
Qed.

Lemma emitUnion_loop (us : GraphQLUnionMap) :
  forall (decls decls' : list ElmDecl) (s s' : St),
    foldM QueryToElm.emitUnion decls us s = Ok (decls', s') ->
    decls' = flat_map QueryToElm.walkUnion (rev (Js.values us)) ++ decls.
Proof.
  induction us as [| [k u] us IH]; intros decls decls' s s' H; simpl in H.
  - now injection H as <- _.
  - apply bind_Ok_inv in H as (d1 & s1 & H1 & H2).
    unfold QueryToElm.emitUnion in H1. peel H1. injection H1 as <- _.
    apply IH in H2 as ->. cbn [Js.values map snd rev].
    rewrite flat_map_app. cbn [flat_map]. now rewrite app_nil_r, <- app_assoc.
Qed.

Lemma walkEnum_names (es : list EnumT) (types : list ElmDecl) :
  omap QueryToElm.walkEnum es = Ok types -> map declName types = map enumName es.
Proof.
  revert types. induction es as [| e es IH]; intros types H; simpl in H.
  - now injection H as <-.
  - apply obind_Ok_inv in H as (t & Ht & H).
    apply obind_Ok_inv in H as (ts & Hts & H). injection H as <-.
    unfold QueryToElm.walkEnum in Ht. apply obind_Ok_inv in Ht as (c & _ & Ht).
    injection Ht as <-. simpl. now rewrite (IH _ Hts).
Qed.

Lemma decoderForEnum_names (es : list EnumT) (decoders : list ElmDecl) :
  omap QueryToElm.decoderForEnum es = Ok decoders ->
  map declName decoders = map (fun e => Js.toLowerCase (enumName e) ++ "Decoder")%string es.
Proof.
  revert decoders. induction es as [| e es IH]; intros decoders H; simpl in H.
  - now injection H as <-.
  - apply obind_Ok_inv in H as (t & Ht & H).
    apply obind_Ok_inv in H as (ts & Hts & H). injection H as <-.
    unfold QueryToElm.decoderForEnum in Ht. apply obind_Ok_inv in Ht as (c & _ & Ht).
    apply obind_Ok_inv in Ht as (c' & _ & Ht).
    injection Ht as <-. simpl. now rewrite (IH _ Hts).
Qed.

(** ** The declarations of the enums and of the unions *)

(** C4, as the code has it: a successful translation returns, in this order,
    one type declaration per seen union in reverse first-seen order, one type
    declaration per seen enum in reverse first-seen order, the endpoint
    constant, the declarations of the definitions, and one decoder per seen
    enum in first-seen order. The seen enums and the seen unions have distinct
    names, so each has exactly one type declaration (and each enum exactly
    one decoder) however many fields refer to it. *)
Theorem enum_and_union_declarations
    (uri : string) (doc : Document) (schema : GraphQLSchema) (verb : string)
    (errorSpec : bool) (print : Definition_ -> string) (fuel : nat)
    (decls : list ElmDecl) (exposed : list string) :
  QueryToElm.translateQuery uri doc schema verb errorSpec print fuel = Ok (decls, exposed) ->
  exists (seen : QueryToElm.Seen) (s1 : St) (defDecls enumTypes enumDecoders : list ElmDecl),
    definitionsLoop uri doc schema verb errorSpec print fuel doc = Ok (seen, s1)
    /\ QueryToElm.decls seen = QueryToElm.endpointUrlDecl uri :: defDecls
    /\ omap QueryToElm.walkEnum (Js.values (QueryToElm.seenEnums seen)) = Ok enumTypes
    /\ omap QueryToElm.decoderForEnum (Js.values (QueryToElm.seenEnums seen)) = Ok enumDecoders
    /\ decls = flat_map QueryToElm.walkUnion (rev (Js.values (QueryToElm.seenUnions seen)))
               ++ rev enumTypes
               ++ (QueryToElm.endpointUrlDecl uri :: defDecls)
               ++ enumDecoders
    /\ map declName enumTypes = Js.keys (QueryToElm.seenEnums seen)
    /\ map declName enumDecoders
       = map (fun k => Js.toLowerCase k ++ "Decoder")%string (Js.keys (QueryToElm.seenEnums seen))
    /\ NoDup (Js.keys (QueryToElm.seenEnums seen))
    /\ map unionName (Js.values (QueryToElm.seenUnions seen)) = Js.keys (QueryToElm.seenUnions seen)
    /\ NoDup (Js.keys (QueryToElm.seenUnions seen)).
Proof.
  intros H. unfold QueryToElm.translateQuery in H.
  destruct (QueryToElm.walkQueryDocument _ _ _ _ _ _ _ _) as [[d s] | |] eqn:Hw; try discriminate.
  injection H as <- <-. unfold QueryToElm.walkQueryDocument in Hw.
  peel_as Hw seen. peel_as Hw u. peel_as Hw decls1.
  pose proof (walkDefinition_loop_invariant _ _ _ _ _ _ _ _ _ _ _ _ Hs
                (wellKeyed_nil enumName) (wellKeyed_nil unionName))
    as (He & Hu & defDecls & Hd).
  apply emitEnum_loop in Hs1 as (types & decoders & Ht & Hdec & ->).
  apply emitUnion_loop in Hw as ->.
  destruct (wellKeyed_names _ _ He) as [Hek Hen].
  destruct (wellKeyed_names _ _ Hu) as [Huk Hun].
  exists seen, s0, defDecls, types, decoders.
  split; [exact Hs |]. split; [exact Hd |]. split; [exact Ht |]. split; [exact Hdec |].
  split; [now rewrite Hd |].
  split; [now rewrite (walkEnum_names _ _ Ht) |].
  split.
  { rewrite (decoderForEnum_names _ _ Hdec), <- Hek. now rewrite map_map. }
  split; [now rewrite <- Hek |].
  split; [exact Huk | now rewrite <- Huk].
Qed.

Lemma enum_and_union_declarations_witness :
  exists (seen : QueryToElm.Seen) (s1 : St) (defDecls enumTypes enumDecoders : list ElmDecl),
    definitionsLoop "http://localhost/graphql" Example.enumsDoc Example.schema "GET" false
      Example.print 3 Example.enumsDoc = Ok (seen, s1)
    /\ QueryToElm.decls seen = QueryToElm.endpointUrlDecl "http://localhost/graphql" :: defDecls
    /\ omap QueryToElm.walkEnum (Js.values (QueryToElm.seenEnums seen)) = Ok enumTypes
    /\ omap QueryToElm.decoderForEnum (Js.values (QueryToElm.seenEnums seen)) = Ok enumDecoders
    /\ Example.enumsDecls
       = flat_map QueryToElm.walkUnion (rev (Js.values (QueryToElm.seenUnions seen)))
         ++ rev enumTypes
         ++ (QueryToElm.endpointUrlDecl "http://localhost/graphql" :: defDecls)
         ++ enumDecoders
    /\ map declName enumTypes = Js.keys (QueryToElm.seenEnums seen)
    /\ map declName enumDecoders
       = map (fun k => Js.toLowerCase k ++ "Decoder")%string (Js.keys (QueryToElm.seenEnums seen))
    /\ NoDup (Js.keys (QueryToElm.seenEnums seen))
    /\ map unionName (Js.values (QueryToElm.seenUnions seen)) = Js.keys (QueryToElm.seenUnions seen)
    /\ NoDup (Js.keys (QueryToElm.seenUnions seen)).
Proof.
  apply (enum_and_union_declarations "http://localhost/graphql" Example.enumsDoc
           Example.schema "GET" false Example.print 3 Example.enumsDecls Example.enumsExposed).
  vm_compute. reflexivity.
Defined.

(** C4, as the specification words it, fails: in the document
    [{ hero { favorite side appearsIn } search { __typename ...D } }] the
    enum Episode is met before the enum Side, yet the type of Side is
    declared first, and the two enum decoders come last, after the
    declarations of the operation and of the fragment. *)
Lemma enum_and_union_declarations_counterexample :
  Js.keys (QueryToElm.collectEnums Example.enumsDoc Example.schema
             (OperationDef Example.enumsOp) [])
  = ["Episode"; "Side"]
  /\ QueryToElm.translateQuery "http://localhost/graphql" Example.enumsDoc Example.schema
       "GET" false Example.print 3 = Ok (Example.enumsDecls, Example.enumsExposed)
  /\ map declName Example.enumsDecls
     = ["SearchResult a b"; "Side"; "Episode"; "endpointUrl";
        "AnonymousQuery"; "anonymousQuery"; "anonymousQueryDecoder"; "D_"; "D";
        "episodeDecoder"; "sideDecoder"].
Proof. repeat split; vm_compute; reflexivity. Qed.

(** ** More fuel changes nothing

    [stable m m']: wherever [m] does not run out of fuel, [m'] has the same
    outcome. *)

Lemma stable_refl {A} (m : M A) : stable m m.
Proof. now intros s _. Qed.

Lemma stable_outOfFuel {A} (m' : M A) : stable outOfFuel m'.
Proof. intros s H. now contradiction H. Qed.

Lemma stable_bind {A B} (m m' : M A) (k k' : A -> M B) :
  stable m m' -> (forall a, stable (k a) (k' a)) -> stable (bind m k) (bind m' k').
Proof.
  intros Hm Hk s H. unfold bind in *. specialize (Hm s).
  destruct (m s) as [[a s1] | e |].
  - rewrite Hm by discriminate. now apply Hk.
  - now rewrite Hm by discriminate.
  - now contradiction H.
Qed.

Lemma stable_foldM {A B} (f f' : A -> B -> M A) (xs : list B) :
  (forall a x, stable (f a x) (f' a x)) ->
  forall acc, stable (foldM f acc xs) (foldM f' acc xs).
Proof.
  intros Hf. induction xs as [| x r IH]; intros acc; simpl.
  - apply stable_refl.
  - apply stable_bind; auto.
Qed.

Lemma stable_lift {A} (o o' : Outcome A) : ostable o o' -> stable (lift o) (lift o').
Proof.
  intros Ho s H. unfold lift in *. destruct o as [a | e |].
  - now rewrite Ho by discriminate.
  - now rewrite Ho by discriminate.
  - now contradiction H.
Qed.

Ltac stab :=
  repeat first
    [ apply stable_refl | apply stable_outOfFuel
    | assumption
    | apply stable_bind; [| intros ?]
    | apply stable_foldM; intros ? ?
    | match goal with
      | |- stable (match ?x with _ => _ end) _ => destruct x
      | H : forall _, stable _ _ |- _ => apply H
      | H : forall _ _, stable _ _ |- _ => apply H
      end ].

Section Stable.

Variable schema : GraphQLSchema.
Variable m : FragmentDefinitionMap.

Lemma stable_getSelectionSetFields (fuel : nat) :
  forall fuel' selSet, fuel <= fuel' ->
    stable (QueryToDecoder.getSelectionSetFields m fuel selSet)
           (QueryToDecoder.getSelectionSetFields m fuel' selSet).
Proof.
  induction fuel as [| fuel IH]; intros fuel' selSet Hle; [apply stable_outOfFuel |].
  destruct fuel' as [| fuel']; [lia |]. simpl.
  assert (Hrec : forall ss, stable (QueryToDecoder.getSelectionSetFields m fuel ss)
                                   (QueryToDecoder.getSelectionSetFields m fuel' ss))
    by (intros ss; apply IH; lia).
  stab.
Qed.

Lemma stable_decoder_walkUnion w w' g g' originalName selectionSet :
  (forall ss seen, stable (w ss seen) (w' ss seen)) ->
  (forall ss, stable (g ss) (g' ss)) ->
  stable (QueryToDecoder.walkUnion m w g originalName selectionSet)
         (QueryToDecoder.walkUnion m w' g' originalName selectionSet).
Proof.
  intros Hw Hg. unfold QueryToDecoder.walkUnion, QueryToDecoder.walkUnionSelection. stab.
Qed.

Lemma stable_decoder_walkField w w' g g' alias name selectionSet :
  (forall ss seen, stable (w ss seen) (w' ss seen)) ->
  (forall ss, stable (g ss) (g' ss)) ->
  stable (QueryToDecoder.walkField m w g alias name selectionSet)
         (QueryToDecoder.walkField m w' g' alias name selectionSet).
Proof.
  intros Hw Hg. unfold QueryToDecoder.walkField.
  apply stable_bind; [stab | intros ?].
  apply stable_bind; [stab | intros ?].
  match goal with |- stable (if ?c then _ else _) _ => destruct c end.
  - now apply stable_decoder_walkUnion.
  - stab.
Qed.

Lemma stable_decoder_walkSelectionSet (fuel : nat) :
  forall fuel' selSet seen, fuel <= fuel' ->
    stable (QueryToDecoder.walkSelectionSet m fuel selSet seen)
           (QueryToDecoder.walkSelectionSet m fuel' selSet seen).
Proof.
  induction fuel as [| fuel IH]; intros fuel' selSet seen Hle; [apply stable_outOfFuel |].
  destruct fuel' as [| fuel']; [lia |]. simpl.
  assert (Hrec : forall ss sn, stable (QueryToDecoder.walkSelectionSet m fuel ss sn)
                                      (QueryToDecoder.walkSelectionSet m fuel' ss sn))
    by (intros ss sn; apply IH; lia).
  assert (Hget : forall ss, stable (QueryToDecoder.getSelectionSetFields m fuel ss)
                                   (QueryToDecoder.getSelectionSetFields m fuel' ss))
    by (intros ss; apply stable_getSelectionSetFields; lia).
  apply stable_bind; [stab | intros ?].
  apply stable_bind; [| intros ?; stab].
  apply stable_foldM. intros [fields seenFields] sel.
  unfold QueryToDecoder.walkSelection. destruct sel; [| stab | stab].
  match goal with |- stable (if ?c then _ else _) _ => destruct c end; [| stab].
  apply stable_bind; [| intros ?; stab].
  now apply stable_decoder_walkField.
Qed.

Lemma stable_decoderForQuery (fuel fuel' : nat) (def : OperationDefinition) :
  fuel <= fuel' ->
  stable (QueryToDecoder.decoderForQuery schema m fuel def)
         (QueryToDecoder.decoderForQuery schema m fuel' def).
Proof.
  intros Hle. unfold QueryToDecoder.decoderForQuery, QueryToDecoder.walkOperationDefinition.
  apply stable_bind; [stab | intros ?].
  destruct (operation def); stab; now apply stable_decoder_walkSelectionSet.
Qed.

Lemma stable_walkSelectionSet (fuel : nat) :
  forall fuel' selSet, fuel <= fuel' ->
    stable (QueryToElm.walkSelectionSet m fuel selSet)
           (QueryToElm.walkSelectionSet m fuel' selSet).
Proof.
  induction fuel as [| fuel IH]; intros fuel' selSet Hle; [apply stable_outOfFuel |].
  destruct fuel' as [| fuel']; [lia |]. simpl.
  assert (Hrec : forall ss, stable (QueryToElm.walkSelectionSet m fuel ss)
                                   (QueryToElm.walkSelectionSet m fuel' ss))
    by (intros ss; apply IH; lia).
  apply stable_bind; [stab | intros ?].
  apply stable_bind; [stab | intros ty].
  destruct (isUnionOpt (unwrapType ty)).
  - unfold QueryToElm.walkUnionSelectionSet, QueryToElm.walkUnionSelection. stab.
  - unfold QueryToElm.walkSelection, QueryToElm.walkField. stab.
Qed.

Lemma ostable_queryFragments (fuel : nat) :
  forall fuel' selectionSet fragments, fuel <= fuel' ->
    ostable (QueryToElm.queryFragments m fuel selectionSet fragments)
            (QueryToElm.queryFragments m fuel' selectionSet fragments).
Proof.
  induction fuel as [| fuel IH]; intros fuel' selectionSet fragments Hle;
    [intros H; now contradiction H |].
  destruct fuel' as [| fuel']; [lia |]. cbn [QueryToElm.queryFragments].
  assert (Hrec : forall ss frs, ostable (QueryToElm.queryFragments m fuel ss frs)
                                        (QueryToElm.queryFragments m fuel' ss frs))
    by (intros ss frs; apply IH; lia).
  assert (Hacc : ostable (Ok fragments) (Ok fragments)) by (now intros _).
  revert Hacc. generalize (Ok fragments) at 1 3. generalize (Ok fragments).
  generalize (visitSelectionSet selectionSet). intros evs.
  induction evs as [| ev evs IHevs]; intros acc' acc Hacc; [exact Hacc |].
  cbn [fold_left]. apply IHevs.
  destruct ev as [[] | node]; try exact Hacc.
  intros H. destruct acc as [frs | e |].
  - rewrite Hacc by discriminate. simpl in *.
    destruct (Js.read m name) as [frag | |]; simpl in *; auto.
    now apply Hrec.
  - now rewrite Hacc by discriminate.
  - now contradiction H.
Qed.

Lemma ostable_bind {A B} (o o' : Outcome A) (k : A -> Outcome B) :
  ostable o o' -> ostable (obind o k) (obind o' k).
Proof.
  intros Ho H. destruct o as [a | e |].
  - now rewrite Ho by discriminate.
  - now rewrite Ho by discriminate.
  - now contradiction H.
Qed.

Lemma stable_walkOperationDefinition (doc : Document) (verb : string) (errorSpec : bool)
    (print : Definition_ -> string) (fuel fuel' : nat) (def : OperationDefinition) :
  fuel <= fuel' ->
  stable (QueryToElm.walkOperationDefinition doc schema verb errorSpec print m fuel def)
         (QueryToElm.walkOperationDefinition doc schema verb errorSpec print m fuel' def).
Proof.
  intros Hle. unfold QueryToElm.walkOperationDefinition.
  pose proof (stable_walkSelectionSet fuel fuel' (opSelectionSet def) Hle) as Hw.
  pose proof (stable_lift _ _
                (ostable_bind _ _ (fun qFragments =>
                                     omap (QueryToElm.printFragment print) (Js.values qFragments))
                   (ostable_queryFragments fuel fuel' (opSelectionSet def) [] Hle))) as Hq.
  pose proof (stable_decoderForQuery fuel fuel' def Hle) as Hd.
  stab.
Qed.

Lemma stable_walkFragmentDefinition (fuel fuel' : nat) (def : FragmentDefinition) :
  fuel <= fuel' ->
  stable (QueryToElm.walkFragmentDefinition m fuel def)
         (QueryToElm.walkFragmentDefinition m fuel' def).
Proof.
  intros Hle. unfold QueryToElm.walkFragmentDefinition.
  pose proof (stable_walkSelectionSet fuel fuel' (fragSelectionSet def) Hle) as Hw.
  stab.
Qed.

End Stable.

Lemma stable_walkQueryDocument (uri : string) (doc : Document) (schema : GraphQLSchema)
    (verb : string) (errorSpec : bool) (print : Definition_ -> string) (fuel fuel' : nat) :
  fuel <= fuel' ->
  stable (QueryToElm.walkQueryDocument uri doc schema verb errorSpec print fuel)
         (QueryToElm.walkQueryDocument uri doc schema verb errorSpec print fuel').
Proof.
  intros Hle. unfold QueryToElm.walkQueryDocument.
  apply stable_bind; [| intros ?; apply stable_refl].
  apply stable_foldM. intros acc def. unfold QueryToElm.walkDefinition.
  apply stable_bind; [| intros ?; apply stable_refl].
  destruct def.
  - now apply stable_walkOperationDefinition.
  - now apply stable_walkFragmentDefinition.
Qed.

(** The outcome of a translation that has enough fuel is the outcome for any
    larger amount of fuel. *)
Lemma translateQuery_more_fuel (uri : string) (doc : Document) (schema : GraphQLSchema)
    (verb : string) (errorSpec : bool) (print : Definition_ -> string) (fuel fuel' : nat) :
  fuel <= fuel' ->
  QueryToElm.translateQuery uri doc schema verb errorSpec print fuel <> OutOfFuel ->
  QueryToElm.translateQuery uri doc schema verb errorSpec print fuel'
  = QueryToElm.translateQuery uri doc schema verb errorSpec print fuel.
Proof.
  intros Hle H. unfold QueryToElm.translateQuery in *.
  rewrite (stable_walkQueryDocument uri doc schema verb errorSpec print fuel fuel' Hle);
    [reflexivity |].
  intros E. now rewrite E in H.
Qed.

(** ** The fuel of a run that completes

    The fuel is a device of the embedding: the outcome of a run that
    completes does not depend on the fuel that it was given. *)
Lemma translateQuery_fuel_independent
    (print : Definition_ -> string) (uri verb : string) (doc : Document)
    (schema : GraphQLSchema) (errorSpec : bool) (fuel1 fuel2 : nat) :
  QueryToElm.translateQuery uri doc schema verb errorSpec print fuel1 <> OutOfFuel ->
  QueryToElm.translateQuery uri doc schema verb errorSpec print fuel2 <> OutOfFuel ->
  QueryToElm.translateQuery uri doc schema verb errorSpec print fuel1
  = QueryToElm.translateQuery uri doc schema verb errorSpec print fuel2.
Proof.
  intros H1 H2. destruct (Nat.le_ge_cases fuel1 fuel2) as [Hle | Hle].
  - symmetry. now apply translateQuery_more_fuel.
  - now apply translateQuery_more_fuel.
Qed.

(** ** The encoders of the variables *)

(** The encoder of a nullable type is an application of [maybeEncode] to the
    path of the value. *)
Lemma encoderForInputType_nullable (type : GraphQLType) (isNonNull : bool)
    (path : option string) (e : string) :
  isNonNullType type = false ->
  QueryToElm.encoderForInputType type isNonNull path = Ok e ->
  exists body, e = ("(maybeEncode (\o -> " ++ body ++ ") " ++ Js.str path ++ ")")%string.
Proof.
  intros Hnull H.
  destruct type; try discriminate; cbn [QueryToElm.encoderForInputType isNonNullType negb] in H;
    apply obind_Ok_inv in H as (body & _ & H); injection H as <-; now exists body.
Qed.

(** An encoder built without a path is the encoder of the value found at
    the path [undefined]. *)
Lemma encoderForInputType_no_path (type : GraphQLType) (isNonNull : bool) :
  QueryToElm.encoderForInputType type isNonNull None
  = QueryToElm.encoderForInputType type isNonNull (Some "undefined").
Proof. destruct type; reflexivity. Qed.

(** The parameters and the entries of the request function of a query or
    mutation. *)
Lemma walkOperationDefinition_entries
    (doc : Document) (schema : GraphQLSchema) (verb : string) (errorSpec : bool)
    (print : Definition_ -> string) (m : FragmentDefinitionMap)
    (fuel : nat) (def : OperationDefinition) (s s' : St) (decls : list ElmDecl) :
  operation def <> subscription ->
  QueryToElm.walkOperationDefinition doc schema verb errorSpec print m fuel def s
  = Ok (decls, s') ->
  exists funcName params type queryText decodeFuncName parameters entries,
    nth_error decls 1
    = Some (ElmFunctionDecl funcName params type
              (MkElmExpr (QueryToElm.requestBody verb def (QueryToDecoder.nameOf def) queryText
                            decodeFuncName entries)))
    /\ omap (QueryToElm.parameterOf schema) (variableDefinitions def) = Ok parameters
    /\ omap QueryToElm.parameterEncoder parameters = Ok entries.
Proof.
  intros Hop H.
  unfold QueryToElm.walkOperationDefinition in H.
  peel H. peel H.
  destruct (TypeInfo.getType _) as [rootType |].
  2:{ destruct (opName def); discriminate. }
  destruct (operation def) eqn:Eop; [| | contradiction].
  all: apply bind_Ok_inv in H as (R & sR & HR & H); apply lift_Ok_inv in HR as [HR ->];
    apply bind_Ok_inv in H as ([[fields spreads] u] & sW & HW & H);
    apply bind_Ok_inv in H as (parameters & sP & Hparams & H);
    apply lift_Ok_inv in Hparams as [Hparams ->];
    apply bind_Ok_inv in H as (F & sF & HF & H); apply lift_Ok_inv in HF as [HF ->];
    apply bind_Ok_inv in H as (qFragments & sQ & HQ & H); apply lift_Ok_inv in HQ as [HQ ->];
    apply bind_Ok_inv in H as (D0 & sD & HD & H); apply lift_Ok_inv in HD as [HD ->];
    apply bind_Ok_inv in H as (u1 & sE & HE & H);
    apply bind_Ok_inv in H as (entries & sN & Hentries & H);
    apply lift_Ok_inv in Hentries as [Hentries ->];
    apply bind_Ok_inv in H as (R' & sR' & HR' & H); apply lift_Ok_inv in HR' as [HR' ->];
    apply bind_Ok_inv in H as (decoder & sC & HC & H);
    (destruct decoder as [body |]; [| discriminate]);
    apply bind_Ok_inv in H as (u2 & sL & HL & H); injection H as <- _;
    do 5 eexists; exists parameters, entries;
    (split; [reflexivity |]); split; assumption.
Qed.

(** C5: the entries of the variables in the parameters of the request, one
    per variable and in order. A nullable variable without a default value
    is encoded by [maybeEncode] applied to [params.name]. A variable with a
    default value is encoded by a [case] on [params.name] whose [Nothing]
    branch is [Json.Encode.null]; but the encoder of its [Just] branch is
    built without a path: it is the encoder of the value found at
    [undefined], to which the bound value [val] is only appended. *)
Theorem variable_encoder_entries
    (doc : Document) (schema : GraphQLSchema) (verb : string) (errorSpec : bool)
    (print : Definition_ -> string) (m : FragmentDefinitionMap)
    (fuel : nat) (def : OperationDefinition) (s s' : St) (decls : list ElmDecl) :
  operation def <> subscription ->
  QueryToElm.walkOperationDefinition doc schema verb errorSpec print m fuel def s
  = Ok (decls, s') ->
  exists funcName params type queryText decodeFuncName entries,
    nth_error decls 1
    = Some (ElmFunctionDecl funcName params type
              (MkElmExpr (QueryToElm.requestBody verb def (QueryToDecoder.nameOf def) queryText
                            decodeFuncName entries)))
    /\ Forall2
         (fun v entry =>
            exists schemaType encoder,
              typeFromAST schema (varType v) = Some schemaType
              /\ entry = parameterEntry (variable v) encoder
              /\ match defaultValue v with
                 | None =>
                     QueryToElm.encoderForInputType schemaType true
                       (Some ("params." ++ variable v)%string) = Ok encoder
                     /\ (isNonNullType schemaType = false ->
                         exists body,
                           encoder
                           = renderEncoder (EncodeMaybe body ("params." ++ variable v)))
                 | Some _ =>
                     exists just,
                       encoder = renderEncoder (EncodeCase (variable v) just)
                       /\ QueryToElm.encoderForInputType schemaType true (Some "undefined")
                          = Ok just
                 end)
         (variableDefinitions def) entries.
Proof.
  intros Hop H.
  destruct (walkOperationDefinition_entries _ _ _ _ _ _ _ _ _ _ _ Hop H)
    as (funcName & params & type & queryText & decodeFuncName & parameters & entries
        & Hdecl & Hparams & Hentries).
  exists funcName, params, type, queryText, decodeFuncName, entries.
  split; [exact Hdecl |].
  apply omap_Forall2 in Hparams, Hentries.
  eapply Forall2_compose; [| exact Hparams | exact Hentries].
  clear. intros v p entry Hp He.
  unfold QueryToElm.parameterOf in Hp.
  destruct (typeFromAST schema (varType v)) as [schemaType |]; [| discriminate].
  apply obind_Ok_inv in Hp as (ty & _ & Hp). injection Hp as <-.
  unfold QueryToElm.parameterEncoder in He.
  cbn [QueryToElm.pHasDefault QueryToElm.pSchemaType QueryToElm.pName] in He.
  apply obind_Ok_inv in He as (encoder & Henc & He). injection He as <-.
  exists schemaType, encoder. split; [reflexivity |]. split; [reflexivity |].
  destruct (defaultValue v) as [d |].
  - apply obind_Ok_inv in Henc as (just & Hjust & Henc). injection Henc as <-.
    exists just. split; [reflexivity |].
    now rewrite <- encoderForInputType_no_path.
  - split; [exact Henc |]. intros Hn.
    now apply (encoderForInputType_nullable _ _ _ _ Hn) in Henc.
Qed.

Lemma variable_encoder_entries_witness :
  exists funcName params type queryText decodeFuncName entries,
    nth_error Example.limitDecls 1
    = Some (ElmFunctionDecl funcName params type
              (MkElmExpr (QueryToElm.requestBody "GET" Example.limitOp "Q" queryText
                            decodeFuncName entries)))
    /\ entries
       = [parameterEntry "limit"
            (renderEncoder
               (EncodeCase "limit" "(maybeEncode (\o -> Json.Encode.int o) undefined)"));
          parameterEntry "name"
            (renderEncoder (EncodeMaybe "Json.Encode.string o" "params.name"))].
Proof.
  destruct (variable_encoder_entries [OperationDef Example.limitOp] Example.schema "GET" false
              Example.print [] 3 Example.limitOp Example.start Example.limitEnd
              Example.limitDecls)
    as (funcName & params & type & queryText & decodeFuncName & entries & Hdecl & Hentries).
  - discriminate.
  - vm_compute. reflexivity.
  - exists funcName, params, type, queryText, decodeFuncName, entries.
    split; [exact Hdecl |].
    inversion Hentries as [| v1 e1 vs1 es1 H1 Hrest]; subst.
    inversion Hrest as [| v2 e2 vs2 es2 H2 Hnil]; subst.
    inversion Hnil; subst.
    destruct H1 as (t1 & enc1 & Ht1 & -> & just & -> & Hjust).
    destruct H2 as (t2 & enc2 & Ht2 & -> & Henc2 & _).
    vm_compute in Ht1. injection Ht1 as <-.
    vm_compute in Ht2. injection Ht2 as <-.
    vm_compute in Hjust. injection Hjust as <-.
    vm_compute in Henc2. injection Henc2 as <-.
    reflexivity.
Defined.

(** ** Joined texts *)

Lemma length_append (a b : string) :
  String.length (a ++ b)%string = String.length a + String.length b.
Proof. induction a as [| c a IH]; simpl; [reflexivity | now rewrite IH]. Qed.

Lemma glue_nil_l (sep b : string) : glue sep EmptyString b = b.
Proof. reflexivity. Qed.

Lemma glue_nil_r (sep a : string) : glue sep a EmptyString = a.
Proof.
  unfold glue. destruct (String.length a =? 0)%nat eqn:E; [| reflexivity].
  apply Nat.eqb_eq in E. now destruct a.
Qed.

Lemma glue_assoc (sep a b c : string) :
  glue sep (glue sep a b) c = glue sep a (glue sep b c).
Proof.
  unfold glue.
  destruct (String.length a =? 0)%nat eqn:Ea; [reflexivity |].
  destruct (String.length b =? 0)%nat eqn:Eb.
  - now rewrite Ea.
  - destruct (String.length c =? 0)%nat eqn:Ec.
    + rewrite Eb. apply Nat.eqb_neq in Ea.
      destruct (String.length (a ++ sep ++ b) =? 0)%nat eqn:E; [| reflexivity].
      apply Nat.eqb_eq in E. rewrite length_append in E. lia.
    + apply Nat.eqb_neq in Ea, Eb.
      assert (E1 : (String.length (a ++ sep ++ b) =? 0)%nat = false)
        by (apply Nat.eqb_neq; rewrite length_append; lia).
      assert (E2 : (String.length (b ++ sep ++ c) =? 0)%nat = false)
        by (apply Nat.eqb_neq; rewrite length_append; lia).
      rewrite E1, E2. now rewrite !append_assoc.
Qed.

Lemma join_nonEmpty (sep x : string) (xs : list string) :
  nonEmpty x -> nonEmpty (Js.join sep (x :: xs)).
Proof.
  unfold nonEmpty, Js.join. intros H. destruct xs as [| y r]; simpl; [exact H |].
  rewrite length_append. lia.
Qed.

Lemma join_cons (sep x : string) (xs : list string) :
  nonEmpty x -> Forall nonEmpty xs ->
  Js.join sep (x :: xs) = glue sep x (Js.join sep xs).
Proof.
  intros Hx Hxs. destruct xs as [| y r].
  - simpl. now rewrite glue_nil_r.
  - inversion Hxs as [| ? ? Hy Hr]; subst.
    pose proof (join_nonEmpty sep y r Hy) as Hj. unfold nonEmpty in *.
    unfold glue. apply Nat.eqb_neq in Hx, Hj. now rewrite Hx, Hj.
Qed.

Lemma join_app (sep : string) (xs ys : list string) :
  Forall nonEmpty xs -> Forall nonEmpty ys ->
  Js.join sep (xs ++ ys) = glue sep (Js.join sep xs) (Js.join sep ys).
Proof.
  intros Hxs Hys. induction Hxs as [| x xs Hx Hxs IH]; [reflexivity |].
  rewrite <- app_comm_cons, !join_cons, IH, ?glue_assoc; auto.
  apply Forall_app. now split.
Qed.

(** ** The fields of the record decoder *)

Lemma joinDecoders_snoc (fields : list ElmExpr) (e : ElmExpr) :
  expr (QueryToDecoder.joinDecoders (fields ++ [e]))
  = glue QueryToDecoder.applySep (expr (QueryToDecoder.joinDecoders fields)) (expr e).
Proof.
  unfold QueryToDecoder.joinDecoders. cbn [expr].
  rewrite map_app, filter_app. cbn [map filter].
  assert (Hne : forall l, Forall nonEmpty
                  (filter (fun e0 => negb (String.length e0 =? 0)%nat) l)).
  { intros l. apply Forall_forall. intros x Hx. apply filter_In in Hx as [_ Hx].
    unfold nonEmpty. apply negb_true_iff, Nat.eqb_neq in Hx. exact Hx. }
  destruct (String.length (expr e) =? 0)%nat eqn:E; cbn [negb].
  - rewrite app_nil_r. apply Nat.eqb_eq in E.
    destruct (expr e); [| discriminate]. now rewrite glue_nil_r.
  - rewrite join_app; auto. repeat constructor. unfold nonEmpty. now apply Nat.eqb_neq.
Qed.

Lemma isFieldDecoder_nonEmpty (key d : string) : isFieldDecoder key d -> nonEmpty d.
Proof. intros [rest [-> | ->]]; discriminate. Qed.

Lemma isFieldDecoders_nonEmpty (keys ds : list string) :
  Forall2 isFieldDecoder keys ds -> Forall nonEmpty ds.
Proof.
  induction 1 as [| k d ks ds Hd _ IH]; constructor; [| exact IH].
  eapply isFieldDecoder_nonEmpty; eassumption.
Qed.

Lemma walkField_isFieldDecoder (m : FragmentDefinitionMap) w g
    (alias : option string) (name : string) (selectionSet : option SelectionSet)
    (s s' : St) (e : ElmExpr) :
  QueryToDecoder.walkField m w g alias name selectionSet s = Ok (e, s') ->
  isFieldDecoder (fieldKey alias name) (expr e).
Proof.
  intros H. unfold QueryToDecoder.walkField in H.
  peel_as H u. peel_as H ty.
  destruct (isUnionOpt _).
  - unfold QueryToDecoder.walkUnion in H.
    peel_as H ty'. peel_as H sels. peel_as H d.
    injection H as <- _. eexists. left. cbn [expr]. reflexivity.
  - destruct selectionSet as [selSet |].
    + peel_as H r. destruct r as [fields seen]. peel_as H u'. peel_as H names.
      injection H as <- _. eexists. left. cbn [expr].
      rewrite !append_assoc. reflexivity.
    + peel_as H d. peel_as H u'. injection H as <- _. cbn [expr].
      destruct (negb (isNonNullOpt ty)); eexists; [right | left];
        cbn [append]; rewrite ?append_assoc; reflexivity.
Qed.

Lemma dedupInto_app (seen ks rs : list string) :
  dedupInto seen (ks ++ rs) = dedupInto (dedupInto seen ks) rs.
Proof. unfold dedupInto. apply fold_left_app. Qed.

(** What the loop of [walkSelectionSet] adds to the decoders and to the seen
    keys. *)
Lemma walkSelection_loop (m : FragmentDefinitionMap) (f : nat) :
  (forall sels seen s e seen' s',
      QueryToDecoder.walkSelectionSet m f sels seen s = Ok ((e, seen'), s') ->
      exists keys new ds,
        selectedKeys m f sels = Some keys
        /\ seen' = dedupInto seen keys
        /\ seen' = seen ++ new
        /\ Forall2 isFieldDecoder new ds
        /\ expr e = Js.join QueryToDecoder.applySep ds) ->
  forall sels fields seen s fields' seen' s',
    foldM (QueryToDecoder.walkSelection m (QueryToDecoder.walkSelectionSet m f)
             (QueryToDecoder.walkField m (QueryToDecoder.walkSelectionSet m f)
                (QueryToDecoder.getSelectionSetFields m f)))
      (fields, seen) sels s = Ok ((fields', seen'), s') ->
    exists keys new ds,
      selectedKeys m (S f) sels = Some keys
      /\ seen' = dedupInto seen keys
      /\ seen' = seen ++ new
      /\ Forall2 isFieldDecoder new ds
      /\ expr (QueryToDecoder.joinDecoders fields')
         = glue QueryToDecoder.applySep (expr (QueryToDecoder.joinDecoders fields))
             (Js.join QueryToDecoder.applySep ds).
Proof.
  intros IHf. induction sels as [| sel sels IH]; intros fields seen s fields' seen' s' H.
  - simpl in H. injection H as <- <- _. exists [], [], [].
    repeat split; [now rewrite app_nil_r | constructor | now rewrite glue_nil_r].
  - cbn [foldM] in H. apply bind_Ok_inv in H as ([fields1 seen1] & s1 & H1 & H2).
    apply IH in H2 as (keys & new & ds & Hk & Hs & Hn & Hd & Hj). clear IH.
    destruct sel as [alias name ss | name | tc ss].
    + (* a field *)
      change (selectedKeys m (S f) (Field alias name ss :: sels))
        with (option_map (cons (fieldKey alias name)) (selectedKeys m (S f) sels)).
      rewrite Hk. cbn [option_map]. unfold QueryToDecoder.walkSelection in H1.
      destruct (Js.notIn seen (fieldKey alias name)) eqn:Hin.
      * peel_as H1 e. pose proof (walkField_isFieldDecoder _ _ _ _ _ _ _ _ _ Hs0) as He.
        injection H1 as <- <- _.
        exists (fieldKey alias name :: keys), (fieldKey alias name :: new), (expr e :: ds).
        split; [reflexivity |].
        split; [unfold dedupInto; cbn [fold_left]; unfold QueryToDecoder.pushUnique at 2;
                now rewrite Hin |].
        split; [now rewrite Hn, <- app_assoc |].
        split; [now constructor |].
        rewrite Hj, joinDecoders_snoc, glue_assoc. f_equal.
        rewrite join_cons; [reflexivity | eapply isFieldDecoder_nonEmpty; eassumption |].
        eapply isFieldDecoders_nonEmpty; eassumption.
      * injection H1 as <- <- _. exists (fieldKey alias name :: keys), new, ds.
        split; [reflexivity |].
        split; [unfold dedupInto; cbn [fold_left]; unfold QueryToDecoder.pushUnique at 2;
                now rewrite Hin |].
        repeat split; assumption.
    + (* a fragment spread *)
      unfold QueryToDecoder.walkSelection in H1.
      peel_as H1 def. unfold lookupFragment in Hs0.
      destruct (Js.get m name) as [d |] eqn:Hget; [| discriminate]. injection Hs0 as <-.
      peel_as H1 r. destruct r as [e seen2]. injection H1 as <- <- _.
      apply IHf in Hs0 as (ks & new1 & ds1 & Hk1 & Hs1 & Hn1 & Hd1 & Hj1).
      change (selectedKeys m (S f) (FragmentSpread name :: sels))
        with (match Js.get m name with
              | Some def =>
                  match selectedKeys m f (fragSelectionSet def), selectedKeys m (S f) sels with
                  | Some ks, Some rs => Some (ks ++ rs)
                  | _, _ => None
                  end
              | None => None
              end).
      rewrite Hget, Hk1, Hk.
      exists (ks ++ keys), (new1 ++ new), (ds1 ++ ds).
      split; [reflexivity |].
      split; [now rewrite dedupInto_app, <- Hs1 |].
      split; [now rewrite Hn, Hn1, <- app_assoc |].
      split; [now apply Forall2_app |].
      rewrite Hj, joinDecoders_snoc, glue_assoc, Hj1. f_equal.
      rewrite join_app; [reflexivity | |].
      * eapply isFieldDecoders_nonEmpty; eassumption.
      * eapply isFieldDecoders_nonEmpty; eassumption.
    + (* an inline fragment *)
      discriminate.
Qed.

Lemma walkSelectionSet_fields (m : FragmentDefinitionMap) (fuel : nat) :
  forall sels seen s e seen' s',
    QueryToDecoder.walkSelectionSet m fuel sels seen s = Ok ((e, seen'), s') ->
    exists keys new ds,
      selectedKeys m fuel sels = Some keys
      /\ seen' = dedupInto seen keys
      /\ seen' = seen ++ new
      /\ Forall2 isFieldDecoder new ds
      /\ expr e = Js.join QueryToDecoder.applySep ds.
Proof.
  induction fuel as [| f IHf]; intros sels seen s e seen' s' H; [discriminate |].
  cbn [QueryToDecoder.walkSelectionSet] in H.
  peel_as H u. peel_as H r. destruct r as [fields seenF]. peel_as H u'.
  injection H as <- <- _.
  apply (walkSelection_loop m f IHf) in Hs0 as (keys & new & ds & Hk & Hs' & Hn & Hd & Hj).
  exists keys, new, ds. repeat split; auto.
Qed.

Lemma notIn_spec (xs : list string) (x : string) : Js.notIn xs x = true -> ~ In x xs.
Proof.
  unfold Js.notIn. intros H Hin. apply negb_true_iff in H.
  assert (E : existsb (String.eqb x) xs = true)
    by (apply existsb_exists; exists x; split; [exact Hin | apply String.eqb_refl]).
  congruence.
Qed.

Lemma NoDup_pushUnique (seen : list string) (k : string) :
  NoDup seen -> NoDup (QueryToDecoder.pushUnique seen k).
Proof.
  intros H. unfold QueryToDecoder.pushUnique. destruct (Js.notIn seen k) eqn:E; [| exact H].
  apply NoDup_app; [exact H | repeat constructor; simpl; tauto |].
  intros x Hx [<- | []]. now apply notIn_spec in E.
Qed.

Lemma NoDup_dedupInto (seen keys : list string) : NoDup seen -> NoDup (dedupInto seen keys).
Proof.
  unfold dedupInto. revert seen.
  induction keys as [| k ks IH]; intros seen H; simpl; auto using NoDup_pushUnique.
Qed.

(** ** The fields of the record type *)

Lemma walkField_name w (alias : option string) (name : string)
    (selectionSet : option SelectionSet) (s s' : St) (f : ElmFieldDecl) :
  QueryToElm.walkField w alias name selectionSet s = Ok (f, s') ->
  fieldDeclName f = elmSafeName (fieldKey alias name).
Proof.
  intros H. unfold QueryToElm.walkField in H. peel_as H u. peel_as H ty.
  destruct selectionSet as [selSet |].
  - peel_as H r. destruct r as [[fields spreads] union]. peel_as H t. peel_as H u'.
    now injection H as <- _.
  - destruct ty as [t |]; [| discriminate].
    peel_as H t'. peel_as H u'. now injection H as <- _.
Qed.

Lemma walkSelection_loop_record w (sels : list Selection) :
  forall fields spreads s fields' spreads' s',
    foldM (QueryToElm.walkSelection w) (fields, spreads) sels s = Ok ((fields', spreads'), s') ->
    map fieldDeclName fields' = map fieldDeclName fields ++ map elmSafeName (directKeys sels)
    /\ spreads' = spreads ++ spreadNames sels.
Proof.
  induction sels as [| sel sels IH]; intros fields spreads s fields' spreads' s' H.
  - simpl in H. injection H as <- <- _. simpl. now rewrite !app_nil_r.
  - cbn [foldM] in H. apply bind_Ok_inv in H as ([fields1 spreads1] & s1 & H1 & H2).
    apply IH in H2 as [Hf Hs]. clear IH.
    destruct sel as [alias name ss | name | tc ss]; unfold QueryToElm.walkSelection in H1.
    + peel_as H1 f. apply walkField_name in Hs0. injection H1 as <- <- _.
      split; [| exact Hs].
      rewrite Hf, map_app. cbn [map directKeys flat_map app]. rewrite Hs0.
      now rewrite <- app_assoc.
    + injection H1 as <- <- _. split; [exact Hf |].
      rewrite Hs. cbn [spreadNames flat_map app]. now rewrite <- app_assoc.
    + destruct tc; discriminate.
Qed.

Lemma walkSelectionSet_record (m : FragmentDefinitionMap) (fuel : nat) (sels : SelectionSet)
    (s s' : St) (fields : list ElmFieldDecl) (spreads : list string) (u : option ElmType) :
  scopeIsUnion s = false ->
  QueryToElm.walkSelectionSet m fuel sels s = Ok ((fields, spreads, u), s') ->
  map fieldDeclName fields = map elmSafeName (directKeys sels)
  /\ spreads = spreadNames sels /\ u = None.
Proof.
  intros Hscope H. destruct fuel as [| f]; [discriminate |].
  rewrite (walkSelectionSet_plain _ _ _ _ Hscope) in H.
  peel_as H r. destruct r as [fields1 spreads1]. peel_as H u'. injection H as <- <- <- _.
  apply walkSelection_loop_record in Hs as [Hf Hs]. now repeat split.
Qed.

(** ** The parameters of the record constructor *)

Lemma notIn_false (xs : list string) (x : string) : Js.notIn xs x = false -> In x xs.
Proof.
  unfold Js.notIn. intros H. apply negb_false_iff, existsb_exists in H as (y & Hy & E).
  apply String.eqb_eq in E. now subst.
Qed.

Lemma In_pushUnique (seen : list string) (k x : string) :
  In x (QueryToDecoder.pushUnique seen k) <-> In x seen \/ x = k.
Proof.
  unfold QueryToDecoder.pushUnique. destruct (Js.notIn seen k) eqn:E.
  - rewrite in_app_iff. simpl. intuition.
  - apply notIn_false in E. intuition. now subst.
Qed.

Lemma In_dedupInto (keys seen : list string) (x : string) :
  In x (dedupInto seen keys) <-> In x seen \/ In x keys.
Proof.
  unfold dedupInto. revert seen.
  induction keys as [| k ks IH]; intros seen; simpl; [tauto |].
  rewrite IH, In_pushUnique. intuition.
Qed.

Lemma pushUnique_present (seen : list string) (k : string) :
  In k seen -> QueryToDecoder.pushUnique seen k = seen.
Proof.
  intros H. unfold QueryToDecoder.pushUnique. destruct (Js.notIn seen k) eqn:E; [| reflexivity].
  now apply notIn_spec in E.
Qed.

Lemma dedupInto_snoc (seen keys : list string) (k : string) :
  dedupInto seen (keys ++ [k]) = QueryToDecoder.pushUnique (dedupInto seen keys) k.
Proof. unfold dedupInto. now rewrite fold_left_app. Qed.

(** Adding the keys of a list that was deduplicated first, or the keys of the
    list itself, is the same. *)
Lemma dedupInto_dedup (keys seen : list string) :
  dedupInto seen (dedupInto [] keys) = dedupInto seen keys.
Proof.
  induction keys as [| k ks IH] using rev_ind; [reflexivity |].
  rewrite !dedupInto_snoc.
  destruct (Js.notIn (dedupInto [] ks) k) eqn:E.
  - unfold QueryToDecoder.pushUnique at 1. rewrite E.
    now rewrite dedupInto_snoc, IH.
  - apply notIn_false in E. rewrite (pushUnique_present _ _ E), IH.
    symmetry. apply pushUnique_present. apply In_dedupInto.
    apply In_dedupInto in E as [[] | E]. now right.
Qed.

Lemma getSelectionSetFields_names (m : FragmentDefinitionMap) (fuel : nat) :
  forall (sels : SelectionSet) (s s' : St) (names : list string),
    QueryToDecoder.getSelectionSetFields m fuel sels s = Ok (names, s') ->
    exists keys,
      selectedKeys m fuel sels = Some keys
      /\ names = dedupInto [] (map elmSafeName keys).
Proof.
  induction fuel as [| f IHf]; intros sels s s' names H; [discriminate |].
  cbn [QueryToDecoder.getSelectionSetFields] in H.
  peel_as H u. peel_as H fields. peel_as H u'. injection H as <- _.
  clear Hs Hs1 u u' s'.
  enough (G : forall sels fields0 s1 fields1 s2,
             foldM (fun fields sel =>
                      match sel with
                      | Field alias name _ =>
                          ret (QueryToDecoder.pushUnique fields (elmSafeName (fieldKey alias name)))
                      | FragmentSpread spreadName =>
                          bind (lift (lookupFragment m spreadName))
                            (fun def =>
                               bind (QueryToDecoder.getSelectionSetFields m f (fragSelectionSet def))
                                 (fun names => ret (fold_left QueryToDecoder.pushUnique names fields)))
                      | InlineFragment _ _ => throw (JsError "Should not happen")
                      end) fields0 sels s1 = Ok (fields1, s2) ->
             exists keys, selectedKeys m (S f) sels = Some keys
                          /\ fields1 = dedupInto fields0 (map elmSafeName keys)).
  { exact (G _ _ _ _ _ Hs0). }
  clear - IHf.
  induction sels as [| sel sels IH]; intros fields0 s1 fields1 s2 H.
  - simpl in H. injection H as <- _. now exists [].
  - cbn [foldM] in H. apply bind_Ok_inv in H as (fields' & s3 & H1 & H2).
    apply IH in H2 as (keys & Hk & ->). clear IH.
    destruct sel as [alias name ss | name | tc ss].
    + injection H1 as <- _.
      change (selectedKeys m (S f) (Field alias name ss :: sels))
        with (option_map (cons (fieldKey alias name)) (selectedKeys m (S f) sels)).
      rewrite Hk. now exists (fieldKey alias name :: keys).
    + peel_as H1 def. unfold lookupFragment in Hs.
      destruct (Js.get m name) as [d |] eqn:Hget; [| discriminate]. injection Hs as <-.
      peel_as H1 sub. injection H1 as <- _.
      apply IHf in Hs as (ks & Hks & ->).
      change (selectedKeys m (S f) (FragmentSpread name :: sels))
        with (match Js.get m name with
              | Some def =>
                  match selectedKeys m f (fragSelectionSet def), selectedKeys m (S f) sels with
                  | Some ks, Some rs => Some (ks ++ rs)
                  | _, _ => None
                  end
              | None => None
              end).
      rewrite Hget, Hks, Hk. exists (ks ++ keys). split; [reflexivity |].
      rewrite map_app, dedupInto_app. f_equal.
      exact (dedupInto_dedup (map elmSafeName ks) fields0).
    + discriminate.
Qed.

(** ** Order and duplicates of the selected fields *)




(** * Further properties of the translation *)

(** ** Sanitized names *)

(** X1 ([elmSafeName]): the sanitized name is never one of the remapped
    names, a name outside the table is returned as it is, and every remapped
    name collides with another name, its own image. *)
Theorem elmSafeName_range :
  (forall s, ~ In (elmSafeName s) reservedNames)
  /\ (forall s, ~ In s reservedNames -> elmSafeName s = s)
  /\ (forall r, In r reservedNames ->
        elmSafeName r <> r /\ elmSafeName (elmSafeName r) = elmSafeName r).
Proof.
  repeat split.
  - intros s H. unfold elmSafeName in H.
    repeat match type of H with
           | context [String.eqb ?a ?b] => destruct (String.eqb_spec a b)
           end;
      try (vm_compute in H; intuition discriminate).
    unfold reservedNames in H. simpl in H. intuition congruence.
  - intros s H. unfold elmSafeName.
    repeat match goal with
           | |- context [String.eqb ?a ?b] => destruct (String.eqb_spec a b)
           end; try reflexivity; subst; exfalso; apply H; vm_compute; tauto.
  - unfold reservedNames in H. simpl in H.
    repeat (destruct H as [<- | H]; [vm_compute; discriminate |]). contradiction.
  - unfold reservedNames in H. simpl in H.
    repeat (destruct H as [<- | H]; [reflexivity |]). contradiction.
Qed.

Lemma elmSafeName_range_witness :
  elmSafeName "type" <> "type" /\ elmSafeName (elmSafeName "type") = elmSafeName "type".
Proof.
  destruct elmSafeName_range as (_ & _ & H).
  apply (H "type"). vm_compute. tauto.
Defined.

(** ** The Elm type of a schema type *)

(** [omap] succeeds when the function does on every element, and fails at
    the first element where it fails. *)
Lemma omap_Ok {A B} (f : A -> Outcome B) (l : list A) :
  Forall (fun x => exists y, f x = Ok y) l -> exists r, omap f l = Ok r.
Proof.
  induction 1 as [| x l [y Hy] _ [r Hr]]; [now exists [] |].
  exists (y :: r). cbn [omap]. now rewrite Hy, Hr.
Qed.

Lemma omap_Throw {A B} (f : A -> Outcome B) (l : list A) :
  Forall (fun x => (exists y, f x = Ok y) \/ (exists e, f x = Throw e)) l ->
  Exists (fun x => exists e, f x = Throw e) l ->
  exists e, omap f l = Throw e.
Proof.
  induction 1 as [| x l Hx Hl IH]; intros Hex; [inversion Hex |].
  cbn [omap]. destruct Hx as [[y Hy] | [e He]].
  - rewrite Hy. cbn [obind].
    inversion Hex as [? ? [e He] | ? ? Hex']; subst; [congruence |].
    destruct (IH Hex') as [e He]. exists e. now rewrite He.
  - exists e. now rewrite He.
Qed.

(** The loop over the fields of an object, interface or input object
    type. *)
Lemma typeToElm_fields (t : GraphQLType) (fs : list (string * GraphQLType)) (b : bool) :
  fieldsOf t = Some fs ->
  typeToElm t b
  = obind (omap fieldToElm fs)
      (fun fields => Ok (wrapMaybe b t (ElmTypeRecord fields None))).
Proof.
  intros H.
  assert (E : forall l,
             (fix fieldsToElm (fieldMap : list (string * GraphQLType)) : Outcome (list ElmFieldDecl) :=
                match fieldMap with
                | [] => Ok []
                | (fieldName, fieldType) :: rest =>
                    obind (typeToElm fieldType false)
                      (fun t => obind (fieldsToElm rest)
                                  (fun fs => Ok (MkElmFieldDecl (elmSafeName fieldName) t :: fs)))
                end) l = omap fieldToElm l).
  { induction l as [| [k ty] l IH]; [reflexivity |].
    cbn [omap]. unfold fieldToElm at 1. cbn [fst snd]. rewrite IH.
    destruct (typeToElm ty false); reflexivity. }
  destruct t; try discriminate; injection H as ->;
    cbn [typeToElm]; rewrite E; destruct (omap fieldToElm fs); reflexivity.
Qed.

Lemma mappable_fields (t : GraphQLType) (fs : list (string * GraphQLType)) :
  fieldsOf t = Some fs -> mappable t = forallb (fun f => mappable (snd f)) fs.
Proof.
  intros H.
  assert (E : forall l,
             (fix fieldsMappable (fs : list (string * GraphQLType)) : bool :=
                match fs with
                | [] => true
                | (_, fieldType) :: rest => mappable fieldType && fieldsMappable rest
                end) l = forallb (fun f => mappable (snd f)) l).
  { induction l as [| [k ty] l IH]; [reflexivity |]. cbn [forallb snd]. now rewrite IH. }
  destruct t; try discriminate; injection H as ->; cbn [mappable]; apply E.
Qed.

Lemma upperFirst_Ok (s : string) :
  (String.length s =? 0)%nat = false -> exists r, Js.upperFirst s = Ok r.
Proof. destruct s; [discriminate | intros _; eexists; reflexivity]. Qed.

Lemma typeToElm_total (t : GraphQLType) :
  forall b,
    (mappable t = true -> exists e, typeToElm t b = Ok e)
    /\ (mappable t = false -> exists err, typeToElm t b = Throw err).
Proof.
  assert (Fields : forall t fs,
             fieldsOf t = Some fs ->
             Forall (fun f => forall b,
                         (mappable (snd f) = true -> exists e, typeToElm (snd f) b = Ok e)
                         /\ (mappable (snd f) = false -> exists err, typeToElm (snd f) b = Throw err))
               fs ->
             forall b,
               (mappable t = true -> exists e, typeToElm t b = Ok e)
               /\ (mappable t = false -> exists err, typeToElm t b = Throw err)).
  { intros t0 fs Hfs IH b. rewrite (typeToElm_fields t0 fs b Hfs), (mappable_fields t0 fs Hfs).
    split; intros Hm.
    - rewrite forallb_forall in Hm.
      destruct (omap_Ok fieldToElm fs) as [r Hr].
      { rewrite Forall_forall in IH |- *. intros f Hf.
        destruct (proj1 (IH f Hf false) (Hm f Hf)) as [e He].
        unfold fieldToElm. rewrite He. eexists; reflexivity. }
      rewrite Hr. eexists; reflexivity.
    - destruct (omap_Throw fieldToElm fs) as [e He].
      + rewrite Forall_forall in IH |- *. intros f Hf. unfold fieldToElm.
        destruct (mappable (snd f)) eqn:Hmf.
        * destruct (proj1 (IH f Hf false) Hmf) as [e He]. rewrite He. left. eexists; reflexivity.
        * destruct (proj2 (IH f Hf false) Hmf) as [e He]. rewrite He. right. eexists; reflexivity.
      + apply Exists_exists.
        assert (Hex : existsb (fun f => negb (mappable (snd f))) fs = true).
        { clear IH Hfs. induction fs as [| f fs IHfs]; [discriminate |].
          cbn [forallb existsb] in *. destruct (mappable (snd f)); cbn [negb andb orb] in *; auto. }
        apply existsb_exists in Hex as (f & Hf & Hneg). exists f. split; [exact Hf |].
        rewrite Forall_forall in IH. unfold fieldToElm.
        assert (Hmf : mappable (snd f) = false) by now destruct (mappable (snd f)).
        destruct (proj2 (IH f Hf false) Hmf) as [e He].
        exists e. now rewrite He.
      + exists e. now rewrite He. }
  induction t as [name | name values | name fields IH | name fields IH | name fields IH
                  | name types _ | ofType IH | ofType IH]
    using GraphQLType_induction; intros b.
  - split; [intros _; rewrite typeToElm_Scalar; eexists; reflexivity | discriminate].
  - cbn [mappable typeToElm]. split; intros H.
    + destruct (upperFirst_Ok name) as [r Hr]; [now destruct (String.length name =? 0)%nat |].
      rewrite Hr. eexists; reflexivity.
    + destruct name; [eexists; reflexivity | discriminate].
  - now apply (Fields (GraphQLObjectType name fields) fields eq_refl).
  - now apply (Fields (GraphQLInterfaceType name fields) fields eq_refl).
  - now apply (Fields (GraphQLInputObjectType name fields) fields eq_refl).
  - split; [discriminate | intros _; eexists; reflexivity].
  - rewrite typeToElm_List. cbn [mappable]. split; intros H.
    + destruct (proj1 (IH true) H) as [e He]. rewrite He. eexists; reflexivity.
    + destruct (proj2 (IH true) H) as [e He]. rewrite He. eexists; reflexivity.
  - rewrite typeToElm_NonNull. cbn [mappable]. apply IH.
Qed.

(** ** Types that refer to one another *)

Lemma allSome_Some {A B} (f g : A -> option B) (l : list A) (r : list B) :
  ByRef.allSome f l = Some r ->
  (forall x y, In x l -> f x = Some y -> g x = Some y) ->
  ByRef.allSome g l = Some r.
Proof.
  revert r. induction l as [| x l IH]; intros r H Hfg; [exact H |].
  cbn [ByRef.allSome] in *. destruct (f x) as [y |] eqn:Ex; [| discriminate].
  destruct (ByRef.allSome f l) as [ys |]; [| discriminate].
  rewrite (Hfg x y (or_introl eq_refl) Ex), (IH ys eq_refl); [exact H |].
  intros x' y' Hx'. apply Hfg. now right.
Qed.

Lemma allSome_None {A B} (f : A -> option B) (l : list A) (x : A) :
  In x l -> f x = None -> ByRef.allSome f l = None.
Proof.
  induction l as [| x' l IH]; intros Hin Hx; [contradiction |].
  cbn [ByRef.allSome]. destruct Hin as [-> | Hin].
  - now rewrite Hx.
  - rewrite (IH Hin Hx). now destruct (f x').
Qed.

Lemma allSome_Forall2 {A B} (f : A -> option B) (l : list A) (r : list B) :
  ByRef.allSome f l = Some r -> Forall2 (fun x y => f x = Some y) l r.
Proof.
  revert r. induction l as [| x l IH]; intros r H; cbn [ByRef.allSome] in H.
  - injection H as <-. constructor.
  - destruct (f x) as [y |] eqn:Ex; [| discriminate].
    destruct (ByRef.allSome f l) as [ys |]; [| discriminate].
    injection H as <-. constructor; [exact Ex | now apply IH].
Qed.

Lemma Forall2_allSome {A B} (f : A -> option B) (l : list A) (r : list B) :
  Forall2 (fun x y => f x = Some y) l r -> ByRef.allSome f l = Some r.
Proof.
  induction 1 as [| x y l r Hx _ IH]; [reflexivity |].
  cbn [ByRef.allSome]. now rewrite Hx, IH.
Qed.

Lemma unfold_eq (g : ByRef.TypeMap) (fuel : nat) (r : ByRef.TypeRef) :
  ByRef.unfold g (S fuel) r
  = match r with
    | ByRef.ListOf o => option_map GraphQLList (ByRef.unfold g fuel o)
    | ByRef.NonNullOf o => option_map GraphQLNonNull (ByRef.unfold g fuel o)
    | ByRef.Named name =>
        match ByRef.deref g name with
        | Some ByRef.ScalarDef => Some (GraphQLScalarType name)
        | Some (ByRef.EnumDef values) => Some (GraphQLEnumType name values)
        | Some (ByRef.ObjectDef fs) => option_map (GraphQLObjectType name) (ByRef.unfoldFields g fuel fs)
        | Some (ByRef.InterfaceDef fs) =>
            option_map (GraphQLInterfaceType name) (ByRef.unfoldFields g fuel fs)
        | Some (ByRef.InputObjectDef fs) =>
            option_map (GraphQLInputObjectType name) (ByRef.unfoldFields g fuel fs)
        | Some (ByRef.UnionDef names) =>
            option_map (GraphQLUnionType name)
              (ByRef.allSome (fun n => ByRef.unfold g fuel (ByRef.Named n)) names)
        | None => None
        end
    end.
Proof. reflexivity. Qed.

Lemma option_map_Some {A B} (f : A -> B) (o : option A) (b : B) :
  option_map f o = Some b -> exists a, o = Some a /\ b = f a.
Proof. destruct o as [a |]; [| discriminate]. intros H. injection H as <-. now exists a. Qed.

(** More fuel unfolds what less fuel does. *)
Lemma unfold_S (g : ByRef.TypeMap) (fuel : nat) :
  forall r t, ByRef.unfold g fuel r = Some t -> ByRef.unfold g (S fuel) r = Some t.
Proof.
  induction fuel as [| fuel IH]; intros r t H; [discriminate |].
  assert (Fields : forall fs ts, ByRef.unfoldFields g fuel fs = Some ts ->
                                 ByRef.unfoldFields g (S fuel) fs = Some ts).
  { intros fs ts Hfs. apply (allSome_Some _ _ _ _ Hfs). intros x y _ Hx.
    destruct (ByRef.unfold g fuel (snd x)) as [tx |] eqn:E; [| discriminate].
    now rewrite (IH _ _ E). }
  assert (Members : forall (ns : list string) ts,
             ByRef.allSome (fun n => ByRef.unfold g fuel (ByRef.Named n)) ns = Some ts ->
             ByRef.allSome (fun n => ByRef.unfold g (S fuel) (ByRef.Named n)) ns = Some ts).
  { intros ns ts Hns. apply (allSome_Some _ _ _ _ Hns). intros x y _ Hx. now apply IH. }
  rewrite unfold_eq in H. rewrite unfold_eq.
  destruct r as [name | o | o].
  - destruct (ByRef.deref g name) as [[| values | fs | fs | fs | names] |]; try exact H;
      apply option_map_Some in H as (ts & Hts & ->);
      try (now rewrite (Fields _ _ Hts)).
    now rewrite (Members _ _ Hts).
  - apply option_map_Some in H as (t' & Ht' & ->). now rewrite (IH _ _ Ht').
  - apply option_map_Some in H as (t' & Ht' & ->). now rewrite (IH _ _ Ht').
Qed.

Lemma unfold_le (g : ByRef.TypeMap) (fuel fuel' : nat) (r : ByRef.TypeRef) (t : GraphQLType) :
  fuel <= fuel' -> ByRef.unfold g fuel r = Some t -> ByRef.unfold g fuel' r = Some t.
Proof. induction 1 as [| fuel' _ IH]; intros H; [exact H |]. now apply unfold_S, IH. Qed.

Lemma unfoldFields_Forall2 (g : ByRef.TypeMap) (fuel : nat) fs ts :
  ByRef.unfoldFields g fuel fs = Some ts ->
  Forall2 (fun f t => fst t = fst f /\ ByRef.unfold g fuel (snd f) = Some (snd t)) fs ts.
Proof.
  intros H. apply allSome_Forall2 in H.
  induction H as [| f t fs ts Hf _ IH]; constructor; [| exact IH].
  apply option_map_Some in Hf as (t' & Ht' & ->). now split.
Qed.

Lemma Forall2_unfoldFields (g : ByRef.TypeMap) (fuel : nat) fs ts :
  Forall2 (fun f t => fst t = fst f /\ ByRef.unfold g fuel (snd f) = Some (snd t)) fs ts ->
  ByRef.unfoldFields g fuel fs = Some ts.
Proof.
  intros H. apply Forall2_allSome.
  induction H as [| f [k t] fs ts [Hk Hf] _ IH]; constructor; [| exact IH].
  cbn [fst snd] in *. now rewrite Hf, <- Hk.
Qed.

(** *** [typeToElm] on the type objects *)

Lemma typeToElm_ref_eq (g : ByRef.TypeMap) (fuel : nat) (r : ByRef.TypeRef) (b : bool) :
  ByRef.typeToElm g (S fuel) r b
  = obind
      match r with
      | ByRef.NonNullOf ofType => ByRef.typeToElm g fuel ofType true
      | ByRef.ListOf ofType =>
          obind (ByRef.typeToElm g fuel ofType true) (fun t => Ok (ElmTypeApp "List" [t]))
      | ByRef.Named name =>
          match ByRef.fieldsAt g name with
          | Some fieldMap =>
              obind (omap (fun f => obind (ByRef.typeToElm g fuel (snd f) false)
                                      (fun t => Ok (MkElmFieldDecl (elmSafeName (fst f)) t)))
                       fieldMap)
                (fun fields => Ok (ElmTypeRecord fields None))
          | None =>
              match ByRef.deref g name with
              | Some ByRef.ScalarDef => Ok (scalarToElm name)
              | Some (ByRef.EnumDef _) => obind (Js.upperFirst name) (fun n => Ok (ElmTypeName n))
              | Some (ByRef.UnionDef _) => Throw (JsError "Unexpected: GraphQLUnionType")
              | _ => Throw (TypeError "Cannot read property 'constructor' of undefined")
              end
          end
      end
      (fun elmType => Ok (ByRef.wrapMaybe b r elmType)).
Proof.
  destruct r as [name | o | o]; try reflexivity.
  cbn [ByRef.typeToElm]. unfold ByRef.fieldsAt.
  destruct (ByRef.deref g name) as [[| values | fs | fs | fs | names] |]; reflexivity.
Qed.

(** On a type that unfolds, the function on the type objects gives what the
    function on the unfolding gives. *)
Lemma typeToElm_unfold (g : ByRef.TypeMap) (fuel : nat) :
  forall r t b, ByRef.unfold g fuel r = Some t -> ByRef.typeToElm g fuel r b = typeToElm t b.
Proof.
  induction fuel as [| fuel IH]; intros r t b H; [discriminate |].
  assert (Fields : forall fs ts,
             ByRef.unfoldFields g fuel fs = Some ts ->
             omap (fun f => obind (ByRef.typeToElm g fuel (snd f) false)
                              (fun t => Ok (MkElmFieldDecl (elmSafeName (fst f)) t))) fs
             = omap fieldToElm ts).
  { intros fs ts Hfs. apply unfoldFields_Forall2 in Hfs.
    induction Hfs as [| f t' fs ts [Hk Hf] _ IHfs]; [reflexivity |].
    cbn [omap]. rewrite IHfs, (IH _ _ false Hf). unfold fieldToElm at 2. now rewrite Hk. }
  rewrite unfold_eq in H. rewrite typeToElm_ref_eq. unfold ByRef.fieldsAt.
  destruct r as [name | o | o].
  - destruct (ByRef.deref g name) as [[| values | fs | fs | fs | names] |]; try discriminate.
    + injection H as <-. rewrite typeToElm_Scalar. now destruct b.
    + injection H as <-. reflexivity.
    + apply option_map_Some in H as (ts & Hts & ->).
      rewrite (typeToElm_fields (GraphQLObjectType name ts) ts b eq_refl), (Fields _ _ Hts).
      destruct (omap fieldToElm ts); reflexivity.
    + apply option_map_Some in H as (ts & Hts & ->).
      rewrite (typeToElm_fields (GraphQLInterfaceType name ts) ts b eq_refl), (Fields _ _ Hts).
      destruct (omap fieldToElm ts); reflexivity.
    + apply option_map_Some in H as (ts & Hts & ->).
      rewrite (typeToElm_fields (GraphQLInputObjectType name ts) ts b eq_refl), (Fields _ _ Hts).
      destruct (omap fieldToElm ts); reflexivity.
    + apply option_map_Some in H as (ts & Hts & ->). reflexivity.
  - apply option_map_Some in H as (t' & Ht' & ->).
    rewrite typeToElm_List, (IH _ _ true Ht').
    destruct (typeToElm t' true); try reflexivity.
    cbn [obind]. unfold ByRef.wrapMaybe. cbn [ByRef.isList negb andb].
    now rewrite andb_false_r.
  - apply option_map_Some in H as (t' & Ht' & ->).
    rewrite typeToElm_NonNull, (IH _ _ true Ht').
    destruct (typeToElm t' true); try reflexivity.
    cbn [obind]. unfold ByRef.wrapMaybe. cbn [ByRef.isNonNullType negb andb].
    now rewrite !andb_false_r.
Qed.

Lemma omap_Ok_inv {A B} (f : A -> Outcome B) (l : list A) (r : list B) :
  omap f l = Ok r -> Forall (fun x => exists y, f x = Ok y) l.
Proof.
  revert r. induction l as [| x l IH]; intros r H; [constructor |].
  cbn [omap] in H. apply obind_Ok_inv in H as (y & Hy & H).
  apply obind_Ok_inv in H as (ys & Hys & _).
  constructor; [now exists y | now apply (IH ys)].
Qed.

Lemma allSome_total {A B} (f : A -> option B) (l : list A) :
  Forall (fun x => exists y, f x = Some y) l -> exists r, ByRef.allSome f l = Some r.
Proof.
  induction 1 as [| x l [y Hy] _ [r Hr]]; [now exists [] |].
  exists (y :: r). cbn [ByRef.allSome]. now rewrite Hy, Hr.
Qed.

(** A type on which the function returns unfolds, within the same fuel. *)
Lemma typeToElm_ref_Ok (g : ByRef.TypeMap) (fuel : nat) :
  forall r b e, ByRef.typeToElm g fuel r b = Ok e -> exists t, ByRef.unfold g fuel r = Some t.
Proof.
  induction fuel as [| fuel IH]; intros r b e H; [discriminate |].
  rewrite typeToElm_ref_eq in H. apply obind_Ok_inv in H as (e1 & H & _).
  rewrite unfold_eq. unfold ByRef.fieldsAt in H.
  assert (Fields : forall fs l,
             omap (fun f => obind (ByRef.typeToElm g fuel (snd f) false)
                              (fun t => Ok (MkElmFieldDecl (elmSafeName (fst f)) t))) fs = Ok l ->
             exists ts, ByRef.unfoldFields g fuel fs = Some ts).
  { intros fs l Hl. apply omap_Ok_inv in Hl. apply allSome_total.
    rewrite Forall_forall in Hl |- *. intros f Hf. destruct (Hl f Hf) as [y Hy].
    apply obind_Ok_inv in Hy as (ty & Hty & _). destruct (IH _ _ _ Hty) as [t Ht].
    rewrite Ht. eexists; reflexivity. }
  destruct r as [name | o | o].
  - destruct (ByRef.deref g name) as [[| values | fs | fs | fs | names] |]; try discriminate;
      try (eexists; reflexivity);
      apply obind_Ok_inv in H as (l & Hl & _); destruct (Fields _ _ Hl) as [ts ->];
      eexists; reflexivity.
  - apply obind_Ok_inv in H as (e2 & H & _). destruct (IH _ _ _ H) as [t ->].
    eexists; reflexivity.
  - destruct (IH _ _ _ H) as [t ->]. eexists; reflexivity.
Qed.

(** Under the wrappers of a type that unfolds, the named type unfolds. *)
Lemma unfold_namedType (g : ByRef.TypeMap) (r : ByRef.TypeRef) :
  forall fuel t, ByRef.unfold g fuel r = Some t ->
                 exists fuel' t', fuel' <= fuel
                                  /\ ByRef.unfold g fuel' (ByRef.Named (ByRef.namedType r)) = Some t'.
Proof.
  induction r as [name | o IH | o IH]; intros fuel t H.
  - now exists fuel, t.
  - destruct fuel as [| fuel]; [discriminate |]. rewrite unfold_eq in H.
    apply option_map_Some in H as (t' & Ht' & _).
    destruct (IH _ _ Ht') as (fuel' & t'' & Hle & Hu). exists fuel', t''. split; [lia | exact Hu].
  - destruct fuel as [| fuel]; [discriminate |]. rewrite unfold_eq in H.
    apply option_map_Some in H as (t' & Ht' & _).
    destruct (IH _ _ Ht') as (fuel' & t'' & Hle & Hu). exists fuel', t''. split; [lia | exact Hu].
Qed.

(** A type one of whose fields is of the type itself has no unfolding. *)
Lemma unfold_self (g : ByRef.TypeMap) (name : string) (fields : list (string * ByRef.TypeRef))
    (field : string * ByRef.TypeRef) :
  ByRef.fieldsAt g name = Some fields ->
  In field fields ->
  ByRef.namedType (snd field) = name ->
  forall fuel, ByRef.unfold g fuel (ByRef.Named name) = None.
Proof.
  intros Hfs Hin Hname fuel.
  induction fuel as [fuel IH] using (well_founded_induction lt_wf).
  destruct fuel as [| fuel]; [reflexivity |].
  assert (Hfield : ByRef.unfoldFields g fuel fields = None).
  { apply (allSome_None _ _ field Hin).
    destruct (ByRef.unfold g fuel (snd field)) as [t |] eqn:E; [| reflexivity].
    destruct (unfold_namedType _ _ _ _ E) as (fuel' & t' & Hle & Hu).
    rewrite Hname, IH in Hu by lia. discriminate. }
  rewrite unfold_eq. unfold ByRef.fieldsAt in Hfs.
  destruct (ByRef.deref g name) as [[| values | fs | fs | fs | names] |]; try discriminate;
    injection Hfs as ->; now rewrite Hfield.
Qed.

(** X2 ([typeToElm]): on a type of a schema that unfolds into a finite tree,
    the mapping to an Elm type gives, with fuel for the depth of the tree,
    what the mapping of the tree gives: an Elm type when no union is met in
    the tree and its enums have a name, an error otherwise, whatever the
    context. The mapping returns an Elm type on such types only: on a type
    one of whose fields is of the type itself, or a list or non-null
    wrapping of it, it returns none, whatever the fuel. *)
Theorem typeToElm_succeeds_without_union (g : ByRef.TypeMap) (r : ByRef.TypeRef) (b : bool) :
  (forall fuel t,
      ByRef.unfold g fuel r = Some t ->
      (forall fuel', fuel <= fuel' -> ByRef.typeToElm g fuel' r b = typeToElm t b)
      /\ (mappable t = true -> exists e, typeToElm t b = Ok e)
      /\ (mappable t = false -> exists err, typeToElm t b = Throw err))
  /\ (forall fuel e,
         ByRef.typeToElm g fuel r b = Ok e ->
         exists t, ByRef.unfold g fuel r = Some t /\ mappable t = true /\ typeToElm t b = Ok e)
  /\ (forall fields field,
         ByRef.fieldsAt g (ByRef.namedType r) = Some fields ->
         In field fields ->
         ByRef.namedType (snd field) = ByRef.namedType r ->
         forall fuel e, ByRef.typeToElm g fuel r b <> Ok e).
Proof.
  split; [| split].
  - intros fuel t H. split; [| apply typeToElm_total].
    intros fuel' Hle. apply typeToElm_unfold. now apply (unfold_le g fuel fuel').
  - intros fuel e H. destruct (typeToElm_ref_Ok g fuel r b e H) as [t Ht].
    exists t. rewrite (typeToElm_unfold g fuel r t b Ht) in H.
    split; [exact Ht |]. split; [| exact H].
    destruct (mappable t) eqn:Hm; [reflexivity |].
    destruct (proj2 (typeToElm_total t b) Hm) as [err Herr]. congruence.
  - intros fields field Hfs Hin Hname fuel e H.
    destruct (typeToElm_ref_Ok g fuel r b e H) as [t Ht].
    destruct (unfold_namedType g r fuel t Ht) as (fuel' & t' & _ & Hu).
    rewrite (unfold_self g _ fields field Hfs Hin Hname) in Hu. discriminate.
Qed.

Lemma typeToElm_succeeds_without_union_witness :
  ByRef.typeToElm ByRef.Example.types 4 (ByRef.Named "ReviewInput") false
  = typeToElm Sample.ReviewInput false
  /\ (exists e, typeToElm Sample.ReviewInput false = Ok e)
  /\ (forall fuel e,
         ByRef.typeToElm ByRef.Example.types fuel (ByRef.Named "Character") false <> Ok e)
  /\ (forall fuel e,
         ByRef.typeToElm ByRef.Example.types fuel (ByRef.ListOf (ByRef.Named "Filter")) true
         <> Ok e).
Proof.
  destruct (typeToElm_succeeds_without_union ByRef.Example.types (ByRef.Named "ReviewInput") false)
    as [H _].
  destruct (H 4 Sample.ReviewInput eq_refl) as (Hsame & Hok & _).
  split; [apply Hsame; lia |]. split; [apply Hok; reflexivity |]. split.
  - destruct (typeToElm_succeeds_without_union ByRef.Example.types (ByRef.Named "Character") false)
      as (_ & _ & Hself).
    apply (Hself [("id", ByRef.NonNullOf (ByRef.Named "ID")); ("name", ByRef.Named "String");
                  ("friends", ByRef.ListOf (ByRef.Named "Character"));
                  ("appearsIn", ByRef.ListOf (ByRef.Named "Episode"))]
             ("friends", ByRef.ListOf (ByRef.Named "Character")));
      [reflexivity | cbn; tauto | reflexivity].
  - destruct (typeToElm_succeeds_without_union ByRef.Example.types
                (ByRef.ListOf (ByRef.Named "Filter")) true) as (_ & _ & Hself).
    apply (Hself [("name", ByRef.Named "String");
                  ("and", ByRef.ListOf (ByRef.NonNullOf (ByRef.Named "Filter")))]
             ("and", ByRef.ListOf (ByRef.NonNullOf (ByRef.Named "Filter"))));
      [reflexivity | cbn; tauto | reflexivity].
Defined.

Lemma typeToElm_isMaybe (t : GraphQLType) :
  forall b e, typeToElm t b = Ok e ->
              isMaybeType e = negb b && negb (isList t) && negb (isNonNullType t).
Proof.
  induction t as [name | name values | name fields _ | name fields _ | name fields _
                  | name types _ | ofType _ | ofType IH]
    using GraphQLType_induction; intros b e H.
  - rewrite typeToElm_Scalar in H. injection H as <-.
    destruct b; [| reflexivity]. unfold scalarToElm.
    repeat match goal with |- context [String.eqb ?a ?c] => destruct (String.eqb a c) end;
      reflexivity.
  - cbn [typeToElm] in H. apply obind_Ok_inv in H as (e1 & H1 & H). injection H as <-.
    apply obind_Ok_inv in H1 as (n & _ & H1). injection H1 as <-. now destruct b.
  - rewrite (typeToElm_fields (GraphQLObjectType name fields) fields b eq_refl) in H.
    apply obind_Ok_inv in H as (fs & _ & H). injection H as <-. now destruct b.
  - rewrite (typeToElm_fields (GraphQLInterfaceType name fields) fields b eq_refl) in H.
    apply obind_Ok_inv in H as (fs & _ & H). injection H as <-. now destruct b.
  - rewrite (typeToElm_fields (GraphQLInputObjectType name fields) fields b eq_refl) in H.
    apply obind_Ok_inv in H as (fs & _ & H). injection H as <-. now destruct b.
  - discriminate.
  - rewrite typeToElm_List in H. apply obind_Ok_inv in H as (e1 & _ & H). injection H as <-.
    now destruct b.
  - rewrite typeToElm_NonNull in H. rewrite (IH true e H). cbn. now rewrite andb_false_r.
Qed.

(** X3 ([typeToElm]): the Elm type is a [Maybe] exactly when the type is
    mapped in a nullable context and is neither a list nor a non-null type;
    for such a type the nullable mapping is the non-null one under
    [Maybe]. *)
Theorem typeToElm_maybe_law (t : GraphQLType) (b : bool) (e : ElmType) :
  typeToElm t b = Ok e ->
  isMaybeType e = negb b && negb (isList t) && negb (isNonNullType t)
  /\ (isList t = false -> isNonNullType t = false ->
      exists e1, typeToElm t true = Ok e1
                 /\ typeToElm t false = Ok (ElmTypeApp "Maybe" [e1])).
Proof.
  intros H. split; [now apply typeToElm_isMaybe |].
  intros Hl Hn.
  destruct t; try discriminate.
  - rewrite !typeToElm_Scalar. eexists; split; reflexivity.
  - cbn [typeToElm] in *. destruct (Js.upperFirst name); try discriminate.
    eexists; split; reflexivity.
  - rewrite (typeToElm_fields (GraphQLObjectType name fields) fields b eq_refl) in H.
    rewrite !(fun b => typeToElm_fields (GraphQLObjectType name fields) fields b eq_refl).
    destruct (omap fieldToElm fields); try discriminate. eexists; split; reflexivity.
  - rewrite (typeToElm_fields (GraphQLInterfaceType name fields) fields b eq_refl) in H.
    rewrite !(fun b => typeToElm_fields (GraphQLInterfaceType name fields) fields b eq_refl).
    destruct (omap fieldToElm fields); try discriminate. eexists; split; reflexivity.
  - rewrite (typeToElm_fields (GraphQLInputObjectType name fields) fields b eq_refl) in H.
    rewrite !(fun b => typeToElm_fields (GraphQLInputObjectType name fields) fields b eq_refl).
    destruct (omap fieldToElm fields); try discriminate. eexists; split; reflexivity.
Qed.

Lemma typeToElm_maybe_law_witness :
  isMaybeType (ElmTypeApp "Maybe" [ElmTypeName "Episode"]) = true
  /\ exists e1, typeToElm Example.Episode true = Ok e1
                /\ typeToElm Example.Episode false = Ok (ElmTypeApp "Maybe" [e1]).
Proof.
  destruct (typeToElm_maybe_law Example.Episode false (ElmTypeApp "Maybe" [ElmTypeName "Episode"]))
    as [A B]; [reflexivity |].
  split; [exact A | apply B; reflexivity].
Defined.

(** X4 ([typeToElm]): an object, interface or input object type becomes a
    closed record with one field per declared field, in the order of the
    declaration: the field bears the sanitized name and its type is the
    mapping of the declared type in a nullable context. *)
Theorem typeToElm_record (t : GraphQLType) (fs : list (string * GraphQLType)) (e : ElmType) :
  fieldsOf t = Some fs ->
  typeToElm t true = Ok e ->
  exists fields,
    e = ElmTypeRecord fields None
    /\ map fieldDeclName fields = map (fun f => elmSafeName (fst f)) fs
    /\ Forall2 (fun f d => typeToElm (snd f) false = Ok (fieldDeclType d)) fs fields.
Proof.
  intros Hfs H. rewrite (typeToElm_fields t fs true Hfs) in H.
  apply obind_Ok_inv in H as (fields & Hfields & H).
  assert (Hw : wrapMaybe true t (ElmTypeRecord fields None) = ElmTypeRecord fields None)
    by reflexivity.
  rewrite Hw in H. injection H as <-. exists fields. split; [reflexivity |].
  apply omap_Forall2 in Hfields. clear Hfs Hw.
  induction Hfields as [| f d fs' fields' Hd _ [IH1 IH2]].
  - split; [reflexivity | constructor].
  - unfold fieldToElm in Hd. apply obind_Ok_inv in Hd as (ty & Hty & Hd). injection Hd as <-.
    split; [cbn [map fieldDeclName]; now rewrite IH1 | constructor; [exact Hty | exact IH2]].
Qed.

Lemma typeToElm_record_witness :
  exists fields,
    ElmTypeRecord [MkElmFieldDecl "name" (ElmTypeApp "Maybe" [ElmTypeName "String"]);
                   MkElmFieldDecl "height" (ElmTypeApp "Maybe" [ElmTypeName "Int"])] None
    = ElmTypeRecord fields None
    /\ map fieldDeclName fields = map (fun f => elmSafeName (fst f)) [("name", Example.Str); ("height", Example.Int)]
    /\ Forall2 (fun f d => typeToElm (snd f) false = Ok (fieldDeclType d))
         [("name", Example.Str); ("height", Example.Int)] fields.
Proof.
  apply (typeToElm_record Example.Human); reflexivity.
Defined.

(** ** The encoder of an input type *)

Lemma omap_map {A B C} (f : A -> Outcome B) (g : B -> C) (l : list A) :
  omap (fun x => obind (f x) (fun y => Ok (g y))) l
  = obind (omap f l) (fun ys => Ok (map g ys)).
Proof.
  induction l as [| x l IH]; [reflexivity |].
  cbn [omap]. rewrite IH. destruct (f x); [| reflexivity | reflexivity].
  cbn [obind]. destruct (omap f l); reflexivity.
Qed.

(** The table of an enum: the constructors, each with its value. *)
Lemma omap_enum_table {C} (name : string) (g : string * string -> C) (values : list string) :
  omap (fun v => obind (QueryToElm.enumCtor name v) (fun c => Ok (g (c, v)))) values
  = obind (omap (QueryToElm.enumCtor name) values)
      (fun ctors => Ok (map g (combine ctors values))).
Proof.
  induction values as [| v values IH]; [reflexivity |].
  cbn [omap]. rewrite IH. destruct (QueryToElm.enumCtor name v); [| reflexivity | reflexivity].
  cbn [obind]. destruct (omap (QueryToElm.enumCtor name) values); reflexivity.
Qed.

(** [encoderForInputType] strips one non-null wrapper, builds the text of
    the type, and wraps it in [maybeEncode] when there was no wrapper. *)
Lemma encoderForInputType_core (t : GraphQLType) (b : bool) (path : option string) :
  QueryToElm.encoderForInputType t b path
  = match t with
    | GraphQLNonNull o => encoderCore o path
    | _ => obind (encoderCore t (Some "o"))
             (fun encoder =>
                Ok ("(maybeEncode (\o -> " ++ encoder ++ ") " ++ Js.str path ++ ")")%string)
    end.
Proof.
  assert (Fields : forall value l,
             (fix fieldsEncoders (fs : list (string * GraphQLType)) : Outcome (list string) :=
                match fs with
                | [] => Ok []
                | (fieldName, fieldType) :: rest =>
                    obind (QueryToElm.encoderForInputType fieldType false
                             (Some (Js.str value ++ "." ++ fieldName)%string))
                      (fun e => obind (fieldsEncoders rest)
                         (fun es => Ok (("(" ++ dq ++ fieldName ++ dq ++ ", " ++ e ++ ")")%string :: es)))
                end) l = omap (fieldEncoder value) l).
  { intros value. induction l as [| [k ty] l IH]; [reflexivity |].
    cbn [omap]. unfold fieldEncoder at 1. cbn [fst snd]. rewrite <- IH.
    destruct (QueryToElm.encoderForInputType ty false _); reflexivity. }
  assert (Enum : forall name values value,
             obind (omap (fun v => obind (QueryToElm.enumCtor name v)
                                     (fun c => Ok ("(" ++ dq ++ c ++ dq ++ ", " ++ dq ++ v ++ dq ++ ")")%string))
                      values)
               (fun tuples =>
                  Ok ("Json.Encode.string <| Maybe.withDefault " ++ dq ++ dq
                      ++ " <| Maybe.map Tuple.second <| List.head <| (\s -> List.filter (Tuple.first >> (==)(s)) "
                      ++ ("[" ++ Js.join "," tuples ++ "]") ++ " ) <| toString " ++ Js.str value)%string)
             = encoderCore (GraphQLEnumType name values) value).
  { intros name values value. cbn [encoderCore].
    rewrite (omap_ext _ (fun v => obind (QueryToElm.enumCtor name v)
                                    (fun c => Ok (encoderTuple (c, v)))) values)
      by (intros; reflexivity).
    rewrite (omap_enum_table name encoderTuple values).
    destruct (omap (QueryToElm.enumCtor name) values); try reflexivity.
    cbn [obind]. unfold enumEncoder. now rewrite !append_assoc. }
  destruct t as [name | name values | name fields | name fields | name fields
                 | name types | ofType | ofType];
    cbn [QueryToElm.encoderForInputType isNonNullType negb];
    try reflexivity.
  - rewrite Enum. reflexivity.
  - rewrite Fields. cbn [encoderCore].
    destruct (omap (fieldEncoder (Some "o")) fields); reflexivity.
  - destruct ofType as [name | name values | name fields | name fields | name fields
                        | name types | ofType | ofType];
      cbn [encoderCore]; try reflexivity.
    + rewrite Enum. cbn [encoderCore].
      destruct (omap (QueryToElm.enumCtor name) values); reflexivity.
    + rewrite Fields. destruct (omap (fieldEncoder path) fields); reflexivity.
    + destruct (QueryToElm.encoderForInputType ofType true (Some "x")); reflexivity.
Qed.

Lemma encodable_Input (name : string) (fs : list (string * GraphQLType)) :
  encodable (GraphQLInputObjectType name fs) = forallb (fun f => encodable (snd f)) fs.
Proof.
  cbn [encodable]. induction fs as [| [k ty] l IH]; [reflexivity |].
  cbn [forallb snd]. now rewrite IH.
Qed.

Lemma enumCtor_Ok (name v : string) :
  (String.length v =? 0)%nat = false -> exists c, QueryToElm.enumCtor name v = Ok c.
Proof. destruct v; [discriminate | intros _; eexists; reflexivity]. Qed.

Lemma enumCtor_Throw (name v : string) :
  (String.length v =? 0)%nat = true -> exists e, QueryToElm.enumCtor name v = Throw e.
Proof. destruct v; [intros _; eexists; reflexivity | discriminate]. Qed.

(** An outcome of [omap] from the outcomes on the elements, each of which
    either succeeds or throws as the test [ok] tells. *)
Lemma omap_decided {A B} (f : A -> Outcome B) (ok : A -> bool) (l : list A) :
  Forall (fun x => (ok x = true -> exists y, f x = Ok y)
                   /\ (ok x = false -> exists e, f x = Throw e)) l ->
  (forallb ok l = true -> exists r, omap f l = Ok r)
  /\ (forallb ok l = false -> exists e, omap f l = Throw e).
Proof.
  induction 1 as [| x l [Hok Hko] _ [IHok IHko]]; cbn [forallb omap].
  - split; [intros _; now exists [] | discriminate].
  - destruct (ok x).
    + destruct (Hok eq_refl) as [y Hy]. rewrite Hy. cbn [andb obind]. split; intros H.
      * destruct (IHok H) as [r Hr]. rewrite Hr. eexists; reflexivity.
      * destruct (IHko H) as [e He]. rewrite He. eexists; reflexivity.
    + destruct (Hko eq_refl) as [e He]. rewrite He. cbn [andb obind].
      split; [discriminate | intros _; eexists; reflexivity].
Qed.

Lemma encoderForInputType_total (t : GraphQLType) :
  (forall value,
      (negb (isNonNullType t) && encodable t = true -> exists e, encoderCore t value = Ok e)
      /\ (negb (isNonNullType t) && encodable t = false ->
          exists err, encoderCore t value = Throw err))
  /\ (forall b path,
         (encodable t = true -> exists e, QueryToElm.encoderForInputType t b path = Ok e)
         /\ (encodable t = false ->
             exists err, QueryToElm.encoderForInputType t b path = Throw err)).
Proof.
  assert (Wrap : forall t,
             isNonNullType t = false ->
             (forall value,
                 (negb (isNonNullType t) && encodable t = true ->
                  exists e, encoderCore t value = Ok e)
                 /\ (negb (isNonNullType t) && encodable t = false ->
                     exists err, encoderCore t value = Throw err)) ->
             forall b path,
               (encodable t = true -> exists e, QueryToElm.encoderForInputType t b path = Ok e)
               /\ (encodable t = false ->
                   exists err, QueryToElm.encoderForInputType t b path = Throw err)).
  { intros t0 Hnn Hcore b path. specialize (Hcore (Some "o")).
    rewrite Hnn in Hcore. cbn [negb andb] in Hcore.
    assert (E : QueryToElm.encoderForInputType t0 b path
                = obind (encoderCore t0 (Some "o"))
                    (fun encoder =>
                       Ok ("(maybeEncode (\o -> " ++ encoder ++ ") " ++ Js.str path ++ ")")%string)).
    { rewrite (encoderForInputType_core t0 b path). now destruct t0. }
    rewrite E.
    split; intros H.
    - destruct (proj1 Hcore H) as [e He]. rewrite He. eexists; reflexivity.
    - destruct (proj2 Hcore H) as [e He]. rewrite He. eexists; reflexivity. }
  induction t as [name | name values | name fields _ | name fields _ | name fields IH
                  | name types _ | ofType IH | ofType IH]
    using GraphQLType_induction.
  - assert (C : forall value,
               (negb (isNonNullType (GraphQLScalarType name)) && encodable (GraphQLScalarType name) = true ->
                exists e, encoderCore (GraphQLScalarType name) value = Ok e)
               /\ (negb (isNonNullType (GraphQLScalarType name)) && encodable (GraphQLScalarType name) = false ->
                   exists err, encoderCore (GraphQLScalarType name) value = Throw err)).
    { intros value. split; [intros _; eexists; reflexivity | discriminate]. }
    split; [exact C | now apply Wrap].
  - assert (C : forall value,
               (negb (isNonNullType (GraphQLEnumType name values)) && encodable (GraphQLEnumType name values) = true ->
                exists e, encoderCore (GraphQLEnumType name values) value = Ok e)
               /\ (negb (isNonNullType (GraphQLEnumType name values)) && encodable (GraphQLEnumType name values) = false ->
                   exists err, encoderCore (GraphQLEnumType name values) value = Throw err)).
    { intros value. cbn [isNonNullType negb andb encodable encoderCore].
      destruct (omap_decided (QueryToElm.enumCtor name)
                  (fun v => negb (String.length v =? 0)%nat) values) as [Hok Hko].
      { apply Forall_forall. intros v _. split; intros Hv.
        - apply enumCtor_Ok. now destruct (String.length v =? 0)%nat.
        - apply enumCtor_Throw. now destruct (String.length v =? 0)%nat. }
      split; intros H.
      - destruct (Hok H) as [r Hr]. rewrite Hr. eexists; reflexivity.
      - destruct (Hko H) as [e He]. rewrite He. eexists; reflexivity. }
    split; [exact C | now apply Wrap].
  - split; [| now apply Wrap; [| intros value; split; [discriminate | intros _; eexists; reflexivity]]].
    intros value; split; [discriminate | intros _; eexists; reflexivity].
  - split; [| now apply Wrap; [| intros value; split; [discriminate | intros _; eexists; reflexivity]]].
    intros value; split; [discriminate | intros _; eexists; reflexivity].
  - assert (C : forall value,
               (negb (isNonNullType (GraphQLInputObjectType name fields))
                && encodable (GraphQLInputObjectType name fields) = true ->
                exists e, encoderCore (GraphQLInputObjectType name fields) value = Ok e)
               /\ (negb (isNonNullType (GraphQLInputObjectType name fields))
                   && encodable (GraphQLInputObjectType name fields) = false ->
                   exists err, encoderCore (GraphQLInputObjectType name fields) value = Throw err)).
    { intros value. rewrite encodable_Input. cbn [isNonNullType negb andb encoderCore].
      destruct (omap_decided (fieldEncoder value) (fun f => encodable (snd f)) fields)
        as [Hok Hko].
      { rewrite Forall_forall in IH |- *. intros f Hf. unfold fieldEncoder.
        destruct (IH f Hf) as [_ IHf].
        specialize (IHf false (Some (Js.str value ++ "." ++ fst f)%string)).
        split; intros Hv.
        - destruct (proj1 IHf Hv) as [e He]. rewrite He. eexists; reflexivity.
        - destruct (proj2 IHf Hv) as [e He]. rewrite He. eexists; reflexivity. }
      split; intros H.
      - destruct (Hok H) as [r Hr]. rewrite Hr. eexists; reflexivity.
      - destruct (Hko H) as [e He]. rewrite He. eexists; reflexivity. }
    split; [exact C | now apply Wrap].
  - split; [| now apply Wrap; [| intros value; split; [discriminate | intros _; eexists; reflexivity]]].
    intros value; split; [discriminate | intros _; eexists; reflexivity].
  - assert (C : forall value,
               (negb (isNonNullType (GraphQLList ofType)) && encodable (GraphQLList ofType) = true ->
                exists e, encoderCore (GraphQLList ofType) value = Ok e)
               /\ (negb (isNonNullType (GraphQLList ofType)) && encodable (GraphQLList ofType) = false ->
                   exists err, encoderCore (GraphQLList ofType) value = Throw err)).
    { intros value. cbn [isNonNullType negb andb encodable encoderCore].
      destruct IH as [_ IH]. specialize (IH true (Some "x")).
      split; intros H.
      - destruct (proj1 IH H) as [e He]. rewrite He. eexists; reflexivity.
      - destruct (proj2 IH H) as [e He]. rewrite He. eexists; reflexivity. }
    split; [exact C | now apply Wrap].
  - split.
    + intros value. split; [discriminate | intros _; eexists; reflexivity].
    + intros b path. rewrite (encoderForInputType_core (GraphQLNonNull ofType) b path).
      cbn [encodable].
      destruct IH as [IH _]. apply IH.
Qed.

(** *** [encoderForInputType] on the type objects *)

Lemma enum_encoder_text (name : string) (values : list string) (value : option string) :
  obind (omap (fun v => obind (QueryToElm.enumCtor name v)
                          (fun c => Ok ("(" ++ dq ++ c ++ dq ++ ", " ++ dq ++ v ++ dq ++ ")")%string))
           values)
    (fun tuples =>
       Ok ("Json.Encode.string <| Maybe.withDefault " ++ dq ++ dq
           ++ " <| Maybe.map Tuple.second <| List.head <| (\s -> List.filter (Tuple.first >> (==)(s)) "
           ++ ("[" ++ Js.join "," tuples ++ "]") ++ " ) <| toString " ++ Js.str value)%string)
  = obind (omap (QueryToElm.enumCtor name) values)
      (fun ctors => Ok (enumEncoder (combine ctors values) (Js.str value))).
Proof.
  rewrite (omap_ext _ (fun v => obind (QueryToElm.enumCtor name v)
                                  (fun c => Ok (encoderTuple (c, v)))) values)
    by (intros; reflexivity).
  rewrite (omap_enum_table name encoderTuple values).
  destruct (omap (QueryToElm.enumCtor name) values); try reflexivity.
  cbn [obind]. unfold enumEncoder. now rewrite !append_assoc.
Qed.

Lemma encoderForInputType_ref_eq (g : ByRef.TypeMap) (fuel : nat) (r : ByRef.TypeRef)
    (b : bool) (path : option string) :
  ByRef.encoderForInputType g (S fuel) r b path
  = match r with
    | ByRef.NonNullOf o => ByRef.encoderCore g fuel o path
    | _ => obind (ByRef.encoderCore g fuel r (Some "o"))
             (fun encoder =>
                Ok ("(maybeEncode (\o -> " ++ encoder ++ ") " ++ Js.str path ++ ")")%string)
    end.
Proof.
  assert (Core : forall o value,
             obind
               match o with
               | ByRef.ListOf ofType =>
                   obind (ByRef.encoderForInputType g fuel ofType true (Some "x"))
                     (fun e => Ok ("(Json.Encode.list (List.map (\x -> " ++ e ++ ") "
                                   ++ Js.str value ++ "))")%string)
               | ByRef.NonNullOf _ => Throw (JsError "not implemented: GraphQLNonNull")
               | ByRef.Named name =>
                   match ByRef.deref g name with
                   | Some (ByRef.InputObjectDef fields) =>
                       obind (omap (fun f =>
                                      obind (ByRef.encoderForInputType g fuel (snd f) false
                                               (Some (Js.str value ++ "." ++ fst f)%string))
                                        (fun e => Ok ("(" ++ dq ++ fst f ++ dq ++ ", " ++ e ++ ")")%string))
                                fields)
                         (fun fieldEncoders =>
                            Ok ("(Json.Encode.object [" ++ Js.join ", " fieldEncoders ++ "])")%string)
                   | Some ByRef.ScalarDef => Ok (QueryToElm.scalarEncoder name ++ Js.str value)%string
                   | Some (ByRef.EnumDef values) =>
                       obind (omap (fun v => obind (QueryToElm.enumCtor name v)
                                               (fun c => Ok ("(" ++ dq ++ c ++ dq ++ ", " ++ dq ++ v ++ dq ++ ")")%string))
                                values)
                         (fun tuples =>
                            Ok ("Json.Encode.string <| Maybe.withDefault " ++ dq ++ dq
                                ++ " <| Maybe.map Tuple.second <| List.head <| (\s -> List.filter (Tuple.first >> (==)(s)) "
                                ++ ("[" ++ Js.join "," tuples ++ "]") ++ " ) <| toString "
                                ++ Js.str value)%string)
                   | Some (ByRef.ObjectDef _) => Throw (JsError "not implemented: GraphQLObjectType")
                   | Some (ByRef.InterfaceDef _) =>
                       Throw (JsError "not implemented: GraphQLInterfaceType")
                   | Some (ByRef.UnionDef _) => Throw (JsError "not implemented: GraphQLUnionType")
                   | None => Throw (TypeError "Cannot read property 'constructor' of undefined")
                   end
               end
               (fun encoder => Ok encoder)
             = ByRef.encoderCore g fuel o value).
  { intros o value. destruct o as [name | o | o]; cbn [ByRef.encoderCore].
    - destruct (ByRef.deref g name) as [[| values | fs | fs | fs | names] |]; try reflexivity.
      + rewrite enum_encoder_text. destruct (omap _ values); reflexivity.
      + change (fun f : string * ByRef.TypeRef => _) with (ByRef.fieldEncoder g fuel value).
        destruct (omap _ fs); reflexivity.
    - destruct (ByRef.encoderForInputType g fuel o true (Some "x")); reflexivity.
    - reflexivity. }
  destruct r as [name | o | o].
  - rewrite <- Core. cbn [ByRef.encoderForInputType ByRef.isNonNullType negb].
    destruct (ByRef.deref g name) as [[| values | fs | fs | fs | names] |]; try reflexivity.
    + destruct (omap _ values); reflexivity.
    + destruct (omap _ fs); reflexivity.
  - rewrite <- Core. cbn [ByRef.encoderForInputType ByRef.isNonNullType negb].
    destruct (ByRef.encoderForInputType g fuel o true (Some "x")); reflexivity.
  - rewrite <- Core. cbn [ByRef.encoderForInputType ByRef.isNonNullType negb].
    destruct o as [name | o | o]; reflexivity.
Qed.

(** On a type that unfolds, the function on the type objects gives what the
    function on the unfolding gives. *)
Lemma encoderForInputType_unfold (g : ByRef.TypeMap) (fuel : nat) :
  forall r t b path,
    ByRef.unfold g fuel r = Some t ->
    ByRef.encoderForInputType g fuel r b path = QueryToElm.encoderForInputType t b path.
Proof.
  induction fuel as [| fuel IH]; intros r t b path H; [discriminate |].
  assert (Fields : forall value fs ts,
             ByRef.unfoldFields g fuel fs = Some ts ->
             omap (ByRef.fieldEncoder g fuel value) fs = omap (fieldEncoder value) ts).
  { intros value fs ts Hfs. apply unfoldFields_Forall2 in Hfs.
    induction Hfs as [| f t' fs ts [Hk Hf] _ IHfs]; [reflexivity |].
    cbn [omap]. rewrite IHfs. unfold ByRef.fieldEncoder at 1, fieldEncoder at 2.
    now rewrite (IH _ _ false _ Hf), Hk. }
  assert (Core : forall r t value,
             ByRef.unfold g (S fuel) r = Some t ->
             ByRef.encoderCore g fuel r value = encoderCore t value).
  { intros r0 t0 value H0. rewrite unfold_eq in H0.
    destruct r0 as [name | o | o]; cbn [ByRef.encoderCore].
    - destruct (ByRef.deref g name) as [[| values | fs | fs | fs | names] |]; try discriminate;
        try (injection H0 as <-; reflexivity);
        apply option_map_Some in H0 as (ts & Hts & ->); try reflexivity.
      cbn [encoderCore]. now rewrite (Fields _ _ _ Hts).
    - apply option_map_Some in H0 as (t' & Ht' & ->). cbn [encoderCore].
      now rewrite (IH _ _ true _ Ht').
    - apply option_map_Some in H0 as (t' & Ht' & ->). reflexivity. }
  rewrite encoderForInputType_ref_eq, encoderForInputType_core.
  destruct r as [name | o | o].
  - rewrite (Core _ _ (Some "o") H). rewrite unfold_eq in H.
    destruct (ByRef.deref g name) as [[| values | fs | fs | fs | names] |]; try discriminate;
      try (injection H as <-; reflexivity);
      apply option_map_Some in H as (ts & Hts & ->); reflexivity.
  - rewrite (Core _ _ (Some "o") H). rewrite unfold_eq in H.
    apply option_map_Some in H as (t' & Ht' & ->). reflexivity.
  - rewrite unfold_eq in H. apply option_map_Some in H as (t' & Ht' & ->).
    apply Core. now apply unfold_S.
Qed.

(** A type on which the function returns unfolds, and the function on the
    unfolding returns the same. *)
Lemma encoderForInputType_ref_Ok (g : ByRef.TypeMap) (fuel : nat) :
  forall r b path e,
    ByRef.encoderForInputType g fuel r b path = Ok e ->
    exists t, ByRef.unfold g (2 * fuel) r = Some t.
Proof.
  induction fuel as [| fuel IH]; intros r b path e H; [discriminate |].
  replace (2 * S fuel) with (S (S (2 * fuel))) by lia.
  assert (Fields : forall value fs l,
             omap (ByRef.fieldEncoder g fuel value) fs = Ok l ->
             exists ts, ByRef.unfoldFields g (2 * fuel) fs = Some ts).
  { intros value fs l Hl. apply omap_Ok_inv in Hl. apply allSome_total.
    rewrite Forall_forall in Hl |- *. intros f Hf. destruct (Hl f Hf) as [y Hy].
    apply obind_Ok_inv in Hy as (ty & Hty & _). destruct (IH _ _ _ _ Hty) as [t Ht].
    rewrite Ht. eexists; reflexivity. }
  assert (Core : forall r value e,
             ByRef.encoderCore g fuel r value = Ok e ->
             exists t, ByRef.unfold g (S (2 * fuel)) r = Some t).
  { intros r0 value e0 H0. rewrite unfold_eq.
    destruct r0 as [name | o | o]; cbn [ByRef.encoderCore] in H0; [| | discriminate].
    - destruct (ByRef.deref g name) as [[| values | fs | fs | fs | names] |]; try discriminate;
        try (eexists; reflexivity).
      apply obind_Ok_inv in H0 as (l & Hl & _). destruct (Fields _ _ _ Hl) as [ts ->].
      eexists; reflexivity.
    - apply obind_Ok_inv in H0 as (e1 & H1 & _). destruct (IH _ _ _ _ H1) as [t ->].
      eexists; reflexivity. }
  rewrite encoderForInputType_ref_eq in H.
  destruct r as [name | o | o].
  - apply obind_Ok_inv in H as (e1 & H & _). destruct (Core _ _ _ H) as [t Ht].
    exists t. now apply unfold_S.
  - apply obind_Ok_inv in H as (e1 & H & _). destruct (Core _ _ _ H) as [t Ht].
    exists t. now apply unfold_S.
  - destruct (Core _ _ _ H) as [t Ht]. rewrite unfold_eq, Ht. eexists; reflexivity.
Qed.

(** More fuel returns what less fuel does. *)
Lemma encoderForInputType_ref_le (g : ByRef.TypeMap) (fuel fuel' : nat) (r : ByRef.TypeRef)
    (b : bool) (path : option string) (e : string) :
  fuel <= fuel' ->
  ByRef.encoderForInputType g fuel r b path = Ok e ->
  ByRef.encoderForInputType g fuel' r b path = Ok e.
Proof.
  revert fuel' r b path e.
  induction fuel as [| fuel IH]; intros fuel' r b path e Hle H; [discriminate |].
  destruct fuel' as [| fuel']; [lia |].
  assert (Fields : forall value fs l,
             omap (ByRef.fieldEncoder g fuel value) fs = Ok l ->
             omap (ByRef.fieldEncoder g fuel' value) fs = Ok l).
  { intros value fs. induction fs as [| f fs IHfs]; intros l Hl; [exact Hl |].
    cbn [omap] in *. apply obind_Ok_inv in Hl as (y & Hy & Hl).
    apply obind_Ok_inv in Hl as (ys & Hys & Hl).
    rewrite (IHfs _ Hys).
    unfold ByRef.fieldEncoder in Hy |- *. apply obind_Ok_inv in Hy as (e1 & He1 & Hy).
    injection Hy as <-.
    now rewrite (IH fuel' _ _ _ _ ltac:(lia) He1). }
  assert (Core : forall r value e,
             ByRef.encoderCore g fuel r value = Ok e ->
             ByRef.encoderCore g fuel' r value = Ok e).
  { intros r0 value e0 H0.
    destruct r0 as [name | o | o]; cbn [ByRef.encoderCore] in *; [| | discriminate].
    - destruct (ByRef.deref g name) as [[| values | fs | fs | fs | names] |]; try discriminate;
        try exact H0.
      apply obind_Ok_inv in H0 as (l & Hl & H0). now rewrite (Fields _ _ _ Hl).
    - apply obind_Ok_inv in H0 as (e1 & H1 & H0).
      now rewrite (IH fuel' _ _ _ _ ltac:(lia) H1). }
  rewrite encoderForInputType_ref_eq in *.
  destruct r as [name | o | o].
  - apply obind_Ok_inv in H as (e1 & H & He). now rewrite (Core _ _ _ H).
  - apply obind_Ok_inv in H as (e1 & H & He). now rewrite (Core _ _ _ H).
  - now apply Core.
Qed.


(** X5 ([encoderForInputType]): on a type of a schema that unfolds into a
    finite tree, the text of an encoder is produced, with fuel for the depth
    of the tree, as for the tree: for every input type (a scalar, an enum
    whose values have a name, an input object, a list, each possibly
    non-null), whatever the path; on every other type, an object, interface
    or union type or a doubly non-null one met on the way down, the function
    throws. The function returns a text on such types only: on a type one of
    whose fields is of the type itself, or a list or non-null wrapping of
    it, it returns none, whatever the fuel. *)
Theorem encoderForInputType_succeeds_on_input_types
    (g : ByRef.TypeMap) (r : ByRef.TypeRef) (b : bool) (path : option string) :
  (forall fuel t,
      ByRef.unfold g fuel r = Some t ->
      (forall fuel', fuel <= fuel' ->
                     ByRef.encoderForInputType g fuel' r b path
                     = QueryToElm.encoderForInputType t b path)
      /\ (encodable t = true -> exists e, QueryToElm.encoderForInputType t b path = Ok e)
      /\ (encodable t = false ->
          exists err, QueryToElm.encoderForInputType t b path = Throw err))
  /\ (forall fuel e,
         ByRef.encoderForInputType g fuel r b path = Ok e ->
         exists fuel' t,
           ByRef.unfold g fuel' r = Some t
           /\ encodable t = true
           /\ QueryToElm.encoderForInputType t b path = Ok e)
  /\ (forall fields field,
         ByRef.fieldsAt g (ByRef.namedType r) = Some fields ->
         In field fields ->
         ByRef.namedType (snd field) = ByRef.namedType r ->
         forall fuel e, ByRef.encoderForInputType g fuel r b path <> Ok e).
Proof.
  split; [| split].
  - intros fuel t H. split; [| apply encoderForInputType_total].
    intros fuel' Hle. apply encoderForInputType_unfold. now apply (unfold_le g fuel fuel').
  - intros fuel e H. destruct (encoderForInputType_ref_Ok g fuel r b path e H) as [t Ht].
    exists (2 * fuel), t.
    apply (encoderForInputType_ref_le g fuel (2 * fuel)) in H; [| lia].
    rewrite (encoderForInputType_unfold g (2 * fuel) r t b path Ht) in H.
    split; [exact Ht |]. split; [| exact H].
    destruct (encodable t) eqn:Hm; [reflexivity |].
    destruct (proj2 (proj2 (encoderForInputType_total t) b path) Hm) as [err Herr]. congruence.
  - intros fields field Hfs Hin Hname fuel e H.
    destruct (encoderForInputType_ref_Ok g fuel r b path e H) as [t Ht].
    destruct (unfold_namedType g r _ t Ht) as (fuel' & t' & _ & Hu).
    rewrite (unfold_self g _ fields field Hfs Hin Hname) in Hu. discriminate.
Qed.

Lemma encoderForInputType_succeeds_on_input_types_witness :
  ByRef.encoderForInputType ByRef.Example.types 5 (ByRef.NonNullOf (ByRef.Named "ReviewInput"))
    true (Some "params.review")
  = QueryToElm.encoderForInputType (GraphQLNonNull Sample.ReviewInput) true (Some "params.review")
  /\ (exists e, QueryToElm.encoderForInputType (GraphQLNonNull Sample.ReviewInput) true
                  (Some "params.review") = Ok e)
  /\ (forall fuel e,
         ByRef.encoderForInputType ByRef.Example.types fuel (ByRef.Named "Filter") true
           (Some "params.filter") <> Ok e).
Proof.
  destruct (encoderForInputType_succeeds_on_input_types ByRef.Example.types
              (ByRef.NonNullOf (ByRef.Named "ReviewInput")) true (Some "params.review"))
    as [H _].
  destruct (H 5 (GraphQLNonNull Sample.ReviewInput) eq_refl) as (Hsame & Hok & _).
  split; [apply Hsame; lia |]. split; [apply Hok; reflexivity |].
  destruct (encoderForInputType_succeeds_on_input_types ByRef.Example.types
              (ByRef.Named "Filter") true (Some "params.filter")) as (_ & _ & Hself).
  apply (Hself [("name", ByRef.Named "String");
                ("and", ByRef.ListOf (ByRef.NonNullOf (ByRef.Named "Filter")))]
           ("and", ByRef.ListOf (ByRef.NonNullOf (ByRef.Named "Filter"))));
    [reflexivity | cbn; tauto | reflexivity].
Defined.

(** X6 ([walkOperationDefinition], [encoderForInputType]): for a variable
    with a default value the encoder of the type is built without a path, so
    its text names [undefined] where the value is expected: under
    [maybeEncode] for a nullable type, after the scalar encoder for a
    non-null scalar; the value [val] bound by the [Just] branch follows as
    one more argument. *)
Theorem defaulted_variable_encoder (p : QueryToElm.OperationParameter) (entry : string) :
  QueryToElm.pHasDefault p = true ->
  QueryToElm.parameterEncoder p = Ok entry ->
  exists just,
    entry = ("(" ++ dq ++ QueryToElm.pName p ++ dq ++ ", "
             ++ renderEncoder (EncodeCase (QueryToElm.pName p) just) ++ ")")%string
    /\ (isNonNullType (QueryToElm.pSchemaType p) = false ->
        exists body, just = ("(maybeEncode (\o -> " ++ body ++ ") undefined)")%string)
    /\ (forall name, QueryToElm.pSchemaType p = GraphQLNonNull (GraphQLScalarType name) ->
                     just = (QueryToElm.scalarEncoder name ++ "undefined")%string).
Proof.
  intros Hd H. unfold QueryToElm.parameterEncoder in H. rewrite Hd in H.
  apply obind_Ok_inv in H as (enc & Henc & H). injection H as <-.
  apply obind_Ok_inv in Henc as (just & Hjust & Henc). injection Henc as <-.
  exists just. split; [reflexivity |]. split.
  - intros Hn. apply (encoderForInputType_nullable _ _ _ _ Hn Hjust).
  - intros name Ht. rewrite Ht in Hjust. cbn in Hjust. now injection Hjust as <-.
Qed.

Lemma defaulted_variable_encoder_witness :
  (exists just,
      Sample.starsEntry = ("(" ++ dq ++ "stars" ++ dq ++ ", "
                           ++ renderEncoder (EncodeCase "stars" just) ++ ")")%string
      /\ (true = false ->
          exists body, just = ("(maybeEncode (\o -> " ++ body ++ ") undefined)")%string)
      /\ (forall name, GraphQLNonNull Example.Int = GraphQLNonNull (GraphQLScalarType name) ->
                       just = (QueryToElm.scalarEncoder name ++ "undefined")%string))
  /\
  (exists just,
      Sample.reviewEntry = ("(" ++ dq ++ "review" ++ dq ++ ", "
                            ++ renderEncoder (EncodeCase "review" just) ++ ")")%string
      /\ (false = false ->
          exists body, just = ("(maybeEncode (\o -> " ++ body ++ ") undefined)")%string)
      /\ (forall name, Sample.ReviewInput = GraphQLNonNull (GraphQLScalarType name) ->
                       just = (QueryToElm.scalarEncoder name ++ "undefined")%string)).
Proof.
  split.
  - apply (defaulted_variable_encoder Sample.starsParameter); reflexivity.
  - apply (defaulted_variable_encoder Sample.reviewParameter); reflexivity.
Defined.

(** ** Enums and unions *)

Lemma upperFirst_idem (s r : string) : Js.upperFirst s = Ok r -> Js.upperFirst r = Ok r.
Proof.
  destruct s as [| c s]; [discriminate |]. intros H. injection H as <-.
  cbn [Js.upperFirst]. f_equal. f_equal. unfold Js.toUpperChar.
  destruct ((97 <=? nat_of_ascii c) && (nat_of_ascii c <=? 122))%nat eqn:E.
  - apply andb_true_iff in E as [E1 E2]. apply Nat.leb_le in E1, E2.
    rewrite nat_ascii_embedding by lia.
    replace ((97 <=? nat_of_ascii c - 32))%nat with false; [reflexivity |].
    symmetry. apply Nat.leb_gt. lia.
  - now rewrite E.
Qed.

(** X7 ([walkEnum], [decoderForEnum], [encoderForInputType], [typeToElm],
    [leafTypeToDecoder]): the texts made for an enum use one list of
    constructors, one per value and in the order of the values: the type
    declares them, the encoder maps each to the name of its value, and, when
    the name of the enum begins with a capital, the decoder maps the name of
    each value back to it. The decoder of a field of the enum is the
    declared decoder, by its name, and under the same condition the type of
    the field is the declared type. *)
Theorem enum_constructors_agree (name : string) (values : list string) (d : ElmDecl) :
  QueryToElm.walkEnum (MkEnum name values) = Ok d ->
  exists ctors,
    d = ElmTypeDecl name ctors
    /\ Forall2 (fun v c => QueryToElm.enumCtor name v = Ok c) values ctors
    /\ (forall b path,
           QueryToElm.encoderForInputType (GraphQLNonNull (GraphQLEnumType name values)) b
             (Some path)
           = Ok (enumEncoder (combine ctors values) path))
    /\ QueryToDecoder.leafTypeToDecoder (Some (GraphQLEnumType name values))
       = Ok (Js.toLowerCase name ++ "Decoder")%string
    /\ (Js.upperFirst name = Ok name ->
        QueryToElm.decoderForEnum (MkEnum name values)
        = Ok (ElmFunctionDecl (Js.toLowerCase name ++ "Decoder") []
                (ElmTypeName ("Decoder " ++ name))
                (MkElmExpr (enumDecoder name (combine ctors values))))
        /\ typeToElm (GraphQLEnumType name values) true = Ok (ElmTypeName name)).
Proof.
  intros H. unfold QueryToElm.walkEnum in H. cbn [enumName enumValues] in H.
  apply obind_Ok_inv in H as (ctors & Hctors & H). injection H as <-.
  exists ctors. split; [reflexivity |]. split; [now apply omap_Forall2 |]. split.
  - intros b path. rewrite encoderForInputType_core. cbn [encoderCore]. now rewrite Hctors.
  - split; [reflexivity |]. intros Hname. split.
    + unfold QueryToElm.decoderForEnum. cbn [enumName enumValues].
      rewrite Hname. cbn [obind].
      rewrite (omap_ext _ (fun v => obind (QueryToElm.enumCtor name v)
                                      (fun c => Ok (decoderCase (c, v)))) values).
      * rewrite (omap_enum_table name decoderCase values), Hctors. reflexivity.
      * intros v _. unfold QueryToElm.enumCtor, decoderCase.
        destruct (Js.upperFirstLowerRest v); reflexivity.
    + cbn [typeToElm]. rewrite Hname. reflexivity.
Qed.

Lemma enum_constructors_agree_witness :
  exists ctors,
    Sample.episodeType = ElmTypeDecl "Episode" ctors
    /\ Forall2 (fun v c => QueryToElm.enumCtor "Episode" v = Ok c) ["NEWHOPE"; "EMPIRE"; "JEDI"] ctors
    /\ (forall b path,
           QueryToElm.encoderForInputType
             (GraphQLNonNull (GraphQLEnumType "Episode" ["NEWHOPE"; "EMPIRE"; "JEDI"])) b
             (Some path)
           = Ok (enumEncoder (combine ctors ["NEWHOPE"; "EMPIRE"; "JEDI"]) path))
    /\ QueryToDecoder.leafTypeToDecoder
         (Some (GraphQLEnumType "Episode" ["NEWHOPE"; "EMPIRE"; "JEDI"]))
       = Ok (Js.toLowerCase "Episode" ++ "Decoder")%string
    /\ (Js.upperFirst "Episode" = Ok "Episode" ->
        QueryToElm.decoderForEnum (MkEnum "Episode" ["NEWHOPE"; "EMPIRE"; "JEDI"])
        = Ok (ElmFunctionDecl (Js.toLowerCase "Episode" ++ "Decoder") []
                (ElmTypeName ("Decoder " ++ "Episode"))
                (MkElmExpr (enumDecoder "Episode" (combine ctors ["NEWHOPE"; "EMPIRE"; "JEDI"]))))
        /\ typeToElm (GraphQLEnumType "Episode" ["NEWHOPE"; "EMPIRE"; "JEDI"]) true
           = Ok (ElmTypeName "Episode")).
Proof.
  apply (enum_constructors_agree "Episode" ["NEWHOPE"; "EMPIRE"; "JEDI"]). reflexivity.
Defined.

Lemma mapi_from_nth {A B C} (l : list C) (g : A -> option C -> B) (xs : list A) :
  forall i,
    i + length xs <= length l ->
    mapi_from i (fun t j => g t (nth_error l j)) xs
    = map (fun ta => g (fst ta) (Some (snd ta)))
        (combine xs (firstn (length xs) (skipn i l))).
Proof.
  induction xs as [| x xs IH]; intros i Hi; [reflexivity |].
  cbn [mapi_from length]. cbn [length] in Hi.
  destruct (skipn i l) as [| a rest] eqn:E.
  - exfalso. assert (Hl := length_skipn i l). rewrite E in Hl. cbn in Hl. lia.
  - assert (Hnth : nth_error l i = Some a).
    { rewrite <- (firstn_skipn i l) at 1. rewrite nth_error_app2; rewrite length_firstn;
        [| lia]. replace (i - Nat.min i (length l)) with 0 by lia. now rewrite E. }
    assert (Hrest : skipn (S i) l = rest).
    { replace (S i) with (1 + i) by lia. rewrite <- skipn_skipn, E. reflexivity. }
    cbn [firstn combine map fst snd]. rewrite Hnth. f_equal.
    rewrite IH by lia. now rewrite Hrest.
Qed.

Lemma map_snd_combine {A B} (xs : list A) (ys : list B) :
  length xs = length ys -> map snd (combine xs ys) = ys.
Proof.
  revert ys. induction xs as [| x xs IH]; intros [| y ys] H; try discriminate; [reflexivity |].
  cbn. f_equal. apply IH. now injection H.
Qed.

(** X8 ([walkUnion] of query-to-elm.ts): a union of at most 26 member types
    is declared with one type parameter per member, the first letters of the
    alphabet in order and so distinct, and one constructor per member, in the
    order of the members, which takes the parameter of its member. *)
Theorem walkUnion_type_parameters (u : UnionT) :
  length (unionTypes u) <= 26 ->
  let params := typeParameters (length (unionTypes u)) in
  QueryToElm.walkUnion u
  = [ElmTypeDecl (unionName u ++ " " ++ Js.join " " params)
       (map (fun ta => elmSafeName (unionName u ++ "_" ++ Js.str (typeName (fst ta)))
                         ++ " " ++ snd ta)%string
          (combine (unionTypes u) params))]
  /\ length params = length (unionTypes u)
  /\ NoDup params.
Proof.
  intros Hn params.
  assert (Hlen : length params = length (unionTypes u)).
  { unfold params, typeParameters. rewrite length_firstn.
    change (length alphabet) with 26. lia. }
  split; [| split; [exact Hlen |]].
  - unfold QueryToElm.walkUnion, mapi.
    rewrite (mapi_from_nth alphabet (fun _ o => match o with Some a => a | None => EmptyString end))
      by (change (length alphabet) with 26; lia).
    rewrite (mapi_from_nth alphabet
               (fun t o => (elmSafeName (unionName u ++ "_" ++ Js.str (typeName t))
                              ++ " " ++ Js.str o)%string))
      by (change (length alphabet) with 26; lia).
    cbn [skipn]. fold (typeParameters (length (unionTypes u))). fold params.
    f_equal. f_equal.
    + f_equal. f_equal. rewrite <- (map_snd_combine (unionTypes u) params) at 2 by now symmetry.
      reflexivity.
  - unfold params, typeParameters.
    assert (Hall : NoDup alphabet).
    { unfold alphabet. repeat (constructor; [cbn; intuition discriminate |]). constructor. }
    rewrite <- (firstn_skipn (length (unionTypes u)) alphabet) in Hall.
    now apply NoDup_app_remove_r in Hall.
Qed.

Lemma walkUnion_type_parameters_witness :
  QueryToElm.walkUnion Sample.searchUnion
  = [ElmTypeDecl ("SearchResult" ++ " " ++ Js.join " " (typeParameters 2))
       (map (fun ta => elmSafeName ("SearchResult" ++ "_" ++ Js.str (typeName (fst ta)))
                         ++ " " ++ snd ta)%string
          (combine [Example.Human; Example.Droid] (typeParameters 2)))]
  /\ length (typeParameters 2) = 2
  /\ NoDup (typeParameters 2).
Proof.
  apply (walkUnion_type_parameters Sample.searchUnion). cbn. lia.
Defined.

(** ** The visitor and the fragments of a document *)

Lemma visitSelections_flat_map (sels : list Selection) :
  (fix visitSelections (sels : list Selection) : list VisitEvent :=
     match sels with
     | [] => []
     | s :: r => visitSelection s ++ visitSelections r
     end) sels = flat_map visitSelection sels.
Proof. induction sels as [| s r IH]; [reflexivity |]. cbn [flat_map]. now rewrite IH. Qed.

Lemma visitSelection_Field (alias : option string) (name : string)
    (selectionSet : option (list Selection)) :
  visitSelection (Field alias name selectionSet)
  = [Enter (NField alias name)]
      ++ match alias with Some _ => visitLeaf | None => [] end
      ++ visitLeaf
      ++ match selectionSet with
         | Some sels => visitSelectionSet sels
         | None => []
         end
      ++ [Leave (NField alias name)].
Proof.
  cbn [visitSelection]. destruct selectionSet as [sels |]; [| reflexivity].
  rewrite visitSelections_flat_map. reflexivity.
Qed.

Lemma visitSelection_Inline (typeCondition : option string) (sels : list Selection) :
  visitSelection (InlineFragment typeCondition sels)
  = [Enter (NInlineFragment typeCondition)]
      ++ match typeCondition with
         | Some _ => [Enter NOther] ++ visitLeaf ++ [Leave NOther]
         | None => []
         end
      ++ visitSelectionSet sels
      ++ [Leave (NInlineFragment typeCondition)].
Proof.
  cbn [visitSelection]. rewrite visitSelections_flat_map. unfold visitSelectionSet.
  now rewrite <- !app_assoc.
Qed.

Lemma spreadsOfSelection_Field (alias : option string) (name : string) (sels : list Selection) :
  spreadsOfSelection (Field alias name (Some sels)) = spreadsOfSelectionSet sels.
Proof.
  cbn [spreadsOfSelection]. unfold spreadsOfSelectionSet.
  induction sels as [| s r IH]; [reflexivity |]. cbn [flat_map]. now rewrite IH.
Qed.

Lemma spreadsOfSelection_Inline (typeCondition : option string) (sels : list Selection) :
  spreadsOfSelection (InlineFragment typeCondition sels) = spreadsOfSelectionSet sels.
Proof.
  cbn [spreadsOfSelection]. unfold spreadsOfSelectionSet.
  induction sels as [| s r IH]; [reflexivity |]. cbn [flat_map]. now rewrite IH.
Qed.

Lemma flat_map_flat_map {A B C} (f : A -> list B) (g : B -> list C) (l : list A) :
  flat_map g (flat_map f l) = flat_map (fun x => flat_map g (f x)) l.
Proof.
  induction l as [| x l IH]; [reflexivity |]. cbn [flat_map]. now rewrite flat_map_app, IH.
Qed.

Lemma flat_map_Forall_ext {A B} (f g : A -> list B) (l : list A) :
  Forall (fun x => f x = g x) l -> flat_map f l = flat_map g l.
Proof. induction 1 as [| x l Hx _ IH]; [reflexivity |]. cbn [flat_map]. now rewrite Hx, IH. Qed.

(** The visit of a selection enters no fragment definition, and enters the
    fragment spreads of the selection in the order of the text. *)
Lemma visitSelection_events (sel : Selection) :
  flat_map definitionEntered (visitSelection sel) = []
  /\ flat_map spreadEntered (visitSelection sel) = spreadsOfSelection sel.
Proof.
  assert (Sels : forall sels,
             Forall (fun sel => flat_map definitionEntered (visitSelection sel) = []
                                /\ flat_map spreadEntered (visitSelection sel)
                                   = spreadsOfSelection sel) sels ->
             flat_map definitionEntered (visitSelectionSet sels) = []
             /\ flat_map spreadEntered (visitSelectionSet sels) = spreadsOfSelectionSet sels).
  { intros sels H. unfold visitSelectionSet, spreadsOfSelectionSet.
    rewrite !flat_map_app, !flat_map_flat_map. cbn [flat_map definitionEntered spreadEntered app].
    rewrite !app_nil_r. split.
    - induction H as [| s r [Hs _] _ IH]; [reflexivity |]. cbn [flat_map]. now rewrite Hs, IH.
    - apply flat_map_Forall_ext. eapply Forall_impl; [| exact H]. now intros s [_ Hs]. }
  induction sel as [alias name selectionSet IH | name | typeCondition sels IH]
    using Selection_induction.
  - rewrite visitSelection_Field, !flat_map_app.
    assert (Leaf : forall (alias : option string),
               flat_map definitionEntered
                 match alias with Some _ => visitLeaf | None => [] end = []
               /\ flat_map spreadEntered
                    match alias with Some _ => visitLeaf | None => [] end = []).
    { now intros [a |]. }
    destruct (Leaf alias) as [-> ->].
    destruct selectionSet as [sels |].
    + destruct (Sels sels IH) as [-> ->]. rewrite spreadsOfSelection_Field.
      cbn. now rewrite app_nil_r.
    + now cbn.
  - now cbn.
  - rewrite visitSelection_Inline, !flat_map_app.
    destruct (Sels sels IH) as [-> ->]. rewrite spreadsOfSelection_Inline.
    destruct typeCondition; cbn; now rewrite app_nil_r.
Qed.

Lemma visitSelectionSet_events (sels : SelectionSet) :
  flat_map definitionEntered (visitSelectionSet sels) = []
  /\ flat_map spreadEntered (visitSelectionSet sels) = spreadsOfSelectionSet sels.
Proof.
  unfold visitSelectionSet, spreadsOfSelectionSet.
  rewrite !flat_map_app, !flat_map_flat_map. cbn [flat_map definitionEntered spreadEntered app].
  rewrite !app_nil_r. split.
  - induction sels as [| s r IH]; [reflexivity |]. cbn [flat_map].
    now rewrite (proj1 (visitSelection_events s)), IH.
  - apply flat_map_Forall_ext, Forall_forall. intros s _. apply visitSelection_events.
Qed.

Lemma visitDocument_events (doc : Document) :
  flat_map definitionEntered (visitDocument doc) = fragmentDefinitionsOf doc
  /\ flat_map spreadEntered (visitDocument doc) = spreadsOfDocument doc.
Proof.
  unfold visitDocument, fragmentDefinitionsOf, spreadsOfDocument.
  rewrite !flat_map_app, !flat_map_flat_map. cbn [flat_map definitionEntered spreadEntered app].
  rewrite !app_nil_r. split; apply flat_map_Forall_ext, Forall_forall; intros def _.
  - destruct def as [d | d]; unfold visitDefinition; rewrite !flat_map_app;
      rewrite (proj1 (visitSelectionSet_events _)).
    + now destruct (opName d).
    + reflexivity.
  - destruct def as [d | d]; unfold visitDefinition; rewrite !flat_map_app;
      rewrite (proj2 (visitSelectionSet_events _)); cbn [selectionSetOf].
    + destruct (opName d); cbn; now rewrite app_nil_r.
    + cbn. now rewrite app_nil_r.
Qed.

(** A visitor that acts on what it sees of each event acts on the list of
    what it sees. *)
Lemma fold_left_seen {A E X} (see : E -> list X) (act : A -> X -> A) (step : A -> E -> A)
    (evs : list E) :
  (forall a ev, step a ev = fold_left act (see ev) a) ->
  forall a, fold_left step evs a = fold_left act (flat_map see evs) a.
Proof.
  intros H. induction evs as [| ev evs IH]; intros a; [reflexivity |].
  cbn [fold_left flat_map]. now rewrite fold_left_app, IH, H.
Qed.

Lemma buildFragmentDefinitionMap_fold (doc : Document) :
  QueryToElm.buildFragmentDefinitionMap doc
  = fold_left (fun m def => Js.set m (fragName def) def) (fragmentDefinitionsOf doc) [].
Proof.
  unfold QueryToElm.buildFragmentDefinitionMap.
  rewrite (fold_left_seen definitionEntered (fun m def => Js.set m (fragName def) def)).
  - now rewrite (proj1 (visitDocument_events doc)).
  - intros m [[] |]; reflexivity.
Qed.

Lemma collectFragments_fold (doc : Document) (m : FragmentDefinitionMap) (def : Definition_)
    (fragments : SeenFragmentMap) :
  QueryToElm.collectFragments doc m def fragments
  = fold_left (fun frs name => Js.set frs name (Js.read m name)) (spreadsOfDocument doc) fragments.
Proof.
  unfold QueryToElm.collectFragments.
  rewrite (fold_left_seen spreadEntered (fun frs name => Js.set frs name (Js.read m name))).
  - now rewrite (proj2 (visitDocument_events doc)).
  - intros frs [[] |]; reflexivity.
Qed.

Lemma queryFragments_fold (m : FragmentDefinitionMap) (fuel : nat) (selectionSet : SelectionSet)
    (fragments : SeenFragmentMap) :
  QueryToElm.queryFragments m (S fuel) selectionSet fragments
  = fold_left (spreadStep m fuel) (spreadsOfSelectionSet selectionSet) (Ok fragments).
Proof.
  cbn [QueryToElm.queryFragments].
  rewrite (fold_left_seen spreadEntered (spreadStep m fuel)).
  - now rewrite (proj2 (visitSelectionSet_events selectionSet)).
  - intros acc [[] |]; reflexivity.
Qed.

(** ** Objects used as maps *)

Lemma get_set {V} (o : Js.Obj V) (k k' : string) (v : V) :
  Js.get (Js.set o k v) k' = if String.eqb k' k then Some v else Js.get o k'.
Proof.
  induction o as [| [k0 v0] o IH]; cbn [Js.set Js.get].
  - reflexivity.
  - destruct (String.eqb_spec k k0) as [-> | Hk]; cbn [Js.get].
    + destruct (String.eqb_spec k' k0); reflexivity.
    + rewrite IH. destruct (String.eqb_spec k' k0) as [-> | Hk']; [| reflexivity].
      destruct (String.eqb_spec k0 k); [congruence | reflexivity].
Qed.

Lemma has_set {V} (o : Js.Obj V) (k k' : string) (v : V) :
  Js.has (Js.set o k v) k' = String.eqb k' k || Js.has o k'.
Proof. unfold Js.has. rewrite get_set. now destruct (String.eqb k' k). Qed.

Lemma has_notIn {V} (o : Js.Obj V) (k : string) : Js.has o k = negb (Js.notIn (Js.keys o) k).
Proof.
  unfold Js.has, Js.notIn. rewrite negb_involutive.
  induction o as [| [k0 v0] o IH]; [reflexivity |].
  cbn [Js.get Js.keys map fst existsb]. destruct (String.eqb k k0); [reflexivity | exact IH].
Qed.

Lemma has_In {V} (o : Js.Obj V) (k : string) : Js.has o k = true <-> In k (Js.keys o).
Proof.
  rewrite has_notIn. split; intros H.
  - apply notIn_false. now destruct (Js.notIn (Js.keys o) k).
  - destruct (Js.notIn (Js.keys o) k) eqn:E; [| reflexivity].
    now apply notIn_spec in E.
Qed.

Lemma keys_set_pushUnique {V} (o : Js.Obj V) (k : string) (v : V) :
  Js.keys (Js.set o k v) = QueryToDecoder.pushUnique (Js.keys o) k.
Proof.
  rewrite keys_set, has_notIn. unfold QueryToDecoder.pushUnique.
  now destruct (Js.notIn (Js.keys o) k).
Qed.

(** A run of assignments: the keys are those met, in the order of the first
    assignment, and a key holds the value assigned to it last. *)
Lemma keys_fold_set {V X} (key : X -> string) (val : X -> V) (xs : list X) :
  forall o : Js.Obj V,
    Js.keys (fold_left (fun o x => Js.set o (key x) (val x)) xs o)
    = dedupInto (Js.keys o) (map key xs).
Proof.
  induction xs as [| x xs IH]; intros o; [reflexivity |].
  cbn [fold_left map]. rewrite IH, keys_set_pushUnique. reflexivity.
Qed.

Lemma get_fold_set {V X} (key : X -> string) (val : X -> V) (xs : list X) (k : string) :
  forall o : Js.Obj V,
    Js.get (fold_left (fun o x => Js.set o (key x) (val x)) xs o) k
    = match find (fun x => String.eqb k (key x)) (rev xs) with
      | Some x => Some (val x)
      | None => Js.get o k
      end.
Proof.
  induction xs as [| x xs IH] using rev_ind; intros o; [reflexivity |].
  rewrite fold_left_app, rev_app_distr. cbn [fold_left rev app find].
  rewrite get_set. destruct (String.eqb k (key x)); [reflexivity | apply IH].
Qed.

Lemma dedupInto_extends (keys seen : list string) :
  exists new, dedupInto seen keys = seen ++ new /\ incl new keys.
Proof.
  revert seen. induction keys as [| k keys IH]; intros seen.
  - exists []. split; [now rewrite app_nil_r | intros x []].
  - unfold dedupInto. cbn [fold_left]. fold (dedupInto (QueryToDecoder.pushUnique seen k) keys).
    destruct (IH (QueryToDecoder.pushUnique seen k)) as (new & -> & Hincl).
    unfold QueryToDecoder.pushUnique. destruct (Js.notIn seen k).
    + exists (k :: new). split; [now rewrite <- app_assoc |].
      intros x [<- | Hx]; [now left | right; now apply Hincl].
    + exists new. split; [reflexivity |]. intros x Hx. right. now apply Hincl.
Qed.

(** ** The fragments of a document *)

(** X9 ([buildFragmentDefinitionMap]): in the fragment map of a document
    none of whose fragments is named [__proto__], a read finds, under each
    name, the last fragment definition of the document that bears the name;
    under a name that no fragment definition bears it finds the member that
    the map inherits from [Object.prototype], when there is one of that
    name, and nothing otherwise. The keys of the map are the names of the
    fragment definitions in the order of their first occurrence. Fragments
    are looked for at the top of the document only, which is where they
    are. *)
Theorem buildFragmentDefinitionMap_lookup (doc : Document) (name : string) :
  ~ In "__proto__" (map fragName (fragmentDefinitionsOf doc)) ->
  Js.read (QueryToElm.buildFragmentDefinitionMap doc) name
  = match find (fun def => String.eqb name (fragName def)) (rev (fragmentDefinitionsOf doc)) with
    | Some def => Js.Own def
    | None => if Js.inherited name then Js.Inherited else Js.Undefined
    end
  /\ Js.keys (QueryToElm.buildFragmentDefinitionMap doc)
     = dedupInto [] (map fragName (fragmentDefinitionsOf doc))
  /\ NoDup (Js.keys (QueryToElm.buildFragmentDefinitionMap doc)).
Proof.
  intros _. unfold Js.read. rewrite buildFragmentDefinitionMap_fold.
  rewrite (get_fold_set fragName (fun def => def)), (keys_fold_set fragName (fun def => def)).
  cbn [Js.get Js.keys map]. repeat split.
  - now destruct (find _ _).
  - apply NoDup_dedupInto. constructor.
Qed.

Lemma buildFragmentDefinitionMap_lookup_witness :
  Js.read (QueryToElm.buildFragmentDefinitionMap Example.heroDoc) "F" = Js.Own Example.fragF
  /\ Js.read (QueryToElm.buildFragmentDefinitionMap Example.heroDoc) "constructor"
     = Js.Inherited
  /\ Js.read (QueryToElm.buildFragmentDefinitionMap Example.heroDoc) "G" = Js.Undefined.
Proof.
  assert (H : ~ In "__proto__" (map fragName (fragmentDefinitionsOf Example.heroDoc))).
  { cbn. intros [E | []]. discriminate. }
  split; [| split].
  - now rewrite (proj1 (buildFragmentDefinitionMap_lookup Example.heroDoc "F" H)).
  - now rewrite (proj1 (buildFragmentDefinitionMap_lookup Example.heroDoc "constructor" H)).
  - now rewrite (proj1 (buildFragmentDefinitionMap_lookup Example.heroDoc "G" H)).
Defined.

(** X10 ([collectFragments]): whatever the definition it is given, the
    collection adds to the seen fragments the names of all the fragment
    spreads of the document, at any depth, in the order of their first
    occurrence and after the names that were there; each holds what the read
    of the fragment map finds under the name: the fragment of that name, or
    else the member inherited from [Object.prototype] when the name is one
    of its names, or else nothing. No fragment and no spread is named
    [__proto__]. *)
Theorem collectFragments_spreads (doc : Document) (m : FragmentDefinitionMap)
    (def : Definition_) (fragments : SeenFragmentMap) :
  ~ In "__proto__" (Js.keys m) ->
  ~ In "__proto__" (spreadsOfDocument doc) ->
  Js.keys (QueryToElm.collectFragments doc m def fragments)
  = dedupInto (Js.keys fragments) (spreadsOfDocument doc)
  /\ (forall name, In name (spreadsOfDocument doc) ->
        Js.get (QueryToElm.collectFragments doc m def fragments) name = Some (Js.read m name))
  /\ (forall name, ~ In name (spreadsOfDocument doc) ->
        Js.get (QueryToElm.collectFragments doc m def fragments) name = Js.get fragments name).
Proof.
  intros _ _. rewrite collectFragments_fold.
  rewrite (keys_fold_set (fun name => name) (fun name => Js.read m name)), map_id.
  split; [reflexivity |].
  split; intros name Hname; rewrite (get_fold_set (fun name => name) (fun name => Js.read m name)).
  - destruct (find _ _) as [x |] eqn:E.
    + apply find_some in E as [_ E]. apply String.eqb_eq in E. now subst.
    + exfalso. assert (Hf := find_none _ _ E name (proj1 (in_rev _ _) Hname)).
      cbv beta in Hf. now rewrite String.eqb_refl in Hf.
  - destruct (find _ _) as [x |] eqn:E; [| reflexivity].
    apply find_some in E as [Hin E]. apply String.eqb_eq in E. subst.
    exfalso. apply Hname. now apply in_rev.
Qed.

Lemma collectFragments_spreads_witness :
  Js.get (QueryToElm.collectFragments Example.heroDoc Example.heroMap
            (OperationDef Example.heroOp) []) "F"
  = Some (Js.Own Example.fragF).
Proof.
  apply (collectFragments_spreads Example.heroDoc Example.heroMap (OperationDef Example.heroOp) []).
  - cbn. intros [E | []]. discriminate.
  - cbn. intros [E | []]. discriminate.
  - vm_compute. tauto.
Defined.

(** *** The fragments of the request text *)

Lemma fold_left_not_Ok {A X} (step : Outcome A -> X -> Outcome A) (xs : list X) :
  (forall acc x a, step acc x = Ok a -> exists a0, acc = Ok a0) ->
  forall acc a, fold_left step xs acc = Ok a -> exists a0, acc = Ok a0.
Proof.
  intros H. induction xs as [| x xs IH]; intros acc a Hf; [now exists a |].
  cbn [fold_left] in Hf. destruct (IH _ _ Hf) as [a1 Ha1]. now apply (H acc x a1).
Qed.

(** One step of [queryFragments], on the spread of the fragment [name]. *)
Lemma queryFragments_step (m : FragmentDefinitionMap) (fuel : nat) (names : list string)
    (name : string) (acc : Outcome SeenFragmentMap) (r : SeenFragmentMap) :
  fold_left (spreadStep m fuel) (name :: names) acc = Ok r ->
  exists fragments fragments1,
    acc = Ok fragments
    /\ match Js.read m name with
       | Js.Own frag =>
           QueryToElm.queryFragments m fuel (fragSelectionSet frag)
             (Js.set fragments name (Js.Own frag)) = Ok fragments1
       | Js.Inherited => fragments1 = Js.set fragments name Js.Inherited
       | Js.Undefined => False
       end
    /\ fold_left (spreadStep m fuel) names (Ok fragments1) = Ok r.
Proof.
  cbn [fold_left]. intros H.
  destruct (fold_left_not_Ok (spreadStep m fuel) names) with (2 := H) as [fragments1 H1].
  { intros acc0 x a Ha. destruct acc0; try discriminate. now eexists. }
  rewrite H1 in H. unfold spreadStep in H1.
  destruct acc as [fragments | |]; try discriminate. cbn [obind] in H1.
  exists fragments, fragments1. split; [reflexivity |]. split; [| exact H].
  destruct (Js.read m name) as [frag | |]; [exact H1 | now injection H1 | discriminate].
Qed.

Lemma read_Own {V} (o : Js.Obj V) (k : string) (v : V) :
  Js.read o k = Js.Own v <-> Js.get o k = Some v.
Proof.
  unfold Js.read. destruct (Js.get o k) as [v' |].
  - split; intros H; injection H as ->; reflexivity.
  - split; [destruct (Js.inherited k) |]; discriminate.
Qed.

Lemma queryFragments_closure (m : FragmentDefinitionMap) (fuel : nat) :
  forall (selectionSet : SelectionSet) (fragments fragments' : SeenFragmentMap),
    QueryToElm.queryFragments m fuel selectionSet fragments = Ok fragments' ->
    (forall k, Js.has fragments k = true -> Js.has fragments' k = true)
    /\ (forall name, In name (spreadsOfSelectionSet selectionSet) ->
                     Js.has fragments' name = true)
    /\ (forall k v,
           Js.get fragments' k = Some v ->
           Js.get fragments k = Some v
           \/ (v = Js.read m k
               /\ v <> Js.Undefined
               /\ forall frag, v = Js.Own frag ->
                    forall n, In n (spreadsOfSelectionSet (fragSelectionSet frag)) ->
                              Js.has fragments' n = true)).
Proof.
  induction fuel as [| fuel IH]; intros selectionSet fragments fragments' H; [discriminate |].
  rewrite queryFragments_fold in H.
  revert fragments H. induction (spreadsOfSelectionSet selectionSet) as [| name names IHn];
    intros fragments H.
  - injection H as <-. repeat split; auto; intros ? [] .
  - apply queryFragments_step in H as (fragments0 & fragments1 & E & Hstep & H).
    injection E as <-.
    destruct (IHn _ H) as (Mono & Direct & Entries).
    destruct (Js.read m name) as [frag | |] eqn:Hread; [| | contradiction].
    + destruct (IH _ _ _ Hstep) as (Mono1 & Direct1 & Entries1).
      repeat split.
      * intros k Hk. apply Mono, Mono1. rewrite has_set, Hk. apply orb_true_r.
      * intros n [<- | Hn]; [| now apply Direct].
        apply Mono, Mono1. rewrite has_set, String.eqb_refl. reflexivity.
      * intros k v Hk. destruct (Entries k v Hk) as [Hold | Hgood]; [| now right].
        destruct (Entries1 k v Hold) as [Hold1 | (Hm & Hdef & Hsp)].
        -- rewrite get_set in Hold1.
           destruct (String.eqb_spec k name) as [-> | Hne]; [| now left].
           injection Hold1 as <-. right. split; [now symmetry |]. split; [discriminate |].
           intros frag' E n Hn. injection E as <-. now apply Mono, Direct1.
        -- right. split; [exact Hm |]. split; [exact Hdef |].
           intros frag' E n Hn. apply Mono. now apply (Hsp frag' E).
    + subst fragments1. repeat split.
      * intros k Hk. apply Mono. rewrite has_set, Hk. apply orb_true_r.
      * intros n [<- | Hn]; [| now apply Direct].
        apply Mono. rewrite has_set, String.eqb_refl. reflexivity.
      * intros k v Hk. destruct (Entries k v Hk) as [Hold | Hgood]; [| now right].
        rewrite get_set in Hold.
        destruct (String.eqb_spec k name) as [-> | Hne]; [| now left].
        injection Hold as <-. right. split; [now symmetry |]. split; discriminate.
Qed.

Lemma queryFragments_NoDup (m : FragmentDefinitionMap) (fuel : nat) :
  forall (selectionSet : SelectionSet) (fragments fragments' : SeenFragmentMap),
    QueryToElm.queryFragments m fuel selectionSet fragments = Ok fragments' ->
    NoDup (Js.keys fragments) -> NoDup (Js.keys fragments').
Proof.
  induction fuel as [| fuel IH]; intros selectionSet fragments fragments' H; [discriminate |].
  rewrite queryFragments_fold in H.
  revert fragments H. induction (spreadsOfSelectionSet selectionSet) as [| name names IHn];
    intros fragments H Hnd.
  - now injection H as <-.
  - apply queryFragments_step in H as (fragments0 & fragments1 & E & Hstep & H).
    injection E as <-. apply (IHn _ H).
    destruct (Js.read m name) as [frag | |]; [| | contradiction].
    + apply (IH _ _ _ Hstep). now apply NoDup_keys_set.
    + subst fragments1. now apply NoDup_keys_set.
Qed.

(** X11 ([queryFragments]): the fragments gathered for the text of a
    request are closed under spreading: they hold every fragment that the
    selection set of the operation spreads, at any depth, and with each
    fragment those that it spreads; each is the fragment of its name in the
    fragment map, under that name once. What is gathered under a name is
    what a read of the fragment map finds under it, and is never
    [undefined]: under a name of [Object.prototype] that no fragment bears,
    it is the inherited member. *)
Theorem queryFragments_closed (m : FragmentDefinitionMap) (fuel : nat)
    (selectionSet : SelectionSet) (fragments : SeenFragmentMap) :
  QueryToElm.queryFragments m fuel selectionSet [] = Ok fragments ->
  (forall name, In name (spreadsOfSelectionSet selectionSet) -> Js.has fragments name = true)
  /\ (forall name frag,
         Js.get fragments name = Some (Js.Own frag) ->
         Js.get m name = Some frag
         /\ forall n, In n (spreadsOfSelectionSet (fragSelectionSet frag)) ->
                      Js.has fragments n = true)
  /\ NoDup (Js.keys fragments)
  /\ (forall name v,
         Js.get fragments name = Some v ->
         v = Js.read m name /\ v <> Js.Undefined).
Proof.
  intros H. destruct (queryFragments_closure m fuel _ _ _ H) as (_ & Direct & Entries).
  split; [exact Direct |]. split; [| split].
  - intros name frag Hget. destruct (Entries name _ Hget) as [Hold | (Hm & _ & Hsp)];
      [discriminate |].
    split; [now apply read_Own | now apply (Hsp frag)].
  - apply (queryFragments_NoDup m fuel _ _ _ H). constructor.
  - intros name v Hget. destruct (Entries name v Hget) as [Hold | (Hm & Hdef & _)];
      [discriminate | now split].
Qed.

Lemma queryFragments_closed_witness :
  (forall name, In name (spreadsOfSelectionSet (opSelectionSet Example.heroOp)) ->
                Js.has Example.heroSeen name = true)
  /\ (forall name frag,
         Js.get Example.heroSeen name = Some (Js.Own frag) ->
         Js.get Example.heroMap name = Some frag
         /\ forall n, In n (spreadsOfSelectionSet (fragSelectionSet frag)) ->
                      Js.has Example.heroSeen n = true)
  /\ NoDup (Js.keys Example.heroSeen)
  /\ (forall name v,
         Js.get Example.heroSeen name = Some v ->
         v = Js.read Example.heroMap name /\ v <> Js.Undefined).
Proof.
  apply (queryFragments_closed Example.heroMap 3 (opSelectionSet Example.heroOp)).
  reflexivity.
Defined.

(** X12 ([queryFragments]): nothing stops the descent into a fragment that
    was met before: when the fragments of a set each spread a fragment of
    the set, the gathering of the fragments of a selection set that spreads
    one of them never returns. *)
Theorem queryFragments_cycle (m : FragmentDefinitionMap) (cycle : list string) :
  (forall name, In name cycle ->
     exists frag next,
       Js.get m name = Some frag
       /\ In next cycle
       /\ In next (spreadsOfSelectionSet (fragSelectionSet frag))) ->
  forall (fuel : nat) (selectionSet : SelectionSet) (fragments : SeenFragmentMap)
         (name : string),
    In name cycle ->
    In name (spreadsOfSelectionSet selectionSet) ->
    forall r, QueryToElm.queryFragments m fuel selectionSet fragments <> Ok r.
Proof.
  intros Hcycle. induction fuel as [| fuel IH]; intros selectionSet fragments name Hc Hin r H;
    [discriminate |].
  rewrite queryFragments_fold in H.
  apply in_split in Hin as (before & after & Hnames). rewrite Hnames in H.
  rewrite fold_left_app in H.
  apply queryFragments_step in H as (fragments0 & fragments1 & _ & Hstep & _).
  destruct (Hcycle name Hc) as (frag & next & Hget & Hnext & Hspread).
  rewrite (proj2 (read_Own m name frag) Hget) in Hstep.
  exact (IH _ _ next Hnext Hspread _ Hstep).
Qed.

Lemma queryFragments_cycle_witness :
  (forall r, QueryToElm.queryFragments Cycle.map 5 [FragmentSpread "F"] [] <> Ok r)
  /\ QueryToElm.queryFragments Cycle.map 5 [FragmentSpread "F"] [] = OutOfFuel.
Proof.
  split; [| reflexivity].
  apply (queryFragments_cycle Cycle.map ["F"]) with (name := "F").
  - intros name [<- | []]. exists Cycle.fragF, "F". repeat split; vm_compute; tauto.
  - now left.
  - now left.
Defined.

(** ** The text of the request *)

Lemma isSpace2_space (a : nat) : Js.isSpace2 a 32 = false.
Proof. unfold Js.isSpace2. cbn. apply andb_false_r. Qed.

Lemma isSpace3_space_r (a b : nat) : Js.isSpace3 a b 32 = false.
Proof. unfold Js.isSpace3. cbn. now rewrite !andb_false_r. Qed.

Lemma isSpace3_space_m (a c : nat) : Js.isSpace3 a 32 c = false.
Proof. unfold Js.isSpace3. cbn. now rewrite !andb_false_r. Qed.

(** The first byte of the replacement of a text is the first byte of the
    text or a space. *)
Lemma collapseFrom_head (s : string) :
  Js.collapseFrom false 0 s = EmptyString
  \/ (exists r, Js.collapseFrom false 0 s = String " " r)
  \/ (exists c r r', s = String c r /\ Js.spaceLength s = 0
                     /\ Js.collapseFrom false 0 s = String c r'
                     /\ r' = Js.collapseFrom false 0 r).
Proof.
  destruct s as [| c r]; [now left |]. right.
  cbn [Js.collapseFrom]. destruct (Js.spaceLength (String c r)) as [| k] eqn:E.
  - right. now exists c, r, (Js.collapseFrom false 0 r).
  - left. eexists; reflexivity.
Qed.

(** A byte that begins no white space in a text begins none in its
    replacement. *)
Lemma spaceLength_collapseFrom (c : ascii) (r : string) :
  Js.spaceLength (String c r) = 0 ->
  Js.spaceLength (String c (Js.collapseFrom false 0 r)) = 0.
Proof.
  intros H. cbn [Js.spaceLength] in H |- *.
  destruct (Js.isSpace c); [discriminate |].
  destruct (collapseFrom_head r) as [-> | [(r1 & ->) | (b & r0 & r1 & -> & Hb & -> & ->)]].
  - reflexivity.
  - change (nat_of_ascii " ") with 32. rewrite isSpace2_space.
    destruct r1 as [| d r2]; [reflexivity |]. now rewrite isSpace3_space_m.
  - destruct (Js.isSpace2 (nat_of_ascii c) (nat_of_ascii b)); [discriminate |].
    destruct (collapseFrom_head r0) as [-> | [(r1 & ->) | (d & r2 & r3 & -> & Hd & -> & ->)]].
    + reflexivity.
    + change (nat_of_ascii " ") with 32. now rewrite isSpace3_space_r.
    + exact H.
Qed.

Lemma spaceLength_space (r : string) : Js.spaceLength (String " " r) = 1.
Proof. reflexivity. Qed.

Lemma collapseFrom_singleSpaced (s : string) :
  forall inRun skip, singleSpaced inRun (Js.collapseFrom inRun skip s) = true.
Proof.
  induction s as [| c s IH]; intros inRun skip; [reflexivity |].
  cbn [Js.collapseFrom]. destruct skip as [| k]; [| apply IH].
  destruct (Js.spaceLength (String c s)) as [| k] eqn:E.
  - cbn [singleSpaced]. rewrite (spaceLength_collapseFrom c s E). apply IH.
  - destruct inRun; [apply IH |]. cbn [singleSpaced]. rewrite spaceLength_space.
    rewrite IH. reflexivity.
Qed.

Lemma collapseFrom_fixed (s : string) :
  forall inRun, singleSpaced inRun s = true -> Js.collapseFrom inRun 0 s = s.
Proof.
  induction s as [| c s IH]; intros inRun H; [reflexivity |].
  cbn [singleSpaced] in H. cbn [Js.collapseFrom].
  destruct (Js.spaceLength (String c s)) as [| k] eqn:E.
  - now rewrite IH.
  - apply andb_true_iff in H as [H Hs]. apply andb_true_iff in H as [Hc Hr].
    apply Ascii.eqb_eq in Hc. subst c. rewrite spaceLength_space in E. injection E as <-.
    destruct inRun; [discriminate |]. now rewrite IH.
Qed.

Lemma collapseFrom_ink (s : string) :
  forall inRun skip, inkFrom 0 (Js.collapseFrom inRun skip s) = inkFrom skip s.
Proof.
  induction s as [| c s IH]; intros inRun skip; [reflexivity |].
  cbn [Js.collapseFrom inkFrom]. destruct skip as [| k]; [| apply IH].
  destruct (Js.spaceLength (String c s)) as [| k] eqn:E.
  - cbn [inkFrom]. rewrite (spaceLength_collapseFrom c s E). now rewrite IH.
  - destruct inRun; [apply IH |]. cbn [inkFrom]. rewrite spaceLength_space. apply IH.
Qed.

(** X13 ([walkOperationDefinition], the text of the query): the replacement
    of the runs of white space, the white space being that of a regular
    expression (the characters of more than one byte included), leaves a
    text in which every white-space character is a single space that does
    not follow white space, so the text holds no line break; the bytes of
    the other characters are kept, in order; and a text of that form is left
    as it is, so that the replacement is idempotent. *)
Theorem collapseWhitespace_single_spaced (s : string) :
  singleSpaced false (Js.collapseWhitespace s) = true
  /\ inkOf (Js.collapseWhitespace s) = inkOf s
  /\ (singleSpaced false s = true -> Js.collapseWhitespace s = s)
  /\ Js.collapseWhitespace (Js.collapseWhitespace s) = Js.collapseWhitespace s.
Proof.
  unfold Js.collapseWhitespace, inkOf. repeat split.
  - apply collapseFrom_singleSpaced.
  - apply collapseFrom_ink.
  - apply collapseFrom_fixed.
  - apply collapseFrom_fixed, collapseFrom_singleSpaced.
Qed.

Lemma collapseWhitespace_single_spaced_witness :
  Js.collapseWhitespace spacedText = "a b"
  /\ Js.collapseWhitespace "a b" = "a b".
Proof.
  split; [reflexivity |].
  destruct (collapseWhitespace_single_spaced "a b") as (_ & _ & H & _).
  apply H. reflexivity.
Defined.

(** ** The type tracker *)

Lemma leaveSt_enterSt (n : Node) (s : St) : leaveSt n (enterSt n s) = s.
Proof. destruct s as [[sch ts ps] e]. destruct n; reflexivity. Qed.

Lemma restores_ret {A} (a : A) : restores (ret a).
Proof. intros s r s' H. now injection H as _ <-. Qed.

Lemma restores_throw {A} (e : Error) : restores (@throw A e).
Proof. intros s r s' H. discriminate. Qed.

Lemma restores_outOfFuel {A} : restores (@outOfFuel A).
Proof. intros s r s' H. discriminate. Qed.

Lemma restores_lift {A} (o : Outcome A) : restores (lift o).
Proof. intros s r s' H. unfold lift in H. destruct o; try discriminate. now injection H as _ <-. Qed.

Lemma restores_getType : restores getType.
Proof. intros s r s' H. now injection H as _ <-. Qed.

Lemma restores_bind {A B} (m : M A) (k : A -> M B) :
  restores m -> (forall a, restores (k a)) -> restores (bind m k).
Proof.
  intros Hm Hk s r s' H. apply bind_Ok_inv in H as (a & s1 & H1 & H2).
  apply Hm in H1. apply Hk in H2. congruence.
Qed.

Lemma restores_foldM {A B} (f : A -> B -> M A) (xs : list B) :
  (forall a x, restores (f a x)) -> forall acc, restores (foldM f acc xs).
Proof.
  intros Hf. induction xs as [| x xs IH]; intros acc; cbn [foldM].
  - apply restores_ret.
  - apply restores_bind; [apply Hf | intros a; apply IH].
Qed.

(** [info.enter(n)] ... [info.leave(n)]. *)
Lemma restores_bracket {B} (n : Node) (k : unit -> M B) :
  leaves n (k tt) -> restores (bind (enter n) k).
Proof.
  intros Hk s r s' H. apply bind_Ok_inv in H as (a & s1 & H1 & H2).
  unfold enter in H1. injection H1 as <- <-.
  apply Hk in H2. rewrite H2. apply (leaveSt_enterSt n s).
Qed.

Lemma leaves_now {B} (n : Node) (k : unit -> M B) :
  (forall a, restores (k a)) -> leaves n (bind (leave n) k).
Proof.
  intros Hk s r s' H. apply bind_Ok_inv in H as (a & s1 & H1 & H2).
  unfold leave in H1. injection H1 as <- <-. now apply Hk in H2.
Qed.

Lemma leaves_later {A B} (n : Node) (m : M A) (k : A -> M B) :
  restores m -> (forall a, leaves n (k a)) -> leaves n (bind m k).
Proof.
  intros Hm Hk s r s' H. apply bind_Ok_inv in H as (a & s1 & H1 & H2).
  apply Hm in H1. apply Hk in H2. congruence.
Qed.

Lemma leaves_throw {A} (n : Node) (e : Error) : leaves n (@throw A e).
Proof. intros s r s' H. discriminate. Qed.

Ltac restore :=
  repeat first
    [ apply restores_ret | apply restores_throw | apply restores_outOfFuel
    | apply restores_lift | apply restores_getType | apply leaves_throw
    | assumption
    | apply restores_bracket
    | apply leaves_now; intros ?
    | apply leaves_later; [| intros ?]
    | apply restores_bind; [| intros ?]
    | apply restores_foldM; intros ? ?
    | match goal with
      | |- restores (match ?x with _ => _ end) => destruct x
      | |- leaves _ (match ?x with _ => _ end) => destruct x
      | |- restores (let '(_, _) := ?x in _) => destruct x
      | |- leaves _ (let '(_, _) := ?x in _) => destruct x
      | H : forall _, restores _ |- _ => apply H
      | H : forall _ _, restores _ |- _ => apply H
      end ].

Lemma restores_walkSelectionSet (m : FragmentDefinitionMap) (fuel : nat) :
  forall selSet, restores (QueryToElm.walkSelectionSet m fuel selSet).
Proof.
  induction fuel as [| fuel IH]; intros selSet; cbn [QueryToElm.walkSelectionSet];
    [apply restores_outOfFuel |].
  unfold QueryToElm.walkUnionSelectionSet, QueryToElm.walkUnionSelection,
    QueryToElm.walkSelection, QueryToElm.walkField.
  restore.
Qed.

Lemma restores_getSelectionSetFields (m : FragmentDefinitionMap) (fuel : nat) :
  forall selSet, restores (QueryToDecoder.getSelectionSetFields m fuel selSet).
Proof.
  induction fuel as [| fuel IH]; intros selSet; cbn [QueryToDecoder.getSelectionSetFields];
    [apply restores_outOfFuel |].
  restore.
Qed.

Lemma restores_walkFragmentDefinition (m : FragmentDefinitionMap) (fuel : nat)
    (def : FragmentDefinition) :
  restores (QueryToElm.walkFragmentDefinition m fuel def).
Proof.
  unfold QueryToElm.walkFragmentDefinition.
  pose proof (restores_walkSelectionSet m fuel) as Hw. restore.
Qed.

Lemma grows_refl (s : St) : grows s s.
Proof. repeat split. now exists []. Qed.

Lemma grows_trans (s s1 s' : St) : grows s s1 -> grows s1 s' -> grows s s'.
Proof.
  intros (S1 & P1 & L1 & T1) (S2 & P2 & L2 & T2).
  repeat split; try congruence. exists (L2 ++ L1). now rewrite T2, T1, app_assoc.
Qed.

Lemma grows_leave_enter (n : Node) (s s1 : St) :
  grows (enterSt n s) s1 -> grows s (leaveSt n s1).
Proof.
  destruct s as [[sch ts ps] e], s1 as [[sch1 ts1 ps1] e1].
  intros (S & P & L & T). cbn in S, P, T. subst sch1.
  destruct n; cbn in P, T |- *; subst;
    try (repeat split; cbn; now exists L).
  all: repeat split; cbn; destruct L as [| x L]; cbn;
    [now exists [] | eexists (L ++ [_]); rewrite <- app_assoc; reflexivity].
Qed.

Lemma grows_enter (n : Node) (s : St) : n <> NSelectionSet -> grows s (enterSt n s).
Proof.
  destruct s as [[sch ts ps] e]. intros Hn.
  destruct n; try contradiction; repeat split; cbn;
    first [now exists [] | now eexists [_]].
Qed.

Lemma growing_of_restores {A} (m : M A) : restores m -> growing m.
Proof. intros Hm s r s' H. apply Hm in H. subst. apply grows_refl. Qed.

Lemma growing_bind {A B} (m : M A) (k : A -> M B) :
  growing m -> (forall a, growing (k a)) -> growing (bind m k).
Proof.
  intros Hm Hk s r s' H. apply bind_Ok_inv in H as (a & s1 & H1 & H2).
  eapply grows_trans; [eapply Hm | eapply Hk]; eassumption.
Qed.

Lemma growing_foldM {A B} (f : A -> B -> M A) (xs : list B) :
  (forall a x, growing (f a x)) -> forall acc, growing (foldM f acc xs).
Proof.
  intros Hf. induction xs as [| x xs IH]; intros acc; cbn [foldM].
  - apply growing_of_restores, restores_ret.
  - apply growing_bind; [apply Hf | intros a; apply IH].
Qed.

Lemma growing_bracket {B} (n : Node) (k : unit -> M B) :
  leavesGrowing n (k tt) -> growing (bind (enter n) k).
Proof.
  intros Hk s r s' H. apply bind_Ok_inv in H as (a & s1 & H1 & H2).
  unfold enter in H1. injection H1 as <- <-.
  apply Hk in H2 as (s1 & G1 & G2).
  eapply grows_trans; [| exact G2]. now apply grows_leave_enter.
Qed.

Lemma leavesGrowing_now {B} (n : Node) (k : unit -> M B) :
  (forall a, growing (k a)) -> leavesGrowing n (bind (leave n) k).
Proof.
  intros Hk s r s' H. apply bind_Ok_inv in H as (a & s1 & H1 & H2).
  unfold leave in H1. injection H1 as <- <-. exists s. split; [apply grows_refl |].
  now apply Hk in H2.
Qed.

Lemma leavesGrowing_later {A B} (n : Node) (m : M A) (k : A -> M B) :
  growing m -> (forall a, leavesGrowing n (k a)) -> leavesGrowing n (bind m k).
Proof.
  intros Hm Hk s r s' H. apply bind_Ok_inv in H as (a & s1 & H1 & H2).
  apply Hm in H1. apply Hk in H2 as (s2 & G1 & G2). exists s2. split; [| exact G2].
  now apply (grows_trans s s1 s2).
Qed.

Lemma leavesGrowing_throw {A} (n : Node) (e : Error) : leavesGrowing n (@throw A e).
Proof. intros s r s' H. discriminate. Qed.

Lemma growing_exposePush (names : list string) : growing (exposePush names).
Proof. intros s r s' H. injection H as _ <-. repeat split. now exists []. Qed.

Ltac grow :=
  repeat first
    [ apply growing_exposePush
    | apply growing_of_restores;
      first [ apply restores_ret | apply restores_throw | apply restores_outOfFuel
            | apply restores_lift | apply restores_getType
            | apply restores_getSelectionSetFields ]
    | apply leavesGrowing_throw
    | assumption
    | apply growing_bracket
    | apply leavesGrowing_now; intros ?
    | apply leavesGrowing_later; [| intros ?]
    | apply growing_bind; [| intros ?]
    | apply growing_foldM; intros ? ?
    | match goal with
      | |- growing (match ?x with _ => _ end) => destruct x
      | |- leavesGrowing _ (match ?x with _ => _ end) => destruct x
      | |- growing (let '(_, _) := ?x in _) => destruct x
      | |- leavesGrowing _ (let '(_, _) := ?x in _) => destruct x
      | H : forall _, growing _ |- _ => apply H
      | H : forall _ _, growing _ |- _ => apply H
      end ].

Lemma growing_decoder_walkUnion (m : FragmentDefinitionMap) w g originalName selectionSet :
  (forall ss seen, growing (w ss seen)) ->
  (forall ss, growing (g ss)) ->
  growing (QueryToDecoder.walkUnion m w g originalName selectionSet).
Proof.
  intros Hw Hg. unfold QueryToDecoder.walkUnion, QueryToDecoder.walkUnionSelection. grow.
Qed.

(** The decoder of a field: the field is left, unless its type is a union:
    [walkUnion] returns without [info.leave(field)]. *)
Lemma decoder_walkField_states (m : FragmentDefinitionMap) w g
    (alias : option string) (name : string) (selectionSet : option SelectionSet)
    (s s' : St) (e : ElmExpr) :
  (forall ss seen, growing (w ss seen)) ->
  (forall ss, growing (g ss)) ->
  QueryToDecoder.walkField m w g alias name selectionSet s = Ok (e, s') ->
  if scopeIsUnion (enterSt (NField alias name) s)
  then grows (enterSt (NField alias name) s) s'
  else exists s1, grows (enterSt (NField alias name) s) s1
                  /\ grows (leaveSt (NField alias name) s1) s'.
Proof.
  intros Hw Hg H. unfold QueryToDecoder.walkField in H.
  apply bind_Ok_inv in H as (a & s1 & H1 & H). unfold enter in H1. injection H1 as <- <-.
  fold (enterSt (NField alias name) s) in H.
  apply bind_Ok_inv in H as (t & s1 & H1 & H). unfold getType in H1. injection H1 as <- <-.
  unfold scopeIsUnion, unwrapType.
  destruct (isUnionOpt _).
  - now apply (growing_decoder_walkUnion m w g _ _ Hw Hg) in H.
  - match type of H with
    | ?body ?st = _ =>
        assert (L : leavesGrowing (NField alias name) body) by grow;
        exact (L _ _ _ H)
    end.
Qed.

Lemma growing_decoder_walkField (m : FragmentDefinitionMap) w g
    (alias : option string) (name : string) (selectionSet : option SelectionSet) :
  (forall ss seen, growing (w ss seen)) ->
  (forall ss, growing (g ss)) ->
  growing (QueryToDecoder.walkField m w g alias name selectionSet).
Proof.
  intros Hw Hg s e s' H.
  assert (Hn : NField alias name <> NSelectionSet) by discriminate.
  pose proof (decoder_walkField_states m w g alias name selectionSet s s' e Hw Hg H) as Hs.
  destruct (scopeIsUnion (enterSt (NField alias name) s)).
  - eapply grows_trans; [apply (grows_enter _ s Hn) | exact Hs].
  - destruct Hs as (s1 & G1 & G2).
    eapply grows_trans; [apply (grows_leave_enter _ _ _ G1) | exact G2].
Qed.

Lemma growing_decoder_walkSelectionSet (m : FragmentDefinitionMap) (fuel : nat) :
  forall selSet seen, growing (QueryToDecoder.walkSelectionSet m fuel selSet seen).
Proof.
  induction fuel as [| fuel IH]; intros selSet seen; cbn [QueryToDecoder.walkSelectionSet];
    [apply growing_of_restores, restores_outOfFuel |].
  apply growing_bracket.
  apply leavesGrowing_later; [| intros [fields seenFields]; grow].
  apply growing_foldM. intros [fields seenFields] sel.
  unfold QueryToDecoder.walkSelection. destruct sel; [| grow | grow].
  match goal with |- growing (if ?c then _ else _) => destruct c end; [| grow].
  apply growing_bind; [| intros ?; grow].
  apply growing_decoder_walkField; [exact IH |].
  intros ss. apply growing_of_restores, restores_getSelectionSetFields.
Qed.

(** X14 ([walkSelectionSet], [walkField], [walkUnionSelectionSet],
    [walkFragmentDefinition] of query-to-elm.ts, [getSelectionSetFields]):
    the walk that builds the types leaves the type tracker and the exposed
    names as it found them: every node that it enters it leaves, whatever
    the selections, and so do the walk of a fragment definition and the
    listing of the fields of a selection set. *)
Theorem type_walk_restores_tracker (m : FragmentDefinitionMap) (fuel : nat) :
  (forall selSet s r s',
      QueryToElm.walkSelectionSet m fuel selSet s = Ok (r, s') -> s' = s)
  /\ (forall def s r s',
         QueryToElm.walkFragmentDefinition m fuel def s = Ok (r, s') -> s' = s)
  /\ (forall selSet s r s',
         QueryToDecoder.getSelectionSetFields m fuel selSet s = Ok (r, s') -> s' = s).
Proof.
  repeat split.
  - intros selSet. apply restores_walkSelectionSet.
  - intros def. apply restores_walkFragmentDefinition.
  - intros selSet. apply restores_getSelectionSetFields.
Qed.

Lemma type_walk_restores_tracker_witness :
  Example.heroTypeEnd = Example.inHero /\ Example.heroNamesEnd = Example.inHero.
Proof.
  destruct (type_walk_restores_tracker Example.heroMap 2) as (A & _ & B). split.
  - apply (A Example.nameAndSpread Example.inHero
             (Example.heroFields, ["F"], None) Example.heroTypeEnd).
    vm_compute. reflexivity.
  - apply (B Example.nameAndSpread Example.inHero ["name"; "id"] Example.heroNamesEnd).
    vm_compute. reflexivity.
Defined.

(** X15 ([walkSelectionSet], [walkField], [walkUnion] of
    query-to-decoder.ts): the walk that builds the decoders keeps the exposed
    names and the stack of parent types, and never pops the stack of types
    below what it found; but a field of union type is entered and never
    left: after its decoder is built the state is the one entered, with
    perhaps more types pushed on it. *)
Theorem decoder_walk_tracker (m : FragmentDefinitionMap) (fuel : nat) :
  (forall selSet seen s r s',
      QueryToDecoder.walkSelectionSet m fuel selSet seen s = Ok (r, s') ->
      expose s' = expose s /\ grows s s')
  /\ (forall alias name selectionSet s e s',
         scopeIsUnion (enterSt (NField alias name) s) = true ->
         QueryToDecoder.walkField m (QueryToDecoder.walkSelectionSet m fuel)
           (QueryToDecoder.getSelectionSetFields m fuel) alias name selectionSet s
         = Ok (e, s') ->
         grows (enterSt (NField alias name) s) s').
Proof.
  split.
  - intros selSet seen s r s' H. split.
    + exact (keeps_decoder_walkSelectionSet m fuel selSet seen s r s' H).
    + exact (growing_decoder_walkSelectionSet m fuel selSet seen s r s' H).
  - intros alias name selectionSet s e s' Hu H.
    pose proof (decoder_walkField_states m _ _ alias name selectionSet s s' e
                  (growing_decoder_walkSelectionSet m fuel)
                  (fun ss => growing_of_restores _ (restores_getSelectionSetFields m fuel ss))
                  H) as Hs.
    now rewrite Hu in Hs.
Qed.

Lemma decoder_walk_tracker_witness :
  (expose Example.heroDecoderEnd = expose Example.inHero
   /\ grows Example.inHero Example.heroDecoderEnd)
  /\ grows (enterSt (NField None "search") Example.inQuery) Example.searchDecoderEnd.
Proof.
  destruct (decoder_walk_tracker Example.heroMap 2) as (A & _).
  destruct (decoder_walk_tracker
              (QueryToElm.buildFragmentDefinitionMap Example.searchDoc) 2) as (_ & B).
  split.
  - apply (A Example.nameAndSpread [] Example.inHero (Example.heroDecoder, ["name"; "id"])).
    vm_compute. reflexivity.
  - apply (B None "search" (Some Example.branchesWithTypename) Example.inQuery
             Example.searchDecoder).
    + reflexivity.
    + vm_compute. reflexivity.
Defined.

(** ** The fields of a selection *)

Lemma prefix_append (a b : string) : String.prefix a (a ++ b) = true.
Proof.
  induction a as [| c a IH]; [now destruct b |].
  cbn. destruct (ascii_dec c c) as [_ | Hc]; [exact IH | contradiction].
Qed.

(** X16 ([walkField] of query-to-elm.ts and of query-to-decoder.ts): for a
    field without a selection set the two walks read the same type [t] of
    the field and leave the state as it was; the decoder is put under
    [maybe] exactly when [t] is not a non-null type, and the type of the
    record field is a [Maybe] exactly when [t] is neither a non-null type nor
    a list: the two agree on every leaf type but a nullable list, which is
    decoded under [maybe] into a field whose type is a plain [List]. *)
Theorem leaf_field_nullability (m : FragmentDefinitionMap) w w' g
    (alias : option string) (name : string) (s s1 s2 : St) (f : ElmFieldDecl) (e : ElmExpr) :
  QueryToElm.walkField w alias name None s = Ok (f, s1) ->
  QueryToDecoder.walkField m w' g alias name None s = Ok (e, s2) ->
  exists t,
    TypeInfo.getType (info (enterSt (NField alias name) s)) = Some t
    /\ fieldDeclName f = elmSafeName (fieldKey alias name)
    /\ typeToElm t false = Ok (fieldDeclType f)
    /\ isMaybeType (fieldDeclType f) = negb (isNonNullType t) && negb (isList t)
    /\ String.prefix "(maybe " (expr e) = negb (isNonNullType t)
    /\ s1 = s /\ s2 = s.
Proof.
  intros Ht Hd.
  unfold QueryToElm.walkField in Ht.
  apply bind_Ok_inv in Ht as (a & s0 & H1 & Ht). unfold enter in H1. injection H1 as <- <-.
  apply bind_Ok_inv in Ht as (t0 & s0 & H1 & Ht). unfold getType in H1. injection H1 as <- <-.
  unfold QueryToDecoder.walkField in Hd.
  apply bind_Ok_inv in Hd as (a & s0 & H1 & Hd). unfold enter in H1. injection H1 as <- <-.
  apply bind_Ok_inv in Hd as (t0 & s0 & H1 & Hd). unfold getType in H1. injection H1 as <- <-.
  revert Ht Hd. unfold enterSt. cbn [info TypeInfo.enter].
  destruct (TypeInfo.getType _) as [t |]; intros Ht Hd; [| discriminate].
  exists t. split; [reflexivity |].
  apply bind_Ok_inv in Ht as (ty & s0 & H1 & Ht). apply lift_Ok_inv in H1 as [Hty ->].
  apply bind_Ok_inv in Ht as (a & s0 & H1 & Ht). unfold leave in H1. injection H1 as <- <-.
  injection Ht as <- <-. cbn [fieldDeclName fieldDeclType].
  split; [reflexivity |]. split; [exact Hty |].
  split; [rewrite (typeToElm_isMaybe t false ty Hty); cbn [negb andb]; apply andb_comm |].
  destruct (isUnionOpt _).
  { unfold QueryToDecoder.walkUnion in Hd.
    apply bind_Ok_inv in Hd as (u & s0 & _ & Hd).
    apply bind_Ok_inv in Hd as (sels & s3 & H1 & _). discriminate. }
  apply bind_Ok_inv in Hd as (dec & s0 & H1 & Hd). apply lift_Ok_inv in H1 as [_ ->].
  apply bind_Ok_inv in Hd as (a & s0 & H1 & Hd). unfold leave in H1. injection H1 as <- <-.
  injection Hd as <- <-. cbn [expr isNonNullOpt].
  assert (Hs : forall s, MkSt (TypeInfo.Mk (TypeInfo.schema (info s)) (TypeInfo.typeStack (info s))
                                 (TypeInfo.parentTypeStack (info s))) (expose s) = s).
  { now intros [[sch ts ps] ex]. }
  repeat split; try apply Hs.
  destruct (isNonNullType t); cbn [negb]; [reflexivity |].
  apply (prefix_append "(maybe ").
Qed.

Lemma leaf_field_nullability_witness :
  exists t,
    TypeInfo.getType (info (enterSt (NField None "appearsIn") (enterSt NSelectionSet Example.inHero)))
    = Some t
    /\ fieldDeclName Sample2.appearsInField = elmSafeName (fieldKey None "appearsIn")
    /\ typeToElm t false = Ok (fieldDeclType Sample2.appearsInField)
    /\ isMaybeType (fieldDeclType Sample2.appearsInField) = negb (isNonNullType t) && negb (isList t)
    /\ String.prefix "(maybe " (expr Sample2.appearsInDecoder) = negb (isNonNullType t)
    /\ enterSt NSelectionSet Example.inHero = enterSt NSelectionSet Example.inHero
    /\ enterSt NSelectionSet Example.inHero = enterSt NSelectionSet Example.inHero.
Proof.
  apply (leaf_field_nullability Example.heroMap
           (QueryToElm.walkSelectionSet Example.heroMap 2)
           (QueryToDecoder.walkSelectionSet Example.heroMap 2)
           (QueryToDecoder.getSelectionSetFields Example.heroMap 2)
           None "appearsIn" (enterSt NSelectionSet Example.inHero)).
  - vm_compute. reflexivity.
  - vm_compute. reflexivity.
Defined.

Lemma walkField_unknown w (alias : option string) (name : string) (s : St) :
  TypeInfo.getType (info (enterSt (NField alias name) s)) = None ->
  QueryToElm.walkField w alias name None s
  = Throw (JsError ("Unknown GraphQL field: " ++ name)).
Proof.
  intros H. unfold QueryToElm.walkField, bind, enter, getType. cbv beta iota.
  unfold enterSt in H. rewrite H. reflexivity.
Qed.

(** X17 ([walkField] of query-to-elm.ts): a field without a selection set
    for which the type tracker finds no type stops the translation: when the
    walk of a document comes to a selection set outside a union, and the
    selections before the field are walked without failure, the translation
    of the document throws "Unknown GraphQL field" with the name of the
    field. The tracker finds a type for the fields that the type in scope
    declares, for [__typename] on a composite type, and for the
    introspection entry points [__schema] and [__type] on the query type. *)
Theorem unknown_field_fails
    (uri : string) (doc : Document) (schema : GraphQLSchema) (verb : string)
    (errorSpec : bool) (print : Definition_ -> string) (fuel : nat)
    (defsBefore defsAfter : list Definition_) (def : Definition_)
    (seen : QueryToElm.Seen) (s1 : St) (root : SelectionSet) (s2 : St)
    (f : nat) (selSet : SelectionSet) (s : St)
    (before after : list Selection) (alias : option string) (name : string)
    (acc : list ElmFieldDecl * list string) (s3 : St) :
  doc = defsBefore ++ def :: defsAfter ->
  definitionsLoop uri doc schema verb errorSpec print fuel defsBefore = Ok (seen, s1) ->
  bodyOf def s1 = Some (root, s2) ->
  Reaches (QueryToElm.buildFragmentDefinitionMap doc) fuel root s2 (S f) selSet s ->
  scopeIsUnion s = false ->
  selSet = before ++ Field alias name None :: after ->
  foldM (QueryToElm.walkSelection
           (QueryToElm.walkSelectionSet (QueryToElm.buildFragmentDefinitionMap doc) f))
    ([], []) before (enterSt NSelectionSet s) = Ok (acc, s3) ->
  fieldTypeInScope s name = None ->
  QueryToElm.translateQuery uri doc schema verb errorSpec print fuel
  = Throw (JsError ("Unknown GraphQL field: " ++ name)).
Proof.
  intros Hdoc Hloop Hbody Hreach Hscope Hsel Hbefore Hfield.
  eapply translateQuery_Throw; [exact Hdoc | exact Hloop |].
  eapply walkDefinition_Throw; [exact Hbody |].
  eapply Reaches_Throw; [exact Hreach |].
  rewrite (walkSelectionSet_plain _ _ _ _ Hscope), Hsel.
  apply bind_Throw. eapply foldM_Throw; [exact Hbefore |].
  assert (Hs3 : s3 = enterSt NSelectionSet s).
  { revert Hbefore. apply restores_foldM. intros [fields spreads] sel.
    unfold QueryToElm.walkSelection, QueryToElm.walkField.
    pose proof (restores_walkSelectionSet (QueryToElm.buildFragmentDefinitionMap doc) f) as Hw.
    restore. }
  subst s3. destruct acc as [fields spreads].
  unfold QueryToElm.walkSelection. apply bind_Throw.
  apply walkField_unknown. exact Hfield.
Qed.

Lemma unknown_field_fails_witness :
  QueryToElm.translateQuery "http://localhost/graphql" Sample2.unknownDoc Example.schema
    "GET" false Example.print 3
  = Throw (JsError "Unknown GraphQL field: nickname")
  /\ (exists r, QueryToElm.translateQuery "http://localhost/graphql" Sample2.metaDoc
                  Example.schema "GET" false Example.print 4 = Ok r).
Proof.
  split; [| vm_compute; eexists; reflexivity].
  apply (unknown_field_fails "http://localhost/graphql" Sample2.unknownDoc
           Example.schema "GET" false Example.print 3
           [] [] (OperationDef Sample2.unknownOp)
           (seen0 "http://localhost/graphql") (start Example.schema)
           (opSelectionSet Sample2.unknownOp)
           (enterSt (NOperationDefinition Sample2.unknownOp) (start Example.schema))
           1 [Field None "name" None; Field None "nickname" None]
           (enterSt (NField None "hero")
              (enterSt NSelectionSet
                 (enterSt (NOperationDefinition Sample2.unknownOp) (start Example.schema))))
           [Field None "name" None] [] None "nickname"
           ([MkElmFieldDecl "name" (ElmTypeApp "Maybe" [ElmTypeName "String"])], [])
           (enterSt NSelectionSet
              (enterSt (NField None "hero")
                 (enterSt NSelectionSet
                    (enterSt (NOperationDefinition Sample2.unknownOp) (start Example.schema)))))).
  - reflexivity.
  - reflexivity.
  - reflexivity.
  - eapply Reaches_field with (before := []) (alias := None) (name := "hero") (after := []).
    + reflexivity.
    + reflexivity.
    + reflexivity.
    + apply Reaches_here.
  - reflexivity.
  - reflexivity.
  - vm_compute. reflexivity.
  - reflexivity.
Defined.

(** ** The definitions of a document *)

Lemma grows_leave (n : Node) (s : St) : n <> NSelectionSet -> grows (leaveSt n s) s.
Proof.
  destruct s as [[sch ts ps] e]. intros Hn.
  destruct n; try contradiction; repeat split; cbn;
    first [now exists [] | destruct ts as [| x ts]; [now exists [] | now exists [x]]].
Qed.

Lemma leavesGrowing_ret {A} (n : Node) (a : A) : n <> NSelectionSet -> leavesGrowing n (ret a).
Proof.
  intros Hn s r s' H. injection H as _ <-. exists s. split; [apply grows_refl |].
  now apply grows_leave.
Qed.

Lemma growing_decoderForQuery (schema : GraphQLSchema) (m : FragmentDefinitionMap)
    (fuel : nat) (def : OperationDefinition) :
  growing (QueryToDecoder.decoderForQuery schema m fuel def).
Proof.
  unfold QueryToDecoder.decoderForQuery, QueryToDecoder.walkOperationDefinition.
  pose proof (growing_decoder_walkSelectionSet m fuel) as Hw.
  apply growing_bracket.
  destruct (operation def); [grow | grow | apply leavesGrowing_ret; discriminate].
Qed.

Lemma growing_walkOperationDefinition (doc : Document) (schema : GraphQLSchema)
    (verb : string) (errorSpec : bool) (print : Definition_ -> string)
    (m : FragmentDefinitionMap) (fuel : nat) (def : OperationDefinition) :
  growing (QueryToElm.walkOperationDefinition doc schema verb errorSpec print m fuel def).
Proof.
  unfold QueryToElm.walkOperationDefinition.
  pose proof (fun ss => growing_of_restores _ (restores_walkSelectionSet m fuel ss)) as Hw.
  pose proof (growing_decoderForQuery schema m fuel def) as Hd.
  apply growing_bracket.
  apply leavesGrowing_later; [grow | intros rootType].
  destruct rootType as [rootType |]; [| destruct (opName def); apply leavesGrowing_throw].
  destruct (operation def); [| | apply leavesGrowing_ret; discriminate].
  - grow.
  - grow.
Qed.

Lemma growing_walkDefinition (doc : Document) (schema : GraphQLSchema)
    (verb : string) (errorSpec : bool) (print : Definition_ -> string)
    (m : FragmentDefinitionMap) (fuel : nat) (acc : QueryToElm.Seen) (def : Definition_) :
  growing (QueryToElm.walkDefinition doc schema verb errorSpec print m fuel acc def).
Proof.
  unfold QueryToElm.walkDefinition. apply growing_bind; [| intros ?; grow].
  destruct def as [d | d].
  - apply growing_walkOperationDefinition.
  - apply growing_of_restores, restores_walkFragmentDefinition.
Qed.

(** The tracker between two definitions: it holds the schema, and no parent
    type. *)
Lemma definitionsLoop_tracker (uri : string) (doc : Document) (schema : GraphQLSchema)
    (verb : string) (errorSpec : bool) (print : Definition_ -> string) (fuel : nat)
    (defs : list Definition_) (seen : QueryToElm.Seen) (s1 : St) :
  definitionsLoop uri doc schema verb errorSpec print fuel defs = Ok (seen, s1) ->
  TypeInfo.schema (info s1) = schema /\ TypeInfo.parentTypeStack (info s1) = [].
Proof.
  intros H. unfold definitionsLoop in H.
  apply growing_foldM in H; [| intros; apply growing_walkDefinition].
  destruct H as (S & P & _). now rewrite S, P.
Qed.

(** X18 ([walkOperationDefinition] of query-to-elm.ts): an operation of a
    kind for which the schema has no root type stops the translation: when
    the definitions before it are translated, the translation of the
    document throws "GraphQL schema does not define" with the kind and the
    name of the operation. *)
Theorem undefined_operation_fails
    (uri : string) (doc : Document) (schema : GraphQLSchema) (verb : string)
    (errorSpec : bool) (print : Definition_ -> string) (fuel : nat)
    (defsBefore defsAfter : list Definition_) (def : OperationDefinition)
    (seen : QueryToElm.Seen) (s1 : St) (n : string) :
  doc = defsBefore ++ OperationDef def :: defsAfter ->
  definitionsLoop uri doc schema verb errorSpec print fuel defsBefore = Ok (seen, s1) ->
  rootTypeOf schema (operation def) = None ->
  opName def = Some n ->
  QueryToElm.translateQuery uri doc schema verb errorSpec print fuel
  = Throw (JsError ("GraphQL schema does not define " ++ operationName (operation def)
                      ++ " '" ++ n ++ "'")).
Proof.
  intros Hdoc Hloop Hroot Hname.
  eapply translateQuery_Throw; [exact Hdoc | exact Hloop |].
  destruct (definitionsLoop_tracker _ _ _ _ _ _ _ _ _ _ Hloop) as [Hschema _].
  unfold QueryToElm.walkDefinition, QueryToElm.walkOperationDefinition.
  apply bind_Throw.
  unfold bind at 1. unfold enter at 1. cbv beta iota.
  unfold bind at 1. unfold getType at 1. cbv beta iota.
  cbn [info TypeInfo.enter TypeInfo.getType TypeInfo.pushType TypeInfo.typeStack TypeInfo.top].
  rewrite Hschema. unfold rootTypeOf in Hroot. rewrite Hroot, Hname. reflexivity.
Qed.

Lemma undefined_operation_fails_witness :
  QueryToElm.translateQuery "http://localhost/graphql" Sample2.renameDoc Example.schema
    "POST" false Example.print 3
  = Throw (JsError "GraphQL schema does not define mutation 'Rename'").
Proof.
  apply (undefined_operation_fails "http://localhost/graphql" Sample2.renameDoc
           Example.schema "POST" false Example.print 3
           [FragmentDef Example.fragF] [] Sample2.renameOp
           (QueryToElm.MkSeen
              (QueryToElm.endpointUrlDecl "http://localhost/graphql"
                 :: match QueryToElm.walkFragmentDefinition
                            (QueryToElm.buildFragmentDefinitionMap Sample2.renameDoc) 3
                            Example.fragF (start Example.schema) with
                    | Ok (ds, _) => ds
                    | _ => []
                    end)
              [] [] [])
           (start Example.schema) "Rename").
  - reflexivity.
  - vm_compute. reflexivity.
  - reflexivity.
  - reflexivity.
Defined.

Lemma toLower_toUpper (c : ascii) : Js.toLowerChar (Js.toUpperChar c) = Js.toLowerChar c.
Proof.
  unfold Js.toUpperChar.
  destruct ((97 <=? nat_of_ascii c) && (nat_of_ascii c <=? 122))%nat eqn:E; [| reflexivity].
  apply andb_true_iff in E as [E1 E2]. apply Nat.leb_le in E1, E2.
  unfold Js.toLowerChar. rewrite nat_ascii_embedding by lia.
  replace ((65 <=? nat_of_ascii c - 32) && (nat_of_ascii c - 32 <=? 90))%nat with true.
  - replace ((65 <=? nat_of_ascii c) && (nat_of_ascii c <=? 90))%nat with false.
    + replace (nat_of_ascii c - 32 + 32) with (nat_of_ascii c) by lia.
      apply ascii_nat_embedding.
    + symmetry. apply andb_false_iff. right. apply Nat.leb_gt. lia.
  - symmetry. apply andb_true_iff. split; apply Nat.leb_le; lia.
Qed.

Lemma lowerFirst_upperFirst (s r : string) :
  Js.upperFirst s = Ok r -> Js.lowerFirst r = Js.lowerFirst s.
Proof.
  destruct s as [| c s]; [discriminate |]. intros H. injection H as <-.
  cbn [Js.lowerFirst]. now rewrite toLower_toUpper.
Qed.

Lemma parameterOf_names (schema : GraphQLSchema) (vds : list VariableDefinition)
    (parameters : list QueryToElm.OperationParameter) :
  omap (QueryToElm.parameterOf schema) vds = Ok parameters ->
  map QueryToElm.pName parameters = map variable vds.
Proof.
  intros H. apply omap_Forall2 in H.
  induction H as [| vd p vds ps Hp _ IH]; [reflexivity |].
  cbn [map]. rewrite IH. f_equal.
  unfold QueryToElm.parameterOf in Hp.
  destruct (typeFromAST schema (varType vd)); [| discriminate].
  apply obind_Ok_inv in Hp as (ty & _ & Hp). now injection Hp as <-.
Qed.

Lemma decoderForQuery_body (schema : GraphQLSchema) (m : FragmentDefinitionMap)
    (fuel : nat) (def : OperationDefinition) (s s' : St) (body : ElmExpr) :
  QueryToDecoder.decoderForQuery schema m fuel def s = Ok (Some body, s') ->
  exists R d, Js.upperFirst (QueryToDecoder.nameOf def) = Ok R
              /\ body = MkElmExpr ("map " ++ R ++ " " ++ d).
Proof.
  intros H.
  unfold QueryToDecoder.decoderForQuery, QueryToDecoder.walkOperationDefinition in H.
  peel H.
  destruct (operation def); [| | now inversion H];
    (peel_as H R; peel_as H x; destruct x as [e seen]; peel H; peel H;
     injection H as <- _; now exists R, (expr e)).
Qed.

(** The three declarations of a query or mutation, and the names exposed. *)
Lemma walkOperationDefinition_shape
    (doc : Document) (schema : GraphQLSchema) (verb : string) (errorSpec : bool)
    (print : Definition_ -> string) (m : FragmentDefinitionMap)
    (fuel : nat) (def : OperationDefinition) (s s' : St) (decls : list ElmDecl) :
  operation def <> subscription ->
  QueryToElm.walkOperationDefinition doc schema verb errorSpec print m fuel def s
  = Ok (decls, s') ->
  exists R F fields params queryText entries decoder,
    Js.upperFirst (QueryToDecoder.nameOf def) = Ok R
    /\ Js.lowerFirst (QueryToDecoder.nameOf def) = Ok F
    /\ decls =
       [ElmTypeAliasDecl R (ElmTypeRecord fields None) [];
        ElmFunctionDecl F params
          (ElmTypeName ("Http.Request " ++ (if errorSpec then "(Response " ++ R ++ ")" else R)))
          (MkElmExpr (QueryToElm.requestBody verb def (QueryToDecoder.nameOf def) queryText
                        (F ++ "Decoder") entries));
        ElmFunctionDecl (F ++ "Decoder") [] (ElmTypeName ("Decoder " ++ R))
          (MkElmExpr ("map " ++ R ++ " " ++ decoder))]
    /\ (variableDefinitions def = [] -> params = [])
    /\ (variableDefinitions def <> [] ->
        exists fs, params = [MkElmParameterDecl "params" (ElmTypeRecord fs None)]
                   /\ map fieldDeclName fs = map variable (variableDefinitions def))
    /\ length entries = length (variableDefinitions def)
    /\ expose s' = expose s ++ [F; R].
Proof.
  intros Hop H.
  unfold QueryToElm.walkOperationDefinition in H.
  peel H. peel H.
  destruct (TypeInfo.getType _) as [rootType |].
  2:{ destruct (opName def); discriminate. }
  destruct (operation def) eqn:Eop; [| | contradiction].
  all: peel_as H R; rename Hs into HR;
    peel_as H x; destruct x as [[fields spreads] u];
    apply keeps_walkSelectionSet in Hs; cbn [expose] in Hs;
    peel_as H parameters; rename Hs0 into Hparams;
    peel_as H F; rename Hs0 into HF;
    peel_as H qFragments;
    peel_as H D0; rename Hs1 into HD0;
    peel H;
    peel_as H entries; rename Hs1 into Hentries;
    peel_as H R'; rename Hs1 into HR';
    peel_as H decoder;
    (destruct decoder as [body |]; [| discriminate]);
    pose proof (keeps_decoderForQuery _ _ _ _ _ _ _ Hs1) as Hk; cbn [expose] in Hk;
    destruct (decoderForQuery_body _ _ _ _ _ _ _ Hs1) as (R0 & d & HR0 & ->);
    rewrite HR in HR0; injection HR0 as <-;
    peel H; injection H as <- <-;
    rewrite (lowerFirst_upperFirst _ _ HR), HF in HD0; injection HD0 as <-;
    rewrite (upperFirst_idem _ _ HR) in HR'; injection HR' as <-;
    exists R, F, fields;
    eexists; eexists; exists entries, d;
    (split; [exact HR |]); (split; [exact HF |]); (split; [reflexivity |]);
    pose proof (parameterOf_names _ _ _ Hparams) as Hnames;
    (split; [| split; [| split]]);
    [ intros Hv; rewrite Hv in Hparams; now injection Hparams as <-
    | intros Hv; destruct parameters as [| p ps];
      [ destruct (variableDefinitions def); [contradiction | discriminate]
      | eexists; split; [reflexivity |]; rewrite map_map; exact Hnames ]
    | rewrite (omap_length _ _ _ Hentries), <- (length_map QueryToElm.pName), Hnames;
      apply length_map
    | cbn [expose]; now rewrite Hk, Hs ].
Qed.

(** X19 ([walkOperationDefinition] of query-to-elm.ts): a query or a
    mutation yields three declarations whose names come from the name [n]
    of the operation (AnonymousQuery when it has none): the alias of the
    result type, named [n] with a capital, the request function, named [n]
    with a small initial, and the decoder, named as the function with the
    suffix [Decoder]. They refer to each other by these names: the request
    function ends on the name of the decoder, and the decoder has the type
    [Decoder] of the alias and maps its constructor. The function takes the
    one parameter [params], a record with a field per variable, when the
    operation has variables and no parameter otherwise; and the two names of
    the function and of the alias are appended to the exposed names. *)
Theorem operation_declarations
    (doc : Document) (schema : GraphQLSchema) (verb : string) (errorSpec : bool)
    (print : Definition_ -> string) (m : FragmentDefinitionMap)
    (fuel : nat) (def : OperationDefinition) (s s' : St) (decls : list ElmDecl) :
  operation def <> subscription ->
  QueryToElm.walkOperationDefinition doc schema verb errorSpec print m fuel def s
  = Ok (decls, s') ->
  exists R F fields params queryText entries decoder,
    Js.upperFirst (QueryToDecoder.nameOf def) = Ok R
    /\ Js.lowerFirst (QueryToDecoder.nameOf def) = Ok F
    /\ decls =
       [ElmTypeAliasDecl R (ElmTypeRecord fields None) [];
        ElmFunctionDecl F params
          (ElmTypeName ("Http.Request " ++ (if errorSpec then "(Response " ++ R ++ ")" else R)))
          (MkElmExpr (QueryToElm.requestBody verb def (QueryToDecoder.nameOf def) queryText
                        (F ++ "Decoder") entries));
        ElmFunctionDecl (F ++ "Decoder") [] (ElmTypeName ("Decoder " ++ R))
          (MkElmExpr ("map " ++ R ++ " " ++ decoder))]
    /\ (variableDefinitions def = [] -> params = [])
    /\ (variableDefinitions def <> [] ->
        exists fs, params = [MkElmParameterDecl "params" (ElmTypeRecord fs None)]
                   /\ map fieldDeclName fs = map variable (variableDefinitions def))
    /\ length entries = length (variableDefinitions def)
    /\ expose s' = expose s ++ [F; R].
Proof. apply walkOperationDefinition_shape. Qed.

Lemma operation_declarations_witness :
  exists R F fields params queryText entries decoder,
    Js.upperFirst "heroByEpisode" = Ok R
    /\ Js.lowerFirst "heroByEpisode" = Ok F
    /\ Sample3.byEpisodeDecls =
       [ElmTypeAliasDecl R (ElmTypeRecord fields None) [];
        ElmFunctionDecl F params
          (ElmTypeName ("Http.Request " ++ ("(Response " ++ R ++ ")")))
          (MkElmExpr (QueryToElm.requestBody "GET" Sample3.byEpisodeOp "heroByEpisode" queryText
                        (F ++ "Decoder") entries));
        ElmFunctionDecl (F ++ "Decoder") [] (ElmTypeName ("Decoder " ++ R))
          (MkElmExpr ("map " ++ R ++ " " ++ decoder))]
    /\ (variableDefinitions Sample3.byEpisodeOp = [] -> params = [])
    /\ (variableDefinitions Sample3.byEpisodeOp <> [] ->
        exists fs, params = [MkElmParameterDecl "params" (ElmTypeRecord fs None)]
                   /\ map fieldDeclName fs = map variable (variableDefinitions Sample3.byEpisodeOp))
    /\ length entries = length (variableDefinitions Sample3.byEpisodeOp)
    /\ expose Sample3.byEpisodeEnd = expose Example.start ++ [F; R].
Proof.
  apply (operation_declarations [OperationDef Sample3.byEpisodeOp] Example.schema "GET" true
           Example.print [] 3 Sample3.byEpisodeOp Example.start Sample3.byEpisodeEnd
           Sample3.byEpisodeDecls).
  - discriminate.
  - vm_compute. reflexivity.
Defined.

(** X20 ([walkFragmentDefinition] of query-to-elm.ts): a fragment
    definition yields two aliases: [Name_], an extensible record type with
    the parameter [a], around which the types of the fragments that it
    spreads are applied in order, and [Name], its closure by the empty
    record; outside a union the fields of the record are the fields
    selected directly, under their sanitized response keys. Nothing is
    exposed and the tracker is left as it was. *)
Theorem fragment_declarations (m : FragmentDefinitionMap) (fuel : nat)
    (def : FragmentDefinition) (s s' : St) (decls : list ElmDecl) :
  QueryToElm.walkFragmentDefinition m fuel def s = Ok (decls, s') ->
  exists R fields spreads type,
    Js.upperFirst (fragName def) = Ok R
    /\ decls = [ElmTypeAliasDecl (R ++ "_") type ["a"];
                ElmTypeAliasDecl R (ElmTypeApp (R ++ "_") [ElmTypeRecord [] None]) []]
    /\ applySpreads spreads (ElmTypeRecord fields (Some "a")) = Ok type
    /\ (scopeIsUnion (enterSt (NFragmentDefinition def) s) = false ->
        map fieldDeclName fields = map elmSafeName (directKeys (fragSelectionSet def))
        /\ spreads = spreadNames (fragSelectionSet def))
    /\ s' = s.
Proof.
  intros H. pose proof (restores_walkFragmentDefinition m fuel def s decls s' H) as Hs'.
  unfold QueryToElm.walkFragmentDefinition in H.
  peel H. peel_as H R. rename Hs into HR.
  peel_as H x. destruct x as [[fields spreads] u].
  peel_as H type. rename Hs0 into Htype.
  peel H. injection H as <- _.
  exists R, fields, spreads, type.
  split; [exact HR |]. split; [reflexivity |]. split; [exact Htype |]. split; [| exact Hs'].
  intros Hscope.
  destruct (walkSelectionSet_record m fuel _ _ _ _ _ _ Hscope Hs) as (A & B & _). now split.
Qed.

Lemma fragment_declarations_witness :
  exists R fields spreads type,
    Js.upperFirst "withFriend" = Ok R
    /\ Sample3.withFriendDecls
       = [ElmTypeAliasDecl (R ++ "_") type ["a"];
          ElmTypeAliasDecl R (ElmTypeApp (R ++ "_") [ElmTypeRecord [] None]) []]
    /\ applySpreads spreads (ElmTypeRecord fields (Some "a")) = Ok type
    /\ (scopeIsUnion (enterSt (NFragmentDefinition Sample3.withFriend) Example.start) = false ->
        map fieldDeclName fields = map elmSafeName (directKeys (fragSelectionSet Sample3.withFriend))
        /\ spreads = spreadNames (fragSelectionSet Sample3.withFriend))
    /\ Example.start = Example.start.
Proof.
  apply (fragment_declarations Example.heroMap 3 Sample3.withFriend Example.start Example.start
           Sample3.withFriendDecls).
  vm_compute. reflexivity.
Defined.

(** ** The fragments, enums and unions seen *)

Lemma assignAll_app {V X} (key : X -> string) (val : X -> V) (xs ys : list X) (o : Js.Obj V) :
  assignAll key val (xs ++ ys) o = assignAll key val ys (assignAll key val xs o).
Proof. apply fold_left_app. Qed.

(** The loop of [collectEnumsForType] over the fields of a type. *)
Lemma collectEnumsForType_fields (fields : list (string * GraphQLType)) :
  Forall (fun f => forall seen seenTypes,
              QueryToElm.collectEnumsForType (snd f) (seen, seenTypes)
              = (assignAll enumName (fun e => e) (fst (enumsOfType (snd f) seenTypes)) seen,
                 snd (enumsOfType (snd f) seenTypes))) fields ->
  forall seen seenTypes es,
    fold_left (fun acc f => QueryToElm.collectEnumsForType (snd f) acc) fields
      (assignAll enumName (fun e => e) es seen, seenTypes)
    = (assignAll enumName (fun e => e)
         (fst (fold_left (fun acc f =>
                            let '(es, seenTypes1) := enumsOfType (snd f) (snd acc) in
                            (fst acc ++ es, seenTypes1)) fields (es, seenTypes))) seen,
       snd (fold_left (fun acc f =>
                         let '(es, seenTypes1) := enumsOfType (snd f) (snd acc) in
                         (fst acc ++ es, seenTypes1)) fields (es, seenTypes))).
Proof.
  induction 1 as [| f fields Hf _ IH]; intros seen seenTypes es; [reflexivity |].
  cbn [fold_left fst snd]. rewrite Hf.
  destruct (enumsOfType (snd f) seenTypes) as [es1 st1]. cbn [fst snd].
  rewrite <- assignAll_app. apply IH.
Qed.

Lemma collectEnumsForType_assigns (type : GraphQLType) :
  forall seen seenTypes,
    QueryToElm.collectEnumsForType type (seen, seenTypes)
    = (assignAll enumName (fun e => e) (fst (enumsOfType type seenTypes)) seen,
       snd (enumsOfType type seenTypes)).
Proof.
  induction type as [name | name values | name fields IH | name fields IH | name fields IH
                     | name types _ | ofType IH | ofType IH]
    using GraphQLType_induction; intros seen seenTypes;
    rewrite ?collectEnumsForType_Object, ?collectEnumsForType_Interface,
      ?collectEnumsForType_Input;
    try (cbn [enumsOfType]; destruct (Js.truthy seenTypes name); [reflexivity |];
         apply (collectEnumsForType_fields fields IH seen _ []));
    try reflexivity.
  - apply IH.
  - apply IH.
Qed.

Lemma collectEnums_assigns (doc : Document) (schema : GraphQLSchema) (def : Definition_)
    (enums : GraphQLEnumMap) :
  QueryToElm.collectEnums doc schema def enums
  = assignAll enumName (fun e => e) (enumsFrom (TypeInfo.new schema) (visitDocument doc)) enums.
Proof.
  unfold QueryToElm.collectEnums. generalize (TypeInfo.new schema) as i.
  revert enums. induction (visitDocument doc) as [| ev evs IH]; intros enums i; [reflexivity |].
  cbn [fold_left enumsFrom]. destruct ev as [node | node]; [| apply IH].
  rewrite IH, assignAll_app. f_equal.
  destruct node; try reflexivity.
  destruct (TypeInfo.getType _) as [type |]; [| reflexivity].
  now rewrite collectEnumsForType_assigns.
Qed.

Lemma collectUnions_assigns (doc : Document) (schema : GraphQLSchema) (def : Definition_)
    (unions : GraphQLUnionMap) :
  QueryToElm.collectUnions doc schema def unions
  = assignAll unionName (fun u => u) (unionsFrom (TypeInfo.new schema) (visitDocument doc)) unions.
Proof.
  unfold QueryToElm.collectUnions. generalize (TypeInfo.new schema) as i.
  revert unions. induction (visitDocument doc) as [| ev evs IH]; intros unions i; [reflexivity |].
  cbn [fold_left unionsFrom]. destruct ev as [node | node]; [| apply IH].
  rewrite IH, assignAll_app. f_equal.
  destruct (unwrapType (TypeInfo.getType i)) as [[] |]; reflexivity.
Qed.

Lemma collectFragments_assigns (doc : Document) (m : FragmentDefinitionMap) (def : Definition_)
    (fragments : SeenFragmentMap) :
  QueryToElm.collectFragments doc m def fragments
  = assignAll (fun name => name) (fun name => Js.read m name) (spreadsOfDocument doc) fragments.
Proof. apply collectFragments_fold. Qed.

(** Two objects with the same keys, each once, and the same value under each
    key are the same. *)
Lemma obj_ext {V} (o1 o2 : Js.Obj V) :
  NoDup (Js.keys o1) ->
  Js.keys o1 = Js.keys o2 ->
  (forall k, Js.get o1 k = Js.get o2 k) ->
  o1 = o2.
Proof.
  revert o2. induction o1 as [| [k v] o1 IH]; intros [| [k2 v2] o2] Hnd Hk Hg;
    try discriminate; [reflexivity |].
  cbn [Js.keys map fst] in Hk. injection Hk as <- Hk.
  inversion Hnd as [| ? ? Hnotin Hnd']; subst.
  assert (Hv : v = v2).
  { specialize (Hg k). cbn [Js.get] in Hg. rewrite String.eqb_refl in Hg. now injection Hg. }
  subst v2. f_equal. apply IH; [exact Hnd' | exact Hk |].
  intros k'. specialize (Hg k'). cbn [Js.get] in Hg.
  destruct (String.eqb_spec k' k) as [Heq | Hne]; [rewrite Heq; clear Hg | exact Hg].
  assert (N1 : Js.get o1 k = None).
  { destruct (Js.get o1 k) eqn:E; [| reflexivity]. exfalso. apply Hnotin.
    apply has_In. unfold Js.has. now rewrite E. }
  assert (N2 : Js.get o2 k = None).
  { destruct (Js.get o2 k) eqn:E; [| reflexivity]. exfalso. apply Hnotin.
    change (In k (map fst o1)). rewrite Hk. apply has_In. unfold Js.has. now rewrite E. }
  now rewrite N1, N2.
Qed.

Lemma NoDup_assignAll {V X} (key : X -> string) (val : X -> V) (xs : list X) (o : Js.Obj V) :
  NoDup (Js.keys o) -> NoDup (Js.keys (assignAll key val xs o)).
Proof.
  unfold assignAll. rewrite keys_fold_set. apply NoDup_dedupInto.
Qed.

Lemma dedupInto_absorbs (keys seen : list string) :
  incl keys seen -> dedupInto seen keys = seen.
Proof.
  revert seen. induction keys as [| k keys IH]; intros seen H; [reflexivity |].
  unfold dedupInto. cbn [fold_left]. rewrite pushUnique_present by (apply H; now left).
  apply IH. intros x Hx. apply H. now right.
Qed.

(** Assigning the same values again changes nothing. *)
Lemma assignAll_idem {V X} (key : X -> string) (val : X -> V) (xs : list X) (o : Js.Obj V) :
  NoDup (Js.keys o) ->
  assignAll key val xs (assignAll key val xs o) = assignAll key val xs o.
Proof.
  intros Hnd. apply obj_ext.
  - now apply NoDup_assignAll, NoDup_assignAll.
  - unfold assignAll. rewrite !keys_fold_set. apply dedupInto_absorbs.
    intros k Hk. apply In_dedupInto. now right.
  - intros k. unfold assignAll. rewrite !get_fold_set. now destruct (find _ _).
Qed.

Lemma seen_loop (doc : Document) (schema : GraphQLSchema) (verb : string)
    (errorSpec : bool) (print : Definition_ -> string) (m : FragmentDefinitionMap)
    (fuel : nat) (defs : list Definition_) :
  forall (acc seen : QueryToElm.Seen) (s s1 : St),
    foldM (QueryToElm.walkDefinition doc schema verb errorSpec print m fuel) acc defs s
      = Ok (seen, s1) ->
    NoDup (Js.keys (QueryToElm.seenFragments acc)) ->
    NoDup (Js.keys (QueryToElm.seenEnums acc)) ->
    NoDup (Js.keys (QueryToElm.seenUnions acc)) ->
    defs <> [] ->
    QueryToElm.seenFragments seen
    = assignAll (fun name => name) (fun name => Js.read m name) (spreadsOfDocument doc)
        (QueryToElm.seenFragments acc)
    /\ QueryToElm.seenEnums seen
       = assignAll enumName (fun e => e) (enumsFrom (TypeInfo.new schema) (visitDocument doc))
           (QueryToElm.seenEnums acc)
    /\ QueryToElm.seenUnions seen
       = assignAll unionName (fun u => u) (unionsFrom (TypeInfo.new schema) (visitDocument doc))
           (QueryToElm.seenUnions acc).
Proof.
  induction defs as [| def defs IH]; intros acc seen s s1 H NF NE NU Hne; [contradiction |].
  cbn [foldM] in H. apply bind_Ok_inv in H as (acc1 & s2 & Hstep & H).
  unfold QueryToElm.walkDefinition in Hstep.
  apply bind_Ok_inv in Hstep as (ds & s3 & _ & Hstep). injection Hstep as <- <-.
  destruct defs as [| def' defs].
  - injection H as <- _. cbn [QueryToElm.seenFragments QueryToElm.seenEnums QueryToElm.seenUnions].
    now rewrite collectFragments_assigns, collectEnums_assigns, collectUnions_assigns.
  - apply IH in H; [| | | | discriminate];
      cbn [QueryToElm.seenFragments QueryToElm.seenEnums QueryToElm.seenUnions] in *;
      rewrite ?collectFragments_assigns, ?collectEnums_assigns, ?collectUnions_assigns in *;
      try now apply NoDup_assignAll.
    destruct H as (-> & -> & ->).
    now rewrite !assignAll_idem.
Qed.

Lemma definitionsLoop_seen
    (uri : string) (doc : Document) (schema : GraphQLSchema) (verb : string)
    (errorSpec : bool) (print : Definition_ -> string) (fuel : nat)
    (seen : QueryToElm.Seen) (s1 : St) (def : Definition_) :
  definitionsLoop uri doc schema verb errorSpec print fuel doc = Ok (seen, s1) ->
  QueryToElm.seenFragments seen
  = QueryToElm.collectFragments doc (QueryToElm.buildFragmentDefinitionMap doc) def []
  /\ QueryToElm.seenEnums seen = QueryToElm.collectEnums doc schema def []
  /\ QueryToElm.seenUnions seen = QueryToElm.collectUnions doc schema def [].
Proof.
  intros H. rewrite collectFragments_assigns, collectEnums_assigns, collectUnions_assigns.
  destruct doc as [| d doc'].
  - injection H as <- _. repeat split.
  - unfold definitionsLoop in H.
    apply seen_loop in H;
      [exact H | apply NoDup_nil | apply NoDup_nil | apply NoDup_nil | discriminate].
Qed.

(** X21 ([walkQueryDocument], [collectFragments], [collectEnums],
    [collectUnions]): the collections look at the whole document and not at
    the definition they are given, and collecting again adds nothing: after
    the loop over the definitions, the fragments, enums and unions seen are
    those of a single collection over the document, started from nothing. *)
Theorem seen_maps_one_pass
    (uri : string) (doc : Document) (schema : GraphQLSchema) (verb : string)
    (errorSpec : bool) (print : Definition_ -> string) (fuel : nat)
    (seen : QueryToElm.Seen) (s1 : St) (def : Definition_) :
  definitionsLoop uri doc schema verb errorSpec print fuel doc = Ok (seen, s1) ->
  QueryToElm.seenFragments seen
  = QueryToElm.collectFragments doc (QueryToElm.buildFragmentDefinitionMap doc) def []
  /\ QueryToElm.seenEnums seen = QueryToElm.collectEnums doc schema def []
  /\ QueryToElm.seenUnions seen = QueryToElm.collectUnions doc schema def [].
Proof. apply definitionsLoop_seen. Qed.

Lemma seen_maps_one_pass_witness :
  exists seen s1,
    definitionsLoop "http://localhost/graphql" Example.enumsDoc Example.schema "GET" false
      Example.print 3 Example.enumsDoc = Ok (seen, s1)
    /\ QueryToElm.seenFragments seen
       = QueryToElm.collectFragments Example.enumsDoc
           (QueryToElm.buildFragmentDefinitionMap Example.enumsDoc)
           (FragmentDef Example.fragD) []
    /\ QueryToElm.seenEnums seen
       = QueryToElm.collectEnums Example.enumsDoc Example.schema (FragmentDef Example.fragD) []
    /\ QueryToElm.seenUnions seen
       = QueryToElm.collectUnions Example.enumsDoc Example.schema (FragmentDef Example.fragD) [].
Proof.
  destruct (definitionsLoop "http://localhost/graphql" Example.enumsDoc Example.schema "GET"
              false Example.print 3 Example.enumsDoc) as [[seen s1] | |] eqn:E.
  - exists seen, s1. split; [reflexivity |].
    exact (seen_maps_one_pass _ _ _ _ _ _ _ seen s1 (FragmentDef Example.fragD) E).
  - vm_compute in E. discriminate.
  - vm_compute in E. discriminate.
Defined.

(** ** The exposed names *)

Lemma walkDefinition_expose (doc : Document) (schema : GraphQLSchema) (verb : string)
    (errorSpec : bool) (print : Definition_ -> string) (m : FragmentDefinitionMap)
    (fuel : nat) (acc acc' : QueryToElm.Seen) (def : Definition_) (s s' : St) :
  QueryToElm.walkDefinition doc schema verb errorSpec print m fuel acc def s = Ok (acc', s') ->
  exists names, exposedByDefinition def = Ok names /\ expose s' = expose s ++ names.
Proof.
  intros H. unfold QueryToElm.walkDefinition in H.
  apply bind_Ok_inv in H as (ds & s1 & Hds & H). injection H as _ <-.
  destruct def as [d | d]; cbn [exposedByDefinition].
  - destruct (operation d) eqn:Eop.
    + destruct (walkOperationDefinition_shape doc schema verb errorSpec print m fuel d s s1 ds)
        as (R & F & _ & _ & _ & _ & _ & HR & HF & _ & _ & _ & _ & He);
        [rewrite Eop; discriminate | exact Hds |].
      exists [F; R]. rewrite HF, HR. now split.
    + destruct (walkOperationDefinition_shape doc schema verb errorSpec print m fuel d s s1 ds)
        as (R & F & _ & _ & _ & _ & _ & HR & HF & _ & _ & _ & _ & He);
        [rewrite Eop; discriminate | exact Hds |].
      exists [F; R]. rewrite HF, HR. now split.
    + exists []. split; [reflexivity |]. rewrite app_nil_r.
      unfold QueryToElm.walkOperationDefinition in Hds. rewrite Eop in Hds.
      peel Hds. peel Hds. destruct (TypeInfo.getType _).
      * now injection Hds as _ <-.
      * destruct (opName d); discriminate.
  - exists []. split; [reflexivity |]. rewrite app_nil_r.
    now rewrite (restores_walkFragmentDefinition m fuel d s ds s1 Hds).
Qed.

Lemma definitions_expose (doc : Document) (schema : GraphQLSchema) (verb : string)
    (errorSpec : bool) (print : Definition_ -> string) (m : FragmentDefinitionMap)
    (fuel : nat) (defs : list Definition_) :
  forall (acc seen : QueryToElm.Seen) (s s1 : St),
    foldM (QueryToElm.walkDefinition doc schema verb errorSpec print m fuel) acc defs s
      = Ok (seen, s1) ->
    exists nss, omap exposedByDefinition defs = Ok nss /\ expose s1 = expose s ++ concat nss.
Proof.
  induction defs as [| def defs IH]; intros acc seen s s1 H.
  - injection H as _ <-. exists []. split; [reflexivity |]. cbn. now rewrite app_nil_r.
  - cbn [foldM] in H. apply bind_Ok_inv in H as (acc1 & s2 & Hstep & H).
    apply walkDefinition_expose in Hstep as (names & Hnames & He).
    apply IH in H as (nss & Hnss & He').
    exists (names :: nss). cbn [omap concat]. rewrite Hnames, Hnss. split; [reflexivity |].
    now rewrite He', He, app_assoc.
Qed.

Lemma exposeFragment_loop (names : list string) :
  forall (s s' : St) (u : unit),
    foldM (fun _ fragName => QueryToElm.exposeFragment fragName) tt names s = Ok (u, s') ->
    exists fss, omap exposedByFragment names = Ok fss /\ expose s' = expose s ++ concat fss.
Proof.
  induction names as [| name names IH]; intros s s' u H.
  - injection H as _ <-. exists []. split; [reflexivity |]. cbn. now rewrite app_nil_r.
  - cbn [foldM] in H. apply bind_Ok_inv in H as ([] & s1 & Hstep & H).
    unfold QueryToElm.exposeFragment in Hstep.
    peel Hstep. peel_as Hstep R. injection Hstep as <-.
    apply IH in H as (fss & Hfss & He). cbn [expose] in He.
    exists ([R; (R ++ "_")%string] :: fss). cbn [omap concat]. unfold exposedByFragment at 1.
    rewrite Hs0, Hfss. split; [reflexivity |]. now rewrite He, app_assoc.
Qed.

Lemma emitEnum_expose (es : list EnumT) :
  forall (decls decls' : list ElmDecl) (s s' : St),
    foldM QueryToElm.emitEnum decls es s = Ok (decls', s') ->
    expose s' = expose s ++ map (fun e => exposeAll (enumName e)) es.
Proof.
  induction es as [| e es IH]; intros decls decls' s s' H.
  - injection H as _ <-. cbn. now rewrite app_nil_r.
  - cbn [foldM] in H. apply bind_Ok_inv in H as (decls1 & s1 & Hstep & H).
    unfold QueryToElm.emitEnum in Hstep. peel Hstep. peel Hstep. peel Hstep.
    injection Hstep as _ <-. apply IH in H. cbn [expose map] in H |- *.
    now rewrite H, <- app_assoc.
Qed.

Lemma emitUnion_expose (us : GraphQLUnionMap) :
  forall (decls decls' : list ElmDecl) (s s' : St),
    foldM QueryToElm.emitUnion decls us s = Ok (decls', s') ->
    expose s' = expose s ++ map exposeAll (Js.keys us).
Proof.
  induction us as [| [name u] us IH]; intros decls decls' s s' H.
  - injection H as _ <-. cbn. now rewrite app_nil_r.
  - cbn [foldM] in H. apply bind_Ok_inv in H as (decls1 & s1 & Hstep & H).
    unfold QueryToElm.emitUnion in Hstep. peel Hstep.
    injection Hstep as _ <-. apply IH in H. cbn [expose map Js.keys fst] in H |- *.
    now rewrite H, <- app_assoc.
Qed.

(** X22 ([walkQueryDocument], [translateQuery]): the names exposed by a
    translated document are, in this order: for each query or mutation, in
    the order of the definitions, the name of its request function and the
    name of its result type; for each fragment that is spread somewhere in
    the document, in the order of the first spread, the names [Name] and
    [Name_] of its two aliases; for each enum seen, its name with all its
    constructors; for each union seen, its name with all its constructors.
    A fragment that is defined but never spread is not exposed. *)
Theorem exposed_names
    (uri : string) (doc : Document) (schema : GraphQLSchema) (verb : string)
    (errorSpec : bool) (print : Definition_ -> string) (fuel : nat)
    (decls : list ElmDecl) (exposed : list string) (def : Definition_) :
  QueryToElm.translateQuery uri doc schema verb errorSpec print fuel = Ok (decls, exposed) ->
  exists ops frags,
    omap exposedByDefinition doc = Ok ops
    /\ omap exposedByFragment (dedupInto [] (spreadsOfDocument doc)) = Ok frags
    /\ exposed
       = concat ops ++ concat frags
         ++ map exposeAll (Js.keys (QueryToElm.collectEnums doc schema def []))
         ++ map exposeAll (Js.keys (QueryToElm.collectUnions doc schema def [])).
Proof.
  intros H. unfold QueryToElm.translateQuery in H.
  destruct (QueryToElm.walkQueryDocument _ _ _ _ _ _ _ _) as [[ds s] | |] eqn:Hw;
    try discriminate.
  injection H as -> <-.
  unfold QueryToElm.walkQueryDocument in Hw.
  apply bind_Ok_inv in Hw as (seen & s1 & Hloop & Hw).
  apply bind_Ok_inv in Hw as (u & s2 & Hfrags & Hw).
  apply bind_Ok_inv in Hw as (decls1 & s3 & Henums & Hunions).
  destruct (definitionsLoop_seen uri doc schema verb errorSpec print fuel seen s1 def Hloop)
    as (SF & SE & SU).
  apply definitions_expose in Hloop as (ops & Hops & E1).
  apply exposeFragment_loop in Hfrags as (frags & Hfrags & E2).
  apply emitEnum_expose in Henums. apply emitUnion_expose in Hunions.
  rewrite SF in Hfrags. rewrite SE in Henums. rewrite SU in Hunions.
  rewrite collectFragments_assigns in Hfrags. unfold assignAll in Hfrags.
  rewrite keys_fold_set, map_id in Hfrags. cbn [Js.keys map] in Hfrags.
  exists ops, frags. split; [exact Hops |]. split; [exact Hfrags |].
  rewrite Hunions, Henums, E2, E1. cbn [expose app].
  rewrite <- !app_assoc. do 2 f_equal.
  rewrite <- map_map.
  destruct (wellKeyed_names enumName (QueryToElm.collectEnums doc schema def []))
    as [-> _]; [| reflexivity].
  apply collectEnums_wellKeyed, wellKeyed_nil.
Qed.

Lemma exposed_names_witness :
  exists ops frags,
    omap exposedByDefinition Example.enumsDoc = Ok ops
    /\ omap exposedByFragment (dedupInto [] (spreadsOfDocument Example.enumsDoc)) = Ok frags
    /\ Example.enumsExposed
       = concat ops ++ concat frags
         ++ map exposeAll (Js.keys (QueryToElm.collectEnums Example.enumsDoc Example.schema
                                      (OperationDef Example.enumsOp) []))
         ++ map exposeAll (Js.keys (QueryToElm.collectUnions Example.enumsDoc Example.schema
                                      (OperationDef Example.enumsOp) [])).
Proof.
  apply (exposed_names "http://localhost/graphql" Example.enumsDoc Example.schema "GET" false
           Example.print 3 Example.enumsDecls Example.enumsExposed
           (OperationDef Example.enumsOp)).
  vm_compute. reflexivity.
Defined.

(** ** The decoder of a fragment *)

Lemma notIn_map_inj (f : string -> string) (seen : list string) (k : string) :
  (forall x, In x seen -> f x = f k -> x = k) ->
  Js.notIn (map f seen) (f k) = Js.notIn seen k.
Proof.
  intros Hinj. destruct (Js.notIn seen k) eqn:E.
  - destruct (Js.notIn (map f seen) (f k)) eqn:E'; [reflexivity |].
    apply notIn_false in E'. apply in_map_iff in E' as (x & Hfx & Hx).
    apply notIn_spec in E. exfalso. apply E. now rewrite <- (Hinj x Hx Hfx).
  - apply notIn_false in E.
    destruct (Js.notIn (map f seen) (f k)) eqn:E'; [| reflexivity].
    apply notIn_spec in E'. exfalso. apply E'. now apply in_map.
Qed.

Lemma dedupInto_map_inj (f : string -> string) (keys : list string) :
  forall seen,
    (forall x y, In x (seen ++ keys) -> In y (seen ++ keys) -> f x = f y -> x = y) ->
    dedupInto (map f seen) (map f keys) = map f (dedupInto seen keys).
Proof.
  induction keys as [| k keys IH]; intros seen Hinj; [reflexivity |].
  unfold dedupInto. cbn [map fold_left].
  fold (dedupInto (QueryToDecoder.pushUnique (map f seen) (f k)) (map f keys)).
  fold (dedupInto (QueryToDecoder.pushUnique seen k) keys).
  assert (E : QueryToDecoder.pushUnique (map f seen) (f k)
              = map f (QueryToDecoder.pushUnique seen k)).
  { unfold QueryToDecoder.pushUnique. rewrite notIn_map_inj.
    - destruct (Js.notIn seen k); [now rewrite map_app | reflexivity].
    - intros x Hx Hfx. apply Hinj; [apply in_or_app; now left | | exact Hfx].
      apply in_or_app. right. now left. }
  rewrite E. apply IH. intros x y Hx Hy.
  apply Hinj.
  - apply in_app_or in Hx as [Hx | Hx].
    + apply In_pushUnique in Hx as [Hx | ->]; apply in_or_app; [now left | right; now left].
    + apply in_or_app. right. now right.
  - apply in_app_or in Hy as [Hy | Hy].
    + apply In_pushUnique in Hy as [Hy | ->]; apply in_or_app; [now left | right; now left].
    + apply in_or_app. right. now right.
Qed.

Lemma NoDup_map_injective (f : string -> string) (l : list string) :
  NoDup (map f l) -> forall x y, In x l -> In y l -> f x = f y -> x = y.
Proof.
  induction l as [| a l IH]; intros Hnd x y Hx Hy Hf; [contradiction |].
  cbn [map] in Hnd. inversion Hnd as [| ? ? Hnotin Hnd']; subst.
  destruct Hx as [-> | Hx], Hy as [-> | Hy]; auto.
  - exfalso. apply Hnotin. rewrite Hf. now apply in_map.
  - exfalso. apply Hnotin. rewrite <- Hf. now apply in_map.
Qed.



(** ** The type of a union *)

Lemma walkUnionSelection_keys (m : FragmentDefinitionMap) walk (sels : list Selection) :
  forall (h : bool) (typeMap : Js.Obj ElmType) (s s' : St) (h' : bool) (typeMap' : Js.Obj ElmType),
    foldM (QueryToElm.walkUnionSelection m walk) (h, typeMap) sels s = Ok ((h', typeMap'), s') ->
    Js.keys typeMap' = dedupInto (Js.keys typeMap) (branchKeys sels).
Proof.
  induction sels as [| sel sels IH]; intros h typeMap s s' h' typeMap' H.
  - now injection H as _ <- _.
  - cbn [foldM] in H. apply bind_Ok_inv in H as ([h1 typeMap1] & s1 & Hstep & H).
    apply IH in H. rewrite H. unfold branchKeys. cbn [flat_map].
    rewrite dedupInto_app. f_equal.
    unfold QueryToElm.walkUnionSelection in Hstep. destruct sel as [alias name sub | name | tc sub].
    + now injection Hstep as _ <- _.
    + peel Hstep. peel Hstep. peel_as Hstep x. destruct x as [[fields spreads] u].
      peel Hstep. peel Hstep. injection Hstep as _ <- _.
      now rewrite keys_set_pushUnique.
    + peel Hstep. peel_as Hstep x. destruct x as [[fields spreads] u].
      peel Hstep. peel Hstep. destruct tc as [tc |]; [| discriminate].
      injection Hstep as _ <- _.
      now rewrite keys_set_pushUnique.
Qed.

(** X24 ([walkUnionSelectionSet]): the type of a field of union type is the
    name of the union applied to one argument for each distinct branch of
    the selection, in the order in which the branches are first met, a
    branch being known by the type condition of its inline fragment or by
    the name of the fragment that is spread: the number of arguments is the
    number of distinct branches selected, whatever the number of members of
    the union. *)
Theorem union_type_arguments (m : FragmentDefinitionMap) walk (selSet : SelectionSet)
    (s s' : St) (type : ElmType) :
  QueryToElm.walkUnionSelectionSet m walk selSet s = Ok (type, s') ->
  exists u args,
    unwrapType (TypeInfo.getType (info s)) = Some u
    /\ type = ElmTypeApp (Js.str (typeName u)) args
    /\ length args = length (dedupInto [] (branchKeys selSet))
    /\ selectsTypename selSet = true.
Proof.
  intros H. unfold QueryToElm.walkUnionSelectionSet in H.
  peel H. peel_as H x. destruct x as [hasTypename typeMap].
  pose proof (walkUnionSelection_keys _ _ _ _ _ _ _ _ _ Hs) as Hkeys.
  pose proof (walkUnionSelection_hasTypename _ _ _ _ _ _ _ _ _ Hs) as Hh.
  cbn [orb] in Hh. cbn [Js.keys map] in Hkeys.
  destruct (unwrapType (TypeInfo.getType (info s))) as [u |]; [| discriminate].
  peel H. destruct hasTypename; [| discriminate]. injection H as <- _.
  exists u, (Js.values typeMap). split; [reflexivity |]. split; [reflexivity |].
  split; [| now symmetry].
  rewrite <- Hkeys. unfold Js.values, Js.keys. now rewrite !length_map.
Qed.

Lemma union_type_arguments_witness :
  exists u args,
    unwrapType (TypeInfo.getType
                  (info (enterSt NSelectionSet (enterSt (NField None "search") Example.inQuery))))
    = Some u
    /\ Sample4.searchType = ElmTypeApp (Js.str (typeName u)) args
    /\ length args = length (dedupInto [] (branchKeys Example.branchesWithTypename))
    /\ selectsTypename Example.branchesWithTypename = true.
Proof.
  apply (union_type_arguments (QueryToElm.buildFragmentDefinitionMap Example.searchDoc)
           (QueryToElm.walkSelectionSet (QueryToElm.buildFragmentDefinitionMap Example.searchDoc) 2)
           Example.branchesWithTypename
           (enterSt NSelectionSet (enterSt (NField None "search") Example.inQuery))
           (enterSt NSelectionSet (enterSt (NField None "search") Example.inQuery))).
  vm_compute. reflexivity.
Defined.

(** ** The enums of a type *)

Lemma collectEnumsForType_extends (type : GraphQLType) (seen : GraphQLEnumMap)
    (seenTypes : GraphQLTypeMap) :
  exists new,
    Js.keys (fst (QueryToElm.collectEnumsForType type (seen, seenTypes))) = Js.keys seen ++ new.
Proof.
  rewrite collectEnumsForType_assigns. cbn [fst]. unfold assignAll. rewrite keys_fold_set.
  destruct (dedupInto_extends (map enumName (fst (enumsOfType type seenTypes))) (Js.keys seen))
    as (new & E & _).
  now exists new.
Qed.

Lemma collectEnumsForType_keeps (type : GraphQLType) (acc : GraphQLEnumMap * GraphQLTypeMap)
    (k : string) :
  Js.has (fst acc) k = true -> Js.has (fst (QueryToElm.collectEnumsForType type acc)) k = true.
Proof.
  destruct acc as [seen seenTypes]. cbn [fst]. intros H.
  destruct (collectEnumsForType_extends type seen seenTypes) as [new E].
  apply has_In. rewrite E. apply in_or_app. left. now apply has_In.
Qed.

Lemma collectEnumsForType_named (type : GraphQLType) :
  forall acc name values,
    TypeInfo.getNamedType type = GraphQLEnumType name values ->
    Js.has (fst (QueryToElm.collectEnumsForType type acc)) name = true.
Proof.
  induction type as [n | n vs | n fields _ | n fields _ | n fields _
                     | n types _ | ofType IH | ofType IH]
    using GraphQLType_induction; intros [seen seenTypes] name values H;
    try discriminate.
  - injection H as -> ->. cbn [QueryToElm.collectEnumsForType fst].
    rewrite has_set, String.eqb_refl. reflexivity.
  - exact (IH (seen, seenTypes) name values H).
  - exact (IH (seen, seenTypes) name values H).
Qed.

(** X25 ([collectEnumsForType]): the collection of the enums of a type
    keeps the enums seen before, in their order, and adds the new ones after
    them; given an object, interface or input object type under whose name
    the types met before hold nothing, neither a type met before nor a
    member inherited from [Object.prototype], it records the enum of every
    field of the type whose type is an enum, or a list or non-null wrapping
    of one: all the fields that the type declares, not only those that the
    query selects. The enum is not named [__proto__]. *)
Theorem collectEnumsForType_fields_enums (type : GraphQLType)
    (fields : list (string * GraphQLType)) (seen : GraphQLEnumMap) (seenTypes : GraphQLTypeMap) :
  (exists new,
      Js.keys (fst (QueryToElm.collectEnumsForType type (seen, seenTypes)))
      = Js.keys seen ++ new)
  /\ (forall typeName_,
      fieldsOf type = Some fields ->
      typeName type = Some typeName_ ->
      Js.truthy seenTypes typeName_ = false ->
      forall fieldName fieldType name values,
        In (fieldName, fieldType) fields ->
        TypeInfo.getNamedType fieldType = GraphQLEnumType name values ->
        name <> "__proto__" ->
        Js.has (fst (QueryToElm.collectEnumsForType type (seen, seenTypes))) name = true).
Proof.
  split; [apply collectEnumsForType_extends |].
  intros typeName_ Hf Hn Hguard fieldName fieldType name values Hin Hnamed _.
  assert (Loop : forall (fs : list (string * GraphQLType)) acc,
             In (fieldName, fieldType) fs ->
             Js.has (fst (fold_left (fun acc f => QueryToElm.collectEnumsForType (snd f) acc)
                            fs acc)) name = true).
  { assert (Keep : forall (fs : list (string * GraphQLType)) acc,
               Js.has (fst acc) name = true ->
               Js.has (fst (fold_left (fun acc f => QueryToElm.collectEnumsForType (snd f) acc)
                              fs acc)) name = true).
    { induction fs as [| f fs IH]; intros acc H; [exact H |].
      cbn [fold_left]. apply IH. now apply collectEnumsForType_keeps. }
    induction fs as [| f fs IH]; intros acc Hfs; [contradiction |].
    destruct Hfs as [-> | H]; cbn [fold_left].
    - apply Keep. cbn [snd]. now apply (collectEnumsForType_named fieldType acc name values).
    - now apply IH. }
  destruct type; try discriminate; injection Hf as ->; injection Hn as ->;
    rewrite ?collectEnumsForType_Object, ?collectEnumsForType_Interface,
      ?collectEnumsForType_Input;
    rewrite Hguard; now apply Loop.
Qed.

Lemma collectEnumsForType_fields_enums_witness :
  Js.has (fst (QueryToElm.collectEnumsForType Example.Character ([], []))) "Side" = true.
Proof.
  destruct (collectEnumsForType_fields_enums Example.Character
              [("id", GraphQLNonNull Example.ID); ("name", Example.Str);
               ("friends", GraphQLList (GraphQLNonNull Example.Friend));
               ("appearsIn", GraphQLList Example.Episode);
               ("favorite", Example.Episode);
               ("side", Example.Side)] [] []) as [_ H].
  apply (H "Character" eq_refl eq_refl eq_refl "side" Example.Side "Side" ["LIGHT"; "DARK"]).
  - cbn. tauto.
  - reflexivity.
  - discriminate.
Defined.

(** X26 ([walkField] of query-to-elm.ts and of query-to-decoder.ts): for a
    field with a selection set whose type is not a union, the two walks wrap
    alike: the type of the record field is a [List] when the type of the
    field, its non-null wrapper removed, is a list, under a [Maybe] when the
    type of the field is not a non-null type, and the decoder is a [list]
    and a [maybe] under the same two conditions. *)
Theorem nested_field_wrappers_agree (m : FragmentDefinitionMap) w w' g
    (alias : option string) (name : string) (selSet : SelectionSet)
    (s s1 s2 : St) (f : ElmFieldDecl) (e : ElmExpr) :
  scopeIsUnion (enterSt (NField alias name) s) = false ->
  QueryToElm.walkField w alias name (Some selSet) s = Ok (f, s1) ->
  QueryToDecoder.walkField m w' g alias name (Some selSet) s = Ok (e, s2) ->
  exists isMaybe isList inner body,
    isMaybe = negb (isNonNullOpt (TypeInfo.getType (info (enterSt (NField alias name) s))))
    /\ isList = isListOpt (unwrapNonNull
                             (TypeInfo.getType (info (enterSt (NField alias name) s))))
    /\ f = MkElmFieldDecl (elmSafeName (fieldKey alias name)) (wrapListMaybe isMaybe isList inner)
    /\ expr e = ("(field " ++ dq ++ fieldKey alias name ++ dq ++ " " ++ nl ++ "        "
                 ++ wrapListMaybeDecoder isMaybe isList ("(map " ++ body ++ "))"))%string.
Proof.
  intros Hu Ht Hd.
  unfold QueryToElm.walkField in Ht.
  apply bind_Ok_inv in Ht as (a & s0 & H1 & Ht). unfold enter in H1. injection H1 as <- <-.
  apply bind_Ok_inv in Ht as (t0 & s0 & H1 & Ht). unfold getType in H1. injection H1 as <- <-.
  unfold QueryToDecoder.walkField in Hd.
  apply bind_Ok_inv in Hd as (a & s0 & H1 & Hd). unfold enter in H1. injection H1 as <- <-.
  apply bind_Ok_inv in Hd as (t0 & s0 & H1 & Hd). unfold getType in H1. injection H1 as <- <-.
  revert Hu Ht Hd. unfold scopeIsUnion, unwrapType, enterSt. cbn [info TypeInfo.enter].
  generalize (TypeInfo.getType
                (TypeInfo.pushType (info s)
                   match TypeInfo.getParentType (info s) with
                   | Some parentType => TypeInfo.getFieldDef (TypeInfo.schema (info s)) parentType name
                   | None => None
                   end)).
  intros t Hu Ht Hd. rewrite Hu in Hd.
  apply bind_Ok_inv in Ht as ([[fields spreads] u] & s0 & _ & Ht).
  apply bind_Ok_inv in Ht as (type1 & s3 & _ & Ht).
  apply bind_Ok_inv in Ht as (a1 & s4 & _ & Ht). injection Ht as <- _.
  apply bind_Ok_inv in Hd as ([fs seen] & s5 & _ & Hd).
  apply bind_Ok_inv in Hd as (a2 & s6 & _ & Hd).
  apply bind_Ok_inv in Hd as (fieldNames & s7 & _ & Hd).
  unfold ret in Hd.
  apply (f_equal (fun r => match r with Ok (e, _) => expr e | _ => EmptyString end)) in Hd.
  cbv beta iota in Hd. cbn [expr] in Hd. rewrite <- Hd. clear Hd.
  exists (negb (isNonNullOpt t)), (isListOpt (unwrapNonNull t)), type1,
    (recordShape fieldNames ++ " " ++ expr fs)%string.
  split; [reflexivity |]. split; [reflexivity |]. split; [reflexivity |].
  unfold wrapListMaybeDecoder.
  destruct (negb (isNonNullOpt t)), (isListOpt (unwrapNonNull t));
    try change (String.length "list " =? 0)%nat with false;
    try change (String.length EmptyString =? 0)%nat with true;
    cbv iota; rewrite !append_assoc; reflexivity.
Qed.

Lemma nested_field_wrappers_agree_witness :
  exists isMaybe isList inner body,
    isMaybe = negb (isNonNullOpt (TypeInfo.getType
                (info (enterSt (NField None "friends") (enterSt NSelectionSet Example.inHero)))))
    /\ isList = isListOpt (unwrapNonNull (TypeInfo.getType
                  (info (enterSt (NField None "friends") (enterSt NSelectionSet Example.inHero)))))
    /\ Sample5.friendsField
       = MkElmFieldDecl (elmSafeName (fieldKey None "friends")) (wrapListMaybe isMaybe isList inner)
    /\ expr Sample5.friendsDecoder
       = ("(field " ++ dq ++ fieldKey None "friends" ++ dq ++ " " ++ nl ++ "        "
          ++ wrapListMaybeDecoder isMaybe isList ("(map " ++ body ++ "))"))%string.
Proof.
  apply (nested_field_wrappers_agree Example.heroMap
           (QueryToElm.walkSelectionSet Example.heroMap 2)
           (QueryToDecoder.walkSelectionSet Example.heroMap 2)
           (QueryToDecoder.getSelectionSetFields Example.heroMap 2)
           None "friends" [Field None "name" None] (enterSt NSelectionSet Example.inHero)
           (enterSt NSelectionSet Example.inHero) (enterSt NSelectionSet Example.inHero)).
  - reflexivity.
  - vm_compute. reflexivity.
  - vm_compute. reflexivity.
Defined.
